(* ===== verification/_CoqProject ===== *)
-Q . S2P
Prelude.v
CoreTypes.v
OrderedMap.v
Text.v
BookTypes.v
BookSpec.v
TaggedOrders.v
Book.v
BookRefinement.v
BookValidation.v
BookStreams.v
BookCompleteness.v
PooledBook.v
NodePool.v
PooledRefinement.v
PooledLaws.v
PooledValidation.v
BookHistory.v
BookProperties.v
SpscRingBuffer.v
SpscConcurrent.v
SpscProperties.v
CsvParser.v
CsvLaws.v
CsvProperties.v
Double.v
AnomalyDetector.v
AnomalyLaws.v
AnomalyReference.v
AnomalyProperties.v
ReplayEngine.v
ReplayLaws.v
Checksum.v
ReplayProperties.v
Cli.v
CliProperties.v
QueuedReplay.v
QueuedLaws.v
QueuedProperties.v
Benchmarks.v
BenchmarkLaws.v
BenchmarkProperties.v
UnitTests.v
