(* ===== verification/Prelude.v ===== *)
(** * Datagine: a verified model of the market-data engine

    Datagine (C++20, [src/]) rebuilds a limit order book from a CSV feed of
    market events.  A feed parser turns rows into events; an order book applies
    them under price-time priority; a replay engine drives the two, validates
    the book after every event, logs what it rejects, optionally scores the
    events for anomalies, and hashes the final book; a command line tool prints
    the outcome.  A second book with a preallocated node pool, and a lock-free
    ring buffer that hands events from one thread to another, are the low
    latency variants of these parts.

    A benchmark program measures them, alone and composed.

    This library models every one of these parts as executable definitions and
    proves what makes them correct.  It is read bottom up in the order of the
    project file.

    ** Parts and files

    - [Prelude] (this file): [Exec], a result or undefined behaviour; vectors
      with checked indices; 64-bit arithmetic; lemmas on lists.
    - [CoreTypes]: [core/types.hpp], [core/market_event.hpp] and [.cpp].
    - [OrderedMap]: [std::map] as the sources use it, an association list
      sorted by its comparator.  [Text]: [std::string], what [operator<<]
      prints and what [std::from_chars] reads.  [Double]: the IEEE 754 binary64
      operations, on Rocq's specification floats.
    - [BookTypes]: the result codes and views both books share.
    - [BookSpec]: the abstract book, a list of live orders in arrival order, the
      reference behaviour of every operation, and the interface: the class
      [OrderBook] of public operations and [OrderBookLaws], the contract an
      implementation discharges.  All clients are proved against the contract.
    - [TaggedOrders]: live orders paired with the place an implementation keeps
      them at; what updating one queue does to all levels.
    - [Book] (Module [LimitOrderBook]): [book/limit_order_book.hpp] and [.cpp].
      A list iterator is the address of its node, an invalidated one is
      undefined behaviour.  [BookRefinement], [BookValidation] and
      [BookCompleteness] prove the contract and the invariant checker.
    - [PooledBook] (Module [PooledLimitOrderBook]):
      [book/pooled_limit_order_book.hpp] and [.cpp], with the node vector, the
      free list and the queues linked through indices.  [NodePool]: linked
      segments.  [PooledRefinement], [PooledLaws], [PooledValidation]: the
      contract.
    - [BookStreams]: what a stream of events does to the abstract book.
      [BookHistory]: the resting orders read off the stream itself, without any
      book.  [BookProperties]: the properties of both books.
    - [SpscRingBuffer]: [queue/spsc_ring_buffer.hpp] as a sequential object.
      [SpscConcurrent]: the same calls of a producer and a consumer thread as a
      step relation whose steps are the accesses to shared memory, under
      release/acquire; racing accesses to a slot are undefined behaviour.
      [SpscProperties]: both.
    - [CsvParser], [CsvLaws], [CsvProperties]: [feed/csv_parser.hpp], [.cpp].
    - [AnomalyDetector] (Modules [FeatureExtractor], [EwmaZScoreDetector],
      [AnomalyMonitor]), [AnomalyLaws], [AnomalyProperties]:
      [anomaly/anomaly_detector.hpp] and [.cpp].  [AnomalyReference]: which
      anomalies a stream calls for, stated from the history of each feature.
    - [ReplayEngine], [ReplayLaws], [Checksum], [ReplayProperties]:
      [replay/replay_engine.hpp] and [.cpp].
    - [Cli], [CliProperties]: [tools/datagine_replay.cpp].
    - [QueuedReplay], [QueuedLaws], [QueuedProperties]: the two-threaded replay
      through the ring of [bench/datagine_benchmarks.cpp], a book and the
      concurrent ring composed into one step relation.
    - [Benchmarks], [BenchmarkLaws], [BenchmarkProperties]: the rest of that
      file, the generators of events and of the CSV fixture and the body of
      each benchmark.
    - [UnitTests]: the programs of [tests/] as values; [unit_tests_pass]
      evaluates them on the model, [threaded_smoke_test_passes] proves the one
      with two threads for every interleaving.

    A C++ class is a record of its members under their own names; a member
    function is a function of the same name that takes the record last and
    returns the new one.  Functions that only read return no new state.  The
    result code of an operation and the book after it are the pair it returns.

    ** What is shown

    - Books.  Both refine the abstract book on every stream of events, without
      undefined behaviour, for every observer; they agree as long as the pool
      suffices, and the pooled one answers [CapacityExceeded] exactly when it is
      full.  First in first out, conservation of units, well-formed snapshots,
      depth as a prefix of the snapshot, event counting, no leaked node, [clear]
      as good as new; and an order rests, with the quantity it has, exactly if
      the history of applied events leaves it.  The invariant checker
      accepts exactly the states that hold some list of live orders and are not
      crossed (unless allowed).
    - Ring buffer.  Sequentially a bounded FIFO across the wrap-around of its
      64-bit sequences.  Concurrently, in every interleaving and for every value
      an acquire load may return: no data race, nothing lost, repeated or
      reordered, both calls wait-free, and a call that runs alone does what a
      bounded queue of the events in flight does.  The size either thread reads is at most the capacity; a third
      thread may read 2^64 - 1.
    - Feed.  A row is an event exactly if it follows the schema, the message
      names the first thing wrong, every line is delivered once and the loop
      ends, formatting then parsing is the identity.
    - Anomalies.  The windows hold exactly the recent events, nothing is
      reported during warm-up or for a constant feature, and the reports are
      exactly those of the reference.  Time stamps 2^63 nanoseconds or more
      apart can overflow ([timestamp_overflow]) and the imbalance can wrap ([imbalance_wraps]).
    - Replay.  The loop ends for every file.  With anomaly detection off, or
      any two time stamps less than 2^63 nanoseconds apart, the result accounts
      for every row; it stops early exactly at a crossed book; it depends on nothing but
      the file and the options; the checksum is FNV-1a of an injective encoding
      and detects every change of one byte.
    - Queued replay.  In every interleaving of the two threads, with stale
      loads and any number of earlier iterations, the replay through the ring is
      free of races and leaves the book of the direct replay; from every state
      it can finish in a known number of turns, and failed attempts are all that
      can delay it.
    - Benchmarks.  No iteration is skipped with an error: the generated streams
      stay within their integer types and are applied entirely by every book and
      replay they are given to, and the fixture is read back as its rows.
    - Command line.  The exit code and diagnostics for every command line and
      file (with [--anomaly-report], under the same condition on the time
      stamps), and the five reasons the report shows.

    ** Bounds and fuel

    Unsigned 64-bit values wrap ([wrap64], [add64], [sub64], [mul64]); signed
    subtraction out of range is undefined behaviour ([sub_i64]).  Loops without
    a structural argument take fuel.  [split_loop] gets one unit per character
    and one more; [walk] and [validate_walk] one per node of the pool and one
    more, which is enough because a reachable queue repeats no node (running
    out is [UB], and snapshots and the checker are proved to return);
    [replay_loop] and [parse_apply_loop] get one call of [next] per character of
    the file and one more, and are proved never to run out.  The benchmarks' bounds (fewer than 2^63 / 3
    cycles and the like) hold for the registered arguments with room to spare
    ([registered_arguments_fit]).

    ** What is not modelled

    Allocation failure and exceptions other than the ring's constructor; read
    errors after a file has opened; the amortised cost of containers; hash map
    iteration order (no result depends on it); contraction of floating-point
    operations and extended precision; the non-atomic weak behaviours that the
    absence of races rules out; the undefined comparison of iterators of
    different lists in [validate_invariants], which no reachable book makes.
    Of the benchmarks, timing, counters and the number of iterations, which are
    Google Benchmark's and the clock's; a fixture that cannot be written.
    Build files. *)
From stdpp Require Export base tactics numbers list sorting gmap fin_maps strings sets.
From Stdlib Require Export ZArith Lia.

#[global] Set Default Goal Selector "!".

(** ** Execution outcomes

    A C++ operation either returns or runs into undefined behaviour: a null
    or past-the-end dereference, an index out of range, an invalidated list
    iterator, a signed overflow.  [UB] is that outcome; a theorem that an
    operation returns [Ret] is a memory-safety theorem. *)
Inductive Exec (A : Type) : Type :=
| Ret (a : A)
| UB.
Arguments Ret {A} _.
Arguments UB {A}.

#[global] Instance Exec_ret : MRet Exec := @Ret.
#[global] Instance Exec_bind : MBind Exec := λ A B f m,
  match m with Ret a => f a | UB => UB end.

(** Dereferencing a pointer or an iterator that may be null / past the end. *)
Definition deref {A} (o : option A) : Exec A :=
  match o with Some a => Ret a | None => UB end.

(** Indexing a [std::vector] with [operator[]]: out of range is undefined. *)
Definition vec_at {A} (l : list A) (i : Z) : Exec A :=
  if bool_decide (0 ≤ i < Z.of_nat (length l))%Z then deref (l !! Z.to_nat i) else UB.

Definition vec_set {A} (l : list A) (i : Z) (x : A) : Exec (list A) :=
  if bool_decide (0 ≤ i < Z.of_nat (length l))%Z then Ret (<[Z.to_nat i := x]> l) else UB.

(** ** Machine integers

    A [std::uint64_t] / [std::size_t] is a [Z] in [0, 2^64), an [std::int64_t]
    a [Z] in [-2^63, 2^63).  Unsigned arithmetic wraps; signed arithmetic that
    leaves its range is undefined behaviour. *)
Definition two64 : Z := 18446744073709551616.
Definition two63 : Z := 9223372036854775808.
Definition is_u64 (z : Z) : Prop := (0 ≤ z < two64)%Z.
Definition is_i64 (z : Z) : Prop := (- two63 ≤ z < two63)%Z.
Definition wrap64 (z : Z) : Z := (z mod two64)%Z.
Definition add64 (a b : Z) : Z := wrap64 (a + b).
Definition sub64 (a b : Z) : Z := wrap64 (a - b).
Definition mul64 (a b : Z) : Z := wrap64 (a * b).
Definition sub_i64 (a b : Z) : Exec Z :=
  if bool_decide (- two63 ≤ a - b < two63)%Z then Ret (a - b)%Z else UB.

(** ** Machine-integer lemmas *)

Lemma wrap64_small z : is_u64 z → wrap64 z = z.
Proof. apply Z.mod_small. Qed.

Lemma wrap64_range z : is_u64 (wrap64 z).
Proof. by apply Z.mod_pos_bound. Qed.

Lemma wrap64_add_l a b : wrap64 (wrap64 a + b) = wrap64 (a + b).
Proof. apply Zplus_mod_idemp_l. Qed.

Lemma wrap64_add_r a b : wrap64 (a + wrap64 b) = wrap64 (a + b).
Proof. apply Zplus_mod_idemp_r. Qed.

Lemma wrap64_sub_l a b : wrap64 (wrap64 a - b) = wrap64 (a - b).
Proof. apply Zminus_mod_idemp_l. Qed.

Lemma sub64_small a b : (0 ≤ b ≤ a)%Z → is_u64 a → sub64 a b = (a - b)%Z.
Proof. intros ? [??]. apply wrap64_small. split; lia. Qed.

(** Two sequence numbers less than [cap] apart share a slot only if equal. *)
Lemma mod_window_inj cap a b :
  (0 < cap)%Z → (a mod cap = b mod cap)%Z → (a ≤ b < a + cap)%Z → a = b.
Proof.
  intros Hc Heq Hab. assert ((b - a) mod cap = 0)%Z as Hz.
  { rewrite Zminus_mod, Heq, Z.sub_diag. by apply Z.mod_0_l; lia. }
  rewrite Z.mod_small in Hz by lia. lia.
Qed.

Create HintDb machine.
Create Rewrite HintDb machine.
#[export] Hint Resolve wrap64_range : machine.
#[export] Hint Rewrite wrap64_add_l wrap64_add_r wrap64_sub_l : machine.

(** ** Lists *)

(** Filtering commutes with a projection the predicate factors through. *)
Lemma filter_fmap {A B} (f : A → B) (P : B → Prop) `{!∀ x, Decision (P x)} (l : list A) :
  f <$> filter (λ x, P (f x)) l = filter P (f <$> l).
Proof.
  induction l as [|x l IH]; [done|]. rewrite fmap_cons, !filter_cons.
  destruct (decide (P (f x))); [|done]. by rewrite fmap_cons, IH.
Qed.

Lemma filter_ext {A} (P Q : A → Prop) `{!∀ x, Decision (P x), !∀ x, Decision (Q x)} (l : list A) :
  (∀ x, x ∈ l → P x ↔ Q x) → filter P l = filter Q l.
Proof.
  induction l as [|x l IH]; intros HPQ; [done|]. rewrite !filter_cons.
  rewrite IH by (intros; apply HPQ; by right).
  pose proof (HPQ x (list_elem_of_here _ _)) as Hx.
  destruct (decide (P x)), (decide (Q x)); tauto.
Qed.

Lemma filter_all {A} (P : A → Prop) `{!∀ x, Decision (P x)} (l : list A) :
  Forall P l → filter P l = l.
Proof. induction 1; [done|]. rewrite filter_cons. by destruct (decide _); [f_equal|]. Qed.

Lemma filter_none {A} (P : A → Prop) `{!∀ x, Decision (P x)} (l : list A) :
  Forall (λ x, ¬ P x) l → filter P l = [].
Proof. induction 1; [done|]. rewrite filter_cons. by destruct (decide _). Qed.

Lemma filter_comm {A} (P Q : A → Prop) `{!∀ x, Decision (P x), !∀ x, Decision (Q x)} (l : list A) :
  filter P (filter Q l) = filter Q (filter P l).
Proof.
  induction l as [|x l IH]; [done|]. rewrite !filter_cons.
  destruct (decide (P x)) eqn:HP, (decide (Q x)) eqn:HQ;
    rewrite ?filter_cons, ?HP, ?HQ, ?IH; done.
Qed.

(** A duplicate-free key picks out at most one element. *)
Lemma NoDup_fmap_inj {A B} (f : A → B) (l : list A) x y :
  NoDup (f <$> l) → x ∈ l → y ∈ l → f x = f y → x = y.
Proof.
  intros Hnd Hx Hy Hf.
  apply list_elem_of_lookup in Hx as [i Hi], Hy as [j Hj].
  assert (i = j) as ->; [|congruence].
  eapply NoDup_lookup; [done| |]; rewrite list_lookup_fmap.
  - by rewrite Hi.
  - by rewrite Hj, Hf.
Qed.

Lemma Forall_filter {A} (Q P : A → Prop) `{!∀ x, Decision (P x)} (l : list A) :
  Forall Q l → Forall Q (filter P l).
Proof. rewrite !Forall_forall. intros HQ x [_ Hx]%list_elem_of_filter. auto. Qed.

Lemma NoDup_fmap_filter {A B} (f : A → B) (P : A → Prop) `{!∀ x, Decision (P x)} (l : list A) :
  NoDup (f <$> l) → NoDup (f <$> filter P l).
Proof.
  induction l as [|x l IH]; [done|]. rewrite fmap_cons, NoDup_cons, filter_cons. intros [Hx Hnd].
  case_decide; [|auto]. rewrite fmap_cons, NoDup_cons. split; [|auto].
  intros (y & Heq & [_ Hy]%list_elem_of_filter)%list_elem_of_fmap. destruct Hx.
  rewrite Heq. by apply list_elem_of_fmap_2.
Qed.

Lemma Forall_fmap_filter {A B} (f : A → B) (Q : B → Prop) (P : A → Prop)
    `{!∀ x, Decision (P x)} (l : list A) :
  Forall Q (f <$> l) → Forall Q (f <$> filter P l).
Proof. rewrite !Forall_fmap. apply Forall_filter. Qed.

(** ** Vectors *)

Lemma vec_at_lookup {A} (l : list A) (i : Z) x :
  (0 ≤ i)%Z → l !! Z.to_nat i = Some x → vec_at l i = Ret x.
Proof.
  intros Hi Hx. unfold vec_at. pose proof (lookup_lt_Some _ _ _ Hx).
  rewrite bool_decide_true by lia. by rewrite Hx.
Qed.

Lemma vec_set_lookup {A} (l : list A) (i : Z) x y :
  (0 ≤ i)%Z → l !! Z.to_nat i = Some x → vec_set l i y = Ret (<[Z.to_nat i := y]> l).
Proof.
  intros Hi Hx. unfold vec_set. pose proof (lookup_lt_Some _ _ _ Hx).
  by rewrite bool_decide_true by lia.
Qed.

Lemma destruct_snoc {A} (l : list A) : l = [] ∨ ∃ l' x, l = l' ++ [x].
Proof. destruct l as [|x l _] using rev_ind; eauto. Qed.
