(* ===== verification/CoreTypes.v ===== *)
(** * Core domain types

    Models [include/datagine/core/types.hpp], [include/datagine/core/market_event.hpp]
    and [src/core/market_event.cpp]: the sides and event types, the strong
    integer wrappers and [MarketEvent].  Each wrapper is a record around the
    [Z] value of its [rep]; [wf] predicates state the machine range. *)
From S2P Require Import Prelude.

Inductive Side : Type := Buy | Sell.

Inductive EventType : Type := Add | Modify | Cancel | Execute.

(** [Trade = Execute] is an alias of the same enumerator. *)
Definition Trade : EventType := Execute.

Record Price : Type := MkPrice { ticks : Z }.
Record Quantity : Type := MkQuantity { units : Z }.
Record OrderId : Type := MkOrderId { value : Z }.
Record Timestamp : Type := MkTimestamp { nanoseconds : Z }.

#[export] Instance Side_eq_dec : EqDecision Side.
Proof. solve_decision. Defined.
#[export] Instance EventType_eq_dec : EqDecision EventType.
Proof. solve_decision. Defined.
#[export] Instance Price_eq_dec : EqDecision Price.
Proof. solve_decision. Defined.
#[export] Instance Quantity_eq_dec : EqDecision Quantity.
Proof. solve_decision. Defined.
#[export] Instance OrderId_eq_dec : EqDecision OrderId.
Proof. solve_decision. Defined.
#[export] Instance Timestamp_eq_dec : EqDecision Timestamp.
Proof. solve_decision. Defined.

Record MarketEvent : Type := MkEvent {
  ev_type : EventType;
  ev_timestamp : Timestamp;
  ev_order_id : OrderId;
  ev_side : Side;
  ev_price : Price;
  ev_quantity : Quantity
}.

#[export] Instance MarketEvent_eq_dec : EqDecision MarketEvent.
Proof. solve_decision. Defined.

(** The default member initialisers: [MarketEvent{}]. *)
Definition default_event : MarketEvent :=
  MkEvent Add (MkTimestamp 0) (MkOrderId 0) Buy (MkPrice 0) (MkQuantity 0).

Definition side_to_string (side : Side) : string :=
  match side with
  | Buy => "buy"
  | Sell => "sell"
  end.

Definition event_type_to_string (type : EventType) : string :=
  match type with
  | Add => "add"
  | Modify => "modify"
  | Cancel => "cancel"
  | Execute => "execute"
  end.

(** The representable range of every field. *)
Definition quantity_wf (q : Quantity) : Prop := is_u64 (units q).

Record event_wf (e : MarketEvent) : Prop := {
  event_wf_timestamp : is_i64 (nanoseconds (ev_timestamp e));
  event_wf_order_id : is_u64 (value (ev_order_id e));
  event_wf_price : is_i64 (ticks (ev_price e));
  event_wf_quantity : quantity_wf (ev_quantity e)
}.

#[export] Instance is_u64_dec z : Decision (is_u64 z).
Proof. unfold is_u64. apply _. Defined.
#[export] Instance is_i64_dec z : Decision (is_i64 z).
Proof. unfold is_i64. apply _. Defined.

Lemma side_to_string_inj : Inj (=) (=) side_to_string.
Proof. by intros [] []. Qed.

Lemma event_type_to_string_inj : Inj (=) (=) event_type_to_string.
Proof. by intros [] []. Qed.
