(* ===== verification/OrderedMap.v ===== *)
(** * Ordered associative containers

    The model of [std::map<K, V, Compare>] as the sources use it: an
    association list sorted by the comparator [before], so that iteration in
    container order, [begin], [find], [operator[]], [erase] and [empty] are the
    list operations they are in the C++ code.  Two keys are the same key when
    neither is before the other, as in the standard. *)
From S2P Require Import Prelude.

(** A strict total order, what [std::map] requires of [Compare]. *)
Class Comparator {K : Type} (before : K → K → bool) : Prop := {
  before_irrefl k : before k k = false;
  before_trans k1 k2 k3 : before k1 k2 = true → before k2 k3 = true → before k1 k3 = true;
  before_total k1 k2 : before k1 k2 = false → before k2 k1 = false → k1 = k2
}.

(** [std::less<>] and [std::greater<>] on integers. *)
Definition less (a b : Z) : bool := (a <? b)%Z.
Definition greater (a b : Z) : bool := (b <? a)%Z.

#[export] Instance less_comparator : Comparator less.
Proof. split; unfold less; intros; lia. Qed.
#[export] Instance greater_comparator : Comparator greater.
Proof. split; unfold greater; intros; lia. Qed.

Section ordered_map.
Context {K V : Type} (before : K → K → bool).
Implicit Types (k : K) (v : V) (m : list (K * V)).

Fixpoint find k m : option V :=
  match m with
  | [] => None
  | (k', v) :: m' =>
      if before k' k then find k m'
      else if before k k' then None else Some v
  end.

(** Assignment through [m[k] = v]: replaces the value of an equivalent key
    or links a new node at its place in the order. *)
Fixpoint insert_or_assign k v m : list (K * V) :=
  match m with
  | [] => [(k, v)]
  | (k', v') :: m' =>
      if before k' k then (k', v') :: insert_or_assign k v m'
      else if before k k' then (k, v) :: m else (k', v) :: m'
  end.

Fixpoint erase k m : list (K * V) :=
  match m with
  | [] => []
  | (k', v') :: m' =>
      if before k' k then (k', v') :: erase k m'
      else if before k k' then m else m'
  end.

(** [m[k]] value-initialises a missing entry; the returned reference reads
    this value. *)
Definition subscript (init : V) k m : V := default init (find k m).

Definition begin m : option (K * V) := head m.

(** The container invariant: keys strictly increasing in [before]. *)
Definition sorted m : Prop := StronglySorted (λ a b, before a b = true) m.*1.
End ordered_map.

Lemma before_asym {K} (before : K → K → bool) `{!Comparator before} k1 k2 :
  before k1 k2 = true → before k2 k1 = false.
Proof.
  intros H. destruct (before k2 k1) eqn:E; [|done].
  rewrite <-(before_irrefl (before:=before) k1). symmetry. by eapply before_trans.
Qed.

Lemma before_ne {K} (before : K → K → bool) `{!Comparator before} k1 k2 :
  before k1 k2 = true → k1 ≠ k2.
Proof. intros H ->. by rewrite before_irrefl in H. Qed.

Section ordered_map_laws.
Context {K V : Type} {before : K → K → bool} `{!Comparator before}.
Implicit Types (k j : K) (v : V) (m : list (K * V)).

Abbreviation find := (find before).
Abbreviation insert_or_assign := (insert_or_assign before).
Abbreviation erase := (erase before).
Abbreviation sorted := (sorted before).

Lemma sorted_cons k v m :
  sorted ((k, v) :: m) ↔ Forall (λ p, before k p.1 = true) m ∧ sorted m.
Proof.
  unfold OrderedMap.sorted. rewrite fmap_cons. simpl. split.
  - inversion_clear 1 as [|?? Hs Hf]. by apply Forall_fmap in Hf.
  - intros [Hf Hs]. constructor; [done|]. by apply Forall_fmap.
Qed.

Lemma find_before k m : Forall (λ p, before k p.1 = true) m → find k m = None.
Proof.
  destruct 1 as [|[k' v] m Hb]; simpl in *; [done|].
  by rewrite (before_asym _ _ _ Hb), Hb.
Qed.

Lemma find_insert_eq k v m : find k (insert_or_assign k v m) = Some v.
Proof.
  induction m as [|[k' v'] m IH]; simpl; [by rewrite !before_irrefl|].
  destruct (before k' k) eqn:H1; simpl; [by rewrite H1|].
  destruct (before k k') eqn:H2; simpl; [by rewrite !before_irrefl|].
  by rewrite H1, H2.
Qed.

Lemma find_insert_ne k j v m : k ≠ j → find j (insert_or_assign k v m) = find j m.
Proof.
  intros Hne. induction m as [|[k' v'] m IH]; simpl.
  - destruct (before k j) eqn:H1, (before j k) eqn:H2; try done.
    by destruct Hne; apply before_total.
  - destruct (before k' k) eqn:H1; simpl.
    { destruct (before k' j) eqn:H3; [done|].
      by destruct (before j k') eqn:H4. }
    destruct (before k k') eqn:H2; simpl.
    { destruct (before k j) eqn:H3; [done|].
      destruct (before j k) eqn:H4.
      - rewrite (before_asym _ j k'), (before_trans j k k'); eauto using before_trans.
      - by destruct Hne; apply before_total. }
    rewrite (before_total k' k H1 H2).
    destruct (before k j) eqn:H3; [done|].
    destruct (before j k) eqn:H4; [done|].
    by destruct Hne; apply before_total.
Qed.

Lemma find_insert `{!EqDecision K} k j v m :
  find j (insert_or_assign k v m) = if decide (k = j) then Some v else find j m.
Proof. case_decide; subst; eauto using find_insert_eq, find_insert_ne. Qed.

Lemma Forall_insert (P : K * V → Prop) k v m :
  P (k, v) → Forall P m → (∀ k' v', P (k', v') → P (k', v)) →
  Forall P (insert_or_assign k v m).
Proof.
  intros Hk Hm Hv. induction Hm as [|[k' v'] m Hp Hm IH]; simpl; [by constructor|].
  repeat case_match; repeat constructor; eauto.
Qed.

Lemma sorted_insert k v m : sorted m → sorted (insert_or_assign k v m).
Proof.
  induction m as [|[k' v'] m IH]; simpl; [repeat constructor|].
  rewrite sorted_cons. intros [Hf Hs].
  destruct (before k' k) eqn:H1; [|destruct (before k k') eqn:H2];
    rewrite !sorted_cons; split; eauto.
  - by apply Forall_insert.
  - constructor; [done|]. eapply Forall_impl; [done|].
    intros [j ?] Hj; simpl in *; eauto using before_trans.
Qed.

Lemma Forall_erase (P : K * V → Prop) k m : Forall P m → Forall P (erase k m).
Proof. induction 1 as [|[k' v'] m Hp Hm IH]; simpl; repeat case_match; auto. Qed.

Lemma sorted_erase k m : sorted m → sorted (erase k m).
Proof.
  induction m as [|[k' v'] m IH]; simpl; [done|].
  rewrite sorted_cons. intros [Hf Hs].
  destruct (before k' k) eqn:H1; [|destruct (before k k') eqn:H2];
    rewrite ?sorted_cons; eauto using Forall_erase.
Qed.

Lemma find_erase_eq k m : sorted m → find k (erase k m) = None.
Proof.
  induction m as [|[k' v'] m IH]; simpl; [done|].
  rewrite sorted_cons. intros [Hf Hs].
  destruct (before k' k) eqn:H1; simpl; [rewrite H1; eauto|].
  destruct (before k k') eqn:H2; simpl; [by rewrite H1, H2|].
  rewrite (before_total k' k H1 H2) in Hf. by apply find_before.
Qed.

Lemma find_erase_ne k j m : sorted m → k ≠ j → find j (erase k m) = find j m.
Proof.
  intros Hs Hne. induction m as [|[k' v'] m IH]; simpl; [done|].
  apply sorted_cons in Hs as [Hf Hs].
  destruct (before k' k) eqn:H1; simpl; [by rewrite IH|].
  destruct (before k k') eqn:H2; simpl; [done|].
  rewrite (before_total k' k H1 H2) in *.
  destruct (before k j) eqn:H3; [done|].
  destruct (before j k) eqn:H4.
  - apply find_before. eapply Forall_impl; [done|]; simpl; eauto using before_trans.
  - by destruct Hne; apply before_total.
Qed.

Lemma find_erase `{!EqDecision K} k j m :
  sorted m → find j (erase k m) = if decide (k = j) then None else find j m.
Proof. intros. case_decide; subst; eauto using find_erase_eq, find_erase_ne. Qed.

Lemma find_Some_elem k v m : find k m = Some v → (k, v) ∈ m.
Proof.
  induction m as [|[k' v'] m IH]; simpl; [done|].
  destruct (before k' k) eqn:H1; [set_solver|].
  destruct (before k k') eqn:H2; [done|].
  rewrite (before_total k' k H1 H2). intros [= ->]. set_solver.
Qed.

Lemma elem_find_Some k v m : sorted m → (k, v) ∈ m → find k m = Some v.
Proof.
  induction m as [|[k' v'] m IH]; simpl; [set_solver|].
  rewrite sorted_cons. intros [Hf Hs] [[= -> ->]|Hin]%elem_of_cons.
  - by rewrite before_irrefl.
  - rewrite Forall_forall in Hf. pose proof (Hf _ Hin) as Hb. simpl in Hb.
    rewrite Hb. auto.
Qed.

Lemma find_elem_iff k v m : sorted m → find k m = Some v ↔ (k, v) ∈ m.
Proof. split; eauto using find_Some_elem, elem_find_Some. Qed.

Lemma find_head k v m : find k ((k, v) :: m) = Some v.
Proof. simpl. by rewrite before_irrefl. Qed.

(** Containers with the same lookups are the same container. *)
Lemma sorted_ext m1 m2 :
  sorted m1 → sorted m2 → (∀ k, find k m1 = find k m2) → m1 = m2.
Proof.
  revert m2. induction m1 as [|[k1 v1] m1 IH]; intros [|[k2 v2] m2] Hs1 Hs2 Heq.
  - done.
  - specialize (Heq k2). by rewrite find_head in Heq.
  - specialize (Heq k1). by rewrite find_head in Heq.
  - apply sorted_cons in Hs1 as [Hf1 Hs1], Hs2 as [Hf2 Hs2].
    assert (k1 = k2) as <-.
    { apply before_total.
      - pose proof (Heq k1) as H1. rewrite find_head in H1. simpl in H1.
        destruct (before k2 k1) eqn:E; [|by destruct (before k1 k2)].
        by apply before_asym.
      - pose proof (Heq k2) as H1. rewrite find_head in H1. simpl in H1.
        destruct (before k1 k2) eqn:E; [|by destruct (before k2 k1)].
        by apply before_asym. }
    f_equal.
    + specialize (Heq k1). rewrite !find_head in Heq. congruence.
    + apply IH; [done..|]. intros k. specialize (Heq k). simpl in Heq.
      destruct (before k1 k) eqn:H1; [done|].
      rewrite !find_before; [done| |].
      * eapply Forall_impl; [done|]. intros [j ?] Hj; simpl in *.
        destruct (before k k1) eqn:H2; [eauto using before_trans|].
        by rewrite <-(before_total k1 k).
      * eapply Forall_impl; [done|]. intros [j ?] Hj; simpl in *.
        destruct (before k k1) eqn:H2; [eauto using before_trans|].
        by rewrite <-(before_total k1 k).
Qed.

Lemma sorted_NoDup m : sorted m → NoDup m.*1.
Proof.
  induction m as [|[k v] m IH]; [constructor|].
  rewrite sorted_cons. intros [Hf Hs]. simpl. constructor; [|auto].
  intros ([k' v'] & Hk & Hin)%list_elem_of_fmap. simpl in *; subst.
  rewrite Forall_forall in Hf. by specialize (Hf _ Hin); simpl in Hf; rewrite before_irrefl in Hf.
Qed.
End ordered_map_laws.

Create HintDb ordmap.
#[export] Hint Extern 1 (sorted _ (insert_or_assign _ _ _ _)) => apply sorted_insert : ordmap.
#[export] Hint Extern 1 (sorted _ (erase _ _ _)) => apply sorted_erase : ordmap.

