(* ===== verification/Text.v ===== *)
(** * Text: [std::string], number formatting and parsing

    A [std::string] or [std::string_view] is a [list ascii].  [print_digits]
    is what [operator<<] writes for a non-negative integer in a base,
    [print_decimal] what it writes for a signed one; [from_chars] is
    [std::from_chars] in base 10, and the two are inverse. *)
From S2P Require Import Prelude.
From Stdlib Require Import Ascii.
#[local] Open Scope Z_scope.

Abbreviation text := (list ascii).

(** String literals. *)
Definition txt (s : string) : text := String.list_ascii_of_string s.

Definition newline : ascii := ascii_of_nat 10.
Definition tab : ascii := ascii_of_nat 9.
Definition carriage_return : ascii := ascii_of_nat 13.

(** ** Formatting *)

Definition digit_char (d : Z) : ascii :=
  ascii_of_nat (Z.to_nat (if d <? 10 then 48 + d else 87 + d)).

Fixpoint digits_loop (fuel : nat) (base z : Z) (acc : text) : text :=
  match fuel with
  | O => acc
  | S fuel =>
      let acc := digit_char (z mod base) :: acc in
      if z <? base then acc else digits_loop fuel base (z / base) acc
  end.

(** [log2 z + 1] steps suffice in every base. *)
Definition print_digits (base z : Z) : text := digits_loop (S (Z.to_nat (Z.log2 z))) base z [].

Definition print_decimal (z : Z) : text :=
  if z <? 0 then "-"%char :: print_digits 10 (- z) else print_digits 10 z.

(** [std::setfill('0') << std::setw(width)]. *)
Definition pad_zeros (width : nat) (t : text) : text :=
  replicate (width - length t) "0"%char ++ t.

(** ** Parsing *)

Definition digit_of (c : ascii) : option Z :=
  let n := Z.of_nat (nat_of_ascii c) in
  if (48 <=? n) && (n <=? 57) then Some (n - 48) else None.

(** The longest prefix of digits, and what follows it. *)
Fixpoint take_digits (t : text) : list Z * text :=
  match t with
  | [] => ([], [])
  | c :: t' =>
      match digit_of c with
      | Some d => let r := take_digits t' in (d :: r.1, r.2)
      | None => ([], t)
      end
  end.

Definition digits_value (base : Z) (ds : list Z) : Z := foldl (λ acc d, acc * base + d) 0 ds.

Inductive FromChars : Type :=
| Parsed (value : Z) (rest : text)
| InvalidArgument
| ResultOutOfRange.

(** An integer type: its least and greatest values. *)
Record IntegerType : Type := MkIntegerType { int_min : Z; int_max : Z }.
Definition int64 : IntegerType := MkIntegerType (- two63) (two63 - 1).
Definition uint64 : IntegerType := MkIntegerType 0 (two64 - 1).

Definition in_type (ty : IntegerType) (z : Z) : Prop := int_min ty ≤ z ≤ int_max ty.
#[export] Instance in_type_dec ty z : Decision (in_type ty z).
Proof. unfold in_type. apply _. Defined.

(** A minus sign is only read for a signed type; a plus sign and white space
    never are. *)
Definition from_chars (ty : IntegerType) (t : text) : FromChars :=
  let '(negative, body) :=
    match t with
    | c :: t' => if (c =? "-")%char && (int_min ty <? 0) then (true, t') else (false, t)
    | [] => (false, t)
    end in
  match take_digits body with
  | ([], _) => InvalidArgument
  | (ds, rest) =>
      let v := digits_value 10 ds in
      let v := if negative : bool then - v else v in
      if decide (in_type ty v) then Parsed v rest else ResultOutOfRange
  end.

(** ** Theory *)

Lemma nat_of_digit d : 0 ≤ d < 10 → nat_of_ascii (digit_char d) = Z.to_nat (48 + d).
Proof.
  intros Hd. unfold digit_char. rewrite (proj2 (Z.ltb_lt _ _)) by lia.
  apply nat_ascii_embedding. lia.
Qed.

Lemma digit_of_char d : 0 ≤ d < 10 → digit_of (digit_char d) = Some d.
Proof.
  intros Hd. unfold digit_of. rewrite nat_of_digit by done.
  rewrite Z2Nat.id by lia.
  rewrite (proj2 (Z.leb_le _ _)), (proj2 (Z.leb_le _ _)) by lia. simpl. f_equal. lia.
Qed.

Lemma digit_of_Some c d : digit_of c = Some d → 0 ≤ d < 10.
Proof.
  unfold digit_of. case_match eqn:E; [|done]. intros [= <-].
  apply andb_true_iff in E as [?%Z.leb_le ?%Z.leb_le]. lia.
Qed.

(** The digit values of a printed number. *)
Fixpoint digit_values (fuel : nat) (base z : Z) (acc : list Z) : list Z :=
  match fuel with
  | O => acc
  | S fuel =>
      let acc := z mod base :: acc in
      if z <? base then acc else digit_values fuel base (z / base) acc
  end.

Lemma digits_loop_values fuel base z acc :
  digits_loop fuel base z (digit_char <$> acc) = digit_char <$> digit_values fuel base z acc.
Proof.
  revert z acc. induction fuel as [|fuel IH]; intros z acc; simpl; [done|].
  destruct (z <? base); [done|]. apply (IH _ (z mod base :: acc)).
Qed.

Lemma print_digits_values base z :
  print_digits base z = digit_char <$> digit_values (S (Z.to_nat (Z.log2 z))) base z [].
Proof. apply (digits_loop_values _ _ _ []). Qed.

Lemma digit_values_range fuel base z acc :
  0 < base → Forall (λ d, 0 ≤ d < base) acc →
  Forall (λ d, 0 ≤ d < base) (digit_values fuel base z acc).
Proof.
  intros Hb. revert z acc. induction fuel as [|fuel IH]; intros z acc Hacc; simpl; [done|].
  assert (Forall (λ d, 0 ≤ d < base) (z mod base :: acc)) by (constructor; [by apply Z.mod_pos_bound|done]).
  destruct (z <? base); auto.
Qed.

Lemma digit_values_nonempty fuel base z acc : digit_values (S fuel) base z acc ≠ [].
Proof.
  assert (∀ f z acc, acc ≠ [] → digit_values f base z acc ≠ []) as Hne.
  { induction f as [|f IH]; intros z' acc' Ha; simpl; [done|]. case_match; [done|]. by apply IH. }
  simpl. case_match; [done|]. by apply Hne.
Qed.

Lemma log2_div_lt base z : 2 ≤ base ≤ z → Z.log2 (z / base) < Z.log2 z.
Proof.
  intros Hz. assert (0 < z / base) by (apply Z.div_str_pos; lia).
  assert (z / base ≤ z / 2) as Hle by (apply Z.div_le_compat_l; lia).
  apply Z.log2_le_mono in Hle. rewrite <-Z.div2_div in Hle.
  enough (Z.log2 (Z.div2 z) < Z.log2 z) by lia.
  rewrite Z.div2_spec, Z.log2_shiftr by lia. assert (1 ≤ Z.log2 z); [|lia].
  apply (Z.log2_le_mono 2). lia.
Qed.

Lemma digits_value_values fuel base z acc :
  2 ≤ base → 0 ≤ z → (Z.to_nat (Z.log2 z) < fuel)%nat →
  digits_value base (digit_values fuel base z acc) = foldl (λ a d, a * base + d) z acc.
Proof.
  intros Hb. revert z acc. induction fuel as [|fuel IH]; intros z acc Hz Hf; [lia|]. simpl.
  destruct (Z.ltb_spec z base) as [Hlt|Hge].
  - unfold digits_value. simpl. by rewrite Z.mod_small.
  - pose proof (log2_div_lt base z ltac:(lia)). pose proof (Z.log2_nonneg (z / base)).
    rewrite IH; [|apply Z.div_pos; lia|lia]. simpl. f_equal.
    rewrite (Z.div_mod z base) at 3 by lia. lia.
Qed.

Lemma print_digits_value base z :
  2 ≤ base → 0 ≤ z →
  digits_value base (digit_values (S (Z.to_nat (Z.log2 z))) base z []) = z.
Proof. intros Hb Hz. rewrite digits_value_values; [done|done|done|lia]. Qed.

Lemma take_digits_app ds t :
  Forall (λ d, 0 ≤ d < 10) ds → (∀ c t', t = c :: t' → digit_of c = None) →
  take_digits ((digit_char <$> ds) ++ t) = (ds, t).
Proof.
  intros Hds Ht. induction Hds as [|d ds Hd _ IH].
  - simpl. destruct t as [|c t']; [done|]. simpl. by rewrite (Ht c t').
  - rewrite fmap_cons. cbn [app take_digits]. rewrite digit_of_char by done. by rewrite IH.
Qed.

(** Printing then parsing returns the number and consumes the whole text. *)
Lemma from_chars_print ty z :
  in_type ty z → int_min ty ≤ 0 → from_chars ty (print_decimal z) = Parsed z [].
Proof.
  intros Hz Hmin. unfold print_decimal.
  assert (∀ n, 0 ≤ n → take_digits (print_digits 10 n) =
    (digit_values (S (Z.to_nat (Z.log2 n))) 10 n [], [])) as Htd.
  { intros n Hn. rewrite print_digits_values, <-(app_nil_r (digit_char <$> _)).
    apply take_digits_app; [apply digit_values_range; [lia|done]|done]. }
  destruct (Z.ltb_spec z 0) as [Hneg|Hpos]; unfold from_chars.
  - unfold in_type in Hz. rewrite Ascii.eqb_refl, (proj2 (Z.ltb_lt _ _)) by lia. cbn [andb].
    rewrite Htd by lia. destruct (digit_values _ _ _ _) as [|d ds] eqn:E.
    { by apply digit_values_nonempty in E. }
    rewrite <-E, print_digits_value, Z.opp_involutive by lia.
    rewrite decide_True; [done|]. unfold in_type. lia.
  - assert (∃ c t', print_digits 10 z = c :: t' ∧ (c =? "-")%char = false) as (c & t' & Hct & Hc).
    { rewrite print_digits_values. destruct (digit_values _ _ _ _) as [|d ds] eqn:E.
      { by apply digit_values_nonempty in E. }
      assert (Forall (λ d, 0 ≤ d < 10) (d :: ds)) as Hr
        by (rewrite <-E; apply digit_values_range; [lia|done]).
      apply Forall_inv in Hr. simpl. eexists _, _. split; [done|]. apply Ascii.eqb_neq.
      intros Hd. apply (f_equal digit_of) in Hd. by rewrite digit_of_char in Hd. }
    rewrite Hct. cbn [andb]. rewrite Hc. cbn [andb]. rewrite <-Hct, Htd by done.
    destruct (digit_values _ _ _ _) as [|d ds] eqn:E; [by apply digit_values_nonempty in E|].
    rewrite <-E, print_digits_value by lia. by rewrite decide_True.
Qed.
