(* ===== verification/BookTypes.v ===== *)
(** * Data shared by the order books

    Models the public types of [include/datagine/book/limit_order_book.hpp]
    ([BookResult], the views, [InvariantOptions]) and [to_string(BookResult)]
    of [src/book/limit_order_book.cpp], plus the iteration order and the level
    traversals that both book implementations spell out over their own
    [PriceLevel] type. *)
From S2P Require Import Prelude CoreTypes OrderedMap.

Inductive BookResult : Type :=
| Applied
| DuplicateOrderId
| MissingOrderId
| InvalidQuantity
| InsufficientQuantity
| UnsupportedModify
| CapacityExceeded.

#[export] Instance BookResult_eq_dec : EqDecision BookResult.
Proof. solve_decision. Defined.

Definition book_result_to_string (result : BookResult) : string :=
  match result with
  | Applied => "applied"
  | DuplicateOrderId => "duplicate order id"
  | MissingOrderId => "missing order id"
  | InvalidQuantity => "invalid quantity"
  | InsufficientQuantity => "insufficient quantity"
  | UnsupportedModify => "unsupported modify"
  | CapacityExceeded => "capacity exceeded"
  end.

Record PriceLevelView : Type := MkPriceLevelView {
  plv_price : Price;
  plv_quantity : Quantity;
  plv_order_count : Z
}.

Record TopOfBook : Type := MkTopOfBook {
  tob_bid : option PriceLevelView;
  tob_ask : option PriceLevelView
}.

Record BookDepth : Type := MkBookDepth {
  depth_bids : list PriceLevelView;
  depth_asks : list PriceLevelView
}.

Record OrderView : Type := MkOrderView {
  ov_order_id : OrderId;
  ov_timestamp : Timestamp;
  ov_quantity : Quantity
}.

Record PriceLevelSnapshot : Type := MkPriceLevelSnapshot {
  pls_price : Price;
  pls_quantity : Quantity;
  pls_orders : list OrderView
}.

Record BookSnapshot : Type := MkBookSnapshot {
  snap_bids : list PriceLevelSnapshot;
  snap_asks : list PriceLevelSnapshot
}.

Record InvariantOptions : Type := MkInvariantOptions { allow_crossed_book : bool }.

Definition default_invariant_options : InvariantOptions := MkInvariantOptions false.

#[export] Instance PriceLevelView_eq_dec : EqDecision PriceLevelView.
Proof. solve_decision. Defined.
#[export] Instance TopOfBook_eq_dec : EqDecision TopOfBook.
Proof. solve_decision. Defined.
#[export] Instance BookDepth_eq_dec : EqDecision BookDepth.
Proof. solve_decision. Defined.
#[export] Instance OrderView_eq_dec : EqDecision OrderView.
Proof. solve_decision. Defined.
#[export] Instance PriceLevelSnapshot_eq_dec : EqDecision PriceLevelSnapshot.
Proof. solve_decision. Defined.
#[export] Instance BookSnapshot_eq_dec : EqDecision BookSnapshot.
Proof. solve_decision. Defined.

(** [BidLevels] is ordered by [std::greater<>], [AskLevels] by [std::less<>]. *)
Definition side_before (side : Side) : Z → Z → bool :=
  match side with Buy => greater | Sell => less end.

#[export] Instance side_before_comparator side : Comparator (side_before side).
Proof. destruct side; apply _. Qed.

(** The traversals of [depth] and [top_of_book], for any level type. *)
Section traversals.
Context {L : Type} (make_price_level_view : Z → L → PriceLevelView).

Fixpoint depth_loop (levels : Z) (result : list PriceLevelView)
    (it : list (Z * L)) : list PriceLevelView :=
  match it with
  | [] => result
  | (price, level) :: it' =>
      if (Z.of_nat (length result) <? levels)%Z
      then depth_loop levels (result ++ [make_price_level_view price level]) it'
      else result
  end.

Definition best_level (levels : list (Z * L)) : option PriceLevelView :=
  match begin levels with
  | Some (price, level) => Some (make_price_level_view price level)
  | None => None
  end.

Lemma depth_loop_app levels result it :
  depth_loop levels result it
  = result ++ take (Z.to_nat levels - length result)
      ((λ pl, make_price_level_view pl.1 pl.2) <$> it).
Proof.
  revert result. induction it as [|[p l] it IH]; intros result; simpl.
  { by rewrite take_nil, app_nil_r. }
  destruct (Z.ltb_spec (Z.of_nat (length result)) levels).
  - rewrite IH, length_app, <-(assoc_L (++)). simpl. f_equal.
    destruct (Z.to_nat levels - length result) as [|n] eqn:E; [lia|].
    simpl. f_equal. f_equal. lia.
  - replace (Z.to_nat levels - length result) with 0 by lia. by rewrite app_nil_r.
Qed.

(** The bounded loop of [depth] returns the first [levels] levels. *)
Lemma depth_loop_take levels it :
  depth_loop levels [] it
  = take (Z.to_nat levels) ((λ pl, make_price_level_view pl.1 pl.2) <$> it).
Proof. rewrite depth_loop_app. simpl. f_equal. lia. Qed.

Lemma best_level_head levels :
  best_level levels = head ((λ pl, make_price_level_view pl.1 pl.2) <$> levels).
Proof. by destruct levels as [|[p l] ?]. Qed.
End traversals.
