(* ===== verification/BookSpec.v ===== *)
(** * Abstract specification of an order book

    What both implementations promise, independent of their containers: the
    book is the list of live orders in arrival order.  Price-time priority,
    depth, snapshots and the crossed-book test are functions of that list, and
    [spec_apply] is the reference behaviour of every operation, errors
    included.  [OrderBook] is the interface the clients (replay, queue
    consumer, anomaly monitor) use; [OrderBookLaws] is the contract an
    implementation discharges. *)
From S2P Require Import Prelude CoreTypes OrderedMap BookTypes.

Record SpecOrder : Type := MkSpecOrder {
  so_id : OrderId;
  so_side : Side;
  so_price : Price;
  so_timestamp : Timestamp;
  so_quantity : Quantity
}.

Record SpecBook : Type := MkSpecBook {
  sb_orders : list SpecOrder;
  sb_events : Z
}.

Definition spec_empty : SpecBook := MkSpecBook [] 0.

Definition has_id (id : OrderId) (o : SpecOrder) : Prop := so_id o = id.
#[export] Instance has_id_dec id o : Decision (has_id id o).
Proof. unfold has_id. apply _. Defined.

Definition at_level (side : Side) (price : Z) (o : SpecOrder) : Prop :=
  so_side o = side ∧ ticks (so_price o) = price.
#[export] Instance at_level_dec side price o : Decision (at_level side price o).
Proof. unfold at_level. apply _. Defined.

Definition find_order (id : OrderId) (os : list SpecOrder) : option SpecOrder :=
  head (filter (has_id id) os).

Definition set_quantity (q : Quantity) (o : SpecOrder) : SpecOrder :=
  MkSpecOrder (so_id o) (so_side o) (so_price o) (so_timestamp o) q.

Definition remove_order (id : OrderId) (os : list SpecOrder) : list SpecOrder :=
  filter (λ o, ¬ has_id id o) os.

Definition update_order (id : OrderId) (q : Quantity) (os : list SpecOrder) : list SpecOrder :=
  (λ o, if decide (has_id id o) then set_quantity q o else o) <$> os.

(** ** Operations *)

Definition accept (os : list SpecOrder) (s : SpecBook) : BookResult * SpecBook :=
  (Applied, MkSpecBook os (add64 (sb_events s) 1)).

Definition spec_full (capacity : option nat) (s : SpecBook) : Prop :=
  match capacity with None => False | Some c => c ≤ length (sb_orders s) end.
#[export] Instance spec_full_dec capacity s : Decision (spec_full capacity s).
Proof. destruct capacity; simpl; apply _. Defined.

Definition spec_add (capacity : option nat) (o : SpecOrder) (s : SpecBook)
    : BookResult * SpecBook :=
  if decide (units (so_quantity o) = 0%Z) then (InvalidQuantity, s)
  else match find_order (so_id o) (sb_orders s) with
       | Some _ => (DuplicateOrderId, s)
       | None =>
           if decide (spec_full capacity s) then (CapacityExceeded, s)
           else accept (sb_orders s ++ [o]) s
       end.

Definition spec_cancel (id : OrderId) (s : SpecBook) : BookResult * SpecBook :=
  match find_order id (sb_orders s) with
  | None => (MissingOrderId, s)
  | Some _ => accept (remove_order id (sb_orders s)) s
  end.

Definition spec_modify (id : OrderId) (q : Quantity) (s : SpecBook) : BookResult * SpecBook :=
  if decide (units q = 0%Z) then (InvalidQuantity, s)
  else match find_order id (sb_orders s) with
       | None => (MissingOrderId, s)
       | Some o =>
           if decide (units (so_quantity o) < units q)%Z then (UnsupportedModify, s)
           else accept (update_order id q (sb_orders s)) s
       end.

Definition spec_execute (id : OrderId) (q : Quantity) (s : SpecBook) : BookResult * SpecBook :=
  if decide (units q = 0%Z) then (InvalidQuantity, s)
  else match find_order id (sb_orders s) with
       | None => (MissingOrderId, s)
       | Some o =>
           if decide (units (so_quantity o) < units q)%Z then (InsufficientQuantity, s)
           else if decide (units q = units (so_quantity o)) then
             accept (remove_order id (sb_orders s)) s
           else accept (update_order id (MkQuantity (units (so_quantity o) - units q))
                          (sb_orders s)) s
       end.

Definition event_order (e : MarketEvent) : SpecOrder :=
  MkSpecOrder (ev_order_id e) (ev_side e) (ev_price e) (ev_timestamp e) (ev_quantity e).

Definition spec_apply (capacity : option nat) (e : MarketEvent) (s : SpecBook)
    : BookResult * SpecBook :=
  match ev_type e with
  | Add => spec_add capacity (event_order e) s
  | Modify => spec_modify (ev_order_id e) (ev_quantity e) s
  | Cancel => spec_cancel (ev_order_id e) s
  | Execute => spec_execute (ev_order_id e) (ev_quantity e) s
  end.

(** ** Observations *)

(** The FIFO queue resting at a price: arrival order, never time stamps. *)
Definition queue_at (side : Side) (price : Z) (os : list SpecOrder) : list SpecOrder :=
  filter (at_level side price) os.

Definition total_units (os : list SpecOrder) : Z :=
  foldr (λ o acc, units (so_quantity o) + acc)%Z 0%Z os.

(** The distinct prices of a side, best first. *)
Definition level_prices (side : Side) (os : list SpecOrder) : list Z :=
  (foldr (λ o m, insert_or_assign (side_before side) (ticks (so_price o)) () m) []
     (filter (λ o, so_side o = side) os)).*1.

Definition order_view (o : SpecOrder) : OrderView :=
  MkOrderView (so_id o) (so_timestamp o) (so_quantity o).

Definition spec_level (side : Side) (os : list SpecOrder) (price : Z) : PriceLevelSnapshot :=
  let q := queue_at side price os in
  MkPriceLevelSnapshot (MkPrice price) (MkQuantity (wrap64 (total_units q))) (order_view <$> q).

Definition spec_side (side : Side) (s : SpecBook) : list PriceLevelSnapshot :=
  spec_level side (sb_orders s) <$> level_prices side (sb_orders s).

Definition spec_snapshot (s : SpecBook) : BookSnapshot :=
  MkBookSnapshot (spec_side Buy s) (spec_side Sell s).

Definition level_summary (l : PriceLevelSnapshot) : PriceLevelView :=
  MkPriceLevelView (pls_price l) (pls_quantity l) (Z.of_nat (length (pls_orders l))).

Definition spec_depth (levels : Z) (s : SpecBook) : BookDepth :=
  MkBookDepth (take (Z.to_nat levels) (level_summary <$> spec_side Buy s))
              (take (Z.to_nat levels) (level_summary <$> spec_side Sell s)).

Definition spec_top (s : SpecBook) : TopOfBook :=
  MkTopOfBook (head (level_summary <$> spec_side Buy s))
              (head (level_summary <$> spec_side Sell s)).

Definition spec_order_ids (side : Side) (price : Price) (s : SpecBook) : list OrderId :=
  so_id <$> queue_at side (ticks price) (sb_orders s).

(** Some resting bid is above some resting ask. *)
Definition crossed (s : SpecBook) : Prop :=
  ∃ b a, b ∈ sb_orders s ∧ a ∈ sb_orders s ∧ so_side b = Buy ∧ so_side a = Sell ∧
         (ticks (so_price a) < ticks (so_price b))%Z.

(** ** Well-formed books: the invariant of the specification *)
Record spec_wf (s : SpecBook) : Prop := {
  wf_ids : NoDup (so_id <$> sb_orders s);
  wf_quantities : Forall (λ o, 0 < units (so_quantity o) < two64)%Z (sb_orders s);
  wf_events : is_u64 (sb_events s)
}.

(** ** Theory of the specification *)

Lemma find_order_Some id os o :
  find_order id os = Some o → o ∈ os ∧ so_id o = id.
Proof.
  unfold find_order. intros H%head_Some_elem_of.
  by apply list_elem_of_filter in H as [? ?].
Qed.

Lemma find_order_None id os : find_order id os = None ↔ id ∉ so_id <$> os.
Proof.
  unfold find_order. rewrite head_None. split.
  - intros Hf (o & -> & Ho)%list_elem_of_fmap.
    assert (o ∈ filter (has_id (so_id o)) os) as Hin by by apply list_elem_of_filter.
    rewrite Hf in Hin. set_solver.
  - intros Hn. apply filter_none, Forall_forall. intros o Ho Hid. apply Hn.
    apply list_elem_of_fmap. eauto.
Qed.

Lemma find_order_elem os o :
  NoDup (so_id <$> os) → o ∈ os → find_order (so_id o) os = Some o.
Proof.
  intros Hnd Ho. destruct (find_order (so_id o) os) as [o'|] eqn:E.
  - apply find_order_Some in E as [Ho' Hid]. f_equal. by eapply NoDup_fmap_inj.
  - apply find_order_None in E. destruct E. apply list_elem_of_fmap. eauto.
Qed.

Lemma remove_order_ids id os :
  so_id <$> remove_order id os = filter (λ i, i ≠ id) (so_id <$> os).
Proof. unfold remove_order. by rewrite <-filter_fmap. Qed.

Lemma update_order_ids id q os : so_id <$> update_order id q os = so_id <$> os.
Proof.
  unfold update_order. rewrite <-list_fmap_compose. apply list_fmap_ext.
  intros ? o _. simpl. by case_decide.
Qed.

Lemma accept_fst os s : (accept os s).1 = Applied.
Proof. done. Qed.

(** The two ways an accepted operation rewrites the live orders. *)
Lemma spec_remove_wf id s : spec_wf s → spec_wf (accept (remove_order id (sb_orders s)) s).2.
Proof.
  intros [Hids Hqs _]. split; simpl; [|by apply Forall_filter|apply wrap64_range].
  rewrite remove_order_ids. by apply NoDup_filter.
Qed.

Lemma spec_update_wf id q s :
  (0 < units q < two64)%Z → spec_wf s → spec_wf (accept (update_order id q (sb_orders s)) s).2.
Proof.
  intros Hq [Hids Hqs _]. split; simpl; [by rewrite update_order_ids| |apply wrap64_range].
  apply Forall_fmap. eapply Forall_impl; [done|]. intros o ?; simpl. by case_decide.
Qed.

Lemma spec_quantity_range s id o :
  spec_wf s → find_order id (sb_orders s) = Some o → (0 < units (so_quantity o) < two64)%Z.
Proof.
  intros [_ Hqs _] [Hin _]%find_order_Some. rewrite Forall_forall in Hqs. auto.
Qed.

(** Every operation of the specification keeps the book well formed. *)
Lemma spec_apply_wf capacity e s :
  quantity_wf (ev_quantity e) → spec_wf s → spec_wf (spec_apply capacity e s).2.
Proof.
  intros [Hq0 Hq] Hwf. unfold spec_apply. destruct (ev_type e).
  - unfold spec_add. repeat case_match; try done. destruct Hwf as [Hids Hqs _].
    split; simpl; [| |apply wrap64_range].
    + rewrite fmap_app. simpl. apply NoDup_app. split; [done|]. split; [|apply NoDup_singleton].
      intros id Hid ->%list_elem_of_singleton. by apply find_order_None in Hid.
    + apply Forall_app. split; [done|]. constructor; [|done]. simpl in *. lia.
  - unfold spec_modify. repeat case_match; try done. apply spec_update_wf; [lia|done].
  - unfold spec_cancel. case_match; [by apply spec_remove_wf|done].
  - unfold spec_execute. repeat case_match; try done; [by apply spec_remove_wf|].
    apply spec_update_wf; [|done].
    match goal with Hf : find_order _ _ = Some _ |- _ => pose proof (spec_quantity_range _ _ _ Hwf Hf) end.
    simpl. lia.
Qed.

(** A rejected operation leaves the book as it was, counter included. *)
Lemma spec_apply_rejected capacity e s :
  (spec_apply capacity e s).1 ≠ Applied → (spec_apply capacity e s).2 = s.
Proof.
  unfold spec_apply, spec_add, spec_modify, spec_cancel, spec_execute, accept.
  repeat case_match; done.
Qed.

(** Setting an order to the quantity it has changes nothing. *)
Lemma update_order_same id q s o :
  spec_wf s → find_order id (sb_orders s) = Some o → units q = units (so_quantity o) →
  update_order id q (sb_orders s) = sb_orders s.
Proof.
  intros Hwf Hf Heq. unfold update_order. rewrite <-(list_fmap_id (sb_orders s)) at 2.
  apply list_fmap_ext. intros i o' Ho'%list_elem_of_lookup_2. simpl. case_decide as Hid; [|done].
  rewrite <-Hid, find_order_elem in Hf by (done || apply Hwf). injection Hf as ->.
  destruct o as [? ? ? ? [u]], q as [v]; simpl in *. by subst v.
Qed.

(** *** Level prices *)

Lemma level_prices_sorted side os :
  sorted (side_before side)
    (foldr (λ o m, insert_or_assign (side_before side) (ticks (so_price o)) () m) []
       (filter (λ o, so_side o = side) os)).
Proof.
  induction (filter _ os) as [|o l IH]; simpl; [constructor|]. by apply sorted_insert.
Qed.

Lemma elem_of_level_prices side os p :
  p ∈ level_prices side os ↔ ∃ o, o ∈ os ∧ at_level side p o.
Proof.
  assert (∀ l, p ∈ (foldr (λ o m, insert_or_assign (side_before side) (ticks (so_price o)) () m)
     [] l).*1 ↔ ∃ o, o ∈ l ∧ ticks (so_price o) = p) as Hl.
  { intros l. transitivity (find (side_before side) p
      (foldr (λ o m, insert_or_assign (side_before side) (ticks (so_price o)) () m) [] l) = Some ()).
    - rewrite find_elem_iff.
      + rewrite list_elem_of_fmap. split; [intros ([? []] & -> & ?)|intros ?; eexists (_, ())]; eauto.
      + induction l; simpl; [constructor|by apply sorted_insert].
    - induction l as [|o l IH]; simpl; [set_solver|].
      rewrite find_insert. case_decide; set_solver. }
  unfold level_prices. rewrite Hl. unfold at_level.
  setoid_rewrite list_elem_of_filter. naive_solver.
Qed.

Lemma elem_of_queue_at side p os o :
  o ∈ queue_at side p os ↔ o ∈ os ∧ at_level side p o.
Proof. unfold queue_at. rewrite list_elem_of_filter. tauto. Qed.

Lemma queue_at_nil side p os : queue_at side p os = [] ↔ p ∉ level_prices side os.
Proof.
  rewrite elem_of_level_prices. setoid_rewrite <-elem_of_queue_at.
  destruct (queue_at side p os) as [|o q]; [set_solver|].
  split; [done|]. intros H. destruct H. exists o. set_solver.
Qed.

Lemma total_units_cons o os :
  total_units (o :: os) = (units (so_quantity o) + total_units os)%Z.
Proof. done. Qed.

Lemma total_units_app os1 os2 :
  total_units (os1 ++ os2) = (total_units os1 + total_units os2)%Z.
Proof. induction os1; simpl; [done|]. rewrite IHos1. lia. Qed.

Lemma crossed_Exists s :
  crossed s ↔ Exists (λ b, Exists (λ a, so_side b = Buy ∧ so_side a = Sell ∧
    (ticks (so_price a) < ticks (so_price b))%Z) (sb_orders s)) (sb_orders s).
Proof.
  unfold crossed. rewrite Exists_exists. split.
  - intros (b & a & Hb & Ha & H). exists b. split; [done|]. apply Exists_exists. eauto.
  - intros (b & Hb & (a & Ha & H)%Exists_exists). eauto 10.
Qed.

#[export] Instance crossed_dec s : Decision (crossed s).
Proof.
  destruct (decide (Exists (λ b, Exists (λ a, so_side b = Buy ∧ so_side a = Sell ∧
    (ticks (so_price a) < ticks (so_price b))%Z) (sb_orders s)) (sb_orders s)));
    [left|right]; by rewrite crossed_Exists.
Defined.

(** The front of a side is its best price. *)
Lemma level_prices_best side os p ps :
  level_prices side os = p :: ps → ∀ p', p' ∈ ps → side_before side p p' = true.
Proof.
  intros Hl. pose proof (level_prices_sorted side os) as Hs. unfold sorted in Hs.
  change ((foldr _ _ _).*1) with (level_prices side os) in Hs. rewrite Hl in Hs.
  apply StronglySorted_inv in Hs as [_ Hf]. by apply Forall_forall.
Qed.

(** A book is crossed exactly when its best bid is above its best ask. *)
Definition best_crossed (bids asks : list Z) : bool :=
  match head bids, head asks with
  | Some bid, Some ask => (ask <? bid)%Z
  | _, _ => false
  end.

Lemma level_price_of os o : o ∈ os → ticks (so_price o) ∈ level_prices (so_side o) os.
Proof. intros Ho. apply elem_of_level_prices. by exists o. Qed.

Lemma best_price_bound side os p ps o :
  level_prices side os = p :: ps → o ∈ os → so_side o = side →
  ticks (so_price o) = p ∨ side_before side p (ticks (so_price o)) = true.
Proof.
  intros Hl Ho <-. pose proof (level_price_of os o Ho) as Hp. rewrite Hl in Hp.
  apply elem_of_cons in Hp as [->|Hp]; [by left|right]. by eapply level_prices_best.
Qed.

Lemma best_price_order side os p ps :
  level_prices side os = p :: ps → ∃ o, o ∈ os ∧ so_side o = side ∧ ticks (so_price o) = p.
Proof.
  intros Hl. assert (p ∈ level_prices side os) as (o & ? & ? & ?)%elem_of_level_prices
    by (rewrite Hl; by left). eauto.
Qed.

Lemma best_prices_crossed s :
  best_crossed (level_prices Buy (sb_orders s)) (level_prices Sell (sb_orders s)) = true ↔ crossed s.
Proof.
  unfold best_crossed, crossed. split.
  - destruct (level_prices Buy _) as [|bp bps] eqn:Hb; [done|].
    destruct (level_prices Sell _) as [|ap aps] eqn:Ha; [done|]. simpl. intros Hlt%Z.ltb_lt.
    destruct (best_price_order _ _ _ _ Hb) as (b & ? & ? & <-).
    destruct (best_price_order _ _ _ _ Ha) as (a & ? & ? & <-). eauto 10.
  - intros (b & a & Hinb & Hina & Hsb & Hsa & Hlt).
    pose proof (level_price_of _ _ Hinb) as Hpb. pose proof (level_price_of _ _ Hina) as Hpa.
    rewrite Hsb in Hpb. rewrite Hsa in Hpa.
    destruct (level_prices Buy _) as [|bp bps] eqn:Hb; [by apply not_elem_of_nil in Hpb|].
    destruct (level_prices Sell _) as [|ap aps] eqn:Ha; [by apply not_elem_of_nil in Hpa|].
    destruct (best_price_bound _ _ _ _ b Hb) as [Hb1|Hb1], (best_price_bound _ _ _ _ a Ha) as [Ha1|Ha1];
      try done; simpl in *; unfold greater, less in *; lia.
Qed.

(** ** The interface of an order book

    The public operations of [LimitOrderBook] and [PooledLimitOrderBook]. *)
Class OrderBook (B : Type) : Type := {
  ob_apply : MarketEvent → B → Exec (BookResult * B);
  ob_clear : B → B;
  ob_top_of_book : B → TopOfBook;
  ob_depth : Z → B → BookDepth;
  ob_snapshot : B → Exec BookSnapshot;
  ob_order_ids_at_price : Side → Price → B → Exec (list OrderId);
  ob_validate_invariants : InvariantOptions → B → Exec bool;
  ob_events_applied : B → Z;
  ob_live_order_count : B → Z
}.

(** What an implementation promises: it is the specification seen through
    [represents], for every operation, on every branch, without [UB]. *)
Class OrderBookLaws (B : Type) `{OrderBook B} (capacity : option nat)
    (represents : B → SpecBook → Prop) : Prop := {
  law_wf b s : represents b s → spec_wf s;
  law_apply e b s :
    quantity_wf (ev_quantity e) → represents b s →
    ∃ b', ob_apply e b = Ret ((spec_apply capacity e s).1, b') ∧
          represents b' (spec_apply capacity e s).2;
  law_clear b s : represents b s → represents (ob_clear b) spec_empty;
  law_top_of_book b s : represents b s → ob_top_of_book b = spec_top s;
  law_depth levels b s : represents b s → ob_depth levels b = spec_depth levels s;
  law_snapshot b s : represents b s → ob_snapshot b = Ret (spec_snapshot s);
  law_order_ids side price b s :
    represents b s → ob_order_ids_at_price side price b = Ret (spec_order_ids side price s);
  law_validate opts b s :
    represents b s →
    ob_validate_invariants opts b
    = Ret (bool_decide (allow_crossed_book opts = true ∨ ¬ crossed s));
  law_events_applied b s : represents b s → ob_events_applied b = sb_events s;
  law_live_order_count b s :
    represents b s → ob_live_order_count b = Z.of_nat (length (sb_orders s))
}.

(** Applying a stream of events, as the replay loop, the tests and the queue
    consumer do. *)
Fixpoint apply_all `{OrderBook B} (events : list MarketEvent) (b : B)
    : Exec (list BookResult * B) :=
  match events with
  | [] => Ret ([], b)
  | e :: events' =>
      '(r, b) ← ob_apply e b;
      '(rs, b) ← apply_all events' b;
      Ret (r :: rs, b)
  end.

Fixpoint spec_apply_all (capacity : option nat) (events : list MarketEvent) (s : SpecBook)
    : list BookResult * SpecBook :=
  match events with
  | [] => ([], s)
  | e :: events' =>
      let r := spec_apply capacity e s in
      let rs := spec_apply_all capacity events' r.2 in
      (r.1 :: rs.1, rs.2)
  end.

Lemma apply_all_refines `{OrderBookLaws B capacity rep} events b s :
  Forall (λ e, quantity_wf (ev_quantity e)) events → rep b s →
  ∃ b', apply_all events b = Ret ((spec_apply_all capacity events s).1, b') ∧
        rep b' (spec_apply_all capacity events s).2.
Proof.
  intros Hev. revert b s. induction Hev as [|e events He Hev IH]; intros b s Hb; simpl; [eauto|].
  destruct (law_apply e b s He Hb) as (b1 & Ha & Hb1). rewrite Ha. simpl.
  destruct (IH b1 _ Hb1) as (b2 & Ha2 & Hb2). rewrite Ha2. simpl. eauto.
Qed.
