(* ===== verification/TaggedOrders.v ===== *)
(** * Live orders with an implementation tag

    Both books keep, per live order, a handle into their own storage (a list
    node, a pool index).  A concrete book is described by the list of live
    orders in arrival order, each with its handle; this file computes the
    containers such a list determines (the sorted price levels of a side, the
    id lookup) and how they change when an order is appended, removed or
    resized.  Both refinement proofs are these lemmas applied to their own
    level and record types. *)
From S2P Require Import Prelude CoreTypes OrderedMap BookTypes BookSpec.

Section tagged.
Context {T : Type}.
Implicit Types (g : list (T * SpecOrder)) (side : Side) (p : Z) (id : OrderId).

Definition tqueue side p g : list (T * SpecOrder) :=
  filter (λ x, at_level side p x.2) g.

Definition tremove id g : list (T * SpecOrder) :=
  filter (λ x, ¬ has_id id x.2) g.

Definition tupdate id (q : Quantity) g : list (T * SpecOrder) :=
  (λ x, (x.1, if decide (has_id id x.2) then set_quantity q x.2 else x.2)) <$> g.

Definition ids g : list OrderId := so_id <$> g.*2.

(** *** The underlying specification list *)

Lemma tqueue_snd side p g : (tqueue side p g).*2 = queue_at side p g.*2.
Proof. apply (filter_fmap snd (at_level side p)). Qed.

Lemma tremove_snd id g : (tremove id g).*2 = remove_order id g.*2.
Proof. unfold tremove, remove_order. by rewrite <-filter_fmap. Qed.

Lemma tupdate_snd id q g : (tupdate id q g).*2 = update_order id q g.*2.
Proof. unfold tupdate, update_order. by rewrite <-!list_fmap_compose. Qed.

Lemma tupdate_fst id q g : (tupdate id q g).*1 = g.*1.
Proof. unfold tupdate. by rewrite <-list_fmap_compose. Qed.

Lemma elem_of_tqueue side p g x : x ∈ tqueue side p g ↔ x ∈ g ∧ at_level side p x.2.
Proof. unfold tqueue. rewrite list_elem_of_filter. tauto. Qed.

Lemma tqueue_nil side p g : tqueue side p g = [] ↔ p ∉ level_prices side g.*2.
Proof.
  rewrite <-queue_at_nil, <-tqueue_snd.
  split; [by intros ->|]. apply fmap_nil_inv.
Qed.

Lemma tqueue_app side p g t o :
  tqueue side p (g ++ [(t, o)])
  = tqueue side p g ++ (if decide (at_level side p o) then [(t, o)] else []).
Proof. unfold tqueue. by rewrite filter_app, filter_cons. Qed.

Lemma tqueue_remove side p id g : tqueue side p (tremove id g) = tremove id (tqueue side p g).
Proof. apply filter_comm. Qed.

Lemma tqueue_update side p id q g : tqueue side p (tupdate id q g) = tupdate id q (tqueue side p g).
Proof.
  unfold tqueue, tupdate. rewrite <-filter_fmap. f_equal.
  apply filter_ext. intros [t o] _. simpl. unfold at_level. by case_decide.
Qed.

(** Removing or resizing an order that is not in a queue leaves it alone. *)
Lemma tremove_absent id g : id ∉ ids g → tremove id g = g.
Proof.
  intros Hn. apply filter_all, Forall_forall. intros x Hx Hid. apply Hn.
  unfold ids. rewrite <-list_fmap_compose. apply list_elem_of_fmap. by exists x.
Qed.

Lemma tupdate_absent id q g : id ∉ ids g → tupdate id q g = g.
Proof.
  intros Hn. unfold tupdate. rewrite <-(list_fmap_id g) at 2.
  apply list_fmap_ext. intros i [t o] Hi. simpl. rewrite decide_False; [done|].
  intros Hid. apply Hn. unfold ids. rewrite <-list_fmap_compose.
  apply list_elem_of_fmap. exists (t, o). split; [done|]. by eapply list_elem_of_lookup_2.
Qed.

Lemma elem_of_ids g x : x ∈ g → so_id x.2 ∈ ids g.
Proof.
  intros Hx. unfold ids. rewrite <-list_fmap_compose. apply list_elem_of_fmap. by exists x.
Qed.

Lemma ids_eq g : ids g = so_id ∘ snd <$> g.
Proof. unfold ids. by rewrite <-list_fmap_compose. Qed.

Lemma ids_inj g x y : NoDup (ids g) → x ∈ g → y ∈ g → so_id x.2 = so_id y.2 → x = y.
Proof. rewrite ids_eq. apply (NoDup_fmap_inj (so_id ∘ snd)). Qed.

Lemma ids_other_queue g x side p :
  NoDup (ids g) → x ∈ g → ¬ at_level side p x.2 → so_id x.2 ∉ ids (tqueue side p g).
Proof.
  intros Hnd Hx Hat. rewrite ids_eq. intros (y & Hy & [Hin Hl]%elem_of_tqueue)%list_elem_of_fmap.
  destruct Hat. by rewrite (ids_inj g x y).
Qed.

Lemma order_id_eta id : MkOrderId (value id) = id.
Proof. by destruct id. Qed.

Lemma value_ids_NoDup g : NoDup (ids g) → NoDup (value <$> ids g).
Proof. apply NoDup_fmap_2. by intros [a] [b] [= ->]. Qed.

Lemma ids_remove id g : ids (tremove id g) = filter (λ i, i ≠ id) (ids g).
Proof. unfold ids. by rewrite tremove_snd, remove_order_ids. Qed.

Lemma ids_update id q g : ids (tupdate id q g) = ids g.
Proof. unfold ids. by rewrite tupdate_snd, update_order_ids. Qed.

(** The order an id names, with its handle. *)
Lemma find_order_tagged g id o :
  find_order id g.*2 = Some o → ∃ t, (t, o) ∈ g ∧ so_id o = id.
Proof.
  intros [Hin Hid]%find_order_Some. apply list_elem_of_fmap in Hin as ([t o'] & -> & ?). eauto.
Qed.

End tagged.

Arguments tqueue {T} side p g.
Arguments tremove {T} id g.
Arguments tupdate {T} id q g.
Arguments ids {T} g.

Section tagged_levels.
Context {T L : Type} (mk_level : list (T * SpecOrder) → L).
Implicit Types (g : list (T * SpecOrder)) (side : Side) (p : Z) (id : OrderId).

Definition levels_of side g : list (Z * L) :=
  (λ p, (p, mk_level (tqueue side p g))) <$> level_prices side g.*2.

(** What a book does to a side when the queue at [p] becomes [q]. *)
Definition put_level side p (q : list (T * SpecOrder)) (m : list (Z * L)) : list (Z * L) :=
  match q with
  | [] => erase (side_before side) p m
  | _ => insert_or_assign (side_before side) p (mk_level q) m
  end.

(** *** Levels *)

Lemma levels_of_keys side g : (levels_of side g).*1 = level_prices side g.*2.
Proof. unfold levels_of. rewrite <-list_fmap_compose. apply list_fmap_id. Qed.

Lemma levels_of_sorted side g : sorted (side_before side) (levels_of side g).
Proof. unfold sorted. rewrite levels_of_keys. apply level_prices_sorted. Qed.

Lemma find_levels_of side p g :
  find (side_before side) p (levels_of side g)
  = match tqueue side p g with [] => None | q => Some (mk_level q) end.
Proof.
  destruct (decide (p ∈ level_prices side g.*2)) as [Hin|Hnin].
  - assert (tqueue side p g ≠ []) as Hne by (rewrite tqueue_nil; tauto).
    transitivity (Some (mk_level (tqueue side p g))); [|by case_match].
    apply elem_find_Some; [apply levels_of_sorted|].
    unfold levels_of. apply list_elem_of_fmap. eauto.
  - rewrite (proj2 (tqueue_nil side p g) Hnin).
    destruct (find _ _ _) eqn:E; [|done]. apply find_Some_elem in E.
    destruct Hnin. rewrite <-levels_of_keys. by apply (list_elem_of_fmap_2 fst) in E.
Qed.

Lemma find_levels_of_elem side g x :
  x ∈ g → so_side x.2 = side →
  find (side_before side) (ticks (so_price x.2)) (levels_of side g)
  = Some (mk_level (tqueue side (ticks (so_price x.2)) g)).
Proof.
  intros Hx Hs. rewrite find_levels_of.
  assert (x ∈ tqueue side (ticks (so_price x.2)) g) as Hin
    by by apply elem_of_tqueue.
  case_match; [set_solver|done].
Qed.

(** The containers are determined by their lookups. *)
Lemma levels_of_unique side g m :
  sorted (side_before side) m →
  (∀ p, find (side_before side) p m
        = match tqueue side p g with [] => None | q => Some (mk_level q) end) →
  m = levels_of side g.
Proof.
  intros Hs Hf. eapply sorted_ext; [done|apply levels_of_sorted|].
  intros p. by rewrite Hf, find_levels_of.
Qed.

(** Appending an order touches exactly its own level. *)
Lemma levels_of_add side g t o :
  levels_of side (g ++ [(t, o)])
  = if decide (so_side o = side)
    then insert_or_assign (side_before side) (ticks (so_price o))
           (mk_level (tqueue side (ticks (so_price o)) g ++ [(t, o)])) (levels_of side g)
    else levels_of side g.
Proof.
  symmetry. apply levels_of_unique.
  - case_decide; [apply sorted_insert|]; apply levels_of_sorted.
  - intros p. rewrite tqueue_app. unfold at_level.
    destruct (decide (so_side o = side)) as [Hs|Hs].
    + rewrite find_insert, find_levels_of. case_decide as Hp.
      * subst p. rewrite decide_True by done. by destruct (tqueue _ _ _).
      * rewrite decide_False by tauto. by rewrite app_nil_r.
    + rewrite decide_False by tauto. by rewrite app_nil_r, find_levels_of.
Qed.

(** Replacing the queue of one level, erasing the level when it empties. *)
Lemma levels_of_change side g g' o q :
  q = tqueue side (ticks (so_price o)) g' →
  (∀ p, ¬ at_level side p o → tqueue side p g' = tqueue side p g) →
  levels_of side g'
  = if decide (so_side o = side)
    then put_level side (ticks (so_price o)) q (levels_of side g)
    else levels_of side g.
Proof.
  intros Hq Hother. unfold put_level. symmetry. apply levels_of_unique.
  - repeat case_match; try apply sorted_insert; try apply sorted_erase; apply levels_of_sorted.
  - intros p. destruct (decide (so_side o = side)) as [Hs|Hs].
    + destruct (decide (ticks (so_price o) = p)) as [Hp|Hp].
      * subst p. rewrite <-Hq. destruct q; rewrite ?find_insert_eq, ?find_erase_eq;
          eauto using levels_of_sorted.
      * rewrite Hother by (intros []; done).
        destruct q; rewrite ?find_insert_ne, ?find_erase_ne, ?find_levels_of;
          eauto using levels_of_sorted.
    + rewrite Hother by (intros []; done). apply find_levels_of.
Qed.

Lemma levels_of_remove side g x :
  NoDup (ids g) → x ∈ g →
  levels_of side (tremove (so_id x.2) g)
  = if decide (so_side x.2 = side)
    then put_level side (ticks (so_price x.2))
           (tremove (so_id x.2) (tqueue side (ticks (so_price x.2)) g)) (levels_of side g)
    else levels_of side g.
Proof.
  intros Hnd Hx. apply levels_of_change; [by rewrite tqueue_remove|].
  intros p Hp. rewrite tqueue_remove. apply tremove_absent. by apply ids_other_queue.
Qed.

Lemma levels_of_update side g x q :
  NoDup (ids g) → x ∈ g →
  levels_of side (tupdate (so_id x.2) q g)
  = if decide (so_side x.2 = side)
    then insert_or_assign (side_before side) (ticks (so_price x.2))
           (mk_level (tupdate (so_id x.2) q (tqueue side (ticks (so_price x.2)) g)))
           (levels_of side g)
    else levels_of side g.
Proof.
  intros Hnd Hx.
  rewrite (levels_of_change side g _ x.2 (tupdate (so_id x.2) q (tqueue side (ticks (so_price x.2)) g))).
  - case_decide as Hs; [|done]. unfold put_level.
    assert (x ∈ tqueue side (ticks (so_price x.2)) g) as Hin by by apply elem_of_tqueue.
    destruct (tqueue _ _ _); [set_solver|done].
  - by rewrite tqueue_update.
  - intros p Hp. rewrite tqueue_update. apply tupdate_absent. by apply ids_other_queue.
Qed.

End tagged_levels.

Section tagged_lookup.
Context {T R : Type} (mk_record : T → SpecOrder → R).
Implicit Types (g : list (T * SpecOrder)) (id : OrderId).

Definition lookup_of g : gmap Z R :=
  list_to_map ((λ x, (value (so_id x.2), mk_record x.1 x.2)) <$> g).

(** *** Lookup *)

Lemma lookup_of_keys g : ((λ x, (value (so_id x.2), mk_record x.1 x.2)) <$> g).*1 = value <$> ids g.
Proof. unfold ids. by rewrite <-!list_fmap_compose. Qed.

Lemma lookup_of_Some g i r :
  NoDup (ids g) →
  lookup_of g !! i = Some r ↔ ∃ x, x ∈ g ∧ value (so_id x.2) = i ∧ mk_record x.1 x.2 = r.
Proof.
  intros Hnd. unfold lookup_of. rewrite <-elem_of_list_to_map.
  - rewrite list_elem_of_fmap. naive_solver.
  - rewrite lookup_of_keys. by apply value_ids_NoDup.
Qed.

Lemma lookup_of_elem g x :
  NoDup (ids g) → x ∈ g → lookup_of g !! value (so_id x.2) = Some (mk_record x.1 x.2).
Proof. intros Hnd Hx. apply lookup_of_Some; eauto. Qed.

Lemma lookup_of_None g i : lookup_of g !! i = None ↔ MkOrderId i ∉ ids g.
Proof.
  unfold lookup_of. rewrite <-not_elem_of_list_to_map, lookup_of_keys.
  rewrite list_elem_of_fmap. split.
  - intros Hn Hin. apply Hn. by exists (MkOrderId i).
  - intros Hn ([j] & -> & Hin). done.
Qed.

Lemma lookup_of_add g t o :
  so_id o ∉ ids g → lookup_of (g ++ [(t, o)]) = <[value (so_id o) := mk_record t o]> (lookup_of g).
Proof.
  intros Hn. unfold lookup_of. rewrite fmap_app. simpl. apply list_to_map_snoc.
  rewrite lookup_of_keys. intros ([j] & Hv & Hin)%list_elem_of_fmap.
  simpl in Hv. subst j. by rewrite order_id_eta in Hin.
Qed.

Lemma lookup_of_remove g id :
  NoDup (ids g) → lookup_of (tremove id g) = delete (value id) (lookup_of g).
Proof.
  intros Hnd. assert (NoDup (ids (tremove id g))) as Hnd'.
  { rewrite ids_remove. by apply NoDup_filter. }
  apply map_eq. intros i. apply option_eq. intros r.
  rewrite lookup_delete_Some, !lookup_of_Some by done.
  unfold tremove, has_id. setoid_rewrite list_elem_of_filter. split.
  - intros (x & [Hid Hx] & <- & <-). split; [|eauto]. intros Heq. apply Hid.
    destruct (so_id x.2), id; naive_solver.
  - intros [Hi (x & Hx & <- & <-)]. exists x. split; [|done]. split; [|done].
    by intros <-.
Qed.

Lemma lookup_of_update g x q :
  NoDup (ids g) → x ∈ g →
  lookup_of (tupdate (so_id x.2) q g)
  = <[value (so_id x.2) := mk_record x.1 (set_quantity q x.2)]> (lookup_of g).
Proof.
  intros Hnd Hx. apply map_eq. intros i. apply option_eq. intros r.
  rewrite lookup_insert_Some, !lookup_of_Some by by rewrite ?ids_update.
  unfold tupdate. setoid_rewrite list_elem_of_fmap. split.
  - intros (y' & (y & -> & Hy) & <- & <-). simpl. case_decide as Hid; simpl.
    + left. by rewrite (ids_inj g x y).
    + right. split; [|eauto]. intros Heq. apply Hid. unfold has_id.
      destruct (so_id x.2), (so_id y.2); naive_solver.
  - intros [[<- <-]|[Hi (y & Hy & <- & <-)]].
    + eexists. split; [by exists x|]. simpl. by rewrite decide_True.
    + eexists. split; [by exists y|]. simpl. rewrite decide_False; [done|].
      unfold has_id. intros Heq; by rewrite Heq in Hi.
Qed.

Lemma lookup_of_size g : NoDup (ids g) → size (lookup_of g) = length g.
Proof.
  intros Hnd. unfold lookup_of. rewrite map_size_list_to_map.
  - apply length_fmap.
  - rewrite lookup_of_keys. by apply value_ids_NoDup.
Qed.

End tagged_lookup.

(** *** Aggregate quantity of a queue *)

Lemma tremove_cons_eq {T} (x : T * SpecOrder) g :
  so_id x.2 ∉ ids g → tremove (so_id x.2) (x :: g) = g.
Proof.
  intros Hn. unfold tremove. rewrite filter_cons, decide_False by (intros Hc; by apply Hc).
  by apply tremove_absent.
Qed.

Lemma tremove_cons_ne {T} id (x : T * SpecOrder) g :
  so_id x.2 ≠ id → tremove id (x :: g) = x :: tremove id g.
Proof. intros Hn. unfold tremove. by rewrite filter_cons, decide_True. Qed.

Lemma tupdate_cons_eq {T} (x : T * SpecOrder) q g :
  so_id x.2 ∉ ids g → tupdate (so_id x.2) q (x :: g) = (x.1, set_quantity q x.2) :: g.
Proof.
  intros Hn. unfold tupdate. rewrite fmap_cons, decide_True by done.
  f_equal. by apply tupdate_absent.
Qed.

Lemma tupdate_cons_ne {T} id (x : T * SpecOrder) q g :
  so_id x.2 ≠ id → tupdate id q (x :: g) = x :: tupdate id q g.
Proof. intros Hn. unfold tupdate. rewrite fmap_cons, decide_False by done. by destruct x. Qed.

Lemma ids_cons {T} (x : T * SpecOrder) g : ids (x :: g) = so_id x.2 :: ids g.
Proof. done. Qed.

(** Induction over a queue that holds [x], on where [x] is. *)
Lemma queue_elem_ind {T} (x : T * SpecOrder) (P : list (T * SpecOrder) → Prop) :
  (∀ g, so_id x.2 ∉ ids g → P (x :: g)) →
  (∀ y g, so_id y.2 ≠ so_id x.2 → so_id y.2 ∉ ids g → x ∈ g → NoDup (ids g) →
          P g → P (y :: g)) →
  ∀ g, NoDup (ids g) → x ∈ g → P g.
Proof.
  intros Hhere Hthere g. induction g as [|y g IH]; [set_solver|].
  rewrite ids_cons, NoDup_cons. intros [Hy Hnd] [->|Hx]%elem_of_cons; [auto|].
  apply Hthere; auto. intros Heq. rewrite Heq in Hy. destruct Hy. by apply elem_of_ids.
Qed.

Lemma total_tremove {T} (g : list (T * SpecOrder)) x :
  NoDup (ids g) → x ∈ g →
  total_units (tremove (so_id x.2) g).*2 = (total_units g.*2 - units (so_quantity x.2))%Z.
Proof.
  revert g. refine (queue_elem_ind x _ _ _).
  - intros g Hn. rewrite tremove_cons_eq, !fmap_cons, !total_units_cons by done. lia.
  - intros y g Hne _ _ _ IH. rewrite tremove_cons_ne by done. rewrite !fmap_cons, !total_units_cons. simpl. lia.
Qed.

Lemma total_tupdate {T} (g : list (T * SpecOrder)) x q :
  NoDup (ids g) → x ∈ g →
  total_units (tupdate (so_id x.2) q g).*2
  = (total_units g.*2 - units (so_quantity x.2) + units q)%Z.
Proof.
  revert g. refine (queue_elem_ind x _ _ _).
  - intros g Hn. rewrite tupdate_cons_eq by done. rewrite !fmap_cons, !total_units_cons. simpl. lia.
  - intros y g Hne _ _ _ IH. rewrite tupdate_cons_ne by done. rewrite !fmap_cons, !total_units_cons. simpl. lia.
Qed.

Lemma ids_tqueue_NoDup {T} side p (g : list (T * SpecOrder)) :
  NoDup (ids g) → NoDup (ids (tqueue side p g)).
Proof. rewrite !ids_eq. apply NoDup_fmap_filter. Qed.

(** Splitting a queue at an order. *)
Lemma ids_app {T} (g1 g2 : list (T * SpecOrder)) : ids (g1 ++ g2) = ids g1 ++ ids g2.
Proof. unfold ids. by rewrite !fmap_app. Qed.

Lemma ids_split {T} (q1 q2 : list (T * SpecOrder)) x :
  NoDup (ids (q1 ++ x :: q2)) → (so_id x.2 ∉ ids q1) ∧ (so_id x.2 ∉ ids q2).
Proof.
  rewrite ids_app, ids_cons. intros (_ & Hdis & [Hx _]%NoDup_cons)%NoDup_app. split; [|done].
  intros Hc. apply (Hdis _ Hc). by left.
Qed.

Lemma tremove_split {T} (q1 q2 : list (T * SpecOrder)) x :
  NoDup (ids (q1 ++ x :: q2)) → tremove (so_id x.2) (q1 ++ x :: q2) = (q1 ++ q2).
Proof.
  intros [H1 H2]%ids_split. unfold tremove. rewrite filter_app.
  fold (tremove (so_id x.2) q1) (tremove (so_id x.2) (x :: q2)).
  by rewrite tremove_cons_eq, tremove_absent.
Qed.

Lemma tupdate_split {T} (q1 q2 : list (T * SpecOrder)) x q :
  NoDup (ids (q1 ++ x :: q2)) →
  tupdate (so_id x.2) q (q1 ++ x :: q2) = (q1 ++ (x.1, set_quantity q x.2) :: q2).
Proof.
  intros [H1 H2]%ids_split. unfold tupdate. rewrite fmap_app.
  fold (tupdate (so_id x.2) q q1) (tupdate (so_id x.2) q (x :: q2)).
  by rewrite tupdate_cons_eq, tupdate_absent.
Qed.

(** The level an order belongs to, and the levels it does not. *)
Definition level_of {T} (x : T * SpecOrder) (g : list (T * SpecOrder)) : list (T * SpecOrder) :=
  tqueue (so_side x.2) (ticks (so_price x.2)) g.

Lemma elem_of_level_of {T} (x : T * SpecOrder) g : x ∈ g → x ∈ level_of x g.
Proof. intros Hx. by apply elem_of_tqueue. Qed.

Lemma level_of_NoDup {T} (x : T * SpecOrder) g : NoDup (ids g) → NoDup (ids (level_of x g)).
Proof. apply ids_tqueue_NoDup. Qed.

Lemma other_level_remove {T} (g : list (T * SpecOrder)) x side p :
  NoDup (ids g) → x ∈ g → (side, p) ≠ (so_side x.2, ticks (so_price x.2)) →
  tqueue side p (tremove (so_id x.2) g) = tqueue side p g.
Proof.
  intros Hnd Hx Hne. rewrite tqueue_remove. apply tremove_absent, ids_other_queue; [done..|].
  intros [<- <-]. done.
Qed.

Lemma other_level_update {T} (g : list (T * SpecOrder)) x q side p :
  NoDup (ids g) → x ∈ g → (side, p) ≠ (so_side x.2, ticks (so_price x.2)) →
  tqueue side p (tupdate (so_id x.2) q g) = tqueue side p g.
Proof.
  intros Hnd Hx Hne. rewrite tqueue_update. apply tupdate_absent, ids_other_queue; [done..|].
  intros [<- <-]. done.
Qed.

#[export] Hint Resolve elem_of_level_of level_of_NoDup : machine.

(** *** All orders, level by level

    The traversal order of the invariant checkers: a permutation of the live
    orders. *)
Definition side_orders {T} (side : Side) (g : list (T * SpecOrder)) : list (T * SpecOrder) :=
  level_prices side g.*2 ≫= λ p, tqueue side p g.

Lemma ids_NoDup_orders {T} (g : list (T * SpecOrder)) : NoDup (ids g) → NoDup g.
Proof. rewrite ids_eq. apply NoDup_fmap_1. Qed.

Lemma elem_of_side_orders {T} side (g : list (T * SpecOrder)) x :
  x ∈ side_orders side g ↔ x ∈ g ∧ so_side x.2 = side.
Proof.
  unfold side_orders. rewrite list_elem_of_bind. setoid_rewrite elem_of_tqueue.
  setoid_rewrite elem_of_level_prices. unfold at_level. split; [naive_solver|].
  intros [Hx Hs]. exists (ticks (so_price x.2)). split; [done|]. exists x.2.
  split; [by apply list_elem_of_fmap_2|done].
Qed.

Lemma level_prices_NoDup side os : NoDup (level_prices side os).
Proof. apply (sorted_NoDup (before:=side_before side)), level_prices_sorted. Qed.

Lemma all_orders_permutation {T} (g : list (T * SpecOrder)) :
  NoDup (ids g) → side_orders Buy g ++ side_orders Sell g ≡ₚ g.
Proof.
  intros Hnd. assert (∀ side, NoDup (side_orders side g)) as Hside.
  { intros side. apply NoDup_bind.
    - intros p1 p2 x _ _ [_ [_ <-]]%elem_of_tqueue [_ [_ <-]]%elem_of_tqueue. done.
    - intros p _. by apply NoDup_filter, ids_NoDup_orders.
    - apply level_prices_NoDup. }
  apply NoDup_Permutation.
  - apply NoDup_app. split_and!; [done| |done].
    intros x. rewrite !elem_of_side_orders. intros [_ ->] [_ ?]. done.
  - by apply ids_NoDup_orders.
  - intros x. rewrite elem_of_app, !elem_of_side_orders. destruct (so_side x.2); tauto.
Qed.

(** The checkers record the ids they visit in a set. *)
Definition id_set {T} (q : list (T * SpecOrder)) : gset Z := list_to_set (value <$> ids q).

Lemma elem_of_id_set {T} (q : list (T * SpecOrder)) i :
  i ∈ id_set q ↔ ∃ x, x ∈ q ∧ value (so_id x.2) = i.
Proof.
  unfold id_set. rewrite elem_of_list_to_set, ids_eq, <-list_fmap_compose, list_elem_of_fmap.
  simpl. naive_solver.
Qed.

Lemma id_set_app {T} (q1 q2 : list (T * SpecOrder)) : id_set (q1 ++ q2) = id_set q1 ∪ id_set q2.
Proof. unfold id_set. by rewrite ids_app, fmap_app, list_to_set_app_L. Qed.

Lemma id_set_perm {T} (q1 q2 : list (T * SpecOrder)) : q1 ≡ₚ q2 → id_set q1 = id_set q2.
Proof. intros Hp. apply set_eq. intros i. rewrite !elem_of_id_set. by setoid_rewrite Hp. Qed.

Lemma value_id_inj {T} (g : list (T * SpecOrder)) x y :
  NoDup (ids g) → x ∈ g → y ∈ g → value (so_id x.2) = value (so_id y.2) → x = y.
Proof.
  intros Hnd Hx Hy Hv. apply (ids_inj g); [done..|].
  destruct (so_id x.2), (so_id y.2). simpl in Hv. by f_equal.
Qed.

Lemma id_set_dom {T R} (mk_record : T → SpecOrder → R) g :
  NoDup (ids g) → id_set g = dom (lookup_of mk_record g).
Proof.
  intros Hnd. apply set_eq. intros i. rewrite elem_of_id_set, elem_of_dom. split.
  - intros (x & Hx & <-). rewrite lookup_of_elem by done. eauto.
  - intros [r (x & Hx & Hi & _)%lookup_of_Some]; eauto.
Qed.
