(* ===== verification/Book.v ===== *)
(** * The baseline order book

    Models the class [LimitOrderBook] of
    [include/datagine/book/limit_order_book.hpp] and
    [src/book/limit_order_book.cpp], operation by operation.

    A [std::list] is a sequence of nodes, each with an address; an iterator is
    an address.  [next_node_] supplies fresh addresses, so an iterator kept in
    an [OrderRecord] names one node as long as that node is linked, and using
    it after the node is gone is [UB].  Writing through an iterator and
    [list::erase] look the node up in the list of the level the code has just
    reached; an iterator into any other list counts as [UB] too.  A
    [PriceLevel*] is the level found, written back by [store_level].
    Allocation failure is not modelled ([reserve] has no observable effect). *)
From S2P Require Import Prelude CoreTypes OrderedMap BookTypes.

Module LimitOrderBook.

Record Stats : Type := MkStats { events_applied_ : Z }.

Record OrderEntry : Type := MkOrderEntry {
  order_id : OrderId;
  timestamp : Timestamp;
  quantity : Quantity
}.

(** Iterators are node addresses. *)
Abbreviation OrderIterator := Z (only parsing).
Abbreviation OrderQueue := (list (Z * OrderEntry)) (only parsing).

Record PriceLevel : Type := MkPriceLevel {
  total_quantity : Quantity;
  orders : OrderQueue
}.

(** [PriceLevel{}], what [operator[]] links for a missing price. *)
Definition empty_level : PriceLevel := MkPriceLevel (MkQuantity 0) [].

Record OrderRecord : Type := MkOrderRecord {
  r_side : Side;
  r_price : Price;
  r_timestamp : Timestamp;
  r_quantity : Quantity;
  r_iterator : OrderIterator
}.

Record LimitOrderBook : Type := MkBook {
  bid_levels_ : list (Z * PriceLevel);
  ask_levels_ : list (Z * PriceLevel);
  order_lookup_ : gmap Z OrderRecord;
  stats_ : Stats;
  next_node_ : Z
}.

(** A default-constructed book. *)
Definition empty_book : LimitOrderBook := MkBook [] [] ∅ (MkStats 0) 0.

Definition set_lookup (m : gmap Z OrderRecord) (b : LimitOrderBook) : LimitOrderBook :=
  MkBook (bid_levels_ b) (ask_levels_ b) m (stats_ b) (next_node_ b).

(** [++stats_.events_applied]. *)
Definition count_event (b : LimitOrderBook) : LimitOrderBook :=
  MkBook (bid_levels_ b) (ask_levels_ b) (order_lookup_ b)
    (MkStats (add64 (events_applied_ (stats_ b)) 1)) (next_node_ b).

Definition set_bids (m : list (Z * PriceLevel)) (b : LimitOrderBook) : LimitOrderBook :=
  MkBook m (ask_levels_ b) (order_lookup_ b) (stats_ b) (next_node_ b).

Definition set_asks (m : list (Z * PriceLevel)) (b : LimitOrderBook) : LimitOrderBook :=
  MkBook (bid_levels_ b) m (order_lookup_ b) (stats_ b) (next_node_ b).

Definition find_level (side : Side) (price : Price) (b : LimitOrderBook) : option PriceLevel :=
  match side with
  | Buy => find greater (ticks price) (bid_levels_ b)
  | Sell => find less (ticks price) (ask_levels_ b)
  end.

(** Writing through the pointer [find_level] or [operator[]] returned. *)
Definition store_level (side : Side) (price : Price) (level : PriceLevel) (b : LimitOrderBook)
    : LimitOrderBook :=
  match side with
  | Buy => set_bids (insert_or_assign greater (ticks price) level (bid_levels_ b)) b
  | Sell => set_asks (insert_or_assign less (ticks price) level (ask_levels_ b)) b
  end.

(** [queue.erase(it)]. *)
Fixpoint queue_erase (it : OrderIterator) (q : OrderQueue) : Exec OrderQueue :=
  match q with
  | [] => UB
  | (node, entry) :: q' =>
      if decide (node = it) then Ret q'
      else rest ← queue_erase it q'; Ret ((node, entry) :: rest)
  end.

(** [it->quantity = q]. *)
Fixpoint queue_set_quantity (it : OrderIterator) (new_quantity : Quantity) (q : OrderQueue)
    : Exec OrderQueue :=
  match q with
  | [] => UB
  | (node, entry) :: q' =>
      if decide (node = it)
      then Ret ((node, MkOrderEntry (order_id entry) (timestamp entry) new_quantity) :: q')
      else rest ← queue_set_quantity it new_quantity q'; Ret ((node, entry) :: rest)
  end.

(** [total_quantity.units += n] and [-= n]. *)
Definition add_total (level : PriceLevel) (n : Z) : PriceLevel :=
  MkPriceLevel (MkQuantity (add64 (units (total_quantity level)) n)) (orders level).
Definition sub_total (level : PriceLevel) (n : Z) : PriceLevel :=
  MkPriceLevel (MkQuantity (sub64 (units (total_quantity level)) n)) (orders level).
Definition set_orders (level : PriceLevel) (q : OrderQueue) : PriceLevel :=
  MkPriceLevel (total_quantity level) q.

Definition add_order (id : OrderId) (side : Side) (price : Price) (qty : Quantity)
    (ts : Timestamp) (b : LimitOrderBook) : Exec (BookResult * LimitOrderBook) :=
  if decide (units qty = 0%Z) then Ret (InvalidQuantity, b)
  else if decide (is_Some (order_lookup_ b !! value id)) then Ret (DuplicateOrderId, b)
  else
    let level :=
      match side with
      | Buy => subscript greater empty_level (ticks price) (bid_levels_ b)
      | Sell => subscript less empty_level (ticks price) (ask_levels_ b)
      end in
    let order_it := next_node_ b in
    let level := set_orders level (orders level ++ [(order_it, MkOrderEntry id ts qty)]) in
    let level := add_total level (units qty) in
    let b := store_level side price level b in
    let b := set_lookup (<[value id := MkOrderRecord side price ts qty order_it]> (order_lookup_ b)) b in
    let b := MkBook (bid_levels_ b) (ask_levels_ b) (order_lookup_ b) (stats_ b) (next_node_ b + 1)%Z in
    Ret (Applied, count_event b).

(** [remove_existing_order(order_it)], the iterator given by its key. *)
Definition remove_existing_order (id : Z) (b : LimitOrderBook) : Exec LimitOrderBook :=
  record ← deref (order_lookup_ b !! id);
  b ← match r_side record with
      | Buy =>
          level ← deref (find greater (ticks (r_price record)) (bid_levels_ b));
          let level := sub_total level (units (r_quantity record)) in
          q ← queue_erase (r_iterator record) (orders level);
          let level := set_orders level q in
          Ret (set_bids (match q with
                         | [] => erase greater (ticks (r_price record)) (bid_levels_ b)
                         | _ => insert_or_assign greater (ticks (r_price record)) level (bid_levels_ b)
                         end) b)
      | Sell =>
          level ← deref (find less (ticks (r_price record)) (ask_levels_ b));
          let level := sub_total level (units (r_quantity record)) in
          q ← queue_erase (r_iterator record) (orders level);
          let level := set_orders level q in
          Ret (set_asks (match q with
                         | [] => erase less (ticks (r_price record)) (ask_levels_ b)
                         | _ => insert_or_assign less (ticks (r_price record)) level (ask_levels_ b)
                         end) b)
      end;
  Ret (set_lookup (delete id (order_lookup_ b)) b).

Definition cancel_order (id : OrderId) (b : LimitOrderBook) : Exec (BookResult * LimitOrderBook) :=
  match order_lookup_ b !! value id with
  | None => Ret (MissingOrderId, b)
  | Some _ =>
      b ← remove_existing_order (value id) b;
      Ret (Applied, count_event b)
  end.

Definition set_record_quantity (r : OrderRecord) (q : Quantity) : OrderRecord :=
  MkOrderRecord (r_side r) (r_price r) (r_timestamp r) q (r_iterator r).

Definition modify_order (id : OrderId) (new_quantity : Quantity) (b : LimitOrderBook)
    : Exec (BookResult * LimitOrderBook) :=
  if decide (units new_quantity = 0%Z) then Ret (InvalidQuantity, b)
  else match order_lookup_ b !! value id with
       | None => Ret (MissingOrderId, b)
       | Some record =>
           if decide (units (r_quantity record) < units new_quantity)%Z then Ret (UnsupportedModify, b)
           else if decide (units new_quantity = units (r_quantity record)) then
             Ret (Applied, count_event b)
           else
             level ← deref (find_level (r_side record) (r_price record) b);
             let reduction := sub64 (units (r_quantity record)) (units new_quantity) in
             let level := sub_total level reduction in
             let record := set_record_quantity record new_quantity in
             q ← queue_set_quantity (r_iterator record) new_quantity (orders level);
             let b := store_level (r_side record) (r_price record) (set_orders level q) b in
             let b := set_lookup (<[value id := record]> (order_lookup_ b)) b in
             Ret (Applied, count_event b)
       end.

Definition execute_order (id : OrderId) (executed_quantity : Quantity) (b : LimitOrderBook)
    : Exec (BookResult * LimitOrderBook) :=
  if decide (units executed_quantity = 0%Z) then Ret (InvalidQuantity, b)
  else match order_lookup_ b !! value id with
       | None => Ret (MissingOrderId, b)
       | Some record =>
           if decide (units (r_quantity record) < units executed_quantity)%Z then
             Ret (InsufficientQuantity, b)
           else if decide (units executed_quantity = units (r_quantity record)) then
             b ← remove_existing_order (value id) b;
             Ret (Applied, count_event b)
           else
             level ← deref (find_level (r_side record) (r_price record) b);
             let level := sub_total level (units executed_quantity) in
             let record := set_record_quantity record
               (MkQuantity (sub64 (units (r_quantity record)) (units executed_quantity))) in
             q ← queue_set_quantity (r_iterator record) (r_quantity record) (orders level);
             let b := store_level (r_side record) (r_price record) (set_orders level q) b in
             let b := set_lookup (<[value id := record]> (order_lookup_ b)) b in
             Ret (Applied, count_event b)
       end.

Definition apply (event : MarketEvent) (b : LimitOrderBook) : Exec (BookResult * LimitOrderBook) :=
  match ev_type event with
  | Add => add_order (ev_order_id event) (ev_side event) (ev_price event)
             (ev_quantity event) (ev_timestamp event) b
  | Modify => modify_order (ev_order_id event) (ev_quantity event) b
  | Cancel => cancel_order (ev_order_id event) b
  | Execute => execute_order (ev_order_id event) (ev_quantity event) b
  end.

(** [clear] keeps nothing; fresh node addresses keep being fresh. *)
Definition clear (b : LimitOrderBook) : LimitOrderBook :=
  MkBook [] [] ∅ (MkStats 0) (next_node_ b).

(** ** Observers *)

Definition make_price_level_view (price : Z) (level : PriceLevel) : PriceLevelView :=
  MkPriceLevelView (MkPrice price) (total_quantity level) (Z.of_nat (length (orders level))).

Definition top_of_book (b : LimitOrderBook) : TopOfBook :=
  MkTopOfBook (best_level make_price_level_view (bid_levels_ b))
              (best_level make_price_level_view (ask_levels_ b)).

Definition depth (levels : Z) (b : LimitOrderBook) : BookDepth :=
  MkBookDepth (depth_loop make_price_level_view levels [] (bid_levels_ b))
              (depth_loop make_price_level_view levels [] (ask_levels_ b)).

Definition level_snapshot (price : Z) (level : PriceLevel) : PriceLevelSnapshot :=
  MkPriceLevelSnapshot (MkPrice price) (total_quantity level)
    ((λ node, MkOrderView (order_id node.2) (timestamp node.2) (quantity node.2)) <$> orders level).

Definition snapshot (b : LimitOrderBook) : BookSnapshot :=
  MkBookSnapshot ((λ pl, level_snapshot pl.1 pl.2) <$> bid_levels_ b)
                 ((λ pl, level_snapshot pl.1 pl.2) <$> ask_levels_ b).

Definition order_ids_at_price (side : Side) (price : Price) (b : LimitOrderBook) : list OrderId :=
  match find_level side price b with
  | None => []
  | Some level => (λ node, order_id node.2) <$> orders level
  end.

Definition events_applied (b : LimitOrderBook) : Z := events_applied_ (stats_ b).
Definition live_order_count (b : LimitOrderBook) : Z := Z.of_nat (size (order_lookup_ b)).

(** ** [validate_invariants]

    The loop body of [validate_level]: [None] is [return false], [Some] carries
    [seen_order_ids] and [total_quantity] to the next iteration.  C++ defines
    [record.iterator != it] only for valid iterators of one list; here node
    addresses are compared in every case.  The two differ only in states that
    no sequence of operations reaches: there each record's iterator is that of
    its own order in the list of its level. *)
Fixpoint validate_orders (b : LimitOrderBook) (side : Side) (price : Z)
    (seen : gset Z) (total : Z) (q : OrderQueue) : option (gset Z * Z) :=
  match q with
  | [] => Some (seen, total)
  | (it, order) :: q' =>
      if decide (units (quantity order) = 0%Z) then None
      else if decide (value (order_id order) ∈ seen) then None
      else
        let seen := {[value (order_id order)]} ∪ seen in
        match order_lookup_ b !! value (order_id order) with
        | None => None
        | Some record =>
            if decide (r_side record ≠ side) then None
            else if decide (ticks (r_price record) ≠ price) then None
            else if decide (r_quantity record ≠ quantity order) then None
            else if decide (r_timestamp record ≠ timestamp order) then None
            else if decide (r_iterator record ≠ it) then None
            else validate_orders b side price seen (add64 total (units (quantity order))) q'
        end
  end.

Definition validate_level (b : LimitOrderBook) (side : Side) (price : Z) (level : PriceLevel)
    (seen : gset Z) : option (gset Z) :=
  match orders level with
  | [] => None
  | q =>
      '(seen, total) ← validate_orders b side price seen 0 q;
      if decide (total = units (total_quantity level)) then Some seen else None
  end.

Fixpoint validate_levels (b : LimitOrderBook) (side : Side) (levels : list (Z * PriceLevel))
    (seen : gset Z) : option (gset Z) :=
  match levels with
  | [] => Some seen
  | (price, level) :: levels' =>
      seen ← validate_level b side price level seen;
      validate_levels b side levels' seen
  end.

Definition validate_lookup (b : LimitOrderBook) (seen : gset Z) : bool :=
  forallb (λ kr, bool_decide (kr.1 ∈ seen) &&
                 bool_decide (is_Some (find_level (r_side kr.2) (r_price kr.2) b)))
    (map_to_list (order_lookup_ b)).

(** The first test: [bid_levels_.begin()->first > ask_levels_.begin()->first]. *)
Definition crosses (b : LimitOrderBook) : bool :=
  match begin (bid_levels_ b), begin (ask_levels_ b) with
  | Some (bid, _), Some (ask, _) => (ask <? bid)%Z
  | _, _ => false
  end.

(** The checks of one side against [top_of_book]. *)
Definition top_consistent (levels : list (Z * PriceLevel)) (top : option PriceLevelView) : bool :=
  match begin levels, top with
  | None, None => true
  | Some (price, level), Some view => bool_decide (view = make_price_level_view price level)
  | _, _ => false
  end.

Definition validate_invariants (options : InvariantOptions) (b : LimitOrderBook) : bool :=
  if negb (allow_crossed_book options) && crosses b then false
  else
    let top := top_of_book b in
    if negb (top_consistent (bid_levels_ b) (tob_bid top)) then false
    else if negb (top_consistent (ask_levels_ b) (tob_ask top)) then false
    else
      match validate_levels b Buy (bid_levels_ b) ∅ with
      | None => false
      | Some seen =>
          match validate_levels b Sell (ask_levels_ b) seen with
          | None => false
          | Some seen =>
              if decide (size seen ≠ size (order_lookup_ b)) then false
              else validate_lookup b seen
          end
      end.

End LimitOrderBook.
