(* ===== verification/BookRefinement.v ===== *)
(** * The baseline book implements the specification

    [concrete g ev next] is the [LimitOrderBook] that holds the live orders [g]
    (arrival order, each with its list-node address).  [represents] says a book
    is the concrete image of a well-formed specification book; every operation
    preserves it, computes what [spec_apply] computes, and never runs into
    [UB]. *)
From S2P Require Import Prelude CoreTypes OrderedMap BookTypes BookSpec TaggedOrders Book.
Import LimitOrderBook.

Abbreviation node_orders := (list (Z * SpecOrder)).

Definition order_entry (o : SpecOrder) : OrderEntry :=
  MkOrderEntry (so_id o) (so_timestamp o) (so_quantity o).

Definition entries (g : node_orders) : list (Z * OrderEntry) :=
  (λ x, (x.1, order_entry x.2)) <$> g.

Definition mk_level (g : node_orders) : PriceLevel :=
  MkPriceLevel (MkQuantity (wrap64 (total_units g.*2))) (entries g).

Definition mk_record (node : Z) (o : SpecOrder) : OrderRecord :=
  MkOrderRecord (so_side o) (so_price o) (so_timestamp o) (so_quantity o) node.

Definition concrete (g : node_orders) (ev next : Z) : LimitOrderBook :=
  MkBook (levels_of mk_level Buy g) (levels_of mk_level Sell g) (lookup_of mk_record g)
    (MkStats ev) next.

(** Node addresses are distinct and already allocated. *)
Definition nodes_ok (g : node_orders) (next : Z) : Prop :=
  NoDup g.*1 ∧ Forall (λ node, node < next)%Z g.*1.

Definition represents (b : LimitOrderBook) (s : SpecBook) : Prop :=
  ∃ g next, b = concrete g (sb_events s) next ∧ g.*2 = sb_orders s ∧
            nodes_ok g next ∧ spec_wf s.

(** ** Queue surgery through iterators *)

Lemma entries_cons x g : entries (x :: g) = (x.1, order_entry x.2) :: entries g.
Proof. done. Qed.

Lemma queue_erase_entries g x :
  NoDup (ids g) → x ∈ g → NoDup g.*1 →
  queue_erase x.1 (entries g) = Ret (entries (tremove (so_id x.2) g)).
Proof.
  revert g. refine (queue_elem_ind x _ _ _).
  - intros g Hn _. rewrite tremove_cons_eq, entries_cons by done. simpl.
    by rewrite decide_True.
  - intros y g Hne _ Hx _ IH. rewrite fmap_cons, NoDup_cons. intros [Hy Hnd].
    rewrite tremove_cons_ne, !entries_cons by done. simpl.
    rewrite decide_False, IH by (done || (intros Heq; destruct Hy; rewrite Heq;
      by apply list_elem_of_fmap_2)). done.
Qed.

Lemma queue_set_entries g x q :
  NoDup (ids g) → x ∈ g → NoDup g.*1 →
  queue_set_quantity x.1 q (entries g) = Ret (entries (tupdate (so_id x.2) q g)).
Proof.
  revert g. refine (queue_elem_ind x _ _ _).
  - intros g Hn _. rewrite tupdate_cons_eq, !entries_cons by done. simpl.
    by rewrite decide_True.
  - intros y g Hne _ Hx _ IH. rewrite fmap_cons, NoDup_cons. intros [Hy Hnd].
    rewrite tupdate_cons_ne, !entries_cons by done. simpl.
    rewrite decide_False, IH by (done || (intros Heq; destruct Hy; rewrite Heq;
      by apply list_elem_of_fmap_2)). done.
Qed.

Lemma fst_tqueue_NoDup side p (g : node_orders) : NoDup g.*1 → NoDup (tqueue side p g).*1.
Proof. apply NoDup_fmap_filter. Qed.

(** ** Level updates of the concrete book *)

Lemma find_level_concrete g ev next side p :
  find_level side p (concrete g ev next)
  = match tqueue side (ticks p) g with [] => None | q => Some (mk_level q) end.
Proof. destruct side; [apply (find_levels_of mk_level Buy)|apply (find_levels_of mk_level Sell)]. Qed.

Lemma find_level_elem g ev next x :
  x ∈ g → find_level (so_side x.2) (so_price x.2) (concrete g ev next)
          = Some (mk_level (level_of x g)).
Proof.
  intros Hx. pose proof (find_levels_of_elem mk_level (so_side x.2) g x Hx eq_refl).
  by destruct (so_side x.2) eqn:E; unfold level_of; rewrite ?E.
Qed.

Lemma mk_level_remove x g :
  NoDup (ids g) → x ∈ g →
  set_orders (sub_total (mk_level (level_of x g)) (units (so_quantity x.2)))
    (entries (tremove (so_id x.2) (level_of x g)))
  = mk_level (tremove (so_id x.2) (level_of x g)).
Proof.
  intros Hnd Hx. unfold mk_level. rewrite total_tremove.
  - unfold set_orders, sub_total, sub64; simpl. by rewrite wrap64_sub_l.
  - by apply ids_tqueue_NoDup.
  - by apply elem_of_tqueue.
Qed.

Lemma mk_level_update x q g n :
  NoDup (ids g) → x ∈ g → (units q = units (so_quantity x.2) - n)%Z →
  set_orders (sub_total (mk_level (level_of x g)) n) (entries (tupdate (so_id x.2) q (level_of x g)))
  = mk_level (tupdate (so_id x.2) q (level_of x g)).
Proof.
  intros Hnd Hx Hq. unfold mk_level. rewrite (total_tupdate _ _ q).
  - unfold set_orders, sub_total, sub64; simpl. rewrite wrap64_sub_l. do 2 f_equal. f_equal. lia.
  - by apply ids_tqueue_NoDup.
  - by apply elem_of_tqueue.
Qed.

Lemma mk_level_add t o q :
  add_total (set_orders (mk_level q) (orders (mk_level q) ++ [(t, order_entry o)]))
    (units (so_quantity o))
  = mk_level (q ++ [(t, o)]).
Proof.
  unfold mk_level, add_total, set_orders, add64, entries; simpl.
  rewrite !fmap_app, total_units_app. simpl. rewrite wrap64_add_l.
  do 2 f_equal. f_equal. lia.
Qed.

(** [operator[]] on a side: the level at the price, or a fresh empty one. *)
Lemma subscript_concrete g ev next side price :
  match side with
  | Buy => subscript greater empty_level (ticks price) (bid_levels_ (concrete g ev next))
  | Sell => subscript less empty_level (ticks price) (ask_levels_ (concrete g ev next))
  end = mk_level (tqueue side (ticks price) g).
Proof.
  transitivity (default empty_level
    (find (side_before side) (ticks price) (levels_of mk_level side g))); [by destruct side|].
  rewrite find_levels_of. by destruct (tqueue _ _ _).
Qed.

Lemma level_of_nodes x (g : node_orders) : NoDup g.*1 → NoDup (level_of x g).*1.
Proof. apply fst_tqueue_NoDup. Qed.

#[export] Hint Resolve level_of_nodes : machine.

(** [remove_existing_order] unlinks exactly the order the id names. *)
Lemma remove_existing_order_concrete g ev next x :
  NoDup (ids g) → NoDup g.*1 → x ∈ g →
  remove_existing_order (value (so_id x.2)) (concrete g ev next)
  = Ret (concrete (tremove (so_id x.2) g) ev next).
Proof.
  intros Hnd Hn Hx. unfold remove_existing_order. simpl.
  rewrite lookup_of_elem by done. simpl. unfold concrete.
  rewrite !(levels_of_remove mk_level _ _ x) by done.
  rewrite (lookup_of_remove mk_record g) by done.
  pose proof (find_levels_of_elem mk_level (so_side x.2) g x Hx eq_refl) as Hf.
  pose proof (queue_erase_entries (level_of x g) x) as Hq.
  pose proof (mk_level_remove x g Hnd Hx) as Hl.
  destruct (so_side x.2) eqn:Hs; simpl in Hf |- *; rewrite Hf; simpl;
    unfold level_of in Hq, Hl; rewrite Hs in Hq, Hl;
    rewrite Hq by (rewrite <-?Hs; auto using ids_tqueue_NoDup, fst_tqueue_NoDup; by apply elem_of_tqueue);
    simpl; rewrite Hl; unfold set_lookup, set_bids, set_asks; simpl; do 2 f_equal;
    unfold put_level; by destruct (tremove _ _).
Qed.

(** The quantity-reducing path of [modify_order] and [execute_order]. *)
Lemma reduce_concrete g ev next x n q :
  NoDup (ids g) → NoDup g.*1 → x ∈ g → (units q = units (so_quantity x.2) - n)%Z →
  (level ← deref (find_level (so_side x.2) (so_price x.2) (concrete g ev next));
   qu ← queue_set_quantity x.1 q (orders (sub_total level n));
   let b := store_level (so_side x.2) (so_price x.2)
              (set_orders (sub_total level n) qu) (concrete g ev next) in
   Ret (Applied, count_event (set_lookup
     (<[value (so_id x.2) := mk_record x.1 (set_quantity q x.2)]> (order_lookup_ b)) b)))
  = Ret (Applied, concrete (tupdate (so_id x.2) q g) (add64 ev 1) next).
Proof.
  intros Hnd Hn Hx Hq. rewrite find_level_elem by done. simpl.
  rewrite queue_set_entries by auto with machine. simpl.
  rewrite mk_level_update by done. unfold concrete.
  rewrite (lookup_of_update mk_record g x), !(levels_of_update mk_level _ _ x) by done.
  unfold level_of. by destruct (so_side x.2) eqn:Hs.
Qed.

(** ** Every operation refines the specification *)

Lemma lookup_concrete_None g ev next id :
  find_order id g.*2 = None → order_lookup_ (concrete g ev next) !! value id = None.
Proof.
  intros Hf%find_order_None. apply lookup_of_None. by rewrite order_id_eta.
Qed.

Lemma lookup_concrete_Some g ev next id o :
  NoDup (ids g) → find_order id g.*2 = Some o →
  ∃ t, (t, o) ∈ g ∧ so_id o = id ∧
       order_lookup_ (concrete g ev next) !! value id = Some (mk_record t o).
Proof.
  intros Hnd Hf. destruct (find_order_tagged _ _ _ Hf) as (t & Hin & <-).
  exists t. split_and!; [done..|]. by apply (lookup_of_elem mk_record g (t, o)).
Qed.

Lemma nodes_ok_remove g next id : nodes_ok g next → nodes_ok (tremove id g) next.
Proof.
  unfold nodes_ok. intros [Hnd Hf]. split.
  - by apply NoDup_fmap_filter.
  - by apply Forall_fmap_filter.
Qed.

Lemma nodes_ok_add g next o : nodes_ok g next → nodes_ok (g ++ [(next, o)]) (next + 1).
Proof.
  unfold nodes_ok. rewrite fmap_app. simpl. intros [Hnd Hf]. split.
  - apply NoDup_app. split; [done|]. split; [|apply NoDup_singleton].
    rewrite Forall_forall in Hf. intros n Hn ->%list_elem_of_singleton.
    specialize (Hf _ Hn). simpl in Hf. lia.
  - apply Forall_app. split; [|repeat constructor; lia].
    eapply Forall_impl; [done|]. simpl. lia.
Qed.

(** The outcome [r] of an operation on the concrete book is what the
    specification says, and the new book represents the new specification. *)
Definition refines (r : Exec (BookResult * LimitOrderBook)) (sr : BookResult * SpecBook) : Prop :=
  ∃ b', r = Ret (sr.1, b') ∧ represents b' sr.2.

Lemma refines_reject b s r : represents b s → refines (Ret (r, b)) (r, s).
Proof. intros Hb. by exists b. Qed.

Lemma refines_accept r g ev next s os :
  r = Ret (Applied, concrete g (add64 ev 1) next) → g.*2 = os → nodes_ok g next →
  sb_events s = ev → spec_wf (accept os s).2 → refines r (accept os s).
Proof. intros -> Hg Hn Hev Hwf. eexists. split; [done|]. exists g, next. subst ev. eauto. Qed.

Section operations.
Context (g : node_orders) (next : Z) (s : SpecBook).
Hypothesis (Hg : g.*2 = sb_orders s) (Hn : nodes_ok g next) (Hwf : spec_wf s).

Let b := concrete g (sb_events s) next.

Lemma concrete_represents : represents b s.
Proof using Hg Hn Hwf. by exists g, next. Qed.

Lemma concrete_ids : NoDup (ids g).
Proof using Hg Hwf. unfold ids. rewrite Hg. apply Hwf. Qed.

Lemma concrete_quantity x : x ∈ g → is_u64 (units (so_quantity x.2)).
Proof using Hg Hwf.
  intros Hx. destruct Hwf as [_ Hq _]. rewrite <-Hg, Forall_fmap, Forall_forall in Hq.
  specialize (Hq _ Hx). simpl in Hq. split; lia.
Qed.

Hint Resolve concrete_represents concrete_ids : core.

Lemma refines_remove id t o :
  (t, o) ∈ g → so_id o = id →
  refines (b' ← remove_existing_order (value id) b; Ret (Applied, count_event b'))
    (accept (remove_order id (sb_orders s)) s).
Proof using Hg Hn Hwf.
  intros Hin <-. pose proof Hn as [Hnd ?]. unfold b.
  rewrite (remove_existing_order_concrete g _ _ (t, o)) by auto.
  eapply refines_accept; [done|by rewrite tremove_snd, Hg|by apply nodes_ok_remove|done|].
  by apply spec_remove_wf.
Qed.

Lemma refines_reduce id t o n q r :
  (t, o) ∈ g → so_id o = id → (units q = units (so_quantity o) - n)%Z →
  r = mk_record t (set_quantity q o) → (0 < units q < two64)%Z →
  refines
    (level ← deref (find_level (so_side o) (so_price o) b);
     qu ← queue_set_quantity t q (orders (sub_total level n));
     let b' := store_level (so_side o) (so_price o) (set_orders (sub_total level n) qu) b in
     Ret (Applied, count_event (set_lookup (<[value id := r]> (order_lookup_ b')) b')))
    (accept (update_order id q (sb_orders s)) s).
Proof using Hg Hn Hwf.
  intros Hin <- Hq -> Hr. pose proof Hn as [Hnd ?]. unfold b.
  rewrite (reduce_concrete g _ _ (t, o)) by auto.
  eapply refines_accept; [done|by rewrite tupdate_snd, Hg| |done|].
  - unfold nodes_ok. by rewrite tupdate_fst.
  - by apply spec_update_wf.
Qed.

Lemma add_order_refines id side price qty ts :
  quantity_wf qty →
  refines (add_order id side price qty ts b)
    (spec_add None (MkSpecOrder id side price ts qty) s).
Proof using Hg Hn Hwf.
  intros Hqty. unfold add_order, spec_add. cbn [so_id so_quantity].
  case_decide as Hz; [by apply refines_reject|].
  rewrite <-Hg. destruct (find_order id g.*2) as [o|] eqn:Hf.
  - destruct (lookup_concrete_Some g (sb_events s) next id o) as (t & _ & _ & Hl); [auto..|].
    rewrite decide_True by (unfold b; rewrite Hl; eauto). by apply refines_reject.
  - assert (id ∉ ids g) as Hid by by apply find_order_None.
    rewrite decide_False, decide_False; [|tauto|].
    2: { unfold b. rewrite lookup_concrete_None by done. by intros []. }
    set (o := MkSpecOrder id side price ts qty).
    apply (refines_accept _ (g ++ [(next, o)]) (sb_events s) (next + 1)); [|by rewrite fmap_app|by apply nodes_ok_add|done|].
    + f_equal. f_equal. cbv zeta. unfold b.
      rewrite subscript_concrete, (mk_level_add next o).
      unfold concrete. rewrite !(levels_of_add mk_level), (lookup_of_add mk_record) by done.
      by destruct side.
    + pose proof (spec_apply_wf None (MkEvent Add ts id side price qty) s Hqty Hwf) as Hw.
      unfold spec_apply, spec_add in Hw. simpl in Hw. rewrite decide_False in Hw by done.
      rewrite <-Hg, Hf in Hw. by rewrite Hg in Hw |- *.
Qed.

(** The lookup of an id, as the specification sees it. *)
Lemma lookup_cases id :
  (find_order id (sb_orders s) = None ∧ order_lookup_ b !! value id = None) ∨
  (∃ t o, find_order id (sb_orders s) = Some o ∧ (t, o) ∈ g ∧ so_id o = id ∧
          order_lookup_ b !! value id = Some (mk_record t o)).
Proof using Hg Hwf.
  rewrite <-Hg. destruct (find_order id g.*2) as [o|] eqn:Hf.
  - right. destruct (lookup_concrete_Some g (sb_events s) next id o) as (t & ? & ? & ?); eauto 10.
  - left. split; [done|]. by apply lookup_concrete_None.
Qed.

Lemma cancel_order_refines id : refines (cancel_order id b) (spec_cancel id s).
Proof using Hg Hn Hwf.
  unfold cancel_order, spec_cancel.
  destruct (lookup_cases id) as [[-> ->]|(t & o & -> & Hin & Hid & ->)].
  - by apply refines_reject.
  - by apply (refines_remove id t o).
Qed.

Lemma modify_order_refines id q :
  quantity_wf q → refines (modify_order id q b) (spec_modify id q s).
Proof using Hg Hn Hwf.
  intros [Hq0 Hq]. unfold modify_order, spec_modify. case_decide as Hz; [by apply refines_reject|].
  destruct (lookup_cases id) as [[-> ->]|(t & o & Hf & Hin & Hid & ->)]; [by apply refines_reject|].
  pose proof (spec_quantity_range s id o Hwf Hf) as Hr. rewrite Hf. simpl.
  case_decide as Hlt; [by apply refines_reject|].
  case_decide as Heq.
  - (* the same quantity: only the counter moves *)
    rewrite (update_order_same id q s o) by done.
    apply (refines_accept _ g (sb_events s) next); [done..|].
    rewrite <-(update_order_same id q s o) by done. by apply spec_update_wf; [lia|].
  - apply (refines_reduce id t o _ q); [done|done| |done|lia].
    rewrite sub64_small; [lia|lia|split; lia].
Qed.

Lemma execute_order_refines id q :
  quantity_wf q → refines (execute_order id q b) (spec_execute id q s).
Proof using Hg Hn Hwf.
  intros [Hq0 Hq]. unfold execute_order, spec_execute. case_decide as Hz; [by apply refines_reject|].
  destruct (lookup_cases id) as [[-> ->]|(t & o & Hf & Hin & Hid & ->)]; [by apply refines_reject|].
  pose proof (spec_quantity_range s id o Hwf Hf) as Hr. rewrite Hf. simpl.
  case_decide as Hlt; [by apply refines_reject|].
  case_decide as Heq; [by apply (refines_remove id t o)|].
  unfold set_record_quantity; simpl. rewrite sub64_small; [|lia|split; lia].
  apply (refines_reduce id t o); simpl; (done || lia).
Qed.
End operations.

(** The whole handler: every event, every branch, never [UB]. *)
Lemma apply_represents e b s :
  quantity_wf (ev_quantity e) → represents b s → refines (apply e b) (spec_apply None e s).
Proof.
  intros Hq (g & next & -> & Hg & Hn & Hwf). unfold apply, spec_apply. destruct (ev_type e).
  - by apply add_order_refines.
  - by apply modify_order_refines.
  - by apply cancel_order_refines.
  - by apply execute_order_refines.
Qed.

Lemma empty_book_represents : represents empty_book spec_empty.
Proof.
  exists [], 0%Z. split; [done|]. split; [done|]. split; [split; constructor|].
  split; simpl; [constructor|constructor|split; done].
Qed.
