(* ===== verification/BookValidation.v ===== *)
(** * Observers and the invariant checker of the baseline book

    The views of a represented book are the views of its specification, and
    [validate_invariants] is exact: it accepts a book whose containers are
    valid if and only if the book represents some specification book (and is
    not crossed, unless the options allow it). *)
From S2P Require Import Prelude CoreTypes OrderedMap BookTypes BookSpec TaggedOrders Book.
From S2P Require Import BookRefinement.
Import LimitOrderBook.

(** ** Views *)

Lemma level_snapshot_concrete side p g :
  level_snapshot p (mk_level (tqueue side p g)) = spec_level side g.*2 p.
Proof.
  unfold level_snapshot, spec_level, mk_level, entries. simpl.
  rewrite <-tqueue_snd. f_equal. by rewrite <-!list_fmap_compose.
Qed.

Lemma levels_snapshot_concrete side g :
  (λ pl, level_snapshot pl.1 pl.2) <$> levels_of mk_level side g
  = spec_level side g.*2 <$> level_prices side g.*2.
Proof.
  unfold levels_of. rewrite <-list_fmap_compose. apply list_fmap_ext.
  intros i p _. apply level_snapshot_concrete.
Qed.

Lemma view_of_snapshot price level :
  make_price_level_view price level = level_summary (level_snapshot price level).
Proof. unfold make_price_level_view, level_summary. simpl. by rewrite length_fmap. Qed.

Lemma levels_view_concrete side g :
  (λ pl, make_price_level_view pl.1 pl.2) <$> levels_of mk_level side g
  = level_summary <$> (spec_level side g.*2 <$> level_prices side g.*2).
Proof.
  rewrite <-levels_snapshot_concrete, <-list_fmap_compose. apply list_fmap_ext.
  intros i pl _. apply view_of_snapshot.
Qed.

Lemma order_ids_concrete side price g ev next :
  order_ids_at_price side price (concrete g ev next)
  = so_id <$> queue_at side (ticks price) g.*2.
Proof.
  unfold order_ids_at_price. rewrite find_level_concrete, <-tqueue_snd.
  destruct (tqueue side (ticks price) g) as [|x q]; [done|].
  unfold mk_level, entries. simpl. by rewrite <-!list_fmap_compose.
Qed.

(** ** Best prices and the crossed test *)

Lemma crosses_concrete g ev next s :
  g.*2 = sb_orders s → crosses (concrete g ev next) = true ↔ crossed s.
Proof.
  intros Hg. rewrite <-best_prices_crossed, <-Hg. unfold crosses, concrete. simpl. unfold levels_of.
  destruct (level_prices Buy g.*2), (level_prices Sell g.*2); reflexivity.
Qed.

(** ** The checker, characterised *)

(** What the loop body demands of one list node. *)
Definition order_ok (b : LimitOrderBook) (side : Side) (price : Z) (node : Z * OrderEntry) : Prop :=
  units (quantity node.2) ≠ 0%Z ∧
  order_lookup_ b !! value (order_id node.2)
  = Some (MkOrderRecord side (MkPrice price) (timestamp node.2) (quantity node.2) node.1).

Definition queue_ids (q : list (Z * OrderEntry)) : list Z := (λ n, value (order_id n.2)) <$> q.

Definition queue_total (q : list (Z * OrderEntry)) : Z :=
  foldl (λ t n, add64 t (units (quantity n.2))) 0%Z q.

Lemma validate_orders_spec b side price seen total q seen' total' :
  validate_orders b side price seen total q = Some (seen', total') ↔
  Forall (order_ok b side price) q ∧ NoDup (queue_ids q) ∧ (∀ i, i ∈ queue_ids q → i ∉ seen) ∧
  seen' = list_to_set (queue_ids q) ∪ seen ∧
  total' = foldl (λ t n, add64 t (units (quantity n.2))) total q.
Proof.
  revert seen total. induction q as [|[it o] q IH]; intros seen total; simpl.
  { split; [intros [= <- <-]|intros (_ & _ & _ & -> & ->)]; [|by rewrite (left_id_L ∅ (∪))].
    split_and!; [constructor|constructor|set_solver|set_solver|done]. }
  rewrite Forall_cons, NoDup_cons. unfold order_ok at 1. simpl.
  destruct (decide (units (quantity o) = 0%Z)); [split; [done|]; by intros ([[] _] & _)|].
  destruct (decide (value (order_id o) ∈ seen)) as [Hs|Hs].
  { split; [done|]. intros (_ & _ & Hd & _). destruct (Hd _ (list_elem_of_here _ _)). done. }
  destruct (order_lookup_ b !! value (order_id o)) as [[s' [p'] ts q' it']|];
    [|split; [done|]; by intros ([[] _] & _)]. simpl.
  repeat (case_decide; [split; [done|]; intros ([[? ?] _] & _); congruence|]).
  rewrite IH. set (i := value (order_id o)) in *. split.
  - intros (Hok & Hnd & Hd & -> & ->). split_and!; [done|by subst|done| |done| | |done].
    + intros Hi. destruct (Hd i Hi). set_solver.
    + intros j [->|Hj]%elem_of_cons; [done|]. specialize (Hd j Hj). set_solver.
    + set_solver.
  - intros ([_ Hok] & [Hi Hnd] & Hd & -> & ->). split_and!; [done|done| | |done].
    + intros j Hj. pose proof (Hd j (list_elem_of_further _ _ _ Hj)).
      assert (j ≠ i) by (by intros ->). set_solver.
    + set_solver.
Qed.

(** What [validate_level] and the loops over the levels demand. *)
Definition level_ok (b : LimitOrderBook) (side : Side) (pl : Z * PriceLevel) : Prop :=
  orders pl.2 ≠ [] ∧ Forall (order_ok b side pl.1) (orders pl.2) ∧
  units (total_quantity pl.2) = queue_total (orders pl.2).

Definition levels_ids (levels : list (Z * PriceLevel)) : list Z :=
  levels ≫= λ pl, queue_ids (orders pl.2).

Lemma validate_level_unfold b side price level seen :
  orders level ≠ [] →
  validate_level b side price level seen
  = '(seen, total) ← validate_orders b side price seen 0 (orders level);
    if decide (total = units (total_quantity level)) then Some seen else None.
Proof. unfold validate_level. by destruct (orders level). Qed.

Lemma validate_level_spec b side price level seen seen' :
  validate_level b side price level seen = Some seen' ↔
  level_ok b side (price, level) ∧ NoDup (queue_ids (orders level)) ∧
  (∀ i, i ∈ queue_ids (orders level) → i ∉ seen) ∧
  seen' = list_to_set (queue_ids (orders level)) ∪ seen.
Proof.
  unfold level_ok. cbn [fst snd].
  destruct (decide (orders level = [])) as [Hnil|Hne].
  { unfold validate_level. rewrite Hnil. split; [done|]. by intros ((? & _) & _). }
  rewrite validate_level_unfold by done.
  destruct (validate_orders b side price seen 0 (orders level)) as [[seen1 total1]|] eqn:Hv; simpl.
  - apply validate_orders_spec in Hv as (Hok & Hnd & Hd & -> & Ht).
    change (foldl _ _ _) with (queue_total (orders level)) in Ht. subst total1.
    destruct (decide (queue_total (orders level) = units (total_quantity level))); split.
    + by intros [= <-].
    + by intros (_ & _ & _ & ->).
    + done.
    + intros ((_ & _ & ?) & _). congruence.
  - split; [done|]. intros ((_ & Hok & _) & Hnd & Hd & ->).
    assert (validate_orders b side price seen 0 (orders level)
      = Some (list_to_set (queue_ids (orders level)) ∪ seen, queue_total (orders level))) as E
      by by apply validate_orders_spec. congruence.
Qed.

Lemma validate_levels_spec b side levels seen seen' :
  validate_levels b side levels seen = Some seen' ↔
  Forall (level_ok b side) levels ∧ NoDup (levels_ids levels) ∧
  (∀ i, i ∈ levels_ids levels → i ∉ seen) ∧ seen' = list_to_set (levels_ids levels) ∪ seen.
Proof.
  revert seen. induction levels as [|[p l] levels IH]; intros seen; simpl.
  { split; [intros [= <-]|intros (_ & _ & _ & ->)]; [|by rewrite (left_id_L ∅ (∪))].
    split_and!; [constructor|constructor|set_solver|set_solver]. }
  rewrite Forall_cons, NoDup_app. split.
  - intros (seen1 & (Hl & Hnd & Hd & ->)%validate_level_spec & (Hls & Hnd' & Hd' & ->)%IH)%bind_Some.
    split_and!; [done..| |done| |].
    + intros i Hi Hi'. destruct (Hd' i Hi'). set_solver.
    + intros i [Hi|Hi]%elem_of_app; [auto|]. specialize (Hd' i Hi). set_solver.
    + rewrite list_to_set_app_L. set_solver.
  - intros ([Hl Hls] & (Hnd & Hdis & Hnd') & Hd & ->). apply bind_Some.
    exists (list_to_set (queue_ids (orders l)) ∪ seen). rewrite validate_level_spec, IH.
    split_and!; [done..| |done|done|done| |].
    + intros i Hi. apply Hd, elem_of_app. by left.
    + intros i Hi. specialize (Hdis i). specialize (Hd i).
      rewrite elem_of_union, elem_of_list_to_set. rewrite elem_of_app in Hd. tauto.
    + rewrite list_to_set_app_L. set_solver.
Qed.

(** The book's containers agree with each other. *)
Record book_consistent (b : LimitOrderBook) : Prop := {
  consistent_bids : Forall (level_ok b Buy) (bid_levels_ b);
  consistent_asks : Forall (level_ok b Sell) (ask_levels_ b);
  consistent_ids : NoDup (levels_ids (bid_levels_ b) ++ levels_ids (ask_levels_ b));
  consistent_lookup i :
    is_Some (order_lookup_ b !! i) → i ∈ levels_ids (bid_levels_ b) ++ levels_ids (ask_levels_ b)
}.

(** What [std::map] guarantees by itself. *)
Definition maps_sorted (b : LimitOrderBook) : Prop :=
  sorted greater (bid_levels_ b) ∧ sorted less (ask_levels_ b).

Lemma top_consistent_best levels : top_consistent levels (best_level make_price_level_view levels) = true.
Proof.
  unfold top_consistent, best_level. destruct (begin levels) as [[p l]|]; [|done].
  by apply bool_decide_eq_true.
Qed.

Lemma elem_of_levels_ids levels i :
  i ∈ levels_ids levels ↔ ∃ p l n, (p, l) ∈ levels ∧ n ∈ orders l ∧ value (order_id n.2) = i.
Proof.
  unfold levels_ids, queue_ids. rewrite list_elem_of_bind. setoid_rewrite list_elem_of_fmap. split.
  - intros ([p l] & (n & -> & ?) & ?). eauto 10.
  - intros (p & l & n & ? & ? & <-). exists (p, l). eauto.
Qed.

Lemma level_order_ok b side levels i :
  Forall (level_ok b side) levels → i ∈ levels_ids levels →
  ∃ p l r, (p, l) ∈ levels ∧ order_lookup_ b !! i = Some r ∧ r_side r = side ∧ ticks (r_price r) = p.
Proof.
  intros Hf (p & l & n & Hl & Hn & <-)%elem_of_levels_ids.
  rewrite Forall_forall in Hf. destruct (Hf _ Hl) as (_ & Ho & _).
  rewrite Forall_forall in Ho. destruct (Ho _ Hn) as [_ Hlk].
  simpl in Hlk. exists p, l. eexists. split_and!; [done|exact Hlk|done..].
Qed.

Lemma find_level_elem_Some b side p l :
  maps_sorted b → (p, l) ∈ (match side with Buy => bid_levels_ b | Sell => ask_levels_ b end) →
  ∀ price, ticks price = p → is_Some (find_level side price b).
Proof.
  intros [Hb Ha] Hin price <-. exists l. destruct side; simpl; by apply elem_find_Some.
Qed.

Lemma validate_lookup_spec b seen :
  validate_lookup b seen = true ↔
  ∀ i r, order_lookup_ b !! i = Some r → i ∈ seen ∧ is_Some (find_level (r_side r) (r_price r) b).
Proof.
  unfold validate_lookup. rewrite forallb_forall. split.
  - intros Hall i r Hi. apply elem_of_map_to_list, list_elem_of_In, Hall in Hi.
    apply andb_true_iff in Hi as [H1%bool_decide_eq_true H2%bool_decide_eq_true]. done.
  - intros Hall [i r] Hi%list_elem_of_In%elem_of_map_to_list. destruct (Hall i r Hi) as [? ?].
    apply andb_true_iff. by rewrite !bool_decide_eq_true.
Qed.

Lemma lookup_dom_size (ids : list Z) {A} (m : gmap Z A) :
  NoDup ids → (∀ i, i ∈ ids → is_Some (m !! i)) → length ids = size m →
  ∀ i, is_Some (m !! i) → i ∈ ids.
Proof.
  intros Hnd Hin Hsz i Hi.
  assert (list_to_set ids = dom m) as Heq.
  { apply set_subseteq_size_eq.
    - intros j. rewrite elem_of_list_to_set, elem_of_dom. auto.
    - rewrite size_dom, size_list_to_set by done. lia. }
  rewrite <-elem_of_dom, <-Heq in Hi. by apply elem_of_list_to_set in Hi.
Qed.

Lemma consistent_ids_iff b i :
  book_consistent b →
  i ∈ levels_ids (bid_levels_ b) ++ levels_ids (ask_levels_ b) ↔ is_Some (order_lookup_ b !! i).
Proof.
  intros Hc. split; [|apply Hc]. rewrite elem_of_app. intros [Hi|Hi].
  - destruct (level_order_ok _ _ _ _ (consistent_bids _ Hc) Hi) as (? & ? & ? & _ & ? & _). eauto.
  - destruct (level_order_ok _ _ _ _ (consistent_asks _ Hc) Hi) as (? & ? & ? & _ & ? & _). eauto.
Qed.

Lemma validate_invariants_unfold opts b :
  validate_invariants opts b = true ↔
  (allow_crossed_book opts = true ∨ crosses b = false) ∧
  ∃ seen seen', validate_levels b Buy (bid_levels_ b) ∅ = Some seen ∧
    validate_levels b Sell (ask_levels_ b) seen = Some seen' ∧
    size seen' = size (order_lookup_ b) ∧ validate_lookup b seen' = true.
Proof.
  unfold validate_invariants. simpl. rewrite !top_consistent_best. simpl.
  destruct (allow_crossed_book opts), (crosses b); simpl;
    try (split; [done|]; by intros [[|] _]);
    (destruct (validate_levels b Buy _ _) as [seen|]; [|split; [done|]; naive_solver]);
    (destruct (validate_levels b Sell _ _) as [seen'|] eqn:E; [|split; [done|]; naive_solver]);
    case_decide; naive_solver.
Qed.

(** The checker accepts exactly the books whose containers agree (and that
    are not crossed, unless allowed). *)
Lemma validate_invariants_consistent opts b :
  maps_sorted b →
  validate_invariants opts b = true ↔
  (allow_crossed_book opts = true ∨ crosses b = false) ∧ book_consistent b.
Proof.
  intros Hs. rewrite validate_invariants_unfold. apply and_iff_compat_l. split.
  - intros (seen & seen' & Hb & Ha & Hsz & Hlk).
    apply validate_levels_spec in Hb as (Hb & Hndb & _ & ->).
    apply validate_levels_spec in Ha as (Ha & Hnda & Hd & ->).
    assert (NoDup (levels_ids (bid_levels_ b) ++ levels_ids (ask_levels_ b))) as Hnd.
    { apply NoDup_app. split_and!; [done| |done]. intros i Hib Hia. apply (Hd i Hia). set_solver. }
    split; [done..|]. intros i [r Hi].
    apply validate_lookup_spec with (i := i) (r := r) in Hlk as [Hin _]; [|done].
    rewrite elem_of_app. set_solver.
  - intros Hc. pose proof Hc as [Hb Ha Hnd Hlk]. apply NoDup_app in Hnd as Hnd'.
    destruct Hnd' as (Hndb & Hdis & Hnda).
    do 2 eexists. split_and!.
    + apply validate_levels_spec. split_and!; [done..|set_solver|done].
    + apply validate_levels_spec. split_and!; [done..| |done].
      intros i Hi. specialize (Hdis i). set_solver.
    + replace (_ ∪ _) with (list_to_set (levels_ids (bid_levels_ b) ++ levels_ids (ask_levels_ b)) : gset Z)
        by (rewrite list_to_set_app_L; set_solver).
      rewrite <-size_dom. f_equal. apply set_eq. intros i.
      rewrite elem_of_list_to_set, elem_of_dom. by apply consistent_ids_iff.
    + apply validate_lookup_spec. intros i r Hi.
      assert (i ∈ levels_ids (bid_levels_ b) ++ levels_ids (ask_levels_ b)) as Hin by eauto.
      split; [rewrite elem_of_app in Hin; set_solver|].
      apply elem_of_app in Hin as [Hin|Hin].
      * destruct (level_order_ok _ _ _ _ Hb Hin) as (p & l & r' & Hl & Hr & Hside & Hp).
        assert (r = r') as <- by congruence. rewrite Hside. by eapply find_level_elem_Some.
      * destruct (level_order_ok _ _ _ _ Ha Hin) as (p & l & r' & Hl & Hr & Hside & Hp).
        assert (r = r') as <- by congruence. rewrite Hside. by eapply find_level_elem_Some.
Qed.

(** ** Represented books are consistent *)

Lemma queue_total_wrap (q : list (Z * OrderEntry)) t :
  foldl (λ t n, add64 t (units (quantity n.2))) (wrap64 t) q
  = wrap64 (t + foldr (λ (n : Z * OrderEntry) a, units (quantity n.2) + a) 0 q)%Z.
Proof.
  revert t. induction q as [|n q IH]; intros t; simpl; [by rewrite Z.add_0_r|].
  unfold add64 at 2. rewrite wrap64_add_l, IH. f_equal. lia.
Qed.

Lemma queue_total_entries g : queue_total (entries g) = wrap64 (total_units g.*2).
Proof.
  unfold queue_total. change 0%Z with (wrap64 0) at 1. rewrite queue_total_wrap. f_equal.
  rewrite Z.add_0_l. induction g as [|x g IH]; [done|].
  rewrite entries_cons, fmap_cons, total_units_cons. simpl. by rewrite <-IH.
Qed.

Lemma queue_ids_entries g : queue_ids (entries g) = value <$> ids g.
Proof. unfold queue_ids, entries, ids. by rewrite <-!list_fmap_compose. Qed.

Lemma elem_of_levels_ids_concrete side g i :
  i ∈ levels_ids (levels_of mk_level side g)
  ↔ ∃ x, x ∈ g ∧ so_side x.2 = side ∧ value (so_id x.2) = i.
Proof.
  rewrite elem_of_levels_ids. unfold levels_of, entries. split.
  - intros (p & l & n & (p' & [= -> ->] & Hp)%list_elem_of_fmap & Hn & <-).
    apply list_elem_of_fmap in Hn as (x & -> & [Hx [Hs ?]]%elem_of_tqueue). by exists x.
  - intros (x & Hx & Hs & <-).
    exists (ticks (so_price x.2)), (mk_level (tqueue side (ticks (so_price x.2)) g)), (x.1, order_entry x.2).
    split_and!; [|by apply (list_elem_of_fmap_2 (λ x, (x.1, order_entry x.2))), elem_of_tqueue|done].
    apply list_elem_of_fmap. exists (ticks (so_price x.2)). split; [done|].
    apply elem_of_level_prices. exists x.2. split; [by apply list_elem_of_fmap_2|done].
Qed.

Lemma levels_ids_NoDup side g : NoDup (ids g) → NoDup (levels_ids (levels_of mk_level side g)).
Proof.
  intros Hnd. unfold levels_ids, levels_of. apply NoDup_bind.
  - intros pl1 pl2 i (p1 & -> & _)%list_elem_of_fmap (p2 & -> & _)%list_elem_of_fmap. simpl.
    rewrite !queue_ids_entries. unfold ids. rewrite <-!list_fmap_compose.
    intros (x1 & -> & [Hx1 [? Hp1]]%elem_of_tqueue)%list_elem_of_fmap
           (x2 & Hv & [Hx2 [? Hp2]]%elem_of_tqueue)%list_elem_of_fmap.
    assert (x1 = x2) as ->; [|congruence].
    apply (ids_inj g); [done..|]. simpl in Hv.
    destruct (so_id x1.2), (so_id x2.2). simpl in Hv. by f_equal.
  - intros pl (p & -> & _)%list_elem_of_fmap. simpl. rewrite queue_ids_entries.
    by apply value_ids_NoDup, ids_tqueue_NoDup.
  - apply (NoDup_fmap_1 fst). rewrite <-list_fmap_compose. simpl. rewrite list_fmap_id.
    apply (sorted_NoDup (before:=side_before side)), level_prices_sorted.
Qed.

Section consistency.
Context (g : node_orders) (ev next : Z).
Hypothesis (Hnd : NoDup (ids g)).
Hypothesis (Hpos : Forall (λ x : Z * SpecOrder, 0 < units (so_quantity x.2))%Z g).

Lemma level_ok_concrete side :
  Forall (level_ok (concrete g ev next) side) (levels_of mk_level side g).
Proof using Hnd Hpos.
  apply Forall_forall. intros pl (p & -> & Hp)%list_elem_of_fmap. unfold level_ok; simpl. split_and!.
  - intros Hnil%fmap_nil_inv. by apply tqueue_nil in Hnil.
  - apply Forall_fmap, Forall_forall. intros x [Hx [Hs Ht]]%elem_of_tqueue. unfold order_ok; simpl.
    rewrite Forall_forall in Hpos. specialize (Hpos _ Hx). split; [lia|].
    rewrite lookup_of_elem by done. unfold mk_record. rewrite Hs, <-Ht. by destruct (so_price x.2).
  - by rewrite queue_total_entries.
Qed.

Lemma concrete_consistent : book_consistent (concrete g ev next).
Proof using Hnd Hpos.
  split; [apply level_ok_concrete..| |]; simpl.
  - apply NoDup_app. split_and!; [by apply levels_ids_NoDup| |by apply levels_ids_NoDup].
    intros i (x & Hx & Hs & <-)%elem_of_levels_ids_concrete (y & Hy & Hs' & Hv)%elem_of_levels_ids_concrete.
    assert (x = y) as ->; [|congruence]. apply (ids_inj g); [done..|].
    destruct (so_id x.2), (so_id y.2). simpl in Hv. by f_equal.
  - intros i [r (x & Hx & <- & _)%lookup_of_Some]; [|done].
    rewrite elem_of_app, !elem_of_levels_ids_concrete.
    destruct (so_side x.2) eqn:E; eauto 10.
Qed.
End consistency.

Lemma concrete_maps_sorted g ev next : maps_sorted (concrete g ev next).
Proof. split; [apply (levels_of_sorted mk_level Buy)|apply (levels_of_sorted mk_level Sell)]. Qed.

(** ** The baseline book discharges the contract *)

Definition opts_allow (opts : InvariantOptions) (s : SpecBook) : Prop :=
  allow_crossed_book opts = true ∨ ¬ crossed s.

Lemma validate_represents opts b s :
  represents b s → validate_invariants opts b = bool_decide (allow_crossed_book opts = true ∨ ¬ crossed s).
Proof.
  intros (g & next & -> & Hg & Hn & Hwf). apply eq_bool_prop_intro.
  rewrite bool_decide_spec, Is_true_true, validate_invariants_consistent by apply concrete_maps_sorted.
  rewrite <-(crosses_concrete g (sb_events s) next s Hg), not_true_iff_false.
  assert (book_consistent (concrete g (sb_events s) next)) as Hc; [|tauto].
  apply concrete_consistent; [by eapply concrete_ids|].
  destruct Hwf as [_ Hq _]. rewrite <-Hg, Forall_fmap in Hq. eapply Forall_impl; [done|].
  intros x Hx; simpl in Hx. lia.
Qed.

#[export] Instance LimitOrderBook_OrderBook : OrderBook LimitOrderBook := {
  ob_apply := apply;
  ob_clear := clear;
  ob_top_of_book := top_of_book;
  ob_depth := depth;
  ob_snapshot b := Ret (snapshot b);
  ob_order_ids_at_price side price b := Ret (order_ids_at_price side price b);
  ob_validate_invariants opts b := Ret (validate_invariants opts b);
  ob_events_applied := events_applied;
  ob_live_order_count := live_order_count
}.

#[export] Instance LimitOrderBook_laws : OrderBookLaws LimitOrderBook None represents.
Proof.
  split.
  - by intros b s (g & next & _ & _ & _ & Hwf).
  - intros e b s Hq Hb. apply (apply_represents e b s Hq Hb).
  - intros b s (g & next & -> & _ & [_ Hn] & _). exists [], next. split_and!; [done..| |].
    + split; constructor.
    + split; simpl; [constructor|constructor|split; done].
  - intros b s (g & next & -> & Hg & _). simpl. unfold top_of_book, spec_top, spec_side. simpl.
    by rewrite !best_level_head, !levels_view_concrete, Hg.
  - intros levels b s (g & next & -> & Hg & _). simpl. unfold depth, spec_depth, spec_side. simpl.
    by rewrite !depth_loop_take, !levels_view_concrete, Hg.
  - intros b s (g & next & -> & Hg & _). simpl. unfold snapshot, spec_snapshot, spec_side. simpl.
    by rewrite !levels_snapshot_concrete, Hg.
  - intros side price b s (g & next & -> & Hg & _). simpl.
    by rewrite order_ids_concrete, Hg.
  - intros opts b s Hb. simpl. by rewrite (validate_represents opts b s Hb).
  - by intros b s (g & next & -> & _).
  - intros b s (g & next & -> & Hg & _ & Hwf). simpl. unfold live_order_count. simpl.
    rewrite lookup_of_size by by eapply concrete_ids. by rewrite <-Hg, length_fmap.
Qed.
