(* ===== verification/BookStreams.v ===== *)
(** * Streams of events

    What a stream of events does to the specification book: how every event
    changes a queue, the units resting in the book and the event counter, and
    when a bounded book and an unbounded one tell each other apart.  These are
    the lemmas the properties of both implementations share. *)
From S2P Require Import Prelude CoreTypes OrderedMap BookTypes BookSpec TaggedOrders.

(** ** One queue *)

(** The ids resting at a price after an applied event, from those before. *)
Definition queue_effect (e : MarketEvent) (side : Side) (price : Price) (fully : bool)
    (ids : list OrderId) : list OrderId :=
  match ev_type e with
  | Add => if decide (ev_side e = side ∧ ticks (ev_price e) = ticks price)
           then ids ++ [ev_order_id e] else ids
  | Modify => ids
  | Cancel => filter (λ i, i ≠ ev_order_id e) ids
  | Execute => if fully then filter (λ i, i ≠ ev_order_id e) ids else ids
  end.

(** Does the event execute all that is left of its order? *)
Definition executes_fully (e : MarketEvent) (s : SpecBook) : bool :=
  match find_order (ev_order_id e) (sb_orders s) with
  | Some o => bool_decide (units (ev_quantity e) = units (so_quantity o))
  | None => false
  end.

Lemma queue_at_app side p os1 os2 :
  queue_at side p (os1 ++ os2) = queue_at side p os1 ++ queue_at side p os2.
Proof. apply filter_app. Qed.

Lemma queue_ids_remove side p id os :
  so_id <$> queue_at side p (remove_order id os) = filter (λ i, i ≠ id) (so_id <$> queue_at side p os).
Proof.
  unfold queue_at, remove_order. rewrite filter_comm, <-filter_fmap. done.
Qed.

Lemma queue_ids_update side p id q os :
  so_id <$> queue_at side p (update_order id q os) = so_id <$> queue_at side p os.
Proof.
  unfold queue_at, update_order. induction os as [|o os IH]; [done|].
  rewrite fmap_cons, !filter_cons. unfold at_level in *.
  destruct (decide (has_id id o)); simpl; repeat case_decide; rewrite ?fmap_cons, IH; done.
Qed.

Lemma spec_queue_effect capacity e s side price :
  (spec_apply capacity e s).1 = Applied →
  spec_order_ids side price (spec_apply capacity e s).2
  = queue_effect e side price (executes_fully e s) (spec_order_ids side price s).
Proof.
  unfold spec_apply, queue_effect, executes_fully, spec_order_ids. destruct (ev_type e).
  - unfold spec_add. simpl. case_decide; [done|]. destruct (find_order _ _); [done|].
    case_decide; [done|]. intros _. simpl.
    rewrite queue_at_app, fmap_app. unfold queue_at. rewrite (filter_cons _ _ []).
    unfold at_level. simpl. destruct (decide _); [done|by rewrite app_nil_r].
  - unfold spec_modify. case_decide; [done|]. destruct (find_order _ _) as [o|]; [|done].
    case_decide; [done|]. intros _. simpl. apply queue_ids_update.
  - unfold spec_cancel. destruct (find_order _ _); [|done]. intros _. simpl. apply queue_ids_remove.
  - unfold spec_execute. case_decide; [done|]. destruct (find_order _ _) as [o|]; [|done].
    case_decide; [done|]. intros _. case_decide; simpl.
    + rewrite bool_decide_true by done. apply queue_ids_remove.
    + rewrite bool_decide_false by done. apply queue_ids_update.
Qed.

(** ** The units resting in the book *)

(** What the event adds to (or takes from) the units resting in the book. *)
Definition unit_change (e : MarketEvent) (s : SpecBook) : Z :=
  let held := match find_order (ev_order_id e) (sb_orders s) with
              | Some o => units (so_quantity o)
              | None => 0%Z
              end in
  match ev_type e with
  | Add => units (ev_quantity e)
  | Modify => units (ev_quantity e) - held
  | Cancel => - held
  | Execute => - units (ev_quantity e)
  end%Z.

(** Untagged orders are orders with a trivial tag. *)
Definition untagged (os : list SpecOrder) : list (() * SpecOrder) := (λ o, ((), o)) <$> os.

Lemma untagged_snd os : (untagged os).*2 = os.
Proof. unfold untagged. induction os as [|o os IH]; [done|]. rewrite !fmap_cons. by f_equal. Qed.

Lemma elem_of_untagged os o : o ∈ os → ((), o) ∈ untagged os.
Proof. intros Ho. apply list_elem_of_fmap. by exists o. Qed.

Lemma total_remove_order os id o :
  NoDup (so_id <$> os) → find_order id os = Some o →
  total_units (remove_order id os) = (total_units os - units (so_quantity o))%Z.
Proof.
  intros Hnd [Hin <-]%find_order_Some. pose proof (total_tremove (untagged os) ((), o)) as Ht.
  rewrite tremove_snd in Ht. unfold ids in Ht. rewrite untagged_snd in Ht.
  apply Ht; [done|]. by apply elem_of_untagged.
Qed.

Lemma total_update_order os id o q :
  NoDup (so_id <$> os) → find_order id os = Some o →
  total_units (update_order id q os) = (total_units os - units (so_quantity o) + units q)%Z.
Proof.
  intros Hnd [Hin <-]%find_order_Some. pose proof (total_tupdate (untagged os) ((), o) q) as Ht.
  rewrite tupdate_snd in Ht. unfold ids in Ht. rewrite untagged_snd in Ht.
  apply Ht; [done|]. by apply elem_of_untagged.
Qed.

Lemma spec_unit_change capacity e s :
  spec_wf s → (spec_apply capacity e s).1 = Applied →
  total_units (sb_orders (spec_apply capacity e s).2)
  = (total_units (sb_orders s) + unit_change e s)%Z.
Proof.
  intros [Hids _ _]. unfold spec_apply, unit_change. destruct (ev_type e).
  - unfold spec_add. simpl. case_decide; [done|]. destruct (find_order _ _); [done|].
    case_decide; [done|]. intros _. simpl. rewrite total_units_app. simpl. lia.
  - unfold spec_modify. case_decide; [done|]. destruct (find_order _ _) as [o|] eqn:E; [|done].
    case_decide; [done|]. intros _. simpl. rewrite (total_update_order _ _ o) by done. lia.
  - unfold spec_cancel. destruct (find_order _ _) as [o|] eqn:E; [|done]. intros _. simpl.
    rewrite (total_remove_order _ _ o) by done. lia.
  - unfold spec_execute. case_decide; [done|]. destruct (find_order _ _) as [o|] eqn:E; [|done].
    case_decide; [done|]. intros _. case_decide; simpl.
    + rewrite (total_remove_order _ _ o) by done. lia.
    + rewrite (total_update_order _ _ o) by done. simpl. lia.
Qed.

(** All the units a snapshot shows. *)
Definition side_units (levels : list PriceLevelSnapshot) : Z :=
  foldr (λ l a, foldr (λ o a, units (ov_quantity o) + a) a (pls_orders l))%Z 0%Z levels.

Definition snapshot_units (snap : BookSnapshot) : Z :=
  (side_units (snap_bids snap) + side_units (snap_asks snap))%Z.

Lemma side_units_total side os ps :
  side_units (spec_level side os <$> ps) = total_units (ps ≫= λ p, queue_at side p os).
Proof.
  induction ps as [|p ps IH]; [done|]. rewrite fmap_cons. simpl. rewrite IH, total_units_app.
  induction (queue_at side p os) as [|o q IHq]; [done|].
  rewrite fmap_cons, total_units_cons. cbn [foldr]. rewrite IHq. simpl. lia.
Qed.

Lemma total_units_perm os1 os2 : os1 ≡ₚ os2 → total_units os1 = total_units os2.
Proof. induction 1; simpl; lia. Qed.

Lemma all_queues_permutation os :
  NoDup (so_id <$> os) →
  (level_prices Buy os ≫= λ p, queue_at Buy p os) ++
  (level_prices Sell os ≫= λ p, queue_at Sell p os) ≡ₚ os.
Proof.
  intros Hnd. pose proof (all_orders_permutation (untagged os)) as Hp.
  unfold ids in Hp. rewrite untagged_snd in Hp. specialize (Hp Hnd).
  apply (fmap_Permutation snd) in Hp. rewrite fmap_app, untagged_snd in Hp.
  assert (∀ side, (side_orders side (untagged os)).*2 = level_prices side os ≫= λ p, queue_at side p os) as Hs.
  { intros side. unfold side_orders. rewrite untagged_snd.
    induction (level_prices side os) as [|p ps IH]; [done|]. simpl.
    rewrite fmap_app, tqueue_snd, untagged_snd. by f_equal. }
  by rewrite <-!Hs.
Qed.

Lemma snapshot_units_total s :
  spec_wf s → snapshot_units (spec_snapshot s) = total_units (sb_orders s).
Proof.
  intros [Hids _ _]. unfold snapshot_units, spec_snapshot, spec_side. simpl.
  rewrite !side_units_total, <-total_units_app. by apply total_units_perm, all_queues_permutation.
Qed.

(** ** The event counter *)

Lemma spec_events_counted capacity events s :
  is_u64 (sb_events s) →
  sb_events (spec_apply_all capacity events s).2
  = wrap64 (sb_events s + Z.of_nat (length (filter (λ r, r = Applied) (spec_apply_all capacity events s).1))).
Proof.
  revert s. induction events as [|e events IH]; intros s Hs; simpl.
  { by rewrite Z.add_0_r, wrap64_small. }
  assert (sb_events (spec_apply capacity e s).2
    = wrap64 (sb_events s + if decide ((spec_apply capacity e s).1 = Applied) then 1 else 0)) as He.
  { case_decide as Ha.
    - revert Ha. unfold spec_apply, spec_add, spec_modify, spec_cancel, spec_execute.
      repeat case_match; done.
    - rewrite spec_apply_rejected by done. by rewrite Z.add_0_r, wrap64_small. }
  rewrite IH, He by (rewrite He; apply wrap64_range). rewrite filter_cons, wrap64_add_l. f_equal.
  case_decide; simpl length; lia.
Qed.

(** ** Bounded and unbounded books *)

(** A bounded book that never reports [CapacityExceeded] behaves as the
    unbounded one. *)
Lemma spec_apply_capacity cap e s :
  (spec_apply (Some cap) e s).1 ≠ CapacityExceeded → spec_apply (Some cap) e s = spec_apply None e s.
Proof.
  unfold spec_apply, spec_add. destruct (ev_type e); try done. simpl.
  case_decide; [done|]. destruct (find_order _ _); [done|].
  destruct (decide (cap ≤ _)); [done|]. done.
Qed.

Lemma spec_apply_all_capacity cap events s :
  CapacityExceeded ∉ (spec_apply_all (Some cap) events s).1 →
  spec_apply_all (Some cap) events s = spec_apply_all None events s.
Proof.
  revert s. induction events as [|e events IH]; intros s; simpl; [done|].
  rewrite not_elem_of_cons. intros [Hr Hrs]. assert (spec_apply (Some cap) e s = spec_apply None e s) as He
    by (apply spec_apply_capacity; congruence).
  rewrite He in Hrs |- *. by rewrite IH.
Qed.

(** The live orders of a bounded book never exceed its capacity. *)
Lemma spec_apply_bounded cap e s :
  length (sb_orders s) ≤ cap → length (sb_orders (spec_apply (Some cap) e s).2) ≤ cap.
Proof.
  intros Hl. unfold spec_apply. destruct (ev_type e).
  - unfold spec_add. simpl. repeat case_match; simpl in *; try done. rewrite length_app. simpl. lia.
  - unfold spec_modify. repeat case_match; simpl; try done. unfold update_order. by rewrite length_fmap.
  - unfold spec_cancel. repeat case_match; simpl; try done.
    etrans; [apply length_filter|done].
  - unfold spec_execute. repeat case_match; simpl; try done; [etrans; [apply length_filter|done]|].
    unfold update_order. by rewrite length_fmap.
Qed.

Lemma stream_wf capacity events s :
  Forall (λ e, quantity_wf (ev_quantity e)) events → spec_wf s →
  spec_wf (spec_apply_all capacity events s).2.
Proof.
  intros Hev. revert s. induction Hev as [|e events He _ IH]; intros s Hs; simpl; [done|].
  apply IH. by apply spec_apply_wf.
Qed.

Lemma spec_apply_all_app capacity es1 es2 s :
  spec_apply_all capacity (es1 ++ es2) s
  = let x := spec_apply_all capacity es1 s in
    let y := spec_apply_all capacity es2 x.2 in (x.1 ++ y.1, y.2).
Proof.
  revert s. induction es1 as [|e es1 IH]; intros s; simpl; [by destruct (spec_apply_all capacity es2 s)|].
  by rewrite IH.
Qed.

Lemma spec_empty_wf : spec_wf spec_empty.
Proof. split; simpl; [constructor|constructor|done]. Qed.

(** ** What a snapshot shows *)

Definition side_views (levels : list PriceLevelSnapshot) : list OrderView := levels ≫= pls_orders.

Definition snapshot_orders (snap : BookSnapshot) : list OrderView :=
  side_views (snap_bids snap) ++ side_views (snap_asks snap).

(** The units the order [id] has left, zero if it does not rest. *)
Definition resting_units (id : OrderId) (snap : BookSnapshot) : Z :=
  match filter (λ v, ov_order_id v = id) (snapshot_orders snap) with
  | v :: _ => units (ov_quantity v)
  | [] => 0
  end.

(** A level shows its orders' total (in 64 bits) and is never empty. *)
Definition level_view_wf (l : PriceLevelSnapshot) : Prop :=
  pls_orders l ≠ [] ∧
  Forall (λ v, 0 < units (ov_quantity v) < two64)%Z (pls_orders l) ∧
  units (pls_quantity l) = wrap64 (foldr (λ v a, units (ov_quantity v) + a)%Z 0%Z (pls_orders l)).

(** Best price first on both sides, no order twice. *)
Record snapshot_wf (snap : BookSnapshot) : Prop := {
  snapshot_bids_sorted :
    StronglySorted (λ a b, ticks (pls_price b) < ticks (pls_price a))%Z (snap_bids snap);
  snapshot_asks_sorted :
    StronglySorted (λ a b, ticks (pls_price a) < ticks (pls_price b))%Z (snap_asks snap);
  snapshot_levels : Forall level_view_wf (snap_bids snap ++ snap_asks snap);
  snapshot_ids : NoDup (ov_order_id <$> snapshot_orders snap)
}.

Lemma side_views_spec side os ps :
  side_views (spec_level side os <$> ps) = order_view <$> (ps ≫= λ p, queue_at side p os).
Proof.
  unfold side_views. induction ps as [|p ps IH]; [done|]. rewrite fmap_cons. simpl.
  rewrite fmap_app. by f_equal.
Qed.

Lemma snapshot_orders_spec s :
  spec_wf s → snapshot_orders (spec_snapshot s) ≡ₚ order_view <$> sb_orders s.
Proof.
  intros [Hids _ _]. unfold snapshot_orders, spec_snapshot, spec_side. simpl.
  rewrite !side_views_spec, <-fmap_app. by apply fmap_Permutation, all_queues_permutation.
Qed.

Lemma order_view_ids (os : list SpecOrder) : ov_order_id <$> (order_view <$> os) = so_id <$> os.
Proof. by rewrite <-list_fmap_compose. Qed.

Lemma snapshot_live_count s :
  spec_wf s → length (snapshot_orders (spec_snapshot s)) = length (sb_orders s).
Proof. intros Hs. by rewrite (snapshot_orders_spec s Hs), length_fmap. Qed.

Lemma resting_units_spec id s :
  spec_wf s →
  resting_units id (spec_snapshot s)
  = match find_order id (sb_orders s) with Some o => units (so_quantity o) | None => 0%Z end.
Proof.
  intros Hs. unfold resting_units.
  assert (filter (λ v, ov_order_id v = id) (snapshot_orders (spec_snapshot s))
    ≡ₚ filter (λ v, ov_order_id v = id) (order_view <$> sb_orders s)) as Hp
    by by rewrite (snapshot_orders_spec s Hs).
  rewrite <-(filter_fmap order_view (λ v, ov_order_id v = id)) in Hp.
  unfold find_order. change (filter (has_id id) (sb_orders s))
    with (filter (λ o, ov_order_id (order_view o) = id) (sb_orders s)).
  assert (length (filter (λ o, ov_order_id (order_view o) = id) (sb_orders s)) ≤ 1) as Hl.
  { destruct (filter (λ o, ov_order_id (order_view o) = id) (sb_orders s)) as [|o1 [|o2 l]] eqn:E;
      simpl; [lia|lia|].
    assert (NoDup (so_id <$> o1 :: o2 :: l)) as Hnd by (rewrite <-E; by apply NoDup_fmap_filter, Hs).
    assert (o1 ∈ o1 :: o2 :: l ∧ o2 ∈ o1 :: o2 :: l) as [H1 H2] by (split; set_solver).
    rewrite <-E in H1, H2. apply list_elem_of_filter in H1 as [Hi1 _], H2 as [Hi2 _].
    rewrite !fmap_cons in Hnd. apply NoDup_cons in Hnd as [Hn _]. destruct Hn. apply elem_of_cons. left.
    unfold order_view in Hi1, Hi2. simpl in Hi1, Hi2 |- *. congruence. }
  destruct (filter (λ o, ov_order_id (order_view o) = id) (sb_orders s)) as [|o [|]]; simpl in *; [| |lia].
  - by apply Permutation_nil_r in Hp as ->.
  - by apply Permutation_singleton_r in Hp as ->.
Qed.

Lemma strongly_sorted_weaken {A} (R R' : A → A → Prop) l :
  (∀ x y, R x y → R' x y) → StronglySorted R l → StronglySorted R' l.
Proof.
  intros HR. induction 1 as [|x l _ IH Hf]; constructor; [done|]. by eapply Forall_impl; [done|auto].
Qed.

Lemma spec_levels_sorted side s :
  StronglySorted (λ a b, side_before side (ticks (pls_price a)) (ticks (pls_price b)) = true)
    (spec_side side s).
Proof.
  unfold spec_side. pose proof (level_prices_sorted side (sb_orders s)) as Hs.
  unfold sorted in Hs. change ((foldr _ _ _).*1) with (level_prices side (sb_orders s)) in Hs.
  induction Hs as [|p ps _ IH Hf]; [constructor|]. rewrite fmap_cons. constructor; [done|].
  by apply Forall_fmap.
Qed.

Lemma spec_level_wf side os p :
  Forall (λ o, 0 < units (so_quantity o) < two64)%Z os → p ∈ level_prices side os →
  level_view_wf (spec_level side os p).
Proof.
  intros Hq Hp. assert (queue_at side p os ≠ []) as Hne by (rewrite queue_at_nil; tauto).
  split_and!; simpl.
  - by destruct (queue_at side p os).
  - apply Forall_fmap. unfold queue_at. by apply Forall_filter.
  - f_equal. clear. induction (queue_at side p os) as [|o q IH]; [done|].
    rewrite fmap_cons, total_units_cons, IH. done.
Qed.

Lemma spec_snapshot_wf s : spec_wf s → snapshot_wf (spec_snapshot s).
Proof.
  intros Hs. split; simpl.
  - eapply strongly_sorted_weaken; [|apply spec_levels_sorted]. intros a b Hab. by apply Z.ltb_lt in Hab.
  - eapply strongly_sorted_weaken; [|apply spec_levels_sorted]. intros a b Hab. by apply Z.ltb_lt in Hab.
  - apply Forall_app. split; apply Forall_fmap, Forall_forall; intros p Hp; apply spec_level_wf; try done; apply Hs.
  - rewrite (snapshot_orders_spec s Hs), order_view_ids. apply Hs.
Qed.

(** ** Observing an implementation *)

(** Every observer returns what the specification book shows. *)
Record observes `{OrderBook B} (b : B) (s : SpecBook) : Prop := {
  observes_top : ob_top_of_book b = spec_top s;
  observes_depth levels : ob_depth levels b = spec_depth levels s;
  observes_snapshot : ob_snapshot b = Ret (spec_snapshot s);
  observes_order_ids side price :
    ob_order_ids_at_price side price b = Ret (spec_order_ids side price s);
  observes_validate opts :
    ob_validate_invariants opts b
    = Ret (bool_decide (allow_crossed_book opts = true ∨ ¬ crossed s));
  observes_events : ob_events_applied b = sb_events s;
  observes_live : ob_live_order_count b = Z.of_nat (length (sb_orders s))
}.

(** Two books no observer can tell apart. *)
Record indistinguishable `{OrderBook B1, OrderBook B2} (b1 : B1) (b2 : B2) : Prop := {
  same_top : ob_top_of_book b1 = ob_top_of_book b2;
  same_depth levels : ob_depth levels b1 = ob_depth levels b2;
  same_snapshot : ob_snapshot b1 = ob_snapshot b2;
  same_order_ids side price : ob_order_ids_at_price side price b1 = ob_order_ids_at_price side price b2;
  same_validate opts : ob_validate_invariants opts b1 = ob_validate_invariants opts b2;
  same_events : ob_events_applied b1 = ob_events_applied b2;
  same_live : ob_live_order_count b1 = ob_live_order_count b2
}.

Section implementation.
Context `{HL : OrderBookLaws B capacity rep}.
Implicit Types (b : B) (s : SpecBook).

Lemma rep_observes b s : rep b s → observes b s.
Proof using HL.
  intros Hb. split; intros.
  - by apply law_top_of_book.
  - by apply law_depth.
  - by apply law_snapshot.
  - by apply law_order_ids.
  - by apply law_validate.
  - by apply law_events_applied.
  - by apply law_live_order_count.
Qed.

(** The books a stream of well-formed events leads to from [b0]. *)
Definition reachable_book (b0 b : B) : Prop :=
  ∃ events rs, Forall (λ e, quantity_wf (ev_quantity e)) events ∧ apply_all events b0 = Ret (rs, b).

Lemma reachable_rep b0 b :
  rep b0 spec_empty → reachable_book b0 b → ∃ s, rep b s ∧ spec_wf s.
Proof using HL.
  intros H0 (events & rs & Hev & Ha).
  destruct (apply_all_refines events b0 spec_empty Hev H0) as (b' & Ha' & Hb').
  rewrite Ha' in Ha. injection Ha as <- <-. eexists. split; [done|]. by eapply law_wf.
Qed.

Lemma apply_rep e b s r b' :
  quantity_wf (ev_quantity e) → rep b s → ob_apply e b = Ret (r, b') →
  r = (spec_apply capacity e s).1 ∧ rep b' (spec_apply capacity e s).2.
Proof using HL.
  intros Hq Hb Ha. destruct (law_apply e b s Hq Hb) as (b1 & Ha1 & Hb1).
  rewrite Ha1 in Ha. by injection Ha as <- <-.
Qed.
End implementation.

Lemma observes_indistinguishable `{OrderBook B1, OrderBook B2} (b1 : B1) (b2 : B2) s :
  observes b1 s → observes b2 s → indistinguishable b1 b2.
Proof.
  intros [Ht1 Hd1 Hs1 Hi1 Hv1 He1 Hl1] [Ht2 Hd2 Hs2 Hi2 Hv2 He2 Hl2].
  split; intros; congruence.
Qed.
