(* ===== verification/BookCompleteness.v ===== *)
(** * The baseline checker is complete

    A book whose containers agree is the image of a specification book: the
    orders read off the levels give it back.  So [validate_invariants] does
    not merely test a few symptoms, it recognises exactly the states the
    refinement proof talks about. *)
From S2P Require Import Prelude CoreTypes OrderedMap BookTypes BookSpec TaggedOrders Book.
From S2P Require Import BookRefinement BookValidation.
Import LimitOrderBook.

(** The order a list node stands for, and the orders of a side. *)
Definition node_order (side : Side) (price : Z) (n : Z * OrderEntry) : Z * SpecOrder :=
  (n.1, MkSpecOrder (order_id n.2) side (MkPrice price) (timestamp n.2) (quantity n.2)).

Definition level_nodes (side : Side) (pl : Z * PriceLevel) : node_orders :=
  node_order side pl.1 <$> orders pl.2.

Definition side_nodes (side : Side) (levels : list (Z * PriceLevel)) : node_orders :=
  levels ≫= level_nodes side.

Definition book_nodes (b : LimitOrderBook) : node_orders :=
  side_nodes Buy (bid_levels_ b) ++ side_nodes Sell (ask_levels_ b).

(** What the language guarantees of any book object: sorted maps, distinct
    allocated list nodes, fields within their types. *)
Record book_typed (b : LimitOrderBook) : Prop := {
  typed_maps : maps_sorted b;
  typed_nodes : nodes_ok (book_nodes b) (next_node_ b);
  typed_quantities : Forall (λ x, is_u64 (units (so_quantity x.2))) (book_nodes b);
  typed_events : is_u64 (events_applied_ (stats_ b))
}.

Lemma tqueue_level_nodes side p side' pl :
  tqueue side p (level_nodes side' pl)
  = if decide (side' = side ∧ pl.1 = p) then level_nodes side' pl else [].
Proof.
  unfold tqueue, level_nodes. case_decide as H.
  - apply filter_all, Forall_fmap, Forall_forall. intros n _. exact H.
  - apply filter_none, Forall_fmap, Forall_forall. intros n _ Hn. by apply H.
Qed.

Lemma tqueue_bind side p side' pl levels :
  tqueue side p (side_nodes side' (pl :: levels))
  = tqueue side p (level_nodes side' pl) ++ tqueue side p (side_nodes side' levels).
Proof. apply filter_app. Qed.

Lemma tqueue_side_nodes side p levels :
  sorted (side_before side) levels →
  tqueue side p (side_nodes side levels)
  = match find (side_before side) p levels with
    | Some l => level_nodes side (p, l)
    | None => []
    end.
Proof.
  induction levels as [|[p' l] levels IH]; [done|].
  rewrite sorted_cons, tqueue_bind, tqueue_level_nodes. intros [Hf Hs]. specialize (IH Hs).
  cbn [find]. cbn [fst]. destruct (side_before side p' p) eqn:E1.
  { rewrite decide_False by (intros [_ ->]; by rewrite before_irrefl in E1). done. }
  rewrite IH, (find_before p).
  - destruct (side_before side p p') eqn:E2.
    + rewrite decide_False by (intros [_ ->]; by rewrite before_irrefl in E2). done.
    + rewrite decide_True; [by rewrite (before_total _ _ E1 E2), app_nil_r|].
      by rewrite (before_total _ _ E1 E2).
  - eapply Forall_impl; [exact Hf|]. intros [k v] Hk. simpl in *.
    destruct (side_before side p p') eqn:E2; [by eapply before_trans|].
    by rewrite <-(before_total _ _ E1 E2).
Qed.

Lemma tqueue_other_side side p side' levels :
  side' ≠ side → tqueue side p (side_nodes side' levels) = [].
Proof.
  intros Hne. induction levels as [|pl levels IH]; [done|].
  rewrite tqueue_bind, tqueue_level_nodes, IH, decide_False; [done|naive_solver].
Qed.

Lemma tqueue_book_nodes b side p :
  maps_sorted b →
  tqueue side p (book_nodes b)
  = match find_level side (MkPrice p) b with Some l => level_nodes side (p, l) | None => [] end.
Proof.
  intros [Hb Ha]. unfold book_nodes, tqueue. rewrite filter_app.
  change (tqueue side p (side_nodes Buy (bid_levels_ b)) ++ tqueue side p (side_nodes Sell (ask_levels_ b))
    = match find_level side (MkPrice p) b with Some l => level_nodes side (p, l) | None => [] end).
  destruct side.
  - rewrite (tqueue_side_nodes Buy), tqueue_other_side, app_nil_r by done. done.
  - rewrite (tqueue_side_nodes Sell), tqueue_other_side by done. done.
Qed.

Lemma entries_level_nodes side pl : entries (level_nodes side pl) = orders pl.2.
Proof.
  unfold entries, level_nodes. induction (orders pl.2) as [|[it [i t q]] os IH]; [done|].
  rewrite !fmap_cons, IH. done.
Qed.

Lemma ids_side_nodes side levels : ids (side_nodes side levels) = MkOrderId <$> levels_ids levels.
Proof.
  induction levels as [|pl levels IH]; [done|].
  change (side_nodes side (pl :: levels)) with (level_nodes side pl ++ side_nodes side levels).
  change (levels_ids (pl :: levels)) with (queue_ids (orders pl.2) ++ levels_ids levels).
  rewrite ids_app, fmap_app, IH. f_equal. unfold level_nodes, queue_ids, ids.
  induction (orders pl.2) as [|[it [[i] t q]] os IHo]; [done|]. rewrite !fmap_cons, IHo. done.
Qed.

Section consistent.
Context (b : LimitOrderBook).
Hypothesis (Ht : book_typed b) (Hc : book_consistent b).

Lemma book_nodes_ids : NoDup (ids (book_nodes b)).
Proof using Hc.
  unfold book_nodes. rewrite ids_app, !ids_side_nodes, <-fmap_app.
  apply NoDup_fmap_2; [by intros ? ? [=]|apply Hc].
Qed.

(** A level found in either map passed the checks of [validate_level]. *)
Lemma found_level_ok side p l :
  find_level side (MkPrice p) b = Some l → level_ok b side (p, l).
Proof using Hc.
  destruct Hc as [Hb Ha _ _]. rewrite Forall_forall in Hb, Ha.
  destruct side; simpl; intros Hf%find_Some_elem; auto.
Qed.

Lemma level_of_nodes_eq side p l :
  level_ok b side (p, l) → l = mk_level (level_nodes side (p, l)).
Proof using.
  intros (_ & _ & Htot). unfold mk_level. rewrite entries_level_nodes.
  pose proof (queue_total_entries (level_nodes side (p, l))) as Hq.
  rewrite entries_level_nodes, <-Htot in Hq. rewrite <-Hq. by destruct l as [[u] os].
Qed.

Lemma levels_from_nodes side :
  sorted (side_before side) (match side with Buy => bid_levels_ b | Sell => ask_levels_ b end) →
  match side with Buy => bid_levels_ b | Sell => ask_levels_ b end
  = levels_of mk_level side (book_nodes b).
Proof using Ht Hc.
  intros Hs. apply levels_of_unique; [done|]. intros p.
  rewrite (tqueue_book_nodes b side p (typed_maps _ Ht)).
  transitivity (find_level side (MkPrice p) b); [by destruct side|].
  destruct (find_level side (MkPrice p) b) as [l|] eqn:Hf; [|done].
  pose proof (found_level_ok _ _ _ Hf) as Hl. rewrite (level_of_nodes_eq _ _ _ Hl) at 1.
  destruct Hl as [Hne _]. unfold level_nodes. simpl in *. by destruct (orders l).
Qed.

Lemma elem_of_book_nodes x :
  x ∈ book_nodes b →
  ∃ side p l n, find_level side (MkPrice p) b = Some l ∧ n ∈ orders l ∧ x = node_order side p n.
Proof using Ht.
  destruct (typed_maps _ Ht) as [Hb Ha]. unfold book_nodes, side_nodes. rewrite elem_of_app, !list_elem_of_bind.
  intros [([p l] & Hx & Hl)|([p l] & Hx & Hl)]; apply list_elem_of_fmap in Hx as (n & -> & Hn).
  - exists Buy, p, l, n. split_and!; [by apply elem_find_Some|done|done].
  - exists Sell, p, l, n. split_and!; [by apply elem_find_Some|done|done].
Qed.

Lemma book_node_record x :
  x ∈ book_nodes b →
  order_lookup_ b !! value (so_id x.2) = Some (mk_record x.1 x.2) ∧ units (so_quantity x.2) ≠ 0%Z.
Proof using Ht Hc.
  intros (side & p & l & n & Hf & Hn & ->)%elem_of_book_nodes.
  destruct (found_level_ok _ _ _ Hf) as (_ & Ho & _). rewrite Forall_forall in Ho.
  destruct (Ho n Hn) as [Hq Hlk]. done.
Qed.

Lemma lookup_from_nodes : order_lookup_ b = lookup_of mk_record (book_nodes b).
Proof using Ht Hc.
  apply map_eq. intros i. destruct (lookup_of mk_record (book_nodes b) !! i) as [r|] eqn:E.
  - apply lookup_of_Some in E as (x & Hx & <- & <-); [|apply book_nodes_ids].
    by apply book_node_record.
  - apply lookup_of_None in E. destruct (order_lookup_ b !! i) as [r|] eqn:El; [|done].
    destruct E. unfold book_nodes. rewrite ids_app, !ids_side_nodes, <-fmap_app.
    apply list_elem_of_fmap. exists i. split; [done|]. apply (consistent_lookup _ Hc). eauto.
Qed.

Lemma consistent_represents :
  represents b (MkSpecBook (book_nodes b).*2 (events_applied_ (stats_ b))).
Proof using Ht Hc.
  destruct (typed_maps _ Ht) as [Hb Ha]. exists (book_nodes b), (next_node_ b). split_and!; [|done|apply Ht|].
  - unfold concrete. rewrite <-(levels_from_nodes Buy Hb), <-(levels_from_nodes Sell Ha), <-lookup_from_nodes.
    by destruct b as [? ? ? [?] ?].
  - split; simpl; [apply book_nodes_ids| |apply Ht].
    apply Forall_fmap, Forall_forall. intros x Hx. simpl.
    pose proof (typed_quantities _ Ht) as Hq. rewrite Forall_forall in Hq. specialize (Hq x Hx).
    destruct (book_node_record x Hx) as [_ Hne]. unfold is_u64 in Hq. lia.
Qed.
End consistent.
