(* ===== verification/PooledBook.v ===== *)
(** * The pooled order book

    Models the class [PooledLimitOrderBook] of
    [include/datagine/book/pooled_limit_order_book.hpp] and
    [src/book/pooled_limit_order_book.cpp].  The FIFO queues are intrusive
    doubly-linked lists inside the vector [nodes_], linked by indices, with
    [npos] as the null index; [free_indices_] is the stack of unused indices.
    Indexing [nodes_] out of range is [UB].

    The loops [for (index = head; index != npos; index = nodes_[index].next)]
    carry fuel [nodes_.size() + 1]: a walk that does not reach [npos] within
    that many steps has revisited a node and never ends, which counts as [UB]. *)
From S2P Require Import Prelude CoreTypes OrderedMap BookTypes.

Module PooledLimitOrderBook.

(** [std::numeric_limits<std::size_t>::max()]. *)
Definition npos : Z := 18446744073709551615.

Record Stats : Type := MkStats { events_applied_ : Z }.

Record OrderNode : Type := MkOrderNode {
  n_order_id : OrderId;
  n_timestamp : Timestamp;
  n_quantity : Quantity;
  n_prev : Z;
  n_next : Z;
  n_active : bool
}.

(** [OrderNode{}]. *)
Definition empty_node : OrderNode :=
  MkOrderNode (MkOrderId 0) (MkTimestamp 0) (MkQuantity 0) npos npos false.

Record PriceLevel : Type := MkPriceLevel {
  total_quantity : Quantity;
  order_count : Z;
  l_head : Z;
  l_tail : Z
}.

(** [PriceLevel{}]. *)
Definition empty_level : PriceLevel := MkPriceLevel (MkQuantity 0) 0 npos npos.

Record OrderRecord : Type := MkOrderRecord {
  r_side : Side;
  r_price : Price;
  r_timestamp : Timestamp;
  r_quantity : Quantity;
  r_node_index : Z
}.

Record PooledLimitOrderBook : Type := MkBook {
  nodes_ : list OrderNode;
  free_indices_ : list Z;
  bid_levels_ : list (Z * PriceLevel);
  ask_levels_ : list (Z * PriceLevel);
  order_lookup_ : gmap Z OrderRecord;
  stats_ : Stats
}.

Definition set_pool (nodes : list OrderNode) (free : list Z) (b : PooledLimitOrderBook) :=
  MkBook nodes free (bid_levels_ b) (ask_levels_ b) (order_lookup_ b) (stats_ b).
Definition set_bids (m : list (Z * PriceLevel)) (b : PooledLimitOrderBook) :=
  MkBook (nodes_ b) (free_indices_ b) m (ask_levels_ b) (order_lookup_ b) (stats_ b).
Definition set_asks (m : list (Z * PriceLevel)) (b : PooledLimitOrderBook) :=
  MkBook (nodes_ b) (free_indices_ b) (bid_levels_ b) m (order_lookup_ b) (stats_ b).
Definition set_lookup (m : gmap Z OrderRecord) (b : PooledLimitOrderBook) :=
  MkBook (nodes_ b) (free_indices_ b) (bid_levels_ b) (ask_levels_ b) m (stats_ b).

(** [++stats_.events_applied]. *)
Definition count_event (b : PooledLimitOrderBook) : PooledLimitOrderBook :=
  MkBook (nodes_ b) (free_indices_ b) (bid_levels_ b) (ask_levels_ b) (order_lookup_ b)
    (MkStats (add64 (events_applied_ (stats_ b)) 1)).

(** ** Node pool *)

Definition set_next (i : Z) (n : OrderNode) : OrderNode :=
  MkOrderNode (n_order_id n) (n_timestamp n) (n_quantity n) (n_prev n) i (n_active n).
Definition set_prev (i : Z) (n : OrderNode) : OrderNode :=
  MkOrderNode (n_order_id n) (n_timestamp n) (n_quantity n) i (n_next n) (n_active n).
Definition set_node_quantity (q : Quantity) (n : OrderNode) : OrderNode :=
  MkOrderNode (n_order_id n) (n_timestamp n) q (n_prev n) (n_next n) (n_active n).

(** Assigning a member of [nodes_[i]]. *)
Definition node_update (f : OrderNode → OrderNode) (i : Z) (nodes : list OrderNode)
    : Exec (list OrderNode) :=
  node ← vec_at nodes i;
  vec_set nodes i (f node).

(** The indices pushed by the loop [index = n .. 1: push_back(index - 1)]. *)
Fixpoint free_list (n : nat) : list Z :=
  match n with
  | O => []
  | S n' => Z.of_nat n' :: free_list n'
  end.

Definition reset_free_list (b : PooledLimitOrderBook) : PooledLimitOrderBook :=
  set_pool ((λ _, empty_node) <$> nodes_ b) (free_list (length (nodes_ b))) b.

(** [PooledLimitOrderBook(max_live_orders)]. *)
Definition make_book (max_live_orders : Z) : PooledLimitOrderBook :=
  reset_free_list
    (MkBook (replicate (Z.to_nat max_live_orders) empty_node) [] [] [] ∅ (MkStats 0)).

(** [back] and [pop_back] of the free stack. *)
Definition allocate_node (b : PooledLimitOrderBook) : option (Z * PooledLimitOrderBook) :=
  match last (free_indices_ b) with
  | None => None
  | Some index => Some (index, set_pool (nodes_ b) (removelast (free_indices_ b)) b)
  end.

Definition release_node (node_index : Z) (b : PooledLimitOrderBook) : Exec PooledLimitOrderBook :=
  nodes ← vec_set (nodes_ b) node_index empty_node;
  Ret (set_pool nodes (free_indices_ b ++ [node_index]) b).

Definition append_node (level : PriceLevel) (node_index : Z) (nodes : list OrderNode)
    : Exec (PriceLevel * list OrderNode) :=
  nodes ← node_update (set_prev (l_tail level)) node_index nodes;
  nodes ← node_update (set_next npos) node_index nodes;
  '(hd, nodes) ←
    (if decide (l_tail level ≠ npos) then
       nodes ← node_update (set_next node_index) (l_tail level) nodes;
       Ret (l_head level, nodes)
     else Ret (node_index, nodes));
  Ret (MkPriceLevel (total_quantity level) (add64 (order_count level) 1) hd node_index, nodes).

Definition unlink_node (level : PriceLevel) (node_index : Z) (nodes : list OrderNode)
    : Exec (PriceLevel * list OrderNode) :=
  node ← vec_at nodes node_index;
  let prev := n_prev node in
  let next := n_next node in
  '(hd, nodes) ←
    (if decide (prev ≠ npos) then
       nodes ← node_update (set_next next) prev nodes;
       Ret (l_head level, nodes)
     else Ret (next, nodes));
  '(tl, nodes) ←
    (if decide (next ≠ npos) then
       nodes ← node_update (set_prev prev) next nodes;
       Ret (l_tail level, nodes)
     else Ret (prev, nodes));
  Ret (MkPriceLevel (total_quantity level) (sub64 (order_count level) 1) hd tl, nodes).

(** ** Operations *)

Definition add_total (level : PriceLevel) (n : Z) : PriceLevel :=
  MkPriceLevel (MkQuantity (add64 (units (total_quantity level)) n))
    (order_count level) (l_head level) (l_tail level).
Definition sub_total (level : PriceLevel) (n : Z) : PriceLevel :=
  MkPriceLevel (MkQuantity (sub64 (units (total_quantity level)) n))
    (order_count level) (l_head level) (l_tail level).

Definition find_level (side : Side) (price : Price) (b : PooledLimitOrderBook) : option PriceLevel :=
  match side with
  | Buy => find greater (ticks price) (bid_levels_ b)
  | Sell => find less (ticks price) (ask_levels_ b)
  end.

Definition store_level (side : Side) (price : Price) (level : PriceLevel) (b : PooledLimitOrderBook)
    : PooledLimitOrderBook :=
  match side with
  | Buy => set_bids (insert_or_assign greater (ticks price) level (bid_levels_ b)) b
  | Sell => set_asks (insert_or_assign less (ticks price) level (ask_levels_ b)) b
  end.

(** The four member assignments of [add_order] to its node. *)
Definition fill_node (id : OrderId) (ts : Timestamp) (qty : Quantity) (n : OrderNode) : OrderNode :=
  MkOrderNode id ts qty (n_prev n) (n_next n) true.

Definition add_order (id : OrderId) (side : Side) (price : Price) (qty : Quantity)
    (ts : Timestamp) (b : PooledLimitOrderBook) : Exec (BookResult * PooledLimitOrderBook) :=
  if decide (units qty = 0%Z) then Ret (InvalidQuantity, b)
  else if decide (is_Some (order_lookup_ b !! value id)) then Ret (DuplicateOrderId, b)
  else
    match allocate_node b with
    | None => Ret (CapacityExceeded, b)
    | Some (node_index, b) =>
        let level :=
          match side with
          | Buy => subscript greater empty_level (ticks price) (bid_levels_ b)
          | Sell => subscript less empty_level (ticks price) (ask_levels_ b)
          end in
        nodes ← node_update (fill_node id ts qty) node_index (nodes_ b);
        '(level, nodes) ← append_node level node_index nodes;
        let level := add_total level (units qty) in
        let b := store_level side price level (set_pool nodes (free_indices_ b) b) in
        let b := set_lookup (<[value id := MkOrderRecord side price ts qty node_index]>
                   (order_lookup_ b)) b in
        Ret (Applied, count_event b)
    end.

Definition remove_existing_order (id : Z) (b : PooledLimitOrderBook) : Exec PooledLimitOrderBook :=
  record ← deref (order_lookup_ b !! id);
  b ← match r_side record with
      | Buy =>
          level ← deref (find greater (ticks (r_price record)) (bid_levels_ b));
          let level := sub_total level (units (r_quantity record)) in
          '(level, nodes) ← unlink_node level (r_node_index record) (nodes_ b);
          b ← release_node (r_node_index record) (set_pool nodes (free_indices_ b) b);
          Ret (set_bids (if decide (order_count level = 0%Z)
                         then erase greater (ticks (r_price record)) (bid_levels_ b)
                         else insert_or_assign greater (ticks (r_price record)) level (bid_levels_ b)) b)
      | Sell =>
          level ← deref (find less (ticks (r_price record)) (ask_levels_ b));
          let level := sub_total level (units (r_quantity record)) in
          '(level, nodes) ← unlink_node level (r_node_index record) (nodes_ b);
          b ← release_node (r_node_index record) (set_pool nodes (free_indices_ b) b);
          Ret (set_asks (if decide (order_count level = 0%Z)
                         then erase less (ticks (r_price record)) (ask_levels_ b)
                         else insert_or_assign less (ticks (r_price record)) level (ask_levels_ b)) b)
      end;
  Ret (set_lookup (delete id (order_lookup_ b)) b).

Definition cancel_order (id : OrderId) (b : PooledLimitOrderBook)
    : Exec (BookResult * PooledLimitOrderBook) :=
  match order_lookup_ b !! value id with
  | None => Ret (MissingOrderId, b)
  | Some _ =>
      b ← remove_existing_order (value id) b;
      Ret (Applied, count_event b)
  end.

Definition set_record_quantity (r : OrderRecord) (q : Quantity) : OrderRecord :=
  MkOrderRecord (r_side r) (r_price r) (r_timestamp r) q (r_node_index r).

Definition modify_order (id : OrderId) (new_quantity : Quantity) (b : PooledLimitOrderBook)
    : Exec (BookResult * PooledLimitOrderBook) :=
  if decide (units new_quantity = 0%Z) then Ret (InvalidQuantity, b)
  else match order_lookup_ b !! value id with
       | None => Ret (MissingOrderId, b)
       | Some record =>
           if decide (units (r_quantity record) < units new_quantity)%Z then Ret (UnsupportedModify, b)
           else if decide (units new_quantity = units (r_quantity record)) then
             Ret (Applied, count_event b)
           else
             level ← deref (find_level (r_side record) (r_price record) b);
             let reduction := sub64 (units (r_quantity record)) (units new_quantity) in
             let level := sub_total level reduction in
             let record := set_record_quantity record new_quantity in
             nodes ← node_update (set_node_quantity new_quantity) (r_node_index record) (nodes_ b);
             let b := store_level (r_side record) (r_price record) level
                        (set_pool nodes (free_indices_ b) b) in
             let b := set_lookup (<[value id := record]> (order_lookup_ b)) b in
             Ret (Applied, count_event b)
       end.

Definition execute_order (id : OrderId) (executed_quantity : Quantity) (b : PooledLimitOrderBook)
    : Exec (BookResult * PooledLimitOrderBook) :=
  if decide (units executed_quantity = 0%Z) then Ret (InvalidQuantity, b)
  else match order_lookup_ b !! value id with
       | None => Ret (MissingOrderId, b)
       | Some record =>
           if decide (units (r_quantity record) < units executed_quantity)%Z then
             Ret (InsufficientQuantity, b)
           else if decide (units executed_quantity = units (r_quantity record)) then
             b ← remove_existing_order (value id) b;
             Ret (Applied, count_event b)
           else
             level ← deref (find_level (r_side record) (r_price record) b);
             let level := sub_total level (units executed_quantity) in
             let record := set_record_quantity record
               (MkQuantity (sub64 (units (r_quantity record)) (units executed_quantity))) in
             nodes ← node_update (set_node_quantity (r_quantity record)) (r_node_index record) (nodes_ b);
             let b := store_level (r_side record) (r_price record) level
                        (set_pool nodes (free_indices_ b) b) in
             let b := set_lookup (<[value id := record]> (order_lookup_ b)) b in
             Ret (Applied, count_event b)
       end.

Definition apply (event : MarketEvent) (b : PooledLimitOrderBook)
    : Exec (BookResult * PooledLimitOrderBook) :=
  match ev_type event with
  | Add => add_order (ev_order_id event) (ev_side event) (ev_price event)
             (ev_quantity event) (ev_timestamp event) b
  | Modify => modify_order (ev_order_id event) (ev_quantity event) b
  | Cancel => cancel_order (ev_order_id event) b
  | Execute => execute_order (ev_order_id event) (ev_quantity event) b
  end.

Definition clear (b : PooledLimitOrderBook) : PooledLimitOrderBook :=
  reset_free_list (MkBook (nodes_ b) (free_indices_ b) [] [] ∅ (MkStats 0)).

(** ** Observers *)

Definition make_price_level_view (price : Z) (level : PriceLevel) : PriceLevelView :=
  MkPriceLevelView (MkPrice price) (total_quantity level) (order_count level).

Definition top_of_book (b : PooledLimitOrderBook) : TopOfBook :=
  MkTopOfBook (best_level make_price_level_view (bid_levels_ b))
              (best_level make_price_level_view (ask_levels_ b)).

Definition depth (levels : Z) (b : PooledLimitOrderBook) : BookDepth :=
  MkBookDepth (depth_loop make_price_level_view levels [] (bid_levels_ b))
              (depth_loop make_price_level_view levels [] (ask_levels_ b)).

(** The nodes visited from [index] on, in order. *)
Fixpoint walk (fuel : nat) (nodes : list OrderNode) (index : Z) : Exec (list OrderNode) :=
  if decide (index = npos) then Ret []
  else match fuel with
       | O => UB
       | S fuel' =>
           node ← vec_at nodes index;
           rest ← walk fuel' nodes (n_next node);
           Ret (node :: rest)
       end.

Definition walk_fuel (b : PooledLimitOrderBook) : nat := S (length (nodes_ b)).

Definition append_level (b : PooledLimitOrderBook) (price : Z) (level : PriceLevel)
    : Exec PriceLevelSnapshot :=
  visited ← walk (walk_fuel b) (nodes_ b) (l_head level);
  Ret (MkPriceLevelSnapshot (MkPrice price) (total_quantity level)
         ((λ node, MkOrderView (n_order_id node) (n_timestamp node) (n_quantity node)) <$> visited)).

Fixpoint append_levels (b : PooledLimitOrderBook) (levels : list (Z * PriceLevel))
    : Exec (list PriceLevelSnapshot) :=
  match levels with
  | [] => Ret []
  | (price, level) :: levels' =>
      s ← append_level b price level;
      rest ← append_levels b levels';
      Ret (s :: rest)
  end.

Definition snapshot (b : PooledLimitOrderBook) : Exec BookSnapshot :=
  bids ← append_levels b (bid_levels_ b);
  asks ← append_levels b (ask_levels_ b);
  Ret (MkBookSnapshot bids asks).

Definition order_ids_at_price (side : Side) (price : Price) (b : PooledLimitOrderBook)
    : Exec (list OrderId) :=
  match find_level side price b with
  | None => Ret []
  | Some level =>
      visited ← walk (walk_fuel b) (nodes_ b) (l_head level);
      Ret (n_order_id <$> (visited : list OrderNode))
  end.

Definition events_applied (b : PooledLimitOrderBook) : Z := events_applied_ (stats_ b).
Definition live_order_count (b : PooledLimitOrderBook) : Z := Z.of_nat (size (order_lookup_ b)).
Definition capacity (b : PooledLimitOrderBook) : Z := Z.of_nat (length (nodes_ b)).

(** ** [validate_invariants] *)

(** The locals of the loop of [validate_level]. *)
Record WalkState : Type := MkWalkState {
  w_seen : gset Z;
  w_total : Z;
  w_visited : Z;
  w_previous : Z
}.

(** One loop body: [None] is [return false]. *)
Definition validate_node (b : PooledLimitOrderBook) (side : Side) (price : Z)
    (index : Z) (node : OrderNode) (w : WalkState) : option WalkState :=
  if negb (n_active node) then None
  else if decide (n_prev node ≠ w_previous w) then None
  else if decide (units (n_quantity node) = 0%Z) then None
  else if decide (value (n_order_id node) ∈ w_seen w) then None
  else
    let seen := {[value (n_order_id node)]} ∪ w_seen w in
    match order_lookup_ b !! value (n_order_id node) with
    | None => None
    | Some record =>
        if decide (r_side record ≠ side) then None
        else if decide (ticks (r_price record) ≠ price) then None
        else if decide (r_quantity record ≠ n_quantity node) then None
        else if decide (r_timestamp record ≠ n_timestamp node) then None
        else if decide (r_node_index record ≠ index) then None
        else Some (MkWalkState seen (add64 (w_total w) (units (n_quantity node)))
                     (add64 (w_visited w) 1) index)
    end.

Fixpoint validate_walk (fuel : nat) (b : PooledLimitOrderBook) (side : Side) (price : Z)
    (index : Z) (w : WalkState) : Exec (option WalkState) :=
  if decide (index = npos) then Ret (Some w)
  else match fuel with
       | O => UB
       | S fuel' =>
           if decide (Z.of_nat (length (nodes_ b)) ≤ index)%Z then Ret None
           else
             node ← vec_at (nodes_ b) index;
             match validate_node b side price index node w with
             | None => Ret None
             | Some w => validate_walk fuel' b side price (n_next node) w
             end
       end.

Definition validate_level (b : PooledLimitOrderBook) (side : Side) (price : Z) (level : PriceLevel)
    (seen : gset Z) : Exec (option (gset Z)) :=
  if decide (order_count level = 0%Z ∨ l_head level = npos ∨ l_tail level = npos) then Ret None
  else
    r ← validate_walk (walk_fuel b) b side price (l_head level) (MkWalkState seen 0 0 npos);
    match r with
    | None => Ret None
    | Some w =>
        if decide (w_previous w ≠ l_tail level) then Ret None
        else if decide (w_visited w = order_count level ∧ w_total w = units (total_quantity level))
        then Ret (Some (w_seen w)) else Ret None
    end.

Fixpoint validate_levels (b : PooledLimitOrderBook) (side : Side) (levels : list (Z * PriceLevel))
    (seen : gset Z) : Exec (option (gset Z)) :=
  match levels with
  | [] => Ret (Some seen)
  | (price, level) :: levels' =>
      r ← validate_level b side price level seen;
      match r with
      | None => Ret None
      | Some seen => validate_levels b side levels' seen
      end
  end.

Definition node_active_at (b : PooledLimitOrderBook) (index : Z) : Exec bool :=
  if decide (Z.of_nat (length (nodes_ b)) ≤ index)%Z then Ret false
  else node ← vec_at (nodes_ b) index; Ret (n_active node).

Fixpoint validate_lookup (b : PooledLimitOrderBook) (seen : gset Z)
    (records : list (Z * OrderRecord)) : Exec bool :=
  match records with
  | [] => Ret true
  | (id, record) :: records' =>
      if decide (id ∉ seen) then Ret false
      else
        active ← node_active_at b (r_node_index record);
        if negb active then Ret false
        else match find_level (r_side record) (r_price record) b with
             | None => Ret false
             | Some _ => validate_lookup b seen records'
             end
  end.

Definition crosses (b : PooledLimitOrderBook) : bool :=
  match begin (bid_levels_ b), begin (ask_levels_ b) with
  | Some (bid, _), Some (ask, _) => (ask <? bid)%Z
  | _, _ => false
  end.

Definition top_consistent (levels : list (Z * PriceLevel)) (top : option PriceLevelView) : bool :=
  match begin levels, top with
  | None, None => true
  | Some (price, level), Some view => bool_decide (view = make_price_level_view price level)
  | _, _ => false
  end.

Definition validate_invariants (options : InvariantOptions) (b : PooledLimitOrderBook) : Exec bool :=
  if negb (allow_crossed_book options) && crosses b then Ret false
  else
    let top := top_of_book b in
    if negb (top_consistent (bid_levels_ b) (tob_bid top)) then Ret false
    else if negb (top_consistent (ask_levels_ b) (tob_ask top)) then Ret false
    else
      r ← validate_levels b Buy (bid_levels_ b) ∅;
      match r with
      | None => Ret false
      | Some seen =>
          r ← validate_levels b Sell (ask_levels_ b) seen;
          match r with
          | None => Ret false
          | Some seen =>
              if decide (size seen ≠ size (order_lookup_ b)) then Ret false
              else validate_lookup b seen (map_to_list (order_lookup_ b))
          end
      end.

End PooledLimitOrderBook.
