(* ===== verification/NodePool.v ===== *)
(** * Intrusive lists in the node pool

    [dseg nodes prev q next]: the pool [nodes] holds, linked in order and in
    both directions, exactly the queue [q] of (index, order) pairs; the first
    node's [prev] is [prev] and the last node's [next] is [next].  The lemmas
    are the effect of [append_node], [unlink_node], of resizing a node in
    place and of the forward walk on such segments. *)
From S2P Require Import Prelude CoreTypes BookTypes BookSpec TaggedOrders PooledBook.
Import PooledLimitOrderBook.

Abbreviation pool_orders := (list (Z * SpecOrder)).

Definition mk_node (o : SpecOrder) (prev next : Z) : OrderNode :=
  MkOrderNode (so_id o) (so_timestamp o) (so_quantity o) prev next true.

Definition first_of (d : Z) (q : pool_orders) : Z :=
  match q with [] => d | x :: _ => x.1 end.

Definition last_of (d : Z) (q : pool_orders) : Z := foldl (λ _ x, x.1) d q.

Fixpoint dseg (nodes : list OrderNode) (prev : Z) (q : pool_orders) (next : Z) : Prop :=
  match q with
  | [] => True
  | x :: q' =>
      nodes !! Z.to_nat x.1 = Some (mk_node x.2 prev (first_of next q')) ∧
      dseg nodes x.1 q' next
  end.

(** Indices a [size_t] can hold that are not [npos]. *)
Definition valid_indices (idx : list Z) : Prop := Forall (λ i, 0 ≤ i < npos)%Z idx.

Lemma first_of_app d q1 q2 : first_of d (q1 ++ q2) = first_of (first_of d q2) q1.
Proof. by destruct q1. Qed.

Lemma last_of_app d q1 q2 : last_of d (q1 ++ q2) = last_of (last_of d q1) q2.
Proof. unfold last_of. by rewrite foldl_app. Qed.

Lemma dseg_app nodes prev q1 q2 next :
  dseg nodes prev (q1 ++ q2) next ↔
  dseg nodes prev q1 (first_of next q2) ∧ dseg nodes (last_of prev q1) q2 next.
Proof.
  revert prev. induction q1 as [|x q1 IH]; intros prev; simpl; [tauto|].
  rewrite IH, first_of_app. unfold last_of. simpl. tauto.
Qed.

(** A segment only reads the nodes it links. *)
Lemma dseg_frame nodes nodes' prev q next :
  (∀ j, j ∈ q.*1 → nodes' !! Z.to_nat j = nodes !! Z.to_nat j) →
  dseg nodes prev q next → dseg nodes' prev q next.
Proof.
  revert prev. induction q as [|x q IH]; intros prev Hj; simpl; [done|]. intros [Hx Hq]. split.
  - rewrite Hj; [done|set_solver].
  - apply IH; [set_solver|done].
Qed.

Lemma insert_other (nodes : list OrderNode) i j n :
  (0 ≤ i)%Z → (0 ≤ j)%Z → i ≠ j → <[Z.to_nat i := n]> nodes !! Z.to_nat j = nodes !! Z.to_nat j.
Proof. intros. apply list_lookup_insert_ne. lia. Qed.

Lemma insert_same (nodes : list OrderNode) i n n' :
  nodes !! Z.to_nat i = Some n → <[Z.to_nat i := n']> nodes !! Z.to_nat i = Some n'.
Proof. intros Hi. apply list_lookup_insert_eq. by eapply lookup_lt_Some. Qed.

Lemma dseg_insert_other nodes prev q next i n :
  (0 ≤ i)%Z → Forall (λ j, 0 ≤ j)%Z q.*1 → i ∉ q.*1 →
  dseg nodes prev q next → dseg (<[Z.to_nat i := n]> nodes) prev q next.
Proof.
  intros Hi Hv Hni. apply dseg_frame. intros j Hj. rewrite Forall_forall in Hv.
  apply insert_other; [done|by apply Hv|]. by intros ->.
Qed.

Lemma node_update_ok f i nodes n :
  (0 ≤ i)%Z → nodes !! Z.to_nat i = Some n →
  node_update f i nodes = Ret (<[Z.to_nat i := f n]> nodes).
Proof.
  intros Hi Hn. unfold node_update. rewrite (vec_at_lookup nodes i n) by done. simpl.
  by apply vec_set_lookup with n.
Qed.

Lemma valid_nonneg idx : valid_indices idx → Forall (λ j, 0 ≤ j)%Z idx.
Proof. intros Hv. eapply Forall_impl; [done|]. simpl. lia. Qed.

(** Redirecting the [next] link of the last node of a segment. *)
Lemma dseg_set_next nodes prev q x next next' :
  NoDup (q ++ [x]).*1 → valid_indices (q ++ [x]).*1 →
  dseg nodes prev (q ++ [x]) next →
  ∃ nodes', node_update (set_next next') x.1 nodes = Ret nodes' ∧
    dseg nodes' prev (q ++ [x]) next' ∧ length nodes' = length nodes ∧
    ∀ j, (0 ≤ j)%Z → j ≠ x.1 → nodes' !! Z.to_nat j = nodes !! Z.to_nat j.
Proof.
  unfold valid_indices. rewrite !fmap_app, Forall_app. intros (Hnd & Hx & _)%NoDup_app [Hv Hvx].
  apply Forall_inv in Hvx. rewrite !dseg_app. intros [Hq [Hn _]]; simpl in *.
  eexists. split; [apply node_update_ok; [lia|done]|]. split_and!.
  - apply dseg_app. split.
    + apply dseg_insert_other; [lia|by apply valid_nonneg|set_solver|done].
    + split; [by eapply insert_same|done].
  - apply length_insert.
  - intros j Hj Hne. apply insert_other; lia.
Qed.

(** Redirecting the [prev] link of the first node of a segment. *)
Lemma dseg_set_prev nodes prev prev' x q next :
  NoDup (x :: q).*1 → valid_indices (x :: q).*1 →
  dseg nodes prev (x :: q) next →
  ∃ nodes', node_update (set_prev prev') x.1 nodes = Ret nodes' ∧
    dseg nodes' prev' (x :: q) next ∧ length nodes' = length nodes ∧
    ∀ j, (0 ≤ j)%Z → j ≠ x.1 → nodes' !! Z.to_nat j = nodes !! Z.to_nat j.
Proof.
  unfold valid_indices. rewrite fmap_cons. intros [Hx Hnd]%NoDup_cons [Hvx Hv]%Forall_cons [Hn Hq].
  eexists. split; [apply node_update_ok; [lia|done]|]. split_and!.
  - split; [by eapply insert_same|].
    apply dseg_insert_other; [lia|by apply valid_nonneg|done|done].
  - apply length_insert.
  - intros j Hj Hne. apply insert_other; lia.
Qed.

(** ** [unlink_node] *)

(** Its first half: the link into the removed node, or the level's head. *)
Lemma unlink_from_prev nodes q1 next0 next (hd : Z) :
  NoDup q1.*1 → valid_indices q1.*1 → dseg nodes npos q1 next0 →
  (q1 ≠ [] → hd = first_of npos q1) →
  ∃ nodes',
    (if decide (last_of npos q1 ≠ npos) then
       nodes ← node_update (set_next next) (last_of npos q1) nodes; Ret (hd, nodes)
     else Ret (next, nodes)) = Ret (first_of next q1, nodes') ∧
    dseg nodes' npos q1 next ∧ length nodes' = length nodes ∧
    ∀ j, (0 ≤ j)%Z → j ∉ q1.*1 → nodes' !! Z.to_nat j = nodes !! Z.to_nat j.
Proof.
  intros Hnd Hv Hs Hhd. destruct q1 as [|y q0 _] using rev_ind.
  { exists nodes. rewrite decide_False by (unfold last_of; simpl; congruence). done. }
  rewrite last_of_app. unfold last_of at 1 2; simpl.
  assert (y.1 ≠ npos) as Hy.
  { unfold valid_indices in Hv. rewrite fmap_app, Forall_app in Hv. destruct Hv as [_ Hv].
    apply Forall_inv in Hv. lia. }
  rewrite decide_True by done.
  destruct (dseg_set_next nodes npos q0 y next0 next Hnd Hv Hs) as (nodes' & Hu & Hs' & Hl & Hf).
  exists nodes'. rewrite Hu. simpl. split_and!; [|done..|].
  - rewrite Hhd by (by destruct q0). by destruct q0.
  - intros j Hj Hn. apply Hf; [done|]. intros ->. apply Hn. rewrite fmap_app. set_solver.
Qed.

(** Its second half: the link back to the removed node, or the level's tail. *)
Lemma unlink_from_next nodes q2 prev0 prev (tl : Z) :
  NoDup q2.*1 → valid_indices q2.*1 → dseg nodes prev0 q2 npos →
  (q2 ≠ [] → tl = last_of npos q2) →
  ∃ nodes',
    (if decide (first_of npos q2 ≠ npos) then
       nodes ← node_update (set_prev prev) (first_of npos q2) nodes; Ret (tl, nodes)
     else Ret (prev, nodes)) = Ret (last_of prev q2, nodes') ∧
    dseg nodes' prev q2 npos ∧ length nodes' = length nodes ∧
    ∀ j, (0 ≤ j)%Z → j ∉ q2.*1 → nodes' !! Z.to_nat j = nodes !! Z.to_nat j.
Proof.
  intros Hnd Hv Hs Htl. destruct q2 as [|y q2].
  { exists nodes. rewrite decide_False by (simpl; congruence). done. }
  assert (y.1 ≠ npos) as Hy by (unfold valid_indices in Hv; apply Forall_cons in Hv as [? _]; lia).
  simpl. rewrite decide_True by done.
  destruct (dseg_set_prev nodes prev0 prev y q2 npos Hnd Hv Hs) as (nodes' & Hu & Hs' & Hl & Hf).
  exists nodes'. rewrite Hu. simpl. split_and!; [|apply Hs'..|done|].
  - by rewrite Htl by done.
  - intros j Hj Hn. apply Hf; [done|]. intros ->. apply Hn. by left.
Qed.

Lemma unlink_node_ok nodes level q1 x q2 :
  NoDup (q1 ++ x :: q2).*1 → valid_indices (q1 ++ x :: q2).*1 →
  dseg nodes npos (q1 ++ x :: q2) npos →
  l_head level = first_of npos (q1 ++ x :: q2) → l_tail level = last_of npos (q1 ++ x :: q2) →
  ∃ nodes',
    unlink_node level x.1 nodes
    = Ret (MkPriceLevel (total_quantity level) (sub64 (order_count level) 1)
             (first_of npos (q1 ++ q2)) (last_of npos (q1 ++ q2)), nodes') ∧
    dseg nodes' npos (q1 ++ q2) npos ∧ length nodes' = length nodes ∧
    ∀ j, (0 ≤ j)%Z → j ∉ (q1 ++ q2).*1 → nodes' !! Z.to_nat j = nodes !! Z.to_nat j.
Proof.
  unfold valid_indices. rewrite !fmap_app, fmap_cons, Forall_app, Forall_cons.
  intros (Hnd1 & Hdis & [Hx2 Hnd2]%NoDup_cons)%NoDup_app (Hv1 & Hvx & Hv2).
  rewrite dseg_app. simpl. intros (Hs1 & Hx & Hs2) Hhd Htl.
  assert (x.1 ∉ q1.*1) as Hx1 by (intros Hc; apply (Hdis _ Hc); set_solver).
  unfold unlink_node. rewrite (vec_at_lookup nodes x.1 _ (proj1 Hvx) Hx). simpl.
  destruct (unlink_from_prev nodes q1 x.1 (first_of npos q2) (l_head level)) as (nodes1 & E1 & Hs1' & Hl1 & Hf1);
    [done..| |].
  { intros Hne. rewrite Hhd. by destruct q1. }
  rewrite E1. simpl.
  destruct (unlink_from_next nodes1 q2 x.1 (last_of npos q1) (l_tail level)) as (nodes2 & E2 & Hs2' & Hl2 & Hf2);
    [done|done| | |].
  { apply (dseg_frame nodes); [|done]. intros j Hj. apply Hf1.
    - unfold valid_indices in Hv2. rewrite Forall_forall in Hv2. by apply Hv2.
    - intros Hj1. apply (Hdis _ Hj1). set_solver. }
  { intros Hne. rewrite Htl, last_of_app. destruct q2; [done|]. done. }
  rewrite E2. simpl. exists nodes2. split_and!.
  - by rewrite first_of_app, last_of_app.
  - apply dseg_app. split; [|done]. apply (dseg_frame nodes1); [|done]. intros j Hj. apply Hf2.
    + rewrite Forall_forall in Hv1. by apply Hv1.
    + intros Hj2. apply (Hdis _ Hj). set_solver.
  - congruence.
  - intros j Hj Hn. rewrite elem_of_app in Hn. rewrite Hf2, Hf1; tauto.
Qed.

(** ** [append_node] *)
Lemma append_node_ok nodes level q i o n :
  NoDup q.*1 → valid_indices (q ++ [(i, o)]).*1 → i ∉ q.*1 → dseg nodes npos q npos →
  l_head level = first_of npos q → l_tail level = last_of npos q →
  nodes !! Z.to_nat i = Some n →
  n_order_id n = so_id o → n_timestamp n = so_timestamp o → n_quantity n = so_quantity o →
  n_active n = true →
  ∃ nodes',
    append_node level i nodes
    = Ret (MkPriceLevel (total_quantity level) (add64 (order_count level) 1)
             (first_of npos (q ++ [(i, o)])) (last_of npos (q ++ [(i, o)])), nodes') ∧
    dseg nodes' npos (q ++ [(i, o)]) npos ∧ length nodes' = length nodes ∧
    ∀ j, (0 ≤ j)%Z → j ∉ (q ++ [(i, o)]).*1 → nodes' !! Z.to_nat j = nodes !! Z.to_nat j.
Proof.
  intros Hnd Hv Hi Hs Hhd Htl Hn Hid Hts Hqt Hac.
  unfold valid_indices in Hv. rewrite fmap_app, Forall_app in Hv. destruct Hv as [Hv Hvi].
  apply Forall_inv in Hvi. simpl in Hvi.
  unfold append_node. rewrite (node_update_ok _ i nodes n) by (done || lia). simpl.
  set (nodes1 := <[Z.to_nat i := set_prev (l_tail level) n]> nodes).
  rewrite (node_update_ok _ i nodes1 (set_prev (l_tail level) n)) by (lia || by eapply insert_same).
  simpl. set (n2 := set_next npos (set_prev (l_tail level) n)).
  set (nodes2 := <[Z.to_nat i := n2]> nodes1).
  assert (nodes2 !! Z.to_nat i = Some (mk_node o (last_of npos q) npos)) as Hn2.
  { unfold nodes2. rewrite (insert_same nodes1 i (set_prev (l_tail level) n)) by by eapply insert_same.
    unfold n2, mk_node, set_next, set_prev. simpl. by rewrite Hid, Hts, Hqt, Hac, Htl. }
  assert (∀ j, (0 ≤ j)%Z → j ≠ i → nodes2 !! Z.to_nat j = nodes !! Z.to_nat j) as Hf2.
  { intros j Hj Hne. unfold nodes2, nodes1. rewrite !insert_other by lia. done. }
  assert (dseg nodes2 npos q npos) as Hs2.
  { apply (dseg_frame nodes); [|done]. intros j Hj. apply Hf2.
    - rewrite Forall_forall in Hv. by apply Hv.
    - by intros ->. }
  assert (length nodes2 = length nodes) as Hl2 by (unfold nodes2, nodes1; by rewrite !length_insert).
  rewrite Htl. destruct q as [|y q0 _] using rev_ind.
  { rewrite decide_False by (unfold last_of; simpl; congruence). simpl. exists nodes2. split_and!; [done..|].
    intros j Hj Hne. apply Hf2; [done|]. set_solver. }
  rewrite last_of_app in *. unfold last_of in Hn2. simpl in Hn2. unfold last_of at 1 2; simpl.
  assert (y.1 ≠ npos) as Hy.
  { rewrite fmap_app, Forall_app in Hv. destruct Hv as [_ Hvy]. apply Forall_inv in Hvy. lia. }
  rewrite decide_True by done.
  destruct (dseg_set_next nodes2 npos q0 y npos i Hnd Hv Hs2) as (nodes3 & Hu & Hs3 & Hl3 & Hf3).
  assert (i ≠ y.1) as Hiy by (intros ->; apply Hi; rewrite fmap_app; set_solver).
  rewrite Hu. simpl. exists nodes3. split_and!.
  - rewrite Hhd. rewrite !last_of_app. by destruct q0.
  - apply dseg_app. split; [done|]. simpl. split; [|done]. rewrite last_of_app. unfold last_of; simpl.
    by rewrite Hf3 by lia.
  - congruence.
  - intros j Hj Hne. rewrite fmap_app, elem_of_app in Hne. rewrite Hf3, Hf2; [done|done|set_solver|done|].
    intros ->. apply Hne. left. rewrite fmap_app. set_solver.
Qed.

(** ** Resizing in place *)
Lemma dseg_set_quantity nodes prev q next x qty :
  NoDup (ids q) → NoDup q.*1 → valid_indices q.*1 → x ∈ q → dseg nodes prev q next →
  ∃ nodes',
    node_update (set_node_quantity qty) x.1 nodes = Ret nodes' ∧
    dseg nodes' prev (tupdate (so_id x.2) qty q) next ∧ length nodes' = length nodes ∧
    ∀ j, (0 ≤ j)%Z → j ≠ x.1 → nodes' !! Z.to_nat j = nodes !! Z.to_nat j.
Proof.
  intros Hnd Hnd1 Hv Hx Hs. destruct (list_elem_of_split _ _ Hx) as (q1 & q2 & ->).
  unfold valid_indices in Hv. rewrite ?fmap_app, ?fmap_cons, ?Forall_app, ?Forall_cons in Hv.
  destruct Hv as (Hv1 & Hvx & Hv2).
  rewrite fmap_app, fmap_cons in Hnd1. apply NoDup_app in Hnd1 as (_ & Hdis1 & [Hx2 _]%NoDup_cons).
  apply dseg_app in Hs as [Hs1 [Hn Hs2]].
  rewrite tupdate_split by done.
  eexists. split; [apply node_update_ok; [lia|done]|]. split_and!.
  - apply dseg_app. split; [|split].
    + apply dseg_insert_other; [lia|by apply valid_nonneg|intros Hc; apply (Hdis1 _ Hc); by left|done].
    + by eapply insert_same.
    + apply dseg_insert_other; [lia|by apply valid_nonneg|done|done].
  - apply length_insert.
  - intros j Hj Hne. apply insert_other; lia.
Qed.

(** ** The forward walk *)

(** The node contents a queue stands for. *)
Fixpoint linked (prev : Z) (q : pool_orders) (next : Z) : list OrderNode :=
  match q with
  | [] => []
  | x :: q' => mk_node x.2 prev (first_of next q') :: linked x.1 q' next
  end.

(** [length q] steps of fuel are enough: the walk reaches [npos]. *)
Lemma walk_dseg fuel nodes prev q :
  length q ≤ fuel → valid_indices q.*1 → dseg nodes prev q npos →
  walk fuel nodes (first_of npos q) = Ret (linked prev q npos).
Proof.
  revert fuel prev. induction q as [|x q IH]; intros fuel prev Hf Hv Hs; simpl.
  { by destruct fuel. }
  destruct fuel as [|fuel]; [simpl in Hf; lia|].
  apply Forall_cons in Hv as [Hvx Hv]. destruct Hs as [Hn Hs]. cbn [walk].
  rewrite decide_False by lia. rewrite (vec_at_lookup nodes x.1 _ (proj1 Hvx) Hn). simpl.
  rewrite (IH fuel x.1); [done|simpl in Hf; lia|done..].
Qed.

Lemma linked_ids prev q next : n_order_id <$> linked prev q next = so_id <$> q.*2.
Proof. revert prev. induction q as [|x q IH]; intros prev; simpl; [done|]. by rewrite IH. Qed.

Lemma linked_views prev q next :
  (λ node, MkOrderView (n_order_id node) (n_timestamp node) (n_quantity node)) <$> linked prev q next
  = order_view <$> q.*2.
Proof. revert prev. induction q as [|x q IH]; intros prev; simpl; [done|]. by rewrite IH. Qed.
