(* ===== verification/PooledRefinement.v ===== *)
(** * The pooled book implements the specification

    As for the baseline, [concrete g ev nodes free] is the book that holds the
    live orders [g], each with its pool index.  [pool_ok] is the pool
    invariant: every queue is a doubly-linked segment of [nodes], and the
    indices in use together with the free stack are exactly the indices of the
    vector. *)
From S2P Require Import Prelude CoreTypes OrderedMap BookTypes BookSpec TaggedOrders PooledBook.
From S2P Require Import NodePool.
Import PooledLimitOrderBook.

Definition mk_level (q : pool_orders) : PriceLevel :=
  MkPriceLevel (MkQuantity (wrap64 (total_units q.*2))) (Z.of_nat (length q))
    (first_of npos q) (last_of npos q).

Definition mk_record (i : Z) (o : SpecOrder) : OrderRecord :=
  MkOrderRecord (so_side o) (so_price o) (so_timestamp o) (so_quantity o) i.

Definition concrete (g : pool_orders) (ev : Z) (nodes : list OrderNode) (free : list Z)
    : PooledLimitOrderBook :=
  MkBook nodes free (levels_of mk_level Buy g) (levels_of mk_level Sell g)
    (lookup_of mk_record g) (MkStats ev).

Record pool_ok (g : pool_orders) (nodes : list OrderNode) (free : list Z) : Prop := {
  pool_size : (Z.of_nat (length nodes) ≤ npos)%Z;
  pool_segments side p : dseg nodes npos (tqueue side p g) npos;
  pool_free i : i ∈ free → nodes !! Z.to_nat i = Some empty_node;
  pool_indices : g.*1 ++ free ≡ₚ seqZ 0 (Z.of_nat (length nodes))
}.

(** A book of capacity [cap] that represents [s]. *)
Definition represents (cap : nat) (b : PooledLimitOrderBook) (s : SpecBook) : Prop :=
  ∃ g nodes free, b = concrete g (sb_events s) nodes free ∧ g.*2 = sb_orders s ∧
    length nodes = cap ∧ pool_ok g nodes free ∧ spec_wf s.

(** ** Consequences of the pool invariant *)
Section pool.
Context {g : pool_orders} {nodes : list OrderNode} {free : list Z}.
Hypothesis (Hok : pool_ok g nodes free).

Lemma pool_NoDup : NoDup (g.*1 ++ free).
Proof using Hok. rewrite (pool_indices _ _ _ Hok). apply NoDup_seqZ. Qed.

Lemma pool_index_range i : i ∈ g.*1 ++ free ↔ (0 ≤ i < Z.of_nat (length nodes))%Z.
Proof using Hok. rewrite (pool_indices _ _ _ Hok), elem_of_seqZ. lia. Qed.

Lemma pool_orders_NoDup : NoDup g.*1.
Proof using Hok. pose proof pool_NoDup as Hnd. by apply NoDup_app in Hnd as [? _]. Qed.

Lemma pool_valid : valid_indices g.*1.
Proof using Hok.
  apply Forall_forall. intros i Hi. pose proof (pool_size _ _ _ Hok).
  assert (0 ≤ i < Z.of_nat (length nodes))%Z by (apply pool_index_range, elem_of_app; by left). lia.
Qed.

Lemma pool_length : length g + length free = length nodes.
Proof using Hok.
  pose proof (Permutation_length (pool_indices _ _ _ Hok)) as Hl.
  rewrite length_app, length_fmap, length_seqZ in Hl. lia.
Qed.

Lemma queue_valid side p : valid_indices (tqueue side p g).*1.
Proof using Hok. apply Forall_fmap_filter, pool_valid. Qed.

Lemma queue_NoDup side p : NoDup (tqueue side p g).*1.
Proof using Hok. apply NoDup_fmap_filter, pool_orders_NoDup. Qed.

Lemma queue_index side p j : j ∈ (tqueue side p g).*1 → j ∈ g.*1 ∧ (0 ≤ j)%Z.
Proof using Hok.
  intros Hj. split.
  - apply list_elem_of_fmap in Hj as (x & -> & [Hx _]%elem_of_tqueue). by apply list_elem_of_fmap_2.
  - pose proof (queue_valid side p) as Hv. unfold valid_indices in Hv. rewrite Forall_forall in Hv.
    apply Hv in Hj. lia.
Qed.

(** Queues of different levels share no node. *)
Lemma queue_index_disjoint side p side' p' j :
  (side, p) ≠ (side', p') → j ∈ (tqueue side p g).*1 → j ∉ (tqueue side' p' g).*1.
Proof using Hok.
  intros Hne (x & -> & [Hx [? Hp]]%elem_of_tqueue)%list_elem_of_fmap
             (y & Hxy & [Hy [? Hp']]%elem_of_tqueue)%list_elem_of_fmap.
  assert (x = y) as -> by (apply (NoDup_fmap_inj fst g); auto using pool_orders_NoDup).
  congruence.
Qed.

Lemma pool_count_range side p : is_u64 (Z.of_nat (length (tqueue side p g))).
Proof using Hok.
  pose proof (pool_size _ _ _ Hok) as Hsz. pose proof pool_length.
  assert (length (tqueue side p g) ≤ length g) by apply length_filter.
  unfold is_u64, npos, two64 in *. lia.
Qed.
End pool.

(** Rewriting the queue of one level: what changes in the pool may be the
    nodes of that queue and nodes no queue uses. *)
Lemma pool_segments_change g g' nodes nodes' free side p :
  pool_ok g nodes free →
  (∀ side' p', (side', p') ≠ (side, p) → tqueue side' p' g' = tqueue side' p' g) →
  dseg nodes' npos (tqueue side p g') npos →
  (∀ j, (0 ≤ j)%Z → j ∈ g.*1 → j ∉ (tqueue side p g).*1 →
        nodes' !! Z.to_nat j = nodes !! Z.to_nat j) →
  ∀ side' p', dseg nodes' npos (tqueue side' p' g') npos.
Proof.
  intros Hok Hq Hs Hf side' p'. destruct (decide ((side', p') = (side, p))) as [[= -> ->]|Hne]; [done|].
  rewrite Hq by done. apply (dseg_frame nodes); [|by apply (pool_segments _ _ _ Hok)].
  intros j Hj. destruct (queue_index Hok _ _ _ Hj). apply Hf; [done..|].
  by apply (queue_index_disjoint Hok side' p').
Qed.

(** ** [remove_existing_order] *)

Lemma mk_pool_level_remove q1 x q2 :
  is_u64 (Z.of_nat (length (q1 ++ x :: q2))) →
  MkPriceLevel (total_quantity (sub_total (mk_level (q1 ++ x :: q2)) (units (so_quantity x.2))))
    (sub64 (order_count (sub_total (mk_level (q1 ++ x :: q2)) (units (so_quantity x.2)))) 1)
    (first_of npos (q1 ++ q2)) (last_of npos (q1 ++ q2))
  = mk_level (q1 ++ q2).
Proof.
  intros Hr. unfold mk_level, sub_total; simpl. rewrite !fmap_app, fmap_cons, !total_units_app.
  rewrite total_units_cons. f_equal.
  - f_equal. unfold sub64. rewrite wrap64_sub_l. f_equal. lia.
  - rewrite length_app in Hr |- *. simpl in Hr |- *. rewrite sub64_small, length_app; lia || done.
Qed.

(** The index of one node of a queue, and those of the others. *)
Lemma queue_split_indices (q1 q2 : pool_orders) x :
  NoDup ((q1 ++ (x :: q2)).*1) → valid_indices ((q1 ++ (x :: q2)).*1) →
  (0 ≤ x.1)%Z ∧ x.1 ∉ ((q1 ++ q2).*1) ∧ valid_indices ((q1 ++ q2).*1).
Proof.
  unfold valid_indices. rewrite !fmap_app, fmap_cons, !Forall_app, Forall_cons.
  intros (_ & Hdis & [? _]%NoDup_cons)%NoDup_app (? & [? _] & ?). split_and!; [lia| |done|done].
  rewrite elem_of_app. intros [Hc|Hc]; [|done]. apply (Hdis _ Hc). by left.
Qed.

(** Releasing the node of [x] moves its index to the free list. *)
Lemma remove_indices (g : pool_orders) (free : list Z) x :
  NoDup (ids g) → x ∈ g → (tremove (so_id x.2) g).*1 ++ free ++ [x.1] ≡ₚ g.*1 ++ free.
Proof.
  intros Hnd Hx. destruct (list_elem_of_split _ _ Hx) as (g1 & g2 & Hg). rewrite Hg in Hnd |- *.
  rewrite tremove_split, !fmap_app by done. simpl. solve_Permutation.
Qed.

(** The pool after the node of [x] is unlinked and released. *)
Lemma pool_remove g nodes free x :
  pool_ok g nodes free → NoDup (ids g) → x ∈ g →
  ∃ nodes',
    (∀ level n, level = sub_total (mk_level (level_of x g)) n → n = units (so_quantity x.2) →
     ∃ nodes1, unlink_node level x.1 nodes = Ret (mk_level (tremove (so_id x.2) (level_of x g)), nodes1) ∧
               vec_set nodes1 x.1 empty_node = Ret nodes') ∧
    length nodes' = length nodes ∧
    pool_ok (tremove (so_id x.2) g) nodes' (free ++ [x.1]).
Proof.
  intros Hok Hnd Hx.
  destruct (list_elem_of_split _ _ (elem_of_level_of x g Hx)) as (q1 & q2 & Hq).
  pose proof (pool_segments _ _ _ Hok (so_side x.2) (ticks (so_price x.2))) as Hs.
  pose proof (queue_NoDup Hok (so_side x.2) (ticks (so_price x.2))) as Hnq.
  pose proof (queue_valid Hok (so_side x.2) (ticks (so_price x.2))) as Hvq.
  pose proof (pool_count_range Hok (so_side x.2) (ticks (so_price x.2))) as Hcq.
  pose proof (level_of_NoDup x g Hnd) as Hndq.
  change (tqueue (so_side x.2) (ticks (so_price x.2)) g) with (level_of x g) in *.
  rewrite Hq in Hs, Hnq, Hvq, Hcq, Hndq.
  destruct (queue_split_indices q1 q2 x Hnq Hvq) as (Hx0 & Hx1 & Hvq').
  destruct (unlink_node_ok nodes (sub_total (mk_level (q1 ++ x :: q2)) (units (so_quantity x.2)))
    q1 x q2 Hnq Hvq Hs eq_refl eq_refl) as (nodes1 & Hu & Hs1 & Hl1 & Hf1).
  rewrite mk_pool_level_remove in Hu by done.
  apply dseg_app in Hs as [_ [Hn _]].
  assert (nodes1 !! Z.to_nat x.1 = nodes !! Z.to_nat x.1) as Hn1 by by apply Hf1.
  rewrite Hn in Hn1. exists (<[Z.to_nat x.1 := empty_node]> nodes1). split_and!.
  - intros level n -> ->. exists nodes1. rewrite Hq, tremove_split by done.
    split; [done|]. by eapply vec_set_lookup.
  - by rewrite length_insert.
  - split.
    + rewrite length_insert, Hl1. apply Hok.
    + apply (pool_segments_change g _ nodes _ free (so_side x.2) (ticks (so_price x.2)) Hok).
      * intros side p. by apply other_level_remove.
      * rewrite tqueue_remove. fold (level_of x g). rewrite Hq, tremove_split by done.
        apply dseg_insert_other; [done|by apply valid_nonneg|done|done].
      * intros j Hj _ Hnq'. fold (level_of x g) in Hnq'. rewrite Hq, fmap_app, fmap_cons in Hnq'.
        rewrite insert_other by (done || set_solver). apply Hf1; [done|].
        rewrite fmap_app. set_solver.
    + intros i [Hi|Hi]%elem_of_app.
      * assert (i ≠ x.1 ∧ i ∉ g.*1) as [Hne Hig].
        { pose proof (pool_NoDup Hok) as (_ & Hdis & _)%NoDup_app.
          assert (i ∉ g.*1) as Hig by (intros Hc; by apply (Hdis _ Hc)).
          split; [|done]. intros ->. by apply Hig, list_elem_of_fmap_2. }
        assert (0 ≤ i)%Z by (apply (pool_index_range Hok), elem_of_app; by right).
        rewrite insert_other, Hf1; [by apply (pool_free _ _ _ Hok)|done| |done..].
        intros Hc. apply Hig, (queue_index Hok (so_side x.2) (ticks (so_price x.2))).
        fold (level_of x g). rewrite Hq. rewrite fmap_app in Hc |- *. set_solver.
      * apply list_elem_of_singleton in Hi as ->. by eapply insert_same.
    + rewrite length_insert, Hl1, <-(pool_indices _ _ _ Hok). by apply remove_indices.
Qed.

(** ** [add_order]: taking an index from the free stack *)

Lemma mk_pool_level_add q i o :
  is_u64 (Z.of_nat (length (q ++ [(i, o)]))) →
  add_total (MkPriceLevel (total_quantity (mk_level q)) (add64 (order_count (mk_level q)) 1)
     (first_of npos (q ++ [(i, o)])) (last_of npos (q ++ [(i, o)]))) (units (so_quantity o))
  = mk_level (q ++ [(i, o)]).
Proof.
  intros Hr. unfold mk_level, add_total; simpl. rewrite fmap_app, total_units_app. f_equal.
  - f_equal. unfold add64. rewrite wrap64_add_l. f_equal. simpl. lia.
  - rewrite length_app in Hr |- *. simpl in Hr |- *. unfold add64. rewrite wrap64_small; [lia|].
    unfold is_u64 in *. lia.
Qed.

Lemma pool_add g nodes free i o :
  pool_ok g nodes (free ++ [i]) → so_id o ∉ ids g →
  let q := tqueue (so_side o) (ticks (so_price o)) g in
  ∃ nodes' nodes1,
    node_update (fill_node (so_id o) (so_timestamp o) (so_quantity o)) i nodes = Ret nodes1 ∧
    append_node (mk_level q) i nodes1
    = Ret (MkPriceLevel (total_quantity (mk_level q)) (add64 (order_count (mk_level q)) 1)
             (first_of npos (q ++ [(i, o)])) (last_of npos (q ++ [(i, o)])), nodes') ∧
    length nodes' = length nodes ∧ pool_ok (g ++ [(i, o)]) nodes' free.
Proof.
  intros Hok Hid q.
  pose proof (pool_NoDup Hok) as (Hndg & Hdis & (_ & Hdisf & _)%NoDup_app)%NoDup_app.
  assert (i ∉ g.*1) as Hig by (intros Hc; apply (Hdis _ Hc); set_solver).
  assert (0 ≤ i < Z.of_nat (length nodes))%Z as Hi by (apply (pool_index_range Hok); set_solver).
  pose proof (pool_size _ _ _ Hok) as Hsz.
  pose proof (pool_free _ _ _ Hok i ltac:(set_solver)) as Hn.
  assert (∀ j, j ∈ q.*1 → j ∈ g.*1 ∧ (0 ≤ j)%Z) as Hqj by apply (queue_index Hok).
  assert (i ∉ q.*1) as Hiq by (intros Hc; by apply Hig, Hqj).
  set (n1 := fill_node (so_id o) (so_timestamp o) (so_quantity o) empty_node).
  set (nodes1 := <[Z.to_nat i := n1]> nodes).
  destruct (append_node_ok nodes1 (mk_level q) q i o n1) as (nodes' & Ha & Hs' & Hl' & Hf');
    [apply (queue_NoDup Hok)| |done| |done|done|by eapply insert_same|done..|].
  { unfold valid_indices. rewrite fmap_app, Forall_app. split; [apply (queue_valid Hok)|].
    constructor; [simpl; lia|done]. }
  { apply dseg_insert_other; [lia|apply valid_nonneg, (queue_valid Hok)|done|apply (pool_segments _ _ _ Hok)]. }
  assert (length nodes1 = length nodes) as Hl1 by apply length_insert.
  exists nodes', nodes1. split_and!; [by apply node_update_ok; [lia|]|done|congruence|].
  assert (∀ j, (0 ≤ j)%Z → j ≠ i → j ∉ q.*1 → nodes' !! Z.to_nat j = nodes !! Z.to_nat j) as Hf.
  { intros j Hj Hne Hjq. rewrite Hf' by (rewrite ?fmap_app; set_solver).
    unfold nodes1. by apply insert_other; lia. }
  split.
  - by rewrite Hl', Hl1.
  - apply (pool_segments_change g _ nodes _ (free ++ [i]) (so_side o) (ticks (so_price o)) Hok).
    + intros side p Hne. rewrite tqueue_app, decide_False, app_nil_r; [done|].
      intros [<- <-]. done.
    + rewrite tqueue_app, decide_True by done. done.
    + intros j Hj Hjg Hjq. apply Hf; [done| |done]. by intros ->.
  - intros j Hj. rewrite Hf; [apply (pool_free _ _ _ Hok); set_solver| | |].
    + apply (pool_index_range Hok). set_solver.
    + intros ->. apply (Hdisf i Hj). set_solver.
    + intros [Hc _]%Hqj. apply (Hdis j Hc). set_solver.
  - rewrite Hl', Hl1, <-(pool_indices _ _ _ Hok), fmap_app. simpl. solve_Permutation.
Qed.

(** ** Resizing an order in place *)

Lemma mk_pool_level_update x q g n :
  NoDup (ids g) → x ∈ g → (units q = units (so_quantity x.2) - n)%Z →
  sub_total (mk_level (level_of x g)) n = mk_level (tupdate (so_id x.2) q (level_of x g)).
Proof.
  intros Hnd Hx Hq. unfold mk_level. rewrite (total_tupdate _ _ q) by auto with machine.
  unfold sub_total; simpl. f_equal.
  - f_equal. unfold sub64. rewrite wrap64_sub_l. f_equal. lia.
  - unfold tupdate. by rewrite length_fmap.
  - by destruct (level_of x g).
  - unfold last_of. generalize npos. generalize (level_of x g).
    intros l. induction l as [|y l IH]; intros d; simpl; [done|apply IH].
Qed.

Lemma pool_update g nodes free x q :
  pool_ok g nodes free → NoDup (ids g) → x ∈ g →
  ∃ nodes', node_update (set_node_quantity q) x.1 nodes = Ret nodes' ∧
    length nodes' = length nodes ∧ pool_ok (tupdate (so_id x.2) q g) nodes' free.
Proof.
  intros Hok Hnd Hx.
  destruct (dseg_set_quantity nodes npos (level_of x g) npos x q) as (nodes' & Hu & Hs & Hl & Hf);
    auto with machine.
  { apply (queue_NoDup Hok). } { apply (queue_valid Hok). } { apply (pool_segments _ _ _ Hok). }
  assert (x.1 ∈ (level_of x g).*1) as Hxl by (apply list_elem_of_fmap_2; auto with machine).
  exists nodes'. split_and!; [done..|]. split.
  - rewrite Hl. apply Hok.
  - apply (pool_segments_change g _ nodes _ free (so_side x.2) (ticks (so_price x.2)) Hok).
    + intros side p. by apply other_level_update.
    + by rewrite tqueue_update.
    + intros j Hj _ Hjq. apply Hf; [done|]. by intros ->.
  - intros i Hi. rewrite Hf; [by apply (pool_free _ _ _ Hok)| |].
    + apply (pool_index_range Hok), elem_of_app. by right.
    + intros ->. pose proof (pool_NoDup Hok) as (_ & Hdis & _)%NoDup_app.
      apply (Hdis x.1); [by apply list_elem_of_fmap_2|done].
  - rewrite Hl, tupdate_fst. apply Hok.
Qed.
