(* ===== verification/PooledLaws.v ===== *)
(** * The pooled book discharges the order-book contract

    Every operation of [PooledLimitOrderBook] refines the specification with
    the pool's capacity, and every observer, [validate_invariants] included,
    returns what the specification says.  The fuel [nodes_.size() + 1] of the
    list walks is always enough on a represented book. *)
From S2P Require Import Prelude CoreTypes OrderedMap BookTypes BookSpec TaggedOrders PooledBook.
From S2P Require Import NodePool PooledRefinement.
Import PooledLimitOrderBook.

Definition refines (cap : nat) (r : Exec (BookResult * PooledLimitOrderBook))
    (sr : BookResult * SpecBook) : Prop :=
  ∃ b', r = Ret (sr.1, b') ∧ represents cap b' sr.2.

Lemma pooled_refines_reject cap b s r : represents cap b s → refines cap (Ret (r, b)) (r, s).
Proof. intros Hb. by exists b. Qed.

Lemma pooled_refines_accept cap r g nodes free s os :
  r = Ret (Applied, concrete g (add64 (sb_events s) 1) nodes free) → g.*2 = os →
  length nodes = cap → pool_ok g nodes free → spec_wf (accept os s).2 →
  refines cap r (accept os s).
Proof. intros -> Hg Hl Hok Hwf. eexists. split; [done|]. exists g, nodes, free. done. Qed.

(** [operator[]], [find_level] and [put_level] on the levels of [g]. *)
Lemma pooled_subscript_concrete g ev nodes free side price :
  match side with
  | Buy => subscript greater empty_level (ticks price) (bid_levels_ (concrete g ev nodes free))
  | Sell => subscript less empty_level (ticks price) (ask_levels_ (concrete g ev nodes free))
  end = mk_level (tqueue side (ticks price) g).
Proof.
  transitivity (default empty_level
    (find (side_before side) (ticks price) (levels_of mk_level side g))); [by destruct side|].
  rewrite find_levels_of. by destruct (tqueue _ _ _).
Qed.

Lemma pooled_find_level_concrete g ev nodes free side p :
  find_level side p (concrete g ev nodes free)
  = match tqueue side (ticks p) g with [] => None | q => Some (mk_level q) end.
Proof. destruct side; [apply (find_levels_of mk_level Buy)|apply (find_levels_of mk_level Sell)]. Qed.

Lemma pooled_find_level_elem g ev nodes free x :
  x ∈ g → find_level (so_side x.2) (so_price x.2) (concrete g ev nodes free)
          = Some (mk_level (level_of x g)).
Proof.
  intros Hx. pose proof (find_levels_of_elem mk_level (so_side x.2) g x Hx eq_refl).
  by destruct (so_side x.2) eqn:E; unfold level_of; rewrite ?E.
Qed.

(** [order_count == 0] is how this book sees that a level became empty. *)
Lemma put_level_count side p q (m : list (Z * PriceLevel)) :
  (if decide (order_count (mk_level q) = 0%Z)
   then erase (side_before side) p m
   else insert_or_assign (side_before side) p (mk_level q) m) = put_level mk_level side p q m.
Proof. unfold put_level. destruct q; [by rewrite decide_True|]. rewrite decide_False; [done|simpl; lia]. Qed.

Lemma pooled_remove_existing_order_concrete g ev nodes free x :
  pool_ok g nodes free → NoDup (ids g) → x ∈ g →
  ∃ nodes', remove_existing_order (value (so_id x.2)) (concrete g ev nodes free)
    = Ret (concrete (tremove (so_id x.2) g) ev nodes' (free ++ [x.1])) ∧
    length nodes' = length nodes ∧ pool_ok (tremove (so_id x.2) g) nodes' (free ++ [x.1]).
Proof.
  intros Hok Hnd Hx. destruct (pool_remove g nodes free x Hok Hnd Hx) as (nodes' & Hu & Hl & Hok').
  exists nodes'. split; [|done]. unfold remove_existing_order. simpl.
  rewrite lookup_of_elem by done. simpl. unfold concrete.
  rewrite !(levels_of_remove mk_level _ _ x), (lookup_of_remove mk_record g) by done.
  pose proof (find_levels_of_elem mk_level (so_side x.2) g x Hx eq_refl) as Hf.
  destruct (Hu _ _ eq_refl eq_refl) as (nodes1 & Hu1 & Hr). unfold level_of in *.
  pose proof (put_level_count (so_side x.2) (ticks (so_price x.2))
    (tremove (so_id x.2) (tqueue (so_side x.2) (ticks (so_price x.2)) g))
    (levels_of mk_level (so_side x.2) g)) as Hp.
  destruct (so_side x.2) eqn:Hs; simpl in Hf, Hp |- *; rewrite Hf; simpl; rewrite Hu1; simpl;
    unfold release_node; simpl; rewrite Hr; simpl; unfold set_lookup, set_bids, set_asks; simpl;
    by rewrite Hp.
Qed.

Section operations.
Context (g : pool_orders) (nodes : list OrderNode) (free : list Z) (s : SpecBook).
Hypothesis (Hg : g.*2 = sb_orders s) (Hok : pool_ok g nodes free) (Hwf : spec_wf s).

Let b := concrete g (sb_events s) nodes free.
Let cap := length nodes.

Lemma pooled_concrete_represents : represents cap b s.
Proof using Hg Hok Hwf. by exists g, nodes, free. Qed.

Lemma pooled_concrete_ids : NoDup (ids g).
Proof using Hg Hwf. unfold ids. rewrite Hg. apply Hwf. Qed.

Hint Resolve pooled_concrete_represents pooled_concrete_ids : core.

Lemma pooled_refines_remove id t o :
  (t, o) ∈ g → so_id o = id →
  refines cap (b' ← remove_existing_order (value id) b; Ret (Applied, count_event b'))
    (accept (remove_order id (sb_orders s)) s).
Proof using Hg Hok Hwf.
  intros Hin <-. unfold b.
  destruct (pooled_remove_existing_order_concrete g (sb_events s) nodes free (t, o)) as (nodes' & Hr & Hl & Hok');
    auto. simpl in Hr. rewrite Hr.
  eapply pooled_refines_accept; [done|by rewrite tremove_snd, Hg|done|done|by apply spec_remove_wf].
Qed.

Lemma pooled_refines_reduce id t o n q r :
  (t, o) ∈ g → so_id o = id → (units q = units (so_quantity o) - n)%Z →
  r = mk_record t (set_quantity q o) → (0 < units q < two64)%Z →
  refines cap
    (level ← deref (find_level (so_side o) (so_price o) b);
     nodes' ← node_update (set_node_quantity q) t (nodes_ b);
     let b' := store_level (so_side o) (so_price o) (sub_total level n)
                 (set_pool nodes' (free_indices_ b) b) in
     Ret (Applied, count_event (set_lookup (<[value id := r]> (order_lookup_ b')) b')))
    (accept (update_order id q (sb_orders s)) s).
Proof using Hg Hok Hwf.
  intros Hin <- Hq -> Hr. unfold b.
  destruct (pool_update g nodes free (t, o) q) as (nodes' & Hu & Hl & Hok'); auto.
  pose proof (pooled_find_level_elem g (sb_events s) nodes free (t, o) Hin) as Hf. simpl in Hf, Hu.
  rewrite Hf. simpl. rewrite Hu. simpl.
  rewrite (mk_pool_level_update (t, o) q) by auto.
  apply (pooled_refines_accept _ _ (tupdate (so_id o) q g) nodes' free);
    [|by rewrite tupdate_snd, Hg|done|done|by apply spec_update_wf].
  f_equal. f_equal. unfold concrete.
  pose proof (lookup_of_update mk_record g (t, o) q pooled_concrete_ids Hin) as Hlk.
  pose proof (levels_of_update mk_level Buy g (t, o) q pooled_concrete_ids Hin) as HlB.
  pose proof (levels_of_update mk_level Sell g (t, o) q pooled_concrete_ids Hin) as HlS.
  simpl in Hlk, HlB, HlS. rewrite Hlk, HlB, HlS. unfold level_of. simpl.
  by destruct (so_side o).
Qed.

Lemma pooled_lookup_cases id :
  (find_order id (sb_orders s) = None ∧ order_lookup_ b !! value id = None) ∨
  (∃ t o, find_order id (sb_orders s) = Some o ∧ (t, o) ∈ g ∧ so_id o = id ∧
          order_lookup_ b !! value id = Some (mk_record t o)).
Proof using Hg Hwf.
  rewrite <-Hg. destruct (find_order id g.*2) as [o|] eqn:Hf.
  - right. destruct (find_order_tagged _ _ _ Hf) as (t & Hin & <-). exists t, o.
    split_and!; [done..|]. by apply (lookup_of_elem mk_record g (t, o) pooled_concrete_ids).
  - left. split; [done|]. apply lookup_of_None. rewrite order_id_eta. by apply find_order_None.
Qed.

Lemma spec_full_pool : spec_full (Some cap) s ↔ free = [].
Proof using Hg Hok.
  pose proof (pool_length Hok). unfold cap. simpl. rewrite <-Hg, length_fmap.
  destruct free; simpl in *; split; intros; (done || lia).
Qed.

Lemma pooled_add_order_refines id side price qty ts :
  quantity_wf qty →
  refines cap (add_order id side price qty ts b)
    (spec_add (Some cap) (MkSpecOrder id side price ts qty) s).
Proof using Hg Hok Hwf.
  intros Hqty. set (o := MkSpecOrder id side price ts qty).
  pose proof (spec_apply_wf (Some cap) (MkEvent Add ts id side price qty) s Hqty Hwf) as Hw.
  change (spec_wf (spec_add (Some cap) o s).2) in Hw.
  unfold add_order, spec_add in *. cbn [so_id so_quantity o] in *.
  destruct (decide (units qty = 0%Z)) as [Hz|Hz]; [by apply pooled_refines_reject|].
  destruct (pooled_lookup_cases id) as [[Hf Hlk]|(t & o' & Hf & _ & _ & Hlk)]; rewrite Hlk, Hf in *; simpl.
  2: { by apply pooled_refines_reject. }
  destruct (destruct_snoc free) as [Hfree|(f0 & i0 & Hfree)].
  { rewrite decide_True by by apply spec_full_pool.
    assert (allocate_node b = None) as -> by (unfold allocate_node; simpl; by rewrite Hfree).
    by apply pooled_refines_reject. }
  rewrite decide_False in Hw |- * by (rewrite spec_full_pool, Hfree; by destruct f0).
  assert (allocate_node b = Some (i0, set_pool nodes f0 b)) as ->.
  { unfold allocate_node. simpl. by rewrite Hfree, last_snoc, removelast_last. }
  assert (so_id o ∉ ids g) as Hid by (unfold ids; rewrite Hg; by apply find_order_None).
  destruct (pool_add g nodes f0 i0 o) as (nodes' & nodes1 & Hfill & Happ & Hl & Hok');
    [by rewrite <-Hfree|done|].
  change (set_pool nodes f0 b) with (concrete g (sb_events s) nodes f0).
  rewrite pooled_subscript_concrete. cbn [nodes_ concrete]. cbn [so_side so_price so_id so_timestamp so_quantity o] in Hfill, Happ.
  rewrite Hfill. cbn [mbind Exec_bind]. rewrite Happ. cbn [mbind Exec_bind].
  pose proof (pool_count_range Hok' side (ticks price)) as Hr.
  rewrite tqueue_app, decide_True in Hr by done.
  change (units qty) with (units (so_quantity o)). rewrite (mk_pool_level_add _ i0 o Hr).
  apply (pooled_refines_accept _ _ (g ++ [(i0, o)]) nodes' f0); [|by rewrite fmap_app, Hg|done|done|done].
  f_equal. f_equal. unfold concrete.
  rewrite !(levels_of_add mk_level), (lookup_of_add mk_record) by done. by destruct side.
Qed.

Lemma pooled_cancel_order_refines id : refines cap (cancel_order id b) (spec_cancel id s).
Proof using Hg Hok Hwf.
  unfold cancel_order, spec_cancel.
  destruct (pooled_lookup_cases id) as [[-> ->]|(t & o & -> & Hin & Hid & ->)].
  - by apply pooled_refines_reject.
  - by apply (pooled_refines_remove id t o).
Qed.

Lemma pooled_modify_order_refines id q :
  quantity_wf q → refines cap (modify_order id q b) (spec_modify id q s).
Proof using Hg Hok Hwf.
  intros [Hq0 Hq]. unfold modify_order, spec_modify. case_decide as Hz; [by apply pooled_refines_reject|].
  destruct (pooled_lookup_cases id) as [[-> ->]|(t & o & Hf & Hin & Hid & ->)]; [by apply pooled_refines_reject|].
  pose proof (spec_quantity_range s id o Hwf Hf) as Hr. rewrite Hf. simpl.
  case_decide as Hlt; [by apply pooled_refines_reject|].
  case_decide as Heq.
  - rewrite (update_order_same id q s o) by done.
    apply (pooled_refines_accept _ _ g nodes free); [done..|].
    rewrite <-(update_order_same id q s o) by done. by apply spec_update_wf; [lia|].
  - apply (pooled_refines_reduce id t o _ q); [done|done| |done|lia].
    rewrite sub64_small; [lia|lia|split; lia].
Qed.

Lemma pooled_execute_order_refines id q :
  quantity_wf q → refines cap (execute_order id q b) (spec_execute id q s).
Proof using Hg Hok Hwf.
  intros [Hq0 Hq]. unfold execute_order, spec_execute. case_decide as Hz; [by apply pooled_refines_reject|].
  destruct (pooled_lookup_cases id) as [[-> ->]|(t & o & Hf & Hin & Hid & ->)]; [by apply pooled_refines_reject|].
  pose proof (spec_quantity_range s id o Hwf Hf) as Hr. rewrite Hf. simpl.
  case_decide as Hlt; [by apply pooled_refines_reject|].
  case_decide as Heq; [by apply (pooled_refines_remove id t o)|].
  unfold set_record_quantity; simpl. rewrite sub64_small; [|lia|split; lia].
  apply (pooled_refines_reduce id t o); simpl; (done || lia).
Qed.
End operations.

(** The whole handler: every event, every branch, never [UB]. *)
Lemma pooled_apply_represents cap e b s :
  quantity_wf (ev_quantity e) → represents cap b s → refines cap (apply e b) (spec_apply (Some cap) e s).
Proof.
  intros Hq (g & nodes & free & -> & Hg & <- & Hok & Hwf). unfold apply, spec_apply.
  destruct (ev_type e).
  - by apply pooled_add_order_refines.
  - by apply pooled_modify_order_refines.
  - by apply pooled_cancel_order_refines.
  - by apply pooled_execute_order_refines.
Qed.
