(* ===== verification/PooledValidation.v ===== *)
(** * Observers of the pooled book, and its contract

    The list walks end within their fuel, the views are those of the
    specification, [validate_invariants] accepts every represented book that
    is not crossed (or whose options allow it), and the constructor and
    [clear] establish the pool invariant. *)
From S2P Require Import Prelude CoreTypes OrderedMap BookTypes BookSpec TaggedOrders PooledBook.
From S2P Require Import NodePool PooledRefinement PooledLaws.
Import PooledLimitOrderBook.

(** ** Views *)
Section views.
Context (g : pool_orders) (ev : Z) (nodes : list OrderNode) (free : list Z).
Hypothesis (Hok : pool_ok g nodes free).

Let b := concrete g ev nodes free.

Lemma queue_fuel side p : length (tqueue side p g) ≤ walk_fuel b.
Proof using Hok.
  pose proof (pool_length Hok). pose proof (length_filter (λ x, at_level side p x.2) g).
  unfold walk_fuel, tqueue. simpl. lia.
Qed.

Lemma walk_level side p :
  walk (walk_fuel b) nodes (first_of npos (tqueue side p g))
  = Ret (linked npos (tqueue side p g) npos).
Proof using Hok.
  apply walk_dseg; [apply queue_fuel|apply (queue_valid Hok)|apply (pool_segments _ _ _ Hok)].
Qed.

Lemma append_level_concrete side p :
  append_level b p (mk_level (tqueue side p g)) = Ret (spec_level side g.*2 p).
Proof using Hok.
  unfold append_level. cbn [l_head mk_level]. change (nodes_ b) with nodes. rewrite walk_level.
  cbn [mbind Exec_bind]. unfold spec_level. by rewrite linked_views, <-tqueue_snd.
Qed.

Lemma append_levels_concrete side :
  append_levels b (levels_of mk_level side g) = Ret (spec_level side g.*2 <$> level_prices side g.*2).
Proof using Hok.
  unfold levels_of. induction (level_prices side g.*2) as [|p ps IH]; [done|].
  cbn [append_levels fmap list_fmap]. rewrite append_level_concrete. simpl. by rewrite IH.
Qed.

Lemma pooled_order_ids_concrete side price :
  order_ids_at_price side price b = Ret (so_id <$> queue_at side (ticks price) g.*2).
Proof using Hok.
  unfold order_ids_at_price, b. rewrite pooled_find_level_concrete, <-tqueue_snd.
  destruct (tqueue side (ticks price) g) as [|x q] eqn:Hq; [done|]. rewrite <-Hq. fold b.
  cbn [l_head mk_level]. change (nodes_ b) with nodes. rewrite walk_level. simpl. by rewrite linked_ids.
Qed.

Lemma view_concrete side p :
  make_price_level_view p (mk_level (tqueue side p g)) = level_summary (spec_level side g.*2 p).
Proof using.
  unfold make_price_level_view, level_summary, spec_level, mk_level. simpl.
  by rewrite length_fmap, <-tqueue_snd, length_fmap.
Qed.

Lemma pooled_levels_view_concrete side :
  (λ pl, make_price_level_view pl.1 pl.2) <$> levels_of mk_level side g
  = level_summary <$> (spec_level side g.*2 <$> level_prices side g.*2).
Proof using.
  unfold levels_of. rewrite <-!list_fmap_compose. apply list_fmap_ext.
  intros i p _. apply view_concrete.
Qed.
End views.

(** ** [validate_invariants] on a represented book *)
Section validation.
Context (g : pool_orders) (ev : Z) (nodes : list OrderNode) (free : list Z).
Hypothesis (Hok : pool_ok g nodes free) (Hnd : NoDup (ids g)).
Hypothesis (Hpos : Forall (λ x : Z * SpecOrder, 0 < units (so_quantity x.2))%Z g).

Let b := concrete g ev nodes free.

(** One loop body on the node of a live order. *)
Lemma validate_node_ok side p x prev next w :
  x ∈ g → at_level side p x.2 → value (so_id x.2) ∉ w_seen w → w_previous w = prev →
  validate_node b side p x.1 (mk_node x.2 prev next) w
  = Some (MkWalkState ({[value (so_id x.2)]} ∪ w_seen w)
            (add64 (w_total w) (units (so_quantity x.2))) (add64 (w_visited w) 1) x.1).
Proof using Hnd Hpos.
  intros Hx [Hs Hp] Hseen <-. unfold validate_node. simpl.
  rewrite Forall_forall in Hpos. specialize (Hpos _ Hx). simpl in Hpos.
  rewrite lookup_of_elem by done. simpl.
  repeat (rewrite decide_False by (done || lia || congruence)). done.
Qed.

(** The loop of [validate_level] from [prev] on. *)
Lemma validate_walk_ok fuel side p prev q seen t v :
  length q ≤ fuel → valid_indices q.*1 → dseg nodes prev q npos → NoDup (ids q) →
  Forall (λ x, x ∈ g ∧ at_level side p x.2) q → id_set q ## seen →
  validate_walk fuel b side p (first_of npos q) (MkWalkState seen (wrap64 t) (wrap64 v) prev)
  = Ret (Some (MkWalkState (id_set q ∪ seen) (wrap64 (t + total_units q.*2))
                 (wrap64 (v + Z.of_nat (length q))) (last_of prev q))).
Proof using Hok Hnd Hpos.
  revert fuel prev seen t v. induction q as [|x q IH]; intros fuel prev seen t v Hf Hv Hs Hnq Hq Hd.
  { replace (id_set []) with (∅ : gset Z) by done. rewrite (left_id_L ∅ (∪)). simpl.
    rewrite !Z.add_0_r. by destruct fuel. }
  destruct fuel as [|fuel]; [simpl in Hf; lia|].
  apply Forall_cons in Hv as [Hvx Hv]. apply Forall_cons in Hq as [[Hx Hat] Hq].
  rewrite ids_cons, NoDup_cons in Hnq. destruct Hnq as [Hxq Hnq]. destruct Hs as [Hn Hs].
  pose proof (lookup_lt_Some _ _ _ Hn) as Hlt.
  change (x :: q) with ([x] ++ q) in Hd |- *. rewrite id_set_app in Hd |- *.
  assert (id_set [x] = {[value (so_id x.2)]}) as Hone by (unfold id_set, ids; simpl; set_solver).
  rewrite Hone in *. cbn [validate_walk first_of app].
  change (nodes_ b) with nodes. rewrite !decide_False by lia. rewrite (vec_at_lookup nodes x.1 _ (proj1 Hvx) Hn). cbn [mbind Exec_bind].
  rewrite validate_node_ok by (done || set_solver). cbn [w_seen w_total w_visited n_next mk_node].
  unfold add64. rewrite !wrap64_add_l.
  rewrite IH; [|simpl in Hf; lia|done|done|done|done|].
  - do 3 f_equal.
    + set_solver.
    + change ((x :: q).*2) with (x.2 :: q.*2). rewrite total_units_cons. f_equal. lia.
    + simpl length. f_equal. lia.
  - intros i Hi. rewrite elem_of_union, elem_of_singleton. intros [->|Hseen];
      [|by apply (Hd i); [apply elem_of_union; right|]].
    apply Hxq. apply elem_of_id_set in Hi as (y & Hy & Hv'). rewrite Forall_forall in Hq.
    rewrite (value_id_inj g x y); [by apply elem_of_ids|done|done|by apply Hq|done].
Qed.

Lemma validate_level_ok side p seen :
  tqueue side p g ≠ [] → id_set (tqueue side p g) ## seen →
  validate_level b side p (mk_level (tqueue side p g)) seen
  = Ret (Some (id_set (tqueue side p g) ∪ seen)).
Proof using Hok Hnd Hpos.
  intros Hne Hd. pose proof (queue_valid Hok side p) as Hv.
  pose proof (pool_count_range Hok side p) as Hr.
  unfold validate_level. rewrite decide_False.
  2: { destruct (destruct_snoc (tqueue side p g)) as [?|(q0 & y & Hq)]; [done|]. rewrite Hq in *. simpl.
    rewrite last_of_app. unfold last_of. simpl. rewrite length_app. simpl.
    unfold valid_indices in Hv. rewrite fmap_app, Forall_app in Hv. destruct Hv as [Hv0 Hvy%Forall_inv].
    destruct q0 as [|z q0]; simpl; [lia|]. apply Forall_inv in Hv0. lia. }
  change 0%Z with (wrap64 0) at 1 2. cbn [l_head mk_level].
  rewrite validate_walk_ok; [|by apply queue_fuel|done|apply (pool_segments _ _ _ Hok)|by apply ids_tqueue_NoDup| |done].
  - cbn [mbind Exec_bind w_previous w_visited w_total w_seen l_tail].
    rewrite decide_False by (by intros []). rewrite decide_True; [done|].
    simpl. by rewrite !Z.add_0_l, wrap64_small.
  - apply Forall_forall. intros x. apply elem_of_tqueue.
Qed.

Lemma validate_levels_ok side ps seen :
  NoDup ps → (∀ p, p ∈ ps → tqueue side p g ≠ []) →
  (∀ p, p ∈ ps → id_set (tqueue side p g) ## seen) →
  validate_levels b side ((λ p, (p, mk_level (tqueue side p g))) <$> ps) seen
  = Ret (Some (id_set (ps ≫= λ p, tqueue side p g) ∪ seen)).
Proof using Hok Hnd Hpos.
  revert seen. induction ps as [|p ps IH]; intros seen Hnp Hne Hd; simpl.
  { replace (id_set []) with (∅ : gset Z) by done. by rewrite (left_id_L ∅ (∪)). }
  apply NoDup_cons in Hnp as [Hp Hnp].
  rewrite validate_level_ok by (apply Hne || apply Hd; left). simpl.
  rewrite IH; [|done|intros; apply Hne; by right|].
  - do 2 f_equal. rewrite id_set_app. set_solver.
  - intros p' Hp'. apply disjoint_union_r. split; [|apply Hd; by right].
    intros i (x & [Hx [_ Hpx]]%elem_of_tqueue & <-)%elem_of_id_set
             (y & [Hy [_ Hpy]]%elem_of_tqueue & Hv)%elem_of_id_set.
    apply Hp. rewrite (value_id_inj g x y) in Hpx by done. congruence.
Qed.

Lemma validate_lookup_ok seen records :
  (∀ i r, (i, r) ∈ records → i ∈ seen ∧ order_lookup_ b !! i = Some r) →
  validate_lookup b seen records = Ret true.
Proof using Hok Hnd.
  induction records as [|[i r] records IH]; intros Hr; simpl; [done|].
  destruct (Hr i r) as [Hi Hlk]; [by left|]. rewrite decide_False by tauto.
  apply lookup_of_Some in Hlk as (x & Hx & <- & <-); [|done].
  assert (x.1 ∈ g.*1) as Hx1 by by apply list_elem_of_fmap_2.
  assert (0 ≤ x.1 < Z.of_nat (length nodes))%Z as Hrg by (apply (pool_index_range Hok), elem_of_app; by left).
  pose proof (pool_segments _ _ _ Hok (so_side x.2) (ticks (so_price x.2))) as Hs.
  destruct (list_elem_of_split _ _ (elem_of_level_of x g Hx)) as (q1 & q2 & Hq).
  unfold level_of in Hq. rewrite Hq in Hs. apply dseg_app in Hs as [_ [Hn _]].
  unfold node_active_at. simpl. rewrite decide_False by lia.
  rewrite (vec_at_lookup nodes x.1 _ (proj1 Hrg) Hn). simpl.
  pose proof (pooled_find_level_elem g ev nodes free x Hx) as Hfl.
  change (find_level (so_side x.2) (so_price x.2) b = Some (mk_level (level_of x g))) in Hfl.
  rewrite Hfl. apply IH. intros j r' Hj. apply Hr. by right.
Qed.
End validation.

Lemma pooled_top_consistent_best levels : top_consistent levels (best_level make_price_level_view levels) = true.
Proof.
  unfold top_consistent, best_level. destruct (begin levels) as [[p l]|]; [|done].
  by apply bool_decide_eq_true.
Qed.

Lemma pooled_crosses_concrete g ev nodes free s :
  g.*2 = sb_orders s → crosses (concrete g ev nodes free) = true ↔ crossed s.
Proof.
  intros Hg. rewrite <-best_prices_crossed, <-Hg. unfold crosses, concrete. simpl. unfold levels_of.
  destruct (level_prices Buy g.*2), (level_prices Sell g.*2); reflexivity.
Qed.

Lemma pooled_validate_represents cap opts b s :
  represents cap b s →
  validate_invariants opts b = Ret (bool_decide (allow_crossed_book opts = true ∨ ¬ crossed s)).
Proof.
  intros (g & nodes & free & -> & Hg & Hl & Hok & Hwf).
  assert (NoDup (ids g)) as Hnd by by eapply pooled_concrete_ids.
  assert (Forall (λ x, 0 < units (so_quantity x.2))%Z g) as Hpos.
  { destruct Hwf as [_ Hq _]. rewrite <-Hg, Forall_fmap in Hq. eapply Forall_impl; [done|].
    intros x Hx; simpl in Hx. lia. }
  pose proof (pooled_crosses_concrete g (sb_events s) nodes free s Hg) as Hc.
  unfold validate_invariants. destruct (negb (allow_crossed_book opts) && crosses _) eqn:Hcr.
  { apply andb_true_iff in Hcr as [Ha Hcr%Hc]. rewrite bool_decide_false; [done|].
    destruct (allow_crossed_book opts); simpl in Ha; naive_solver. }
  rewrite bool_decide_true.
  2: { destruct (allow_crossed_book opts); [by left|]. right. rewrite <-Hc. by destruct (crosses _). }
  simpl. rewrite !pooled_top_consistent_best. simpl.
  assert (∀ side p, p ∈ level_prices side g.*2 → tqueue side p g ≠ []) as Hne
    by (intros side p Hp Hnil; by apply tqueue_nil in Hnil).
  unfold levels_of.
  rewrite (validate_levels_ok g (sb_events s) nodes free Hok Hnd Hpos Buy);
    [|apply level_prices_NoDup|apply Hne|set_solver].
  cbn [mbind Exec_bind].
  rewrite (validate_levels_ok g (sb_events s) nodes free Hok Hnd Hpos Sell);
    [|apply level_prices_NoDup|apply Hne|].
  2: { intros p Hp i (x & [Hx [Hs _]]%elem_of_tqueue & <-)%elem_of_id_set.
    rewrite (right_id_L ∅ (∪)). intros (y & [Hy Hs']%(elem_of_side_orders Buy) & Hv)%elem_of_id_set.
    rewrite (value_id_inj g x y) in Hs by done. congruence. }
  cbn [mbind Exec_bind]. rewrite (right_id_L ∅ (∪)).
  change (level_prices Sell g.*2 ≫= λ p, tqueue Sell p g) with (side_orders Sell g).
  change (level_prices Buy g.*2 ≫= λ p, tqueue Buy p g) with (side_orders Buy g).
  rewrite <-id_set_app, (id_set_perm (side_orders Sell g ++ side_orders Buy g) g)
    by (rewrite Permutation_app_comm; by apply all_orders_permutation).
  rewrite (id_set_dom mk_record g Hnd), size_dom, decide_False by (intros []; done).
  apply (validate_lookup_ok g (sb_events s) nodes free Hok Hnd).
  intros i r Hi%elem_of_map_to_list. split; [|done]. by apply elem_of_dom_2 in Hi.
Qed.

(** ** Construction *)

Lemma free_list_seq n : free_list n ≡ₚ seqZ 0 (Z.of_nat n).
Proof.
  induction n as [|n IH]; [done|]. simpl free_list. rewrite IH.
  rewrite seqZ_S, Z.add_0_l. apply Permutation_cons_append.
Qed.

Lemma reset_pool_ok (nodes : list OrderNode) :
  (Z.of_nat (length nodes) ≤ npos)%Z →
  pool_ok [] ((λ _, empty_node) <$> nodes) (free_list (length nodes)).
Proof.
  intros Hsz. split.
  - by rewrite length_fmap.
  - done.
  - intros i Hi. rewrite free_list_seq, elem_of_seqZ in Hi. rewrite list_lookup_fmap.
    destruct (lookup_lt_is_Some_2 nodes (Z.to_nat i)) as [n Hn]; [lia|]. by rewrite Hn.
  - simpl. by rewrite length_fmap, free_list_seq.
Qed.

Lemma reset_represents cap b ev :
  length (nodes_ b) = cap → (Z.of_nat cap ≤ npos)%Z → is_u64 ev →
  bid_levels_ b = [] → ask_levels_ b = [] → order_lookup_ b = ∅ → stats_ b = MkStats ev →
  represents cap (reset_free_list b) (MkSpecBook [] ev).
Proof.
  intros Hl Hsz Hev Hb Ha Hlk Hst. exists [], ((λ _, empty_node) <$> nodes_ b), (free_list (length (nodes_ b))).
  split_and!; [|done|by rewrite length_fmap|by apply reset_pool_ok; rewrite Hl|].
  - unfold reset_free_list, set_pool, concrete. by rewrite Hb, Ha, Hlk, Hst.
  - split; simpl; [constructor|constructor|done].
Qed.

Lemma make_book_represents max_live_orders :
  is_u64 max_live_orders →
  represents (Z.to_nat max_live_orders) (make_book max_live_orders) spec_empty.
Proof.
  intros [H0 Hm]. apply reset_represents; simpl; [apply length_replicate| |by split|done..].
  unfold npos, two64 in *. lia.
Qed.

#[export] Instance PooledLimitOrderBook_OrderBook : OrderBook PooledLimitOrderBook := {
  ob_apply := apply;
  ob_clear := clear;
  ob_top_of_book := top_of_book;
  ob_depth := depth;
  ob_snapshot := snapshot;
  ob_order_ids_at_price := order_ids_at_price;
  ob_validate_invariants := validate_invariants;
  ob_events_applied := events_applied;
  ob_live_order_count := live_order_count
}.

#[export] Instance PooledLimitOrderBook_laws cap :
  OrderBookLaws PooledLimitOrderBook (Some cap) (represents cap).
Proof.
  split.
  - by intros b s (g & nodes & free & _ & _ & _ & _ & Hwf).
  - intros e b s Hq Hb. apply (pooled_apply_represents cap e b s Hq Hb).
  - intros b s (g & nodes & free & -> & Hg & Hl & Hok & _). apply reset_represents; try done.
    rewrite <-Hl. apply (pool_size _ _ _ Hok).
  - intros b s (g & nodes & free & -> & Hg & _). simpl. unfold top_of_book, spec_top, spec_side. simpl.
    by rewrite !best_level_head, !pooled_levels_view_concrete, Hg.
  - intros levels b s (g & nodes & free & -> & Hg & _). simpl. unfold depth, spec_depth, spec_side. simpl.
    by rewrite !depth_loop_take, !pooled_levels_view_concrete, Hg.
  - intros b s (g & nodes & free & -> & Hg & _ & Hok & _). simpl. unfold snapshot, spec_snapshot, spec_side. simpl.
    rewrite (append_levels_concrete g (sb_events s) nodes free Hok Buy). simpl.
    rewrite (append_levels_concrete g (sb_events s) nodes free Hok Sell). simpl. by rewrite Hg.
  - intros side price b s (g & nodes & free & -> & Hg & _ & Hok & _). simpl.
    by rewrite pooled_order_ids_concrete, Hg.
  - intros opts b s Hb. by apply (pooled_validate_represents cap).
  - by intros b s (g & nodes & free & -> & _).
  - intros b s (g & nodes & free & -> & Hg & _ & _ & Hwf). simpl. unfold live_order_count. simpl.
    rewrite lookup_of_size by by eapply pooled_concrete_ids. by rewrite <-Hg, length_fmap.
Qed.
