(* ===== verification/BookHistory.v ===== *)
(** * Resting orders and the events they come from

    The book after a stream, read off the stream itself: an order rests exactly
    if an applied Add brought it and the applied events after it have left some
    of its quantity.  Nothing here refers to the state of a book on the way. *)
From S2P Require Import Prelude CoreTypes BookTypes BookSpec BookStreams.
#[local] Open Scope Z_scope.

(** ** The history *)

(** The events of a stream with their results. *)
Abbreviation history := (list (MarketEvent * BookResult)).

(** What an applied event on the order [id] leaves of [q] units; nothing comes
    back once none are left. *)
Definition left_by (id : OrderId) (q : Z) (x : MarketEvent * BookResult) : Z :=
  if decide (x.2 = Applied ∧ ev_order_id x.1 = id ∧ 0 < q) then
    match ev_type x.1 with
    | Add => q
    | Modify => units (ev_quantity x.1)
    | Cancel => 0
    | Execute => q - units (ev_quantity x.1)
    end
  else q.

(** What is left of the order the event [e] adds. *)
Definition remaining (e : MarketEvent) (later : history) : Z :=
  foldl (left_by (ev_order_id e)) (units (ev_quantity e)) later.

(** The order [o] comes from the [i]-th event of the history. *)
Definition comes_from (h : history) (o : SpecOrder) (i : nat) : Prop :=
  ∃ e, h !! i = Some (e, Applied) ∧ ev_type e = Add ∧
    o = set_quantity (MkQuantity (remaining e (drop (S i) h))) (event_order e) ∧
    0 < remaining e (drop (S i) h).

(** ** One event *)

Lemma set_quantity_same o : set_quantity (MkQuantity (units (so_quantity o))) o = o.
Proof. by destruct o as [? ? ? ? []]. Qed.

Lemma left_by_none id q x : q ≤ 0 → left_by id q x = q.
Proof. intros Hq. unfold left_by. rewrite decide_False; [done|]. lia. Qed.

Lemma left_by_rejected id q e r : r ≠ Applied → left_by id q (e, r) = q.
Proof. intros Hr. unfold left_by. rewrite decide_False; [done|]. simpl. tauto. Qed.

Lemma left_by_other id q e r : ev_order_id e ≠ id → left_by id q (e, r) = q.
Proof. intros Hr. unfold left_by. rewrite decide_False; [done|]. simpl. tauto. Qed.

Lemma left_by_own q e : 0 < q →
  left_by (ev_order_id e) q (e, Applied)
  = match ev_type e with
    | Add => q
    | Modify => units (ev_quantity e)
    | Cancel => 0
    | Execute => q - units (ev_quantity e)
    end.
Proof. intros Hq. unfold left_by. by rewrite decide_True. Qed.

(** What an applied event makes of each resting order. *)
Definition order_after (e : MarketEvent) (o : SpecOrder) : option SpecOrder :=
  let q := left_by (so_id o) (units (so_quantity o)) (e, Applied) in
  if decide (q ≤ 0) then None else Some (set_quantity (MkQuantity q) o).

Definition added_order (e : MarketEvent) : list SpecOrder :=
  match ev_type e with Add => [event_order e] | _ => [] end.

Lemma order_after_other e o :
  0 < units (so_quantity o) → so_id o ≠ ev_order_id e → order_after e o = Some o.
Proof.
  intros Hq Hne. unfold order_after. rewrite left_by_other by done. rewrite decide_False by lia.
  by rewrite set_quantity_same.
Qed.

Lemma omap_cons {A B} (f : A → option B) x l : omap f (x :: l) = option_list (f x) ++ omap f l.
Proof. simpl. by destruct (f x). Qed.

Section one_event.
Context (capacity : option nat) (e : MarketEvent) (s : SpecBook).
Hypothesis (Hwf : spec_wf s).

Lemma resting_quantity o : o ∈ sb_orders s → 0 < units (so_quantity o).
Proof using Hwf.
  intros Ho. pose proof (wf_quantities _ Hwf) as Hq. rewrite Forall_forall in Hq. apply (Hq _ Ho).
Qed.

(** All orders but the event's own stay as they are. *)
Lemma orders_after os (own : SpecOrder → option SpecOrder) :
  os ⊆ sb_orders s → (∀ o, o ∈ os → so_id o = ev_order_id e → order_after e o = own o) →
  omap (order_after e) os = omap (λ o, if decide (has_id (ev_order_id e) o) then own o else Some o) os.
Proof using Hwf.
  intros Hsub Hown. induction os as [|o os IH]; [done|].
  assert (o ∈ sb_orders s) as Ho by (apply Hsub; left).
  rewrite !omap_cons. rewrite IH; [|set_solver|intros o' Ho'; apply Hown; by right]. f_equal. f_equal.
  destruct (decide _) as [Hid|Hid]; [apply Hown; [left|done]|].
  apply order_after_other; [by apply resting_quantity|done].
Qed.

Lemma omap_remove id os : omap (λ o, if decide (has_id id o) then None else Some o) os = remove_order id os.
Proof.
  unfold remove_order. induction os as [|o os IH]; [done|]. rewrite omap_cons, filter_cons, IH.
  destruct (decide (has_id id o)); [by rewrite decide_False by tauto|by rewrite decide_True].
Qed.

Lemma omap_update id q os :
  omap (λ o, if decide (has_id id o) then Some (set_quantity q o) else Some o) os = update_order id q os.
Proof.
  unfold update_order. induction os as [|o os IH]; [done|]. rewrite omap_cons, fmap_cons, IH.
  by destruct (decide (has_id id o)).
Qed.

(** What is left of the event's own order. *)
Definition left_of (o : SpecOrder) : Z := left_by (ev_order_id e) (units (so_quantity o)) (e, Applied).

Section own.
Context (o : SpecOrder).
Hypothesis (Hf : find_order (ev_order_id e) (sb_orders s) = Some o).

Lemma own_order o' : o' ∈ sb_orders s → so_id o' = ev_order_id e → o' = o.
Proof using Hwf Hf.
  intros Ho' Hid. pose proof (find_order_elem _ o' (wf_ids _ Hwf) Ho') as Hf'. rewrite Hid in Hf'. congruence.
Qed.

Lemma own_left : left_of o = match ev_type e with
    | Add => units (so_quantity o)
    | Modify => units (ev_quantity e)
    | Cancel => 0
    | Execute => units (so_quantity o) - units (ev_quantity e)
    end.
Proof using Hwf Hf.
  apply find_order_Some in Hf as [Hin _]. by apply left_by_own, resting_quantity.
Qed.

Lemma own_removed : left_of o = 0 → omap (order_after e) (sb_orders s) = remove_order (ev_order_id e) (sb_orders s).
Proof using Hwf Hf.
  intros H0. rewrite <-omap_remove. apply (orders_after _ (λ _, None)); [done|]. intros o' Ho' Hid.
  rewrite (own_order o' Ho' Hid). unfold order_after. apply find_order_Some in Hf as [_ ->].
  unfold left_of in H0. by rewrite H0.
Qed.

Lemma own_updated q : left_of o = units q → 0 < units q →
  omap (order_after e) (sb_orders s) = update_order (ev_order_id e) q (sb_orders s).
Proof using Hwf Hf.
  intros Hq H0. rewrite <-omap_update. apply (orders_after _ (λ o, Some (set_quantity q o))); [done|].
  intros o' Ho' Hid. rewrite (own_order o' Ho' Hid). unfold order_after. apply find_order_Some in Hf as [_ ->].
  unfold left_of in Hq. rewrite Hq, decide_False by lia. by destruct q.
Qed.

Lemma own_bound : left_of o ≤ units (so_quantity o) →
  ∀ o, o ∈ sb_orders s → left_by (so_id o) (units (so_quantity o)) (e, Applied) ≤ units (so_quantity o).
Proof using Hwf Hf.
  intros Hle o' Ho'. destruct (decide (ev_order_id e = so_id o')) as [Hid|Hid]; [|by rewrite left_by_other].
  rewrite <-Hid. by rewrite (own_order o' Ho' (eq_sym Hid)).
Qed.
End own.

(** The orders after an applied event, and that none of them has grown. *)
Lemma spec_apply_orders :
  quantity_wf (ev_quantity e) → (spec_apply capacity e s).1 = Applied →
  sb_orders (spec_apply capacity e s).2 = omap (order_after e) (sb_orders s) ++ added_order e ∧
  ∀ o, o ∈ sb_orders s → left_by (so_id o) (units (so_quantity o)) (e, Applied) ≤ units (so_quantity o).
Proof using Hwf.
  intros [Hq0 _]. unfold spec_apply, added_order. destruct (ev_type e) eqn:Ht.
  - unfold spec_add. simpl. case_decide; [done|]. destruct (find_order _ _) eqn:Ef; [done|].
    case_decide; [done|]. intros _. simpl. apply find_order_None in Ef.
    assert (∀ o, o ∈ sb_orders s → so_id o ≠ ev_order_id e) as Hne.
    { intros o Ho Hid. apply Ef. rewrite <-Hid. by apply list_elem_of_fmap_2. }
    split; [|intros o Ho; by rewrite left_by_other by (intros Hid; by apply (Hne o Ho))]. f_equal.
    rewrite (orders_after _ (λ _, None)) by (done || (intros o Ho Hid; by destruct (Hne o Ho))).
    rewrite omap_remove. unfold remove_order. symmetry. by apply filter_all, Forall_forall.
  - unfold spec_modify. case_decide; [done|]. destruct (find_order _ _) as [o|] eqn:Ef; [|done].
    case_decide; [done|]. intros _. cbn [accept snd sb_orders]. rewrite app_nil_r.
    pose proof (own_left o Ef) as Hl. rewrite Ht in Hl.
    split; [rewrite (own_updated o Ef (ev_quantity e)); [done|done|lia]|apply (own_bound o Ef); lia].
  - unfold spec_cancel. destruct (find_order _ _) as [o|] eqn:Ef; [|done]. intros _.
    cbn [accept snd sb_orders]. rewrite app_nil_r. pose proof (own_left o Ef) as Hl. rewrite Ht in Hl.
    pose proof (find_order_Some _ _ _ Ef) as [Hin _]. pose proof (resting_quantity o Hin).
    split; [by rewrite (own_removed o Ef)|apply (own_bound o Ef); lia].
  - unfold spec_execute. case_decide; [done|]. destruct (find_order _ _) as [o|] eqn:Ef; [|done].
    case_decide; [done|]. intros _. rewrite app_nil_r. pose proof (own_left o Ef) as Hl. rewrite Ht in Hl.
    split; [|apply (own_bound o Ef); lia]. case_decide; cbn [accept snd sb_orders].
    + rewrite (own_removed o Ef); [done|lia].
    + rewrite (own_updated o Ef (MkQuantity (units (so_quantity o) - units (ev_quantity e)))); [done|done|simpl; lia].
Qed.
End one_event.

(** ** A stream *)

(** The events with the results they have on a new book. *)
Definition spec_history (capacity : option nat) (events : list MarketEvent) : history :=
  zip events (spec_apply_all capacity events spec_empty).1.

Lemma spec_history_snoc capacity events e :
  let s := (spec_apply_all capacity events spec_empty).2 in
  spec_history capacity (events ++ [e]) = spec_history capacity events ++ [(e, (spec_apply capacity e s).1)] ∧
  (spec_apply_all capacity (events ++ [e]) spec_empty).2 = (spec_apply capacity e s).2.
Proof.
  intros s. unfold spec_history. rewrite spec_apply_all_app. cbn [spec_apply_all fst snd]. fold s.
  split; [|done]. rewrite zip_with_app; [done|].
  clear. generalize spec_empty. induction events as [|e events IH]; intros s; simpl; [done|by rewrite <-IH].
Qed.

Lemma remaining_snoc e later x : remaining e (later ++ [x]) = left_by (ev_order_id e) (remaining e later) x.
Proof. apply foldl_snoc. Qed.

(** *** One event more *)

Lemma remaining_old h x i e :
  h !! i = Some (e, Applied) →
  remaining e (drop (S i) (h ++ [x])) = left_by (ev_order_id e) (remaining e (drop (S i) h)) x.
Proof. intros Hi. apply lookup_lt_Some in Hi. rewrite drop_app_le by lia. apply remaining_snoc. Qed.

Lemma comes_from_rejected h e r o i : r ≠ Applied → comes_from (h ++ [(e, r)]) o i ↔ comes_from h o i.
Proof.
  intros Hr. unfold comes_from. split; intros (e' & Hi & Ht & Ho & Hq); exists e'.
  - apply lookup_snoc_Some in Hi as [[_ Hi]|[_ Hi]]; [|congruence].
    rewrite (remaining_old h (e, r) i e' Hi), left_by_rejected in Ho, Hq by done. done.
  - rewrite (remaining_old h (e, r) i e' Hi), left_by_rejected by done.
    split_and!; try done. by apply lookup_app_l_Some.
Qed.

(** An order from before the event comes from the order it was. *)
Lemma comes_from_old h e o i :
  (i < length h)%nat →
  comes_from (h ++ [(e, Applied)]) o i ↔ ∃ o', comes_from h o' i ∧ order_after e o' = Some o.
Proof.
  intros Hi. split.
  - intros (e' & He' & Ht & Ho & Hq). rewrite lookup_app_l in He' by done. rewrite (remaining_old h _ i e' He') in Ho, Hq.
    set (q := remaining e' (drop (S i) h)) in *.
    assert (0 < q) as Hq0 by (destruct (Z.lt_ge_cases 0 q); [done|]; rewrite left_by_none in Hq by lia; lia).
    exists (set_quantity (MkQuantity q) (event_order e')). split; [by exists e'|].
    unfold order_after. cbn [set_quantity event_order so_id so_quantity units]. rewrite decide_False by lia. by rewrite Ho.
  - intros (o' & (e' & He' & Ht & -> & Hq) & Ha). exists e'. rewrite (remaining_old h _ i e' He').
    unfold order_after in Ha. cbn [set_quantity event_order so_id so_quantity units] in Ha.
    case_decide; [done|]. injection Ha as <-. split_and!; [by apply lookup_app_l_Some|done|done|lia].
Qed.

(** An order the event brings. *)
Lemma comes_from_new h e o :
  (ev_type e = Add → 0 < units (ev_quantity e)) →
  comes_from (h ++ [(e, Applied)]) o (length h) ↔ o ∈ added_order e.
Proof.
  intros Hq. assert (drop (S (length h)) (h ++ [(e, Applied)]) = []) as Hd.
  { apply drop_ge. rewrite length_app. simpl. lia. }
  unfold comes_from, added_order. rewrite Hd, lookup_app_r, Nat.sub_diag by done. simpl.
  assert (set_quantity (MkQuantity (units (ev_quantity e))) (event_order e) = event_order e) as Hs
    by apply (set_quantity_same (event_order e)).
  split.
  - intros (e' & [= <-] & -> & -> & _). unfold remaining. simpl. rewrite Hs. by left.
  - destruct (ev_type e) eqn:Ht; try by intros ?%elem_of_nil. intros ->%list_elem_of_singleton.
    exists e. unfold remaining. simpl. rewrite Hs. split_and!; try done. by apply Hq.
Qed.

Lemma comes_from_applied h e o :
  (ev_type e = Add → 0 < units (ev_quantity e)) →
  (∃ i, comes_from (h ++ [(e, Applied)]) o i) ↔
  (∃ o', (∃ i, comes_from h o' i) ∧ order_after e o' = Some o) ∨ o ∈ added_order e.
Proof.
  intros Hq. rewrite <-(comes_from_new h e o Hq). split.
  - intros [i Hi]. destruct (Nat.lt_trichotomy i (length h)) as [Hlt|[->|Hgt]]; [|by right|].
    + apply comes_from_old in Hi as (o' & Ho' & Ha); [|done]. left. eauto.
    + destruct Hi as (e' & Hi & _). apply lookup_lt_Some in Hi. rewrite length_app in Hi. simpl in Hi. lia.
  - intros [(o' & [i Hi] & Ha)|Hi]; [|eauto]. exists i. apply comes_from_old; [|by exists o'].
    destruct Hi as (e' & Hi & _). by apply lookup_lt_Some in Hi.
Qed.

Lemma applied_add_positive capacity e s :
  quantity_wf (ev_quantity e) → (spec_apply capacity e s).1 = Applied → ev_type e = Add → 0 < units (ev_quantity e).
Proof.
  intros [H0 _] Happ Ht. unfold spec_apply, spec_add in Happ. rewrite Ht in Happ. simpl in Happ.
  case_decide; [done|]. lia.
Qed.

(** The resting orders are those that come from the history, and none has
    more than was added. *)
Lemma orders_come_from capacity events :
  Forall (λ e, quantity_wf (ev_quantity e)) events →
  (∀ o, o ∈ sb_orders (spec_apply_all capacity events spec_empty).2 ↔
        ∃ i, comes_from (spec_history capacity events) o i) ∧
  (∀ o i e, comes_from (spec_history capacity events) o i → spec_history capacity events !! i = Some (e, Applied) →
     units (so_quantity o) ≤ units (ev_quantity e)).
Proof.
  intros Hev. induction events as [|e events IH] using rev_ind.
  { split; [|by intros o i e (? & ? & _)]. intros o. split; [by intros ?%elem_of_nil|by intros (i & e & Hi & _)]. }
  apply Forall_app in Hev as [Hev He]. apply Forall_inv in He. destruct (IH Hev) as [Horders Hbound]. clear IH.
  destruct (spec_history_snoc capacity events e) as [Hh Hs']. rewrite Hh, Hs'. clear Hh Hs'.
  pose proof (stream_wf capacity events spec_empty Hev spec_empty_wf) as Hwf.
  set (s := (spec_apply_all capacity events spec_empty).2) in *. set (h := spec_history capacity events) in *.
  destruct (decide ((spec_apply capacity e s).1 = Applied)) as [Happ|Hno].
  - destruct (spec_apply_orders capacity e s Hwf He Happ) as [-> Hle]. rewrite Happ.
    pose proof (applied_add_positive capacity e s He Happ) as Hpos. split.
    + intros o. rewrite (comes_from_applied h e o Hpos), elem_of_app, list_elem_of_omap. by setoid_rewrite Horders.
    + intros o i e' Hi Hl. apply lookup_snoc_Some in Hl as [[Hlt Hl]|[Hlen [= <-]]].
      * apply comes_from_old in Hi as (o' & Ho' & Ha); [|done]. etrans; [|by apply (Hbound o' i e')].
        pose proof (Hle o' ltac:(apply Horders; by exists i)) as Hle'. unfold order_after in Ha.
        case_decide; [done|]. injection Ha as <-. exact Hle'.
      * subst i. apply (comes_from_new h e o Hpos) in Hi. unfold added_order in Hi.
        destruct (ev_type e); try by apply elem_of_nil in Hi. by apply list_elem_of_singleton in Hi as ->.
  - rewrite (spec_apply_rejected capacity e s Hno). split.
    + intros o. rewrite Horders. by setoid_rewrite (comes_from_rejected h e _ o _ Hno).
    + intros o i e' Hi Hl. apply (comes_from_rejected h e _ o i Hno) in Hi. apply (Hbound o i e' Hi).
      destruct Hi as (e1 & H1 & _). apply lookup_snoc_Some in Hl as [[_ Hl]|[-> _]]; [done|].
      apply lookup_lt_Some in H1. lia.
Qed.

(** ** What a snapshot shows *)

(** The order [v] rests on a side at a price. *)
Definition shown (snap : BookSnapshot) (side : Side) (price : Price) (v : OrderView) : Prop :=
  ∃ l, l ∈ match side with Buy => snap_bids snap | Sell => snap_asks snap end ∧
       pls_price l = price ∧ v ∈ pls_orders l.

Lemma shown_spec s side price v :
  shown (spec_snapshot s) side price v ↔
  ∃ o, o ∈ sb_orders s ∧ so_side o = side ∧ so_price o = price ∧ v = order_view o.
Proof.
  unfold shown. replace (match side with Buy => snap_bids (spec_snapshot s) | Sell => snap_asks (spec_snapshot s) end)
    with (spec_side side s) by by destruct side.
  unfold spec_side. split.
  - intros (l & (p & -> & Hp)%list_elem_of_fmap & <- & Hv). cbn [spec_level pls_orders pls_price] in *.
    apply list_elem_of_fmap in Hv as (o & -> & [Ho [Hs Hpr]]%elem_of_queue_at).
    exists o. split_and!; try done. by destruct (so_price o); simpl in *; subst.
  - intros (o & Ho & <- & <- & ->). exists (spec_level (so_side o) (sb_orders s) (ticks (so_price o))).
    assert (at_level (so_side o) (ticks (so_price o)) o) as Hat by done. split_and!.
    + apply list_elem_of_fmap_2, elem_of_level_prices. eauto.
    + simpl. by destruct (so_price o).
    + simpl. apply list_elem_of_fmap_2. by apply elem_of_queue_at.
Qed.

(** A snapshot shows what the history has left. *)
Definition shows_history (h : history) (snap : BookSnapshot) : Prop :=
  ∀ side price v, shown snap side price v ↔
    ∃ i e, let left := remaining e (drop (S i) h) in
      h !! i = Some (e, Applied) ∧ ev_type e = Add ∧ ev_side e = side ∧ ev_price e = price ∧
      v = MkOrderView (ev_order_id e) (ev_timestamp e) (MkQuantity left) ∧ 0 < left ≤ units (ev_quantity e).

Lemma stream_shows_history `{HL : OrderBookLaws B capacity rep} events (b : B) :
  Forall (λ e, quantity_wf (ev_quantity e)) events → rep b spec_empty →
  ∃ rs b' snap, apply_all events b = Ret (rs, b') ∧ ob_snapshot b' = Ret snap ∧ shows_history (zip events rs) snap.
Proof.
  intros Hev Hb. destruct (apply_all_refines events b spec_empty Hev Hb) as (b' & Ha & Hb').
  eexists _, b', _. split_and!; [exact Ha|by eapply law_snapshot|].
  destruct (orders_come_from capacity events Hev) as [Horders Hbound]. unfold spec_history in *.
  intros side price v. rewrite shown_spec. setoid_rewrite Horders. split.
  - intros (o & (i & Hi) & Hs & Hp & ->). pose proof Hi as (e & He & Ht & -> & Hq). exists i, e. split_and!; try done.
    exact (Hbound _ i e Hi He).
  - intros (i & e & He & Ht & <- & <- & -> & Hq & _). eexists. split; [exists i, e; by split_and!|done].
Qed.
