(* ===== verification/BookProperties.v ===== *)
(** * Properties of the two order books

    The statements a user of the books relies on, each about the functions
    that model the code and, where it has hypotheses, with a witness at a
    concrete stream of events.  Their proofs apply the refinement theorems and
    the lemmas of [BookStreams] and [BookCompleteness]. *)
From S2P Require Import Prelude CoreTypes OrderedMap BookTypes BookSpec TaggedOrders Book.
From S2P Require Import BookRefinement BookValidation BookStreams BookCompleteness BookHistory PooledBook.
From S2P Require Import NodePool PooledRefinement PooledLaws PooledValidation.

Abbreviation Baseline := LimitOrderBook.LimitOrderBook.
Abbreviation Pooled := PooledLimitOrderBook.PooledLimitOrderBook.
Abbreviation new_baseline := LimitOrderBook.empty_book.
Abbreviation new_pooled := PooledLimitOrderBook.make_book.

Definition events_wf (events : list MarketEvent) : Prop :=
  Forall (λ e, quantity_wf (ev_quantity e)) events.

Definition baseline_reachable (b : Baseline) : Prop := reachable_book new_baseline b.
Definition pooled_reachable (max_live_orders : Z) (b : Pooled) : Prop :=
  reachable_book (new_pooled max_live_orders) b.

Lemma baseline_reachable_rep b :
  baseline_reachable b → ∃ s, BookRefinement.represents b s ∧ spec_wf s.
Proof. apply reachable_rep, empty_book_represents. Qed.

Lemma pooled_reachable_rep m b :
  is_u64 m → pooled_reachable m b → ∃ s, PooledRefinement.represents (Z.to_nat m) b s ∧ spec_wf s.
Proof. intros Hm. by apply reachable_rep, make_book_represents. Qed.

(** *** A stream for the witnesses *)

Definition event (ty : EventType) (ts id : Z) (side : Side) (price qty : Z) : MarketEvent :=
  MkEvent ty (MkTimestamp ts) (MkOrderId id) side (MkPrice price) (MkQuantity qty).

(** Two bids at 100, an ask at 105, a partial execution, a duplicate id, an
    ask that crosses the book, and a cancel. *)
Definition sample_events : list MarketEvent :=
  [event Add 1 1 Buy 100 10; event Add 2 2 Buy 100 20; event Add 3 3 Sell 105 5;
   event Execute 4 1 Buy 100 4; event Add 5 2 Sell 1 1; event Add 6 4 Sell 99 7;
   event Cancel 7 3 Buy 0 0].

Lemma sample_events_wf : events_wf sample_events.
Proof. unfold events_wf, sample_events. repeat (constructor; [by split|]). constructor. Defined.

Definition baseline_after (events : list MarketEvent) : Baseline :=
  match apply_all events new_baseline with Ret r => r.2 | UB => new_baseline end.

Definition pooled_after (m : Z) (events : list MarketEvent) : Pooled :=
  match apply_all events (new_pooled m) with Ret r => r.2 | UB => new_pooled m end.

Lemma sample_baseline_reachable : baseline_reachable (baseline_after sample_events).
Proof.
  exists sample_events, (spec_apply_all None sample_events spec_empty).1.
  split; [apply sample_events_wf|vm_compute; reflexivity].
Defined.

Lemma sample_pooled_reachable : pooled_reachable 2 (pooled_after 2 sample_events).
Proof.
  exists sample_events, (spec_apply_all (Some 2) sample_events spec_empty).1.
  split; [apply sample_events_wf|vm_compute; reflexivity].
Defined.

(** ** Refinement *)

(** C1: any stream of events, applied to a new baseline book, runs without
    undefined behaviour and returns, event by event, the results of the
    specification; afterwards every observer ([top_of_book], [depth],
    [snapshot], [order_ids_at_price], [validate_invariants], the counters)
    shows the specification book. *)
Theorem baseline_refines_spec events :
  events_wf events →
  ∃ b, apply_all events new_baseline = Ret ((spec_apply_all None events spec_empty).1, b) ∧
       observes b (spec_apply_all None events spec_empty).2.
Proof.
  intros Hev.
  destruct (apply_all_refines events new_baseline spec_empty Hev empty_book_represents) as (b & Ha & Hb).
  exists b. split; [done|]. by eapply rep_observes.
Qed.

Lemma baseline_refines_spec_witness :
  ∃ b, apply_all sample_events new_baseline = Ret ([Applied; Applied; Applied; Applied;
    DuplicateOrderId; Applied; Applied], b) ∧
    observes b (spec_apply_all None sample_events spec_empty).2.
Proof.
  assert ((spec_apply_all None sample_events spec_empty).1
    = [Applied; Applied; Applied; Applied; DuplicateOrderId; Applied; Applied]) as <-
    by (vm_compute; reflexivity).
  apply baseline_refines_spec, sample_events_wf.
Defined.

(** C2: the same for a pooled book of any capacity, against the specification
    bounded by that capacity: the node pool, its free list and the linked
    queues are invisible, the list walks end, and no index leaves the pool. *)
Theorem pooled_refines_spec max_live_orders events :
  is_u64 max_live_orders → events_wf events →
  let capacity := Some (Z.to_nat max_live_orders) in
  ∃ b, apply_all events (new_pooled max_live_orders)
       = Ret ((spec_apply_all capacity events spec_empty).1, b) ∧
       observes b (spec_apply_all capacity events spec_empty).2.
Proof.
  intros Hm Hev.
  destruct (apply_all_refines events (new_pooled max_live_orders) spec_empty Hev
    (make_book_represents _ Hm)) as (b & Ha & Hb).
  exists b. split; [done|]. by eapply rep_observes.
Qed.

Lemma pooled_refines_spec_witness :
  ∃ b, apply_all sample_events (new_pooled 2) = Ret ([Applied; Applied; CapacityExceeded; Applied;
    DuplicateOrderId; CapacityExceeded; MissingOrderId], b) ∧
    observes b (spec_apply_all (Some 2) sample_events spec_empty).2.
Proof.
  assert ((spec_apply_all (Some 2) sample_events spec_empty).1
    = [Applied; Applied; CapacityExceeded; Applied; DuplicateOrderId; CapacityExceeded; MissingOrderId]) as <-
    by (vm_compute; reflexivity).
  apply (pooled_refines_spec 2 sample_events); [by split|apply sample_events_wf].
Defined.

(** C3: on every stream that never exhausts the pool, the pooled book returns
    the results of the baseline book and ends in a state no observer can tell
    from the baseline's. *)
Theorem books_agree max_live_orders events rs pb :
  is_u64 max_live_orders → events_wf events →
  apply_all events (new_pooled max_live_orders) = Ret (rs, pb) → CapacityExceeded ∉ rs →
  ∃ bb, apply_all events new_baseline = Ret (rs, bb) ∧ indistinguishable bb pb.
Proof.
  intros Hm Hev Ha Hc.
  destruct (apply_all_refines events new_baseline spec_empty Hev empty_book_represents) as (bb & Hab & Hbb).
  destruct (apply_all_refines events (new_pooled max_live_orders) spec_empty Hev
    (make_book_represents _ Hm)) as (pb' & Hap & Hpb).
  rewrite Hap in Ha. injection Ha as <- <-. rewrite (spec_apply_all_capacity _ _ _ Hc) in *.
  exists bb. split; [done|]. eapply observes_indistinguishable; by eapply rep_observes.
Qed.

Lemma books_agree_witness :
  ∃ bb, apply_all sample_events new_baseline
        = Ret ([Applied; Applied; Applied; Applied; DuplicateOrderId; Applied; Applied], bb) ∧
        indistinguishable bb (pooled_after 4 sample_events).
Proof.
  apply (books_agree 4 sample_events); [split; done|apply sample_events_wf|vm_compute; reflexivity|].
  apply (bool_decide_eq_true_1 (CapacityExceeded ∉ _)). vm_compute. reflexivity.
Defined.

(** ** Errors *)

(** A step of a handler that ends in a rejection. *)
Ltac rejected :=
  repeat (case_decide || case_match); intros; simplify_eq; try done.

(** C31: an operation that is not applied returns the very book it was given,
    in both implementations and in any state, reachable or not. *)
Theorem rejected_unchanged :
  (∀ e (b b' : Baseline) r, LimitOrderBook.apply e b = Ret (r, b') → r ≠ Applied → b' = b) ∧
  (∀ e (b b' : Pooled) r, PooledLimitOrderBook.apply e b = Ret (r, b') → r ≠ Applied → b' = b).
Proof.
  split; intros e b b' r.
  - unfold LimitOrderBook.apply, LimitOrderBook.add_order, LimitOrderBook.modify_order,
      LimitOrderBook.cancel_order, LimitOrderBook.execute_order, mbind, Exec_bind. rejected.
  - unfold PooledLimitOrderBook.apply, PooledLimitOrderBook.add_order,
      PooledLimitOrderBook.modify_order, PooledLimitOrderBook.cancel_order,
      PooledLimitOrderBook.execute_order, mbind, Exec_bind. rejected.
Qed.

Lemma rejected_unchanged_witness :
  LimitOrderBook.apply (event Add 5 2 Sell 1 1) (baseline_after sample_events)
    = Ret (DuplicateOrderId, baseline_after sample_events) ∧
  baseline_after sample_events = baseline_after sample_events.
Proof.
  split; [vm_compute; reflexivity|].
  refine (proj1 rejected_unchanged (event Add 5 2 Sell 1 1) _ _ DuplicateOrderId _ _);
    [vm_compute; reflexivity|done].
Defined.

(** C24: the pooled book answers [CapacityExceeded] exactly to a valid add of
    an id that does not rest while as many orders rest as the constructor
    allowed. *)
Theorem capacity_exceeded_iff max_live_orders b e r b' :
  is_u64 max_live_orders → pooled_reachable max_live_orders b → quantity_wf (ev_quantity e) →
  PooledLimitOrderBook.apply e b = Ret (r, b') →
  r = CapacityExceeded ↔
  ev_type e = Add ∧ units (ev_quantity e) ≠ 0%Z ∧
  PooledLimitOrderBook.order_lookup_ b !! value (ev_order_id e) = None ∧
  PooledLimitOrderBook.live_order_count b = max_live_orders.
Proof.
  intros Hm Hr Hq Ha. destruct (pooled_reachable_rep _ _ Hm Hr) as (s & Hb & Hwf).
  destruct (apply_rep (HL:=PooledLimitOrderBook_laws _) e b s r b' Hq Hb Ha) as [-> _].
  pose proof (observes_live _ _ (rep_observes _ _ Hb)) as Hlive. simpl in Hlive. rewrite Hlive.
  destruct Hb as (g & nodes & free & -> & Hg & Hl & Hok & _).
  pose proof (pool_length Hok) as Hlen. rewrite <-(length_fmap snd), Hg in Hlen.
  destruct Hm as [Hm _].
  pose proof (pooled_lookup_cases g nodes free s Hg Hwf (ev_order_id e)) as Hc.
  unfold spec_apply. destruct (ev_type e).
  - unfold spec_add. cbn [so_id so_quantity event_order]. case_decide as Hz; [split; [done|naive_solver]|].
    destruct Hc as [[-> Hlk]|(t & o & -> & _ & _ & Hlk)]; rewrite Hlk; [|split; [done|naive_solver]].
    simpl. case_decide as Hf; simpl; [|split; [done|intros (_ & _ & _ & ?); lia]].
    split; [|done]. intros _. split_and!; [done..|lia].
  - unfold spec_modify. repeat case_match; split; by try intros [? _].
  - unfold spec_cancel. repeat case_match; split; by try intros [? _].
  - unfold spec_execute. repeat case_match; split; by try intros [? _].
Qed.

Lemma capacity_exceeded_iff_witness :
  PooledLimitOrderBook.apply (event Add 8 9 Sell 105 5) (pooled_after 2 sample_events)
    = Ret (CapacityExceeded, pooled_after 2 sample_events) ∧
  PooledLimitOrderBook.live_order_count (pooled_after 2 sample_events) = 2%Z.
Proof.
  assert (PooledLimitOrderBook.apply (event Add 8 9 Sell 105 5) (pooled_after 2 sample_events)
    = Ret (CapacityExceeded, pooled_after 2 sample_events)) as Ha by (vm_compute; reflexivity).
  split; [exact Ha|].
  apply (capacity_exceeded_iff 2 _ (event Add 8 9 Sell 105 5) CapacityExceeded _
    ltac:(by split) sample_pooled_reachable ltac:(by split) Ha). reflexivity.
Defined.

(** ** Priority *)

(** Does the event execute all that is left of its order, in a snapshot? *)
Definition fills_order (e : MarketEvent) (snap : BookSnapshot) : bool :=
  bool_decide (resting_units (ev_order_id e) snap = units (ev_quantity e)).

Lemma fills_order_spec e s :
  spec_wf s → units (ev_quantity e) ≠ 0%Z →
  fills_order e (spec_snapshot s) = executes_fully e s.
Proof.
  intros Hs Hq. unfold fills_order, executes_fully. rewrite resting_units_spec by done.
  destruct (find_order _ _); [apply bool_decide_ext; split|apply bool_decide_false]; congruence.
Qed.

(** What an applied event does to the queue at a price, for any
    implementation of the contract. *)
Lemma queue_effect_refines `{HL : OrderBookLaws B capacity rep} e b b' s side price ids snap :
  rep b s → quantity_wf (ev_quantity e) → ob_apply e b = Ret (Applied, b') →
  ob_snapshot b = Ret snap → ob_order_ids_at_price side price b = Ret ids →
  ob_order_ids_at_price side price b' = Ret (queue_effect e side price (fills_order e snap) ids).
Proof.
  intros Hb Hq Ha Hsnap Hids. pose proof (law_wf b s Hb) as Hwf.
  destruct (apply_rep _ _ _ _ _ Hq Hb Ha) as [Hr Hb'].
  rewrite (observes_order_ids _ _ (rep_observes _ _ Hb')), spec_queue_effect by done.
  rewrite (observes_snapshot _ _ (rep_observes _ _ Hb)) in Hsnap. injection Hsnap as <-.
  rewrite (observes_order_ids _ _ (rep_observes _ _ Hb)) in Hids. injection Hids as <-.
  f_equal. unfold queue_effect. destruct (ev_type e) eqn:Ht; try done.
  rewrite fills_order_spec; [done|done|]. unfold spec_apply, spec_execute in Hr. rewrite Ht in Hr.
  by case_decide.
Qed.

(** C9: first in, first out.  On every reachable book, of either kind, an
    applied add joins the back of its price's queue; a cancel or the execution
    of all that is left takes exactly that order out; a modify or a partial
    execution leaves every queue, and so the order's priority, as it was. *)
Theorem time_priority e side price :
  quantity_wf (ev_quantity e) →
  (∀ b b' : Baseline, baseline_reachable b →
     LimitOrderBook.apply e b = Ret (Applied, b') →
     LimitOrderBook.order_ids_at_price side price b'
     = queue_effect e side price (fills_order e (LimitOrderBook.snapshot b))
         (LimitOrderBook.order_ids_at_price side price b)) ∧
  (∀ m (b b' : Pooled) snap ids, is_u64 m → pooled_reachable m b →
     PooledLimitOrderBook.apply e b = Ret (Applied, b') →
     PooledLimitOrderBook.snapshot b = Ret snap →
     PooledLimitOrderBook.order_ids_at_price side price b = Ret ids →
     PooledLimitOrderBook.order_ids_at_price side price b'
     = Ret (queue_effect e side price (fills_order e snap) ids)).
Proof.
  intros Hq. split.
  - intros b b' (s & Hb & _)%baseline_reachable_rep Ha.
    pose proof (queue_effect_refines (HL:=LimitOrderBook_laws) e b b' s side price _ _ Hb Hq Ha eq_refl eq_refl) as He.
    by injection He.
  - intros m b b' snap ids Hm Hr Ha Hs Hi. destruct (pooled_reachable_rep _ _ Hm Hr) as (s & Hb & _).
    by apply (queue_effect_refines (HL:=PooledLimitOrderBook_laws _) e b b' s side price ids snap Hb).
Qed.

Lemma time_priority_witness :
  let b := baseline_after sample_events in
  let e := event Add 9 8 Buy 100 3 in
  LimitOrderBook.order_ids_at_price Buy (MkPrice 100) b = [MkOrderId 1; MkOrderId 2] ∧
  LimitOrderBook.order_ids_at_price Buy (MkPrice 100) (baseline_after (sample_events ++ [e]))
  = [MkOrderId 1; MkOrderId 2; MkOrderId 8].
Proof.
  intros b e. split; [vm_compute; reflexivity|].
  rewrite (proj1 (time_priority e Buy (MkPrice 100) ltac:(by split)) b _ sample_baseline_reachable);
    vm_compute; reflexivity.
Defined.

(** ** What a book shows *)

Lemma snapshot_wf_refines `{HL : OrderBookLaws B capacity rep} b s snap :
  rep b s → ob_snapshot b = Ret snap →
  snapshot_wf snap ∧ ob_live_order_count b = Z.of_nat (length (snapshot_orders snap)).
Proof.
  intros Hb Hs. pose proof (law_wf b s Hb) as Hwf. pose proof (rep_observes b s Hb) as Ho.
  rewrite (observes_snapshot _ _ Ho) in Hs. injection Hs as <-.
  split; [by apply spec_snapshot_wf|]. by rewrite (observes_live _ _ Ho), snapshot_live_count.
Qed.

(** C11: every reachable book shows its bids in strictly falling and its asks
    in strictly rising price order, no empty level, no order twice, no order
    without units, each level's total as the sum of its orders modulo 2^64,
    and as many orders as [live_order_count] says. *)
Theorem snapshot_well_formed :
  (∀ b, baseline_reachable b →
     snapshot_wf (LimitOrderBook.snapshot b) ∧
     LimitOrderBook.live_order_count b
     = Z.of_nat (length (snapshot_orders (LimitOrderBook.snapshot b)))) ∧
  (∀ m b, is_u64 m → pooled_reachable m b →
     ∃ snap, PooledLimitOrderBook.snapshot b = Ret snap ∧ snapshot_wf snap ∧
     PooledLimitOrderBook.live_order_count b = Z.of_nat (length (snapshot_orders snap))).
Proof.
  split.
  - intros b (s & Hb & _)%baseline_reachable_rep.
    exact (snapshot_wf_refines (HL:=LimitOrderBook_laws) b s _ Hb eq_refl).
  - intros m b Hm Hr. destruct (pooled_reachable_rep _ _ Hm Hr) as (s & Hb & _).
    pose proof (law_snapshot (OrderBookLaws:=PooledLimitOrderBook_laws _) b s Hb) as Hs.
    exists (spec_snapshot s). split; [exact Hs|].
    exact (snapshot_wf_refines (HL:=PooledLimitOrderBook_laws _) b s _ Hb Hs).
Qed.

Lemma snapshot_well_formed_witness :
  snapshot_wf (LimitOrderBook.snapshot (baseline_after sample_events)) ∧
  LimitOrderBook.live_order_count (baseline_after sample_events) = 3%Z.
Proof. exact (proj1 snapshot_well_formed _ sample_baseline_reachable). Defined.

(** What an applied event adds to the units resting in the book. *)
Definition units_delta (e : MarketEvent) (snap : BookSnapshot) : Z :=
  match ev_type e with
  | Add => units (ev_quantity e)
  | Modify => units (ev_quantity e) - resting_units (ev_order_id e) snap
  | Cancel => - resting_units (ev_order_id e) snap
  | Execute => - units (ev_quantity e)
  end%Z.

Lemma units_delta_spec e s : spec_wf s → units_delta e (spec_snapshot s) = unit_change e s.
Proof. intros Hs. unfold units_delta, unit_change. by rewrite resting_units_spec. Qed.

Lemma units_refine `{HL : OrderBookLaws B capacity rep} e b b' s snap snap' :
  rep b s → quantity_wf (ev_quantity e) → ob_apply e b = Ret (Applied, b') →
  ob_snapshot b = Ret snap → ob_snapshot b' = Ret snap' →
  snapshot_units snap' = (snapshot_units snap + units_delta e snap)%Z.
Proof.
  intros Hb Hq Ha Hs Hs'. pose proof (law_wf b s Hb) as Hwf.
  destruct (apply_rep _ _ _ _ _ Hq Hb Ha) as [Hr Hb']. pose proof (law_wf b' _ Hb') as Hwf'.
  rewrite (observes_snapshot _ _ (rep_observes _ _ Hb)) in Hs. injection Hs as <-.
  rewrite (observes_snapshot _ _ (rep_observes _ _ Hb')) in Hs'. injection Hs' as <-.
  by rewrite units_delta_spec, !snapshot_units_total, spec_unit_change.
Qed.

(** C10: units are conserved.  Counted over the whole snapshot, an applied add
    brings its quantity, an execution takes exactly the executed quantity, a
    cancel what its order had left, and a modify the difference; nothing else
    moves. *)
Theorem units_conserved e :
  quantity_wf (ev_quantity e) →
  (∀ b b' : Baseline, baseline_reachable b → LimitOrderBook.apply e b = Ret (Applied, b') →
     snapshot_units (LimitOrderBook.snapshot b')
     = (snapshot_units (LimitOrderBook.snapshot b) + units_delta e (LimitOrderBook.snapshot b))%Z) ∧
  (∀ m (b b' : Pooled) snap snap', is_u64 m → pooled_reachable m b →
     PooledLimitOrderBook.apply e b = Ret (Applied, b') →
     PooledLimitOrderBook.snapshot b = Ret snap → PooledLimitOrderBook.snapshot b' = Ret snap' →
     snapshot_units snap' = (snapshot_units snap + units_delta e snap)%Z).
Proof.
  intros Hq. split.
  - intros b b' (s & Hb & _)%baseline_reachable_rep Ha.
    exact (units_refine (HL:=LimitOrderBook_laws) e b b' s _ _ Hb Hq Ha eq_refl eq_refl).
  - intros m b b' snap snap' Hm Hr Ha Hs Hs'. destruct (pooled_reachable_rep _ _ Hm Hr) as (s & Hb & _).
    exact (units_refine (HL:=PooledLimitOrderBook_laws _) e b b' s snap snap' Hb Hq Ha Hs Hs').
Qed.

Lemma units_conserved_witness :
  let b := baseline_after sample_events in
  let e := event Execute 9 2 Sell 0 15 in
  snapshot_units (LimitOrderBook.snapshot b) = 33%Z ∧
  snapshot_units (LimitOrderBook.snapshot (baseline_after (sample_events ++ [e]))) = 18%Z.
Proof.
  intros b e. split; [vm_compute; reflexivity|].
  rewrite (proj1 (units_conserved e ltac:(by split)) b _ sample_baseline_reachable);
    vm_compute; reflexivity.
Defined.

Lemma stream_events `{HL : OrderBookLaws B capacity rep} b0 events rs b :
  rep b0 spec_empty → events_wf events → apply_all events b0 = Ret (rs, b) →
  ob_events_applied b = wrap64 (Z.of_nat (length (filter (λ r, r = Applied) rs))).
Proof.
  intros H0 Hev Ha. destruct (apply_all_refines events b0 spec_empty Hev H0) as (b' & Ha' & Hb').
  rewrite Ha' in Ha. injection Ha as <- <-.
  by rewrite (observes_events _ _ (rep_observes _ _ Hb')), spec_events_counted.
Qed.

(** [events_applied] counts the applied events of the stream, no rejected
    one, modulo 2^64. *)
Theorem events_applied_counts events :
  events_wf events →
  (∀ rs (b : Baseline), apply_all events new_baseline = Ret (rs, b) →
     LimitOrderBook.events_applied b = wrap64 (Z.of_nat (length (filter (λ r, r = Applied) rs)))) ∧
  (∀ m rs (b : Pooled), is_u64 m → apply_all events (new_pooled m) = Ret (rs, b) →
     PooledLimitOrderBook.events_applied b
     = wrap64 (Z.of_nat (length (filter (λ r, r = Applied) rs)))).
Proof.
  intros Hev. split.
  - intros rs b Ha. exact (stream_events (HL:=LimitOrderBook_laws) _ events rs b empty_book_represents Hev Ha).
  - intros m rs b Hm Ha.
    exact (stream_events (HL:=PooledLimitOrderBook_laws _) _ events rs b (make_book_represents _ Hm) Hev Ha).
Qed.

Lemma events_applied_counts_witness :
  LimitOrderBook.events_applied (baseline_after sample_events) = 6%Z.
Proof.
  rewrite (proj1 (events_applied_counts sample_events sample_events_wf)
    (spec_apply_all None sample_events spec_empty).1); vm_compute; reflexivity.
Defined.

(** [top_of_book] is the front of the snapshot and [depth] its first
    levels, each summarised by price, total and order count, on every
    reachable book of either kind. *)
Theorem depth_is_snapshot_prefix levels :
  (∀ b, baseline_reachable b →
     let snap := LimitOrderBook.snapshot b in
     LimitOrderBook.top_of_book b
     = MkTopOfBook (head (level_summary <$> snap_bids snap)) (head (level_summary <$> snap_asks snap)) ∧
     LimitOrderBook.depth levels b
     = MkBookDepth (take (Z.to_nat levels) (level_summary <$> snap_bids snap))
         (take (Z.to_nat levels) (level_summary <$> snap_asks snap))) ∧
  (∀ m b snap, is_u64 m → pooled_reachable m b → PooledLimitOrderBook.snapshot b = Ret snap →
     PooledLimitOrderBook.top_of_book b
     = MkTopOfBook (head (level_summary <$> snap_bids snap)) (head (level_summary <$> snap_asks snap)) ∧
     PooledLimitOrderBook.depth levels b
     = MkBookDepth (take (Z.to_nat levels) (level_summary <$> snap_bids snap))
         (take (Z.to_nat levels) (level_summary <$> snap_asks snap))).
Proof.
  split.
  - intros b (s & Hb & _)%baseline_reachable_rep. pose proof (rep_observes (HL:=LimitOrderBook_laws) b s Hb) as [Ht Hd Hs _ _ _ _].
    change (Ret (LimitOrderBook.snapshot b) = Ret (spec_snapshot s)) in Hs. simpl in Ht, Hd.
    assert (LimitOrderBook.snapshot b = spec_snapshot s) as -> by congruence. by rewrite Ht, Hd.
  - intros m b snap Hm Hr Hsnap. destruct (pooled_reachable_rep _ _ Hm Hr) as (s & Hb & _).
    pose proof (rep_observes (HL:=PooledLimitOrderBook_laws _) b s Hb) as [Ht Hd Hs _ _ _ _].
    simpl in Ht, Hd, Hs. rewrite Hs in Hsnap.
    assert (snap = spec_snapshot s) as -> by congruence. by rewrite Ht, Hd.
Qed.

Lemma depth_is_snapshot_prefix_witness :
  LimitOrderBook.depth 1 (baseline_after sample_events)
  = MkBookDepth [MkPriceLevelView (MkPrice 100) (MkQuantity 26) 2]
      [MkPriceLevelView (MkPrice 99) (MkQuantity 7) 1].
Proof.
  rewrite (proj2 (proj1 (depth_is_snapshot_prefix 1) _ sample_baseline_reachable)).
  vm_compute. reflexivity.
Defined.

(** ** The invariant checkers *)

Definition top_crossed (top : TopOfBook) : bool :=
  match tob_bid top, tob_ask top with
  | Some bid, Some ask => (ticks (plv_price ask) <? ticks (plv_price bid))%Z
  | _, _ => false
  end.

Lemma top_crossed_spec s : top_crossed (spec_top s) = true ↔ crossed s.
Proof.
  rewrite <-best_prices_crossed. unfold top_crossed, spec_top, spec_side, best_crossed. simpl.
  destruct (level_prices Buy _), (level_prices Sell _); done.
Qed.

(** C25: on a reachable book of either kind [validate_invariants] runs to its
    end and fails only for a crossed top of book that its options do not
    allow. *)
Theorem validate_detects_crossing opts :
  (∀ b, baseline_reachable b →
     LimitOrderBook.validate_invariants opts b
     = allow_crossed_book opts || negb (top_crossed (LimitOrderBook.top_of_book b))) ∧
  (∀ m b, is_u64 m → pooled_reachable m b →
     PooledLimitOrderBook.validate_invariants opts b
     = Ret (allow_crossed_book opts || negb (top_crossed (PooledLimitOrderBook.top_of_book b)))).
Proof.
  assert (∀ s, bool_decide (allow_crossed_book opts = true ∨ ¬ crossed s)
               = allow_crossed_book opts || negb (top_crossed (spec_top s))) as Hs.
  { intros s. pose proof (top_crossed_spec s) as Ht.
    case_bool_decide; destruct (allow_crossed_book opts), (top_crossed (spec_top s)); naive_solver. }
  split.
  - intros b (s & Hb & _)%baseline_reachable_rep. pose proof (rep_observes (HL:=LimitOrderBook_laws) b s Hb) as Ho.
    pose proof (observes_validate _ _ Ho opts) as Hv. simpl in Hv. injection Hv as ->.
    pose proof (observes_top _ _ Ho) as Ht. simpl in Ht. by rewrite Ht.
  - intros m b Hm Hr. destruct (pooled_reachable_rep _ _ Hm Hr) as (s & Hb & _).
    pose proof (rep_observes (HL:=PooledLimitOrderBook_laws _) b s Hb) as Ho.
    pose proof (observes_validate _ _ Ho opts) as Hv. simpl in Hv. rewrite Hv, Hs.
    pose proof (observes_top _ _ Ho) as Ht. simpl in Ht. by rewrite Ht.
Qed.

Lemma validate_detects_crossing_witness :
  LimitOrderBook.validate_invariants (MkInvariantOptions false) (baseline_after sample_events) = false ∧
  PooledLimitOrderBook.validate_invariants (MkInvariantOptions false) (pooled_after 2 sample_events)
  = Ret true.
Proof.
  split.
  - rewrite (proj1 (validate_detects_crossing _) _ sample_baseline_reachable). vm_compute. reflexivity.
  - rewrite (proj2 (validate_detects_crossing _) 2%Z _ ltac:(by split) sample_pooled_reachable).
    vm_compute. reflexivity.
Defined.

(** C13: the baseline checker is complete.  Of a book whose maps are sorted,
    whose list nodes are distinct and whose fields are in range (what the
    language itself guarantees), it accepts exactly the states that hold some
    list of live orders and, unless allowed, are not crossed: a wrong total, a
    dangling iterator, a stale or missing lookup entry or an empty level is
    always found. *)
Theorem validate_complete opts b :
  book_typed b →
  LimitOrderBook.validate_invariants opts b = true ↔
  (allow_crossed_book opts = true ∨ LimitOrderBook.crosses b = false) ∧
  ∃ s, BookRefinement.represents b s.
Proof.
  intros Ht. rewrite validate_invariants_consistent by apply Ht. apply and_iff_compat_l. split.
  - intros Hc. eexists. by apply consistent_represents.
  - intros (s & g & next & -> & Hg & Hn & Hwf). apply concrete_consistent; [by eapply concrete_ids|].
    destruct Hwf as [_ Hq _]. rewrite <-Hg, Forall_fmap in Hq. eapply Forall_impl; [done|].
    intros x Hx; simpl in Hx. lia.
Qed.

(** A book with a stale lookup entry: well typed, but of no list of orders. *)
Definition stale_book : Baseline :=
  LimitOrderBook.set_lookup
    {[1%Z := LimitOrderBook.MkOrderRecord Buy (MkPrice 5) (MkTimestamp 0) (MkQuantity 1) 0]} new_baseline.

Lemma validate_complete_witness :
  book_typed stale_book ∧ LimitOrderBook.validate_invariants (MkInvariantOptions true) stale_book = false ∧
  ¬ ((allow_crossed_book (MkInvariantOptions true) = true ∨ LimitOrderBook.crosses stale_book = false) ∧
     ∃ s, BookRefinement.represents stale_book s).
Proof.
  assert (book_typed stale_book) as Ht.
  { split; [split; constructor|split; constructor|constructor|by split]. }
  split; [exact Ht|]. split; [vm_compute; reflexivity|].
  rewrite <-(validate_complete (MkInvariantOptions true) stale_book Ht). vm_compute. done.
Defined.

(** ** The node pool *)

(** C12: the pool neither leaks nor doubles a node.  On every reachable pooled
    book the indices the live orders hold and the indices on the free list
    are together exactly the indices of the pool, each once. *)
Theorem pool_conserves_nodes m b :
  is_u64 m → pooled_reachable m b →
  (PooledLimitOrderBook.r_node_index <$> (map_to_list (PooledLimitOrderBook.order_lookup_ b)).*2)
    ++ PooledLimitOrderBook.free_indices_ b ≡ₚ seqZ 0 m.
Proof.
  intros Hm Hr. destruct (pooled_reachable_rep _ _ Hm Hr) as (s & Hb & Hwf).
  destruct Hb as (g & nodes & free & -> & Hg & Hl & Hok & _). destruct Hm as [Hm _].
  pose proof (pool_indices _ _ _ Hok) as Hi. rewrite Hl, Z2Nat.id in Hi by done.
  rewrite <-Hi. simpl. apply Permutation_app_tail. unfold lookup_of.
  rewrite map_to_list_to_map.
  - by rewrite <-!list_fmap_compose.
  - rewrite lookup_of_keys. apply value_ids_NoDup. unfold ids. rewrite Hg. apply Hwf.
Qed.

Lemma pool_conserves_nodes_witness :
  (PooledLimitOrderBook.r_node_index
     <$> (map_to_list (PooledLimitOrderBook.order_lookup_ (pooled_after 2 sample_events))).*2)
    ++ PooledLimitOrderBook.free_indices_ (pooled_after 2 sample_events) ≡ₚ [0; 1]%Z.
Proof. exact (pool_conserves_nodes 2 _ ltac:(by split) sample_pooled_reachable). Defined.

Lemma clear_refines `{HL : OrderBookLaws B capacity rep} b b0 s events :
  rep b s → rep b0 spec_empty → events_wf events →
  ∃ rs b1 b2, apply_all events (ob_clear b) = Ret (rs, b1) ∧ apply_all events b0 = Ret (rs, b2) ∧
              indistinguishable b1 b2.
Proof.
  intros Hb H0 Hev.
  destruct (apply_all_refines events (ob_clear b) spec_empty Hev (law_clear b s Hb)) as (b1 & Ha1 & Hb1).
  destruct (apply_all_refines events b0 spec_empty Hev H0) as (b2 & Ha2 & Hb2).
  exists (spec_apply_all capacity events spec_empty).1, b1, b2. split_and!; [done..|].
  eapply observes_indistinguishable; by eapply rep_observes.
Qed.

(** C26: [clear] forgets everything.  Whatever stream follows it gets the
    results it would get from a newly constructed book (of the same capacity,
    for the pool) and leaves a book no observer can tell from that one. *)
Theorem clear_is_fresh events :
  events_wf events →
  (∀ b, baseline_reachable b →
     ∃ rs b1 b2, apply_all events (LimitOrderBook.clear b) = Ret (rs, b1) ∧
       apply_all events new_baseline = Ret (rs, b2) ∧ indistinguishable b1 b2) ∧
  (∀ m b, is_u64 m → pooled_reachable m b →
     ∃ rs b1 b2, apply_all events (PooledLimitOrderBook.clear b) = Ret (rs, b1) ∧
       apply_all events (new_pooled m) = Ret (rs, b2) ∧ indistinguishable b1 b2).
Proof.
  intros Hev. split.
  - intros b (s & Hb & _)%baseline_reachable_rep.
    exact (clear_refines (HL:=LimitOrderBook_laws) b _ s events Hb empty_book_represents Hev).
  - intros m b Hm Hr. destruct (pooled_reachable_rep _ _ Hm Hr) as (s & Hb & _).
    exact (clear_refines (HL:=PooledLimitOrderBook_laws _) b _ s events Hb (make_book_represents _ Hm) Hev).
Qed.

Lemma clear_is_fresh_witness :
  ∃ rs b1 b2,
    apply_all sample_events (PooledLimitOrderBook.clear (pooled_after 2 sample_events)) = Ret (rs, b1) ∧
    apply_all sample_events (new_pooled 2) = Ret (rs, b2) ∧ indistinguishable b1 b2.
Proof.
  exact (proj2 (clear_is_fresh sample_events sample_events_wf) 2%Z _ ltac:(by split) sample_pooled_reachable).
Defined.

(** ** The book as a function of its history *)

(** C23: which orders rest, and with how much.  After any stream of events on a
    new book of either kind, the snapshot shows an order on a side at a price
    exactly if an applied Add of the stream had this side, price, id and time
    stamp, and the applied events with its id after that have left some of its
    quantity: an execution takes its quantity away, a modify sets it, a cancel
    leaves nothing.  What rests is what is left, never more than was added. *)
Theorem resting_orders_exact max_live_orders events :
  is_u64 max_live_orders → events_wf events →
  (∃ rs b snap, apply_all events new_baseline = Ret (rs, b) ∧ ob_snapshot b = Ret snap ∧
     shows_history (zip events rs) snap) ∧
  (∃ rs b snap, apply_all events (new_pooled max_live_orders) = Ret (rs, b) ∧ ob_snapshot b = Ret snap ∧
     shows_history (zip events rs) snap).
Proof.
  intros Hm Hev. split.
  - exact (stream_shows_history (HL:=LimitOrderBook_laws) events _ Hev empty_book_represents).
  - exact (stream_shows_history (HL:=PooledLimitOrderBook_laws _) events _ Hev (make_book_represents _ Hm)).
Qed.

Lemma resting_orders_exact_witness :
  ∃ rs b snap, apply_all sample_events (new_pooled 2) = Ret (rs, b) ∧ ob_snapshot b = Ret snap ∧
    shown snap Buy (MkPrice 100) (MkOrderView (MkOrderId 1) (MkTimestamp 1) (MkQuantity 6)).
Proof.
  assert (is_u64 2) as Hm by by split.
  destruct (proj2 (resting_orders_exact 2 sample_events Hm sample_events_wf)) as (rs & b & snap & Ha & Hs & Hh).
  exists rs, b, snap. split; [exact Ha|]. split; [exact Hs|]. apply Hh.
  assert (match apply_all sample_events (new_pooled 2) with Ret r => r.1 | UB => [] end
          = [Applied; Applied; CapacityExceeded; Applied; DuplicateOrderId; CapacityExceeded; MissingOrderId])
    as Hr by (vm_compute; reflexivity).
  rewrite Ha in Hr. cbn [fst] in Hr. rewrite Hr. exists 0%nat, (event Add 1 1 Buy 100 10). cbv zeta.
  split_and!; [reflexivity..|vm_compute; reflexivity|vm_compute; done].
Defined.
