(* ===== verification/SpscRingBuffer.v ===== *)
(** * The single-producer / single-consumer ring buffer

    [queue/spsc_ring_buffer.hpp] run by one thread at a time: the constructor
    with its power-of-two check, [try_push], [try_pop] and the size queries.
    Sequences are 64-bit counters that wrap; slots are [sequence & mask].  The
    buffer implements a bounded FIFO list, also across the wrap-around.
    [SpscConcurrent] runs the same operations instruction by instruction. *)
From S2P Require Import Prelude CoreTypes.
#[local] Open Scope Z_scope.

Module SpscRingBuffer.

Record SpscRingBuffer : Type := MkRing {
  capacity_ : Z;
  mask_ : Z;
  buffer_ : list MarketEvent;
  write_sequence_ : Z;
  read_sequence_ : Z
}.

Definition is_power_of_two (value : Z) : bool := Z.land value (sub64 value 1) =? 0.

(** The constructor; [None] is the [std::invalid_argument] it throws. *)
Definition make_ring (capacity_power_of_two : Z) : option SpscRingBuffer :=
  let q := MkRing capacity_power_of_two (sub64 capacity_power_of_two 1)
             (replicate (Z.to_nat capacity_power_of_two) default_event) 0 0 in
  if (capacity_power_of_two =? 0) || negb (is_power_of_two capacity_power_of_two)
  then None else Some q.

Definition slot (q : SpscRingBuffer) (sequence : Z) : Z := Z.land sequence (mask_ q).

Definition try_push (event : MarketEvent) (q : SpscRingBuffer) : Exec (bool * SpscRingBuffer) :=
  let write := write_sequence_ q in
  let read := read_sequence_ q in
  if capacity_ q <=? sub64 write read then Ret (false, q)
  else
    buffer ← vec_set (buffer_ q) (slot q write) event;
    Ret (true, MkRing (capacity_ q) (mask_ q) buffer (add64 write 1) read).

(** [None]: the pop returned [false] and left [out] alone. *)
Definition try_pop (q : SpscRingBuffer) : Exec (option MarketEvent * SpscRingBuffer) :=
  let read := read_sequence_ q in
  let write := write_sequence_ q in
  if write =? read then Ret (None, q)
  else
    out ← vec_at (buffer_ q) (slot q read);
    Ret (Some out, MkRing (capacity_ q) (mask_ q) (buffer_ q) write (add64 read 1)).

Definition capacity (q : SpscRingBuffer) : Z := capacity_ q.
Definition approximate_size (q : SpscRingBuffer) : Z :=
  sub64 (write_sequence_ q) (read_sequence_ q).
Definition empty (q : SpscRingBuffer) : bool := approximate_size q =? 0.
Definition full (q : SpscRingBuffer) : bool := capacity_ q <=? approximate_size q.

End SpscRingBuffer.
Import SpscRingBuffer.

(** ** Masks and wrap-around *)

(** A capacity the constructor accepts. *)
Definition ring_capacity (cap : Z) : Prop := ∃ k, 0 ≤ k < 64 ∧ cap = 2 ^ k.

Lemma ring_capacity_bounds cap : ring_capacity cap → 1 ≤ cap ≤ two63.
Proof.
  intros (k & Hk & ->). split; [pose proof (Z.pow_pos_nonneg 2 k); lia|].
  change two63 with (2 ^ 63). apply Z.pow_le_mono_r; lia.
Qed.

Lemma ring_capacity_wrap cap z : ring_capacity cap → wrap64 z mod cap = z mod cap.
Proof.
  intros (k & Hk & ->). apply Z.mod_mod_divide.
  exists (2 ^ (64 - k)). rewrite <-Z.pow_add_r by lia. by replace (64 - k + k) with 64 by lia.
Qed.

Lemma slot_mod cap z : ring_capacity cap → Z.land z (sub64 cap 1) = z mod cap.
Proof.
  intros Hc. pose proof (ring_capacity_bounds _ Hc). rewrite sub64_small by (unfold is_u64, two63, two64 in *; lia).
  destruct Hc as (k & Hk & ->). rewrite <-Z.land_ones by lia. by rewrite Z.ones_equiv, <-Z.sub_1_r.
Qed.

(** [value & (value - 1)] is zero exactly on the powers of two. *)
Lemma is_power_of_two_spec value :
  is_u64 value → value ≠ 0 → is_power_of_two value = true ↔ ring_capacity value.
Proof.
  intros [H0 Hv] Hne. unfold is_power_of_two. rewrite sub64_small by (unfold is_u64; lia).
  rewrite Z.eqb_eq. split.
  - intros Hl. exists (Z.log2 value). pose proof (Z.log2_spec value ltac:(lia)) as [Hlo Hhi].
    assert (Z.log2 value < 64) as Hk by (apply Z.log2_lt_pow2; [lia|done]).
    pose proof (Z.log2_nonneg value). split; [lia|].
    destruct (decide (value = 2 ^ Z.log2 value)) as [|Hn]; [done|exfalso].
    assert (Z.testbit (Z.land value (value - 1)) (Z.log2 value) = true) as Hb; [|by rewrite Hl, Z.bits_0 in Hb].
    rewrite Z.land_spec, Z.bit_log2 by lia. simpl.
    assert (Z.log2 (value - 1) = Z.log2 value) as <-.
    { apply Z.log2_unique; [lia|]. replace (Z.succ (Z.log2 value)) with (Z.log2 value + 1) in * by lia. lia. }
    apply Z.bit_log2. pose proof (Z.pow_pos_nonneg 2 (Z.log2 value)). lia.
  - intros (k & Hk & ->). rewrite Z.sub_1_r, <-Z.ones_equiv, Z.land_ones by lia.
    apply Z_mod_same_full.
Qed.

(** ** The bounded FIFO the buffer implements *)

Inductive QueueOp : Type :=
| Push (event : MarketEvent)
| Pop.

Inductive QueueResult : Type :=
| Pushed (ok : bool)
| Popped (out : option MarketEvent).

Definition fifo_step (cap : Z) (op : QueueOp) (l : list MarketEvent)
    : QueueResult * list MarketEvent :=
  match op with
  | Push e => if bool_decide (cap ≤ Z.of_nat (length l)) then (Pushed false, l)
              else (Pushed true, l ++ [e])
  | Pop => match l with
           | [] => (Popped None, [])
           | e :: l' => (Popped (Some e), l')
           end
  end.

Definition ring_step (op : QueueOp) (q : SpscRingBuffer) : Exec (QueueResult * SpscRingBuffer) :=
  match op with
  | Push e => r ← try_push e q; Ret (Pushed r.1, r.2)
  | Pop => r ← try_pop q; Ret (Popped r.1, r.2)
  end.

Fixpoint fifo_run (cap : Z) (ops : list QueueOp) (l : list MarketEvent)
    : list QueueResult * list MarketEvent :=
  match ops with
  | [] => ([], l)
  | op :: ops' =>
      let r := fifo_step cap op l in
      let rs := fifo_run cap ops' r.2 in
      (r.1 :: rs.1, rs.2)
  end.

Fixpoint ring_run (ops : list QueueOp) (q : SpscRingBuffer)
    : Exec (list QueueResult * SpscRingBuffer) :=
  match ops with
  | [] => Ret ([], q)
  | op :: ops' =>
      r ← ring_step op q;
      rs ← ring_run ops' r.2;
      Ret (r.1 :: rs.1, rs.2)
  end.

(** [q] holds the events [l], oldest first. *)
Record ring_holds (q : SpscRingBuffer) (l : list MarketEvent) : Prop := {
  holds_capacity : ring_capacity (capacity_ q);
  holds_mask : mask_ q = sub64 (capacity_ q) 1;
  holds_buffer : Z.of_nat (length (buffer_ q)) = capacity_ q;
  holds_read : is_u64 (read_sequence_ q);
  holds_write : write_sequence_ q = wrap64 (read_sequence_ q + Z.of_nat (length l));
  holds_length : Z.of_nat (length l) ≤ capacity_ q;
  holds_events i e : l !! i = Some e →
    buffer_ q !! Z.to_nat ((read_sequence_ q + Z.of_nat i) mod capacity_ q) = Some e
}.

Section refinement.
Context (q : SpscRingBuffer) (l : list MarketEvent).
Hypothesis (Hq : ring_holds q l).

Let cap := capacity_ q.
Let read := read_sequence_ q.

Lemma ring_cap_bounds : 1 ≤ cap ≤ two63.
Proof using Hq. apply ring_capacity_bounds, Hq. Qed.

Lemma ring_slot z : slot q (wrap64 z) = z mod cap.
Proof using Hq.
  unfold slot. rewrite (holds_mask _ _ Hq), (slot_mod (capacity_ q)) by apply Hq.
  apply ring_capacity_wrap, Hq.
Qed.

Lemma ring_size : approximate_size q = Z.of_nat (length l).
Proof using Hq.
  unfold approximate_size, sub64. rewrite (holds_write _ _ Hq), wrap64_sub_l.
  pose proof (holds_length _ _ Hq). pose proof ring_cap_bounds. subst cap.
  rewrite wrap64_small; [lia|]. unfold is_u64, two63, two64 in *. lia.
Qed.

Lemma ring_index z : 0 ≤ z mod cap < Z.of_nat (length (buffer_ q)).
Proof using Hq.
  rewrite (holds_buffer _ _ Hq). apply Z.mod_pos_bound. pose proof ring_cap_bounds. subst cap. lia.
Qed.

Lemma try_push_refines e :
  ∃ q', try_push e q = Ret (bool_decide (Z.of_nat (length l) < cap), q') ∧
        ring_holds q' (if decide (Z.of_nat (length l) < cap) then l ++ [e] else l) ∧
        capacity_ q' = cap.
Proof using Hq.
  unfold try_push. fold (approximate_size q). rewrite ring_size. fold cap.
  destruct (Z.leb_spec cap (Z.of_nat (length l))) as [Hf|Hf].
  { exists q. rewrite bool_decide_false, decide_False by lia. done. }
  rewrite bool_decide_true, decide_True by lia.
  rewrite (holds_write _ _ Hq), ring_slot. unfold vec_set.
  rewrite bool_decide_true by apply ring_index. eexists. split; [done|]. split; [|done].
  pose proof ring_cap_bounds. split; simpl; try apply Hq.
  - rewrite length_insert. apply Hq.
  - rewrite length_app. simpl. unfold add64. rewrite wrap64_add_l. f_equal. lia.
  - rewrite length_app. simpl. subst cap. lia.
  - intros i x Hx. destruct (decide (i = length l)) as [->|Hi].
    + rewrite list_lookup_middle in Hx by done. injection Hx as <-. fold cap.
      apply list_lookup_insert_eq. pose proof (ring_index (read + Z.of_nat (length l))). fold read. lia.
    + rewrite lookup_app_l in Hx by (apply lookup_lt_Some in Hx; rewrite length_app in Hx; simpl in Hx; lia).
      pose proof (lookup_lt_Some _ _ _ Hx) as Hlt. rewrite list_lookup_insert_ne; [by apply Hq|].
      fold cap read. intros Heq.
      pose proof (ring_index (read + Z.of_nat (length l))). pose proof (ring_index (read + Z.of_nat i)).
      apply Z2Nat.inj in Heq; [symmetry in Heq|lia..].
      apply (mod_window_inj cap) in Heq; lia.
Qed.

Lemma try_pop_refines :
  ∃ q', try_pop q = Ret (head l, q') ∧ ring_holds q' (tail l) ∧ capacity_ q' = cap.
Proof using Hq.
  pose proof ring_size as Hs. unfold approximate_size in Hs. unfold try_pop.
  pose proof ring_slot as Hsl. pose proof ring_index as Hi. pose proof ring_cap_bounds as Hb.
  destruct l as [|e l'] eqn:Hl.
  { rewrite (holds_write _ _ Hq), Z.add_0_r, wrap64_small, Z.eqb_refl by apply Hq. by exists q. }
  destruct (Z.eqb_spec (write_sequence_ q) (read_sequence_ q)) as [Heq|Hne].
  { rewrite Heq in Hs. unfold sub64 in Hs. by rewrite Z.sub_diag in Hs. }
  replace (slot q (read_sequence_ q)) with ((read + Z.of_nat 0) mod cap)
    by (rewrite Z.add_0_r, <-Hsl, wrap64_small; [done|apply Hq]).
  rewrite (vec_at_lookup _ _ e); [|apply Hi|by apply (holds_events _ _ Hq 0)].
  eexists. split; [done|]. split; [|done]. split; simpl; try apply Hq; [apply wrap64_range| | |].
  - rewrite (holds_write _ _ Hq). unfold add64. rewrite wrap64_add_l. f_equal. simpl. lia.
  - pose proof (holds_length _ _ Hq). simpl in *. lia.
  - intros i x Hx. rewrite <-(holds_events _ _ Hq (S i) x Hx). do 2 f_equal.
    pose proof (ring_capacity_wrap (capacity_ q) (read_sequence_ q + 1) (holds_capacity _ _ Hq)) as Hw.
    rewrite <-Z.add_mod_idemp_l by (subst cap; lia). unfold add64. rewrite Hw.
    rewrite Z.add_mod_idemp_l by (subst cap; lia). f_equal. lia.
Qed.
End refinement.

Lemma ring_step_refines op q l :
  ring_holds q l →
  ∃ q', ring_step op q = Ret ((fifo_step (capacity_ q) op l).1, q') ∧
        ring_holds q' (fifo_step (capacity_ q) op l).2 ∧ capacity_ q' = capacity_ q.
Proof.
  intros Hq. destruct op as [e|]; simpl.
  - destruct (try_push_refines q l Hq e) as (q' & -> & Hq' & Hc). exists q'. simpl.
    repeat case_bool_decide; try lia; case_decide; by (done || lia).
  - destruct (try_pop_refines q l Hq) as (q' & -> & Hq' & Hc). exists q'. by destruct l.
Qed.

Lemma ring_run_refines ops q l :
  ring_holds q l →
  ∃ q', ring_run ops q = Ret ((fifo_run (capacity_ q) ops l).1, q') ∧
        ring_holds q' (fifo_run (capacity_ q) ops l).2 ∧ capacity_ q' = capacity_ q.
Proof.
  revert q l. induction ops as [|op ops IH]; intros q l Hq; simpl; [eauto|].
  destruct (ring_step_refines op q l Hq) as (q1 & -> & Hq1 & Hc). simpl.
  destruct (IH q1 _ Hq1) as (q2 & -> & Hq2 & Hc2). simpl. rewrite Hc in *. eauto.
Qed.

Lemma make_ring_holds cap q : is_u64 cap → make_ring cap = Some q → ring_holds q [] ∧ capacity_ q = cap.
Proof.
  intros Hc. unfold make_ring. destruct (Z.eqb_spec cap 0) as [|Hne]; [done|]. simpl.
  destruct (is_power_of_two cap) eqn:Hp; [|done]. simpl. intros [= <-].
  apply is_power_of_two_spec in Hp; [|done..]. pose proof (ring_capacity_bounds _ Hp).
  split; [|done]. split; simpl; try done.
  - rewrite length_replicate. lia.
  - lia.
Qed.
