(* ===== verification/SpscConcurrent.v ===== *)
(** * The ring buffer shared by its producer and its consumer

    [try_push] and [try_pop] of [queue/spsc_ring_buffer.hpp] cut at their
    shared-memory accesses and interleaved, under release/acquire: an atomic
    is the list of the values stored to it (its modification order), a
    relaxed load of the thread's own sequence returns the last one, an acquire
    load returns any value not older than what the thread already saw.  A slot
    access is stamped with the index of its thread's next release store; it
    happens before the other thread's access once that thread has acquired
    that store or a later one.  An access that does not happen after every
    conflicting one is a data race, so undefined: [UB]. *)
From S2P Require Import Prelude CoreTypes SpscRingBuffer.
#[local] Open Scope Z_scope.

Module SpscConcurrent.

(** Where a thread stands in [try_push] / [try_pop], with its locals. *)
Inductive ProducerPc : Type :=
| PIdle
| PLoad (event : MarketEvent) (write : Z)
| PSlot (event : MarketEvent) (write : Z)
| PPublish (event : MarketEvent) (write : Z).

Inductive ConsumerPc : Type :=
| CIdle
| CLoad (read : Z)
| CSlot (read : Z)
| CPublish (read : Z).

Record Conc : Type := MkConc {
  buffer : list MarketEvent;
  write_history : list Z;
  read_history : list Z;
  producer : ProducerPc;
  producer_view : nat;
  consumer : ConsumerPc;
  consumer_view : nat;
  slot_writes : list (Z * nat);
  slot_reads : list (Z * nat);
  pushed : list MarketEvent;
  popped : list MarketEvent
}.

(** One instruction; [i] is the store an acquire load reads from. *)
Inductive Action : Type :=
| PushCall (event : MarketEvent)
| PushAcquire (i : nat)
| PushSlot
| PushRelease
| PopCall
| PopAcquire (i : nat)
| PopSlot
| PopRelease.

Definition relaxed_own (history : list Z) : Z := default 0 (last history).

Definition acquire (view i : nat) (history : list Z) : option Z :=
  if decide (view ≤ i)%nat then history !! i else None.

(** An earlier access of the other thread to [slot] that it has not
    synchronised with. *)
Definition races (accesses : list (Z * nat)) (slot : Z) (view : nat) : bool :=
  existsb (λ a, (a.1 =? slot) && (view <? a.2)%nat) accesses.

Section step.
Context (cap : Z).

Definition slot_of (sequence : Z) : Z := Z.land sequence (sub64 cap 1).

Definition initial : Conc :=
  MkConc (replicate (Z.to_nat cap) default_event) [0] [0] PIdle 0 CIdle 0 [] [] [] [].

Definition set_producer (pc : ProducerPc) (view : nat) (s : Conc) : Conc :=
  MkConc (buffer s) (write_history s) (read_history s) pc view (consumer s) (consumer_view s)
    (slot_writes s) (slot_reads s) (pushed s) (popped s).

Definition set_consumer (pc : ConsumerPc) (view : nat) (s : Conc) : Conc :=
  MkConc (buffer s) (write_history s) (read_history s) (producer s) (producer_view s) pc view
    (slot_writes s) (slot_reads s) (pushed s) (popped s).

(** [None]: the thread is not at that instruction, or the load may not read
    from that store. *)
Definition step (a : Action) (s : Conc) : option (Exec Conc) :=
  match a with
  | PushCall event =>
      match producer s with
      | PIdle => Some (Ret (set_producer (PLoad event (relaxed_own (write_history s)))
                              (producer_view s) s))
      | _ => None
      end
  | PushAcquire i =>
      match producer s, acquire (producer_view s) i (read_history s) with
      | PLoad event write, Some read =>
          Some (Ret (set_producer (if cap <=? sub64 write read then PIdle else PSlot event write) i s))
      | _, _ => None
      end
  | PushSlot =>
      match producer s with
      | PSlot event write =>
          Some (if races (slot_reads s) (slot_of write) (producer_view s) then UB
                else buffer' ← vec_set (buffer s) (slot_of write) event;
                     Ret (MkConc buffer' (write_history s) (read_history s) (PPublish event write)
                            (producer_view s) (consumer s) (consumer_view s)
                            (slot_writes s ++ [(slot_of write, length (write_history s))])
                            (slot_reads s) (pushed s) (popped s)))
      | _ => None
      end
  | PushRelease =>
      match producer s with
      | PPublish event write =>
          Some (Ret (MkConc (buffer s) (write_history s ++ [add64 write 1]) (read_history s) PIdle
                       (producer_view s) (consumer s) (consumer_view s)
                       (slot_writes s) (slot_reads s) (pushed s ++ [event]) (popped s)))
      | _ => None
      end
  | PopCall =>
      match consumer s with
      | CIdle => Some (Ret (set_consumer (CLoad (relaxed_own (read_history s))) (consumer_view s) s))
      | _ => None
      end
  | PopAcquire i =>
      match consumer s, acquire (consumer_view s) i (write_history s) with
      | CLoad read, Some write =>
          Some (Ret (set_consumer (if write =? read then CIdle else CSlot read) i s))
      | _, _ => None
      end
  | PopSlot =>
      match consumer s with
      | CSlot read =>
          Some (if races (slot_writes s) (slot_of read) (consumer_view s) then UB
                else out ← vec_at (buffer s) (slot_of read);
                     Ret (MkConc (buffer s) (write_history s) (read_history s) (producer s)
                            (producer_view s) (CPublish read) (consumer_view s) (slot_writes s)
                            (slot_reads s ++ [(slot_of read, length (read_history s))])
                            (pushed s) (popped s ++ [out])))
      | _ => None
      end
  | PopRelease =>
      match consumer s with
      | CPublish read =>
          Some (Ret (MkConc (buffer s) (write_history s) (read_history s ++ [add64 read 1])
                       (producer s) (producer_view s) CIdle (consumer_view s)
                       (slot_writes s) (slot_reads s) (pushed s) (popped s)))
      | _ => None
      end
  end.

Inductive reachable : Conc → Prop :=
| reachable_initial : reachable initial
| reachable_step a s s' : reachable s → step a s = Some (Ret s') → reachable s'.

(** A run of the two threads, for concrete interleavings. *)
Fixpoint run (actions : list Action) (s : Conc) : option (Exec Conc) :=
  match actions with
  | [] => Some (Ret s)
  | a :: actions' =>
      match step a s with
      | Some (Ret s') => run actions' s'
      | r => r
      end
  end.

(** [approximate_size]: two acquire loads, of write store [i], then of read
    store [j]. *)
Definition observed_size (s : Conc) (i j : nat) : option Z :=
  write ← write_history s !! i; read ← read_history s !! j; Some (sub64 write read).

End step.
End SpscConcurrent.
Import SpscConcurrent.

(** ** The invariant *)

(** The values a sequence counter takes, oldest first. *)
Definition counter_history (n : nat) : list Z := (λ i, wrap64 (Z.of_nat i)) <$> seq 0 (S n).

Lemma counter_history_lookup n i w :
  counter_history n !! i = Some w ↔ w = wrap64 (Z.of_nat i) ∧ (i ≤ n)%nat.
Proof.
  unfold counter_history. rewrite list_lookup_fmap_Some. setoid_rewrite lookup_seq.
  split; [intros (? & -> & -> & ?); simpl; lia|]. intros [-> ?]. exists i. simpl. lia.
Qed.

Lemma counter_history_length n : length (counter_history n) = S n.
Proof. unfold counter_history. by rewrite length_fmap, length_seq. Qed.

Lemma counter_history_snoc n :
  counter_history n ++ [add64 (wrap64 (Z.of_nat n)) 1] = counter_history (S n).
Proof.
  unfold counter_history. rewrite (seq_S (S n)), fmap_app. f_equal. simpl.
  unfold add64. rewrite wrap64_add_l. do 2 f_equal. lia.
Qed.

Lemma counter_history_last n : relaxed_own (counter_history n) = wrap64 (Z.of_nat n).
Proof.
  unfold relaxed_own. rewrite last_lookup, counter_history_length. simpl pred.
  destruct (counter_history n !! n) as [w|] eqn:E.
  - by apply counter_history_lookup in E as [-> _].
  - apply lookup_ge_None in E. rewrite counter_history_length in E. lia.
Qed.

Lemma acquire_counter view i n w :
  acquire view i (counter_history n) = Some w ↔ w = wrap64 (Z.of_nat i) ∧ (view ≤ i ≤ n)%nat.
Proof.
  unfold acquire. case_decide; [rewrite counter_history_lookup|]; split; intros; try done; try naive_solver lia.
Qed.

(** How far apart two counters are survives their wrap-around. *)
Lemma counter_distance a b cap :
  ring_capacity cap → (b ≤ a)%nat → Z.of_nat a - Z.of_nat b ≤ cap →
  sub64 (wrap64 (Z.of_nat a)) (wrap64 (Z.of_nat b)) = Z.of_nat a - Z.of_nat b.
Proof.
  intros Hc Hab Hle. pose proof (ring_capacity_bounds _ Hc). unfold sub64, wrap64.
  rewrite <-Zminus_mod. apply Z.mod_small. unfold two63, two64 in *. lia.
Qed.

Lemma counter_equal a b cap :
  ring_capacity cap → (b ≤ a)%nat → Z.of_nat a - Z.of_nat b ≤ cap →
  wrap64 (Z.of_nat a) = wrap64 (Z.of_nat b) ↔ a = b.
Proof.
  intros Hc Hab Hle. split; [|by intros ->]. intros Heq.
  pose proof (counter_distance _ _ _ Hc Hab Hle) as Hd. rewrite Heq in Hd.
  unfold sub64 in Hd. rewrite Z.sub_diag in Hd. change (wrap64 0) with 0 in Hd. lia.
Qed.

Definition publishing (s : Conc) : nat := match producer s with PPublish _ _ => 1 | _ => 0 end.
Definition taking (s : Conc) : nat := match consumer s with CPublish _ => 1 | _ => 0 end.

(** The number of events whose slot the consumer has given back. *)
Definition consumed (s : Conc) : nat := (length (popped s) - taking s)%nat.

Definition producer_ok (cap : Z) (s : Conc) : Prop :=
  match producer s with
  | PIdle => True
  | PLoad _ write => write = wrap64 (Z.of_nat (length (pushed s)))
  | PSlot _ write | PPublish _ write =>
      write = wrap64 (Z.of_nat (length (pushed s))) ∧
      Z.of_nat (length (pushed s)) - Z.of_nat (producer_view s) < cap
  end.

Definition consumer_ok (s : Conc) : Prop :=
  match consumer s with
  | CIdle => True
  | CLoad read => read = wrap64 (Z.of_nat (consumed s))
  | CSlot read | CPublish read =>
      read = wrap64 (Z.of_nat (consumed s)) ∧ (consumed s < consumer_view s)%nat
  end.

(** The [n]-th access of a thread touches slot [n mod cap] just before the
    thread's store number [n + 1]. *)
Definition stamped (cap : Z) (bound : nat) (a : Z * nat) : Prop :=
  ∃ n, a = (Z.of_nat n mod cap, S n) ∧ (n < bound)%nat.

Record inv (cap : Z) (s : Conc) : Prop := {
  inv_capacity : ring_capacity cap;
  inv_buffer : Z.of_nat (length (buffer s)) = cap;
  inv_write : write_history s = counter_history (length (pushed s));
  inv_taking : (taking s ≤ length (popped s))%nat;
  inv_read : read_history s = counter_history (consumed s);
  inv_views : (producer_view s ≤ consumed s ≤ consumer_view s)%nat ∧
              (consumer_view s ≤ length (pushed s))%nat;
  inv_room : Z.of_nat (length (pushed s)) - Z.of_nat (producer_view s) ≤ cap;
  inv_producer : producer_ok cap s;
  inv_consumer : consumer_ok s;
  inv_slots i e : (consumed s ≤ i)%nat → pushed s !! i = Some e →
    buffer s !! Z.to_nat (Z.of_nat i mod cap) = Some e;
  inv_written e w : producer s = PPublish e w →
    buffer s !! Z.to_nat (Z.of_nat (length (pushed s)) mod cap) = Some e;
  inv_popped : popped s `prefix_of` pushed s;
  inv_writes : Forall (stamped cap (length (pushed s) + publishing s)) (slot_writes s);
  inv_reads : Forall (stamped cap (length (popped s))) (slot_reads s)
}.

Lemma stamped_snoc cap bound l :
  Forall (stamped cap bound) l →
  Forall (stamped cap (S bound)) (l ++ [(Z.of_nat bound mod cap, S bound)]).
Proof.
  intros Hl. apply Forall_app. split.
  - eapply Forall_impl; [done|]. intros a (n & -> & Hn). exists n. split; [done|lia].
  - constructor; [|done]. exists bound. split; [done|lia].
Qed.

(** Accesses further than a lap away, or already acquired, do not race. *)
Lemma races_stamped cap n bound view l :
  0 < cap → Forall (stamped cap bound) l → (bound ≤ n + Z.to_nat cap)%nat →
  (n < view)%nat → races l (Z.of_nat n mod cap) view = false.
Proof.
  intros Hc Hl Hb Hv. unfold races. apply not_true_iff_false. rewrite existsb_exists.
  intros (a & Ha & [Hs%Z.eqb_eq Hn%Nat.ltb_lt]%andb_true_iff).
  rewrite Forall_forall in Hl. destruct (Hl a) as (m & -> & Hm); [by apply list_elem_of_In|].
  simpl in *. destruct (decide (m ≤ n)%nat) as [|Hmn]; [lia|].
  symmetry in Hs. apply (mod_window_inj cap) in Hs; lia.
Qed.

Lemma races_stamped_lap cap n bound view l :
  0 < cap → Forall (stamped cap bound) l → (bound ≤ n)%nat →
  Z.of_nat n - Z.of_nat view < cap → races l (Z.of_nat n mod cap) view = false.
Proof.
  intros Hc Hl Hb Hv. unfold races. apply not_true_iff_false. rewrite existsb_exists.
  intros (a & Ha & [Hs%Z.eqb_eq Hn%Nat.ltb_lt]%andb_true_iff).
  rewrite Forall_forall in Hl. destruct (Hl a) as (m & -> & Hm); [by apply list_elem_of_In|].
  simpl in *. apply (mod_window_inj cap) in Hs; lia.
Qed.

Lemma slot_of_counter cap n :
  ring_capacity cap → slot_of cap (wrap64 (Z.of_nat n)) = Z.of_nat n mod cap.
Proof. intros Hc. unfold slot_of. by rewrite slot_mod, ring_capacity_wrap. Qed.

Section invariant.
Context (cap : Z) (s : Conc).
Hypothesis (Hs : inv cap s).

Let Hcap : ring_capacity cap := inv_capacity _ _ Hs.

Lemma inv_cap_pos : 0 < cap.
Proof using Hs. pose proof (ring_capacity_bounds _ (inv_capacity _ _ Hs)). lia. Qed.

Lemma inv_index n : 0 ≤ Z.of_nat n mod cap < Z.of_nat (length (buffer s)).
Proof using Hs. rewrite (inv_buffer _ _ Hs). apply Z.mod_pos_bound, inv_cap_pos. Qed.

Lemma inv_consumed_le : (consumed s ≤ length (pushed s))%nat.
Proof using Hs. pose proof (inv_views _ _ Hs). lia. Qed.

(** Changing what the producer does before its slot write. *)
Lemma inv_set_producer pc view :
  publishing s = 0%nat → (∀ e w, pc ≠ PPublish e w) →
  (producer_view s ≤ view ≤ consumed s)%nat → producer_ok cap (set_producer pc view s) →
  inv cap (set_producer pc view s).
Proof using Hs.
  intros Hp0 Hpc Hv Hp. pose proof (inv_views _ _ Hs). pose proof (inv_room _ _ Hs).
  assert (publishing (set_producer pc view s) = 0%nat) as Hp1.
  { unfold publishing. simpl. destruct pc; [done..|]. by destruct (Hpc event write). }
  split; try apply Hs; simpl; try done.
  - change (consumed (set_producer pc view s)) with (consumed s). lia.
  - lia.
  - intros e w ->. by destruct (Hpc e w).
  - pose proof (inv_writes _ _ Hs) as Hw. by rewrite Hp1, <-Hp0.
Qed.

Lemma inv_set_consumer pc view :
  taking s = 0%nat → (∀ r, pc ≠ CPublish r) →
  (consumer_view s ≤ view ≤ length (pushed s))%nat → consumer_ok (set_consumer pc view s) →
  inv cap (set_consumer pc view s).
Proof using Hs.
  intros Ht0 Hpc Hv Hc. pose proof (inv_views _ _ Hs).
  assert (taking (set_consumer pc view s) = 0%nat) as Ht1.
  { unfold taking. simpl. destruct pc; [done..|]. by destruct (Hpc read). }
  assert (consumed (set_consumer pc view s) = consumed s) as Heq
    by (unfold consumed; rewrite Ht0, Ht1; done).
  split; try apply Hs; rewrite ?Heq; simpl; try done; try apply Hs.
  - rewrite Ht1. lia.
  - lia.
Qed.

Lemma inv_push_call e s' : step cap (PushCall e) s = Some (Ret s') → inv cap s'.
Proof using Hs.
  simpl. destruct (producer s) eqn:Hp; [|done..]. intros [= <-]. pose proof (inv_views _ _ Hs).
  apply inv_set_producer; [by unfold publishing; rewrite Hp|done|lia|].
  unfold producer_ok. simpl. by rewrite (inv_write _ _ Hs), counter_history_last.
Qed.

Lemma inv_push_acquire i s' : step cap (PushAcquire i) s = Some (Ret s') → inv cap s'.
Proof using Hs.
  simpl. pose proof (inv_producer _ _ Hs) as Hp. unfold producer_ok in Hp.
  destruct (producer s) as [|e w| |] eqn:Epc; [done| |done..].
  destruct (acquire _ _ _) as [r|] eqn:Ha; [|done]. intros [= <-].
  rewrite (inv_read _ _ Hs) in Ha. apply acquire_counter in Ha as [-> Hi]. subst w.
  pose proof (inv_room _ _ Hs). pose proof inv_consumed_le.
  rewrite (counter_distance _ _ _ (inv_capacity _ _ Hs)) by lia.
  assert (publishing s = 0%nat) by by unfold publishing; rewrite Epc.
  destruct (Z.leb_spec cap (Z.of_nat (length (pushed s)) - Z.of_nat i));
    apply inv_set_producer; try done; unfold producer_ok; simpl; done.
Qed.

Lemma inv_push_slot s' : step cap PushSlot s = Some (Ret s') → inv cap s'.
Proof using Hs.
  simpl. pose proof (inv_producer _ _ Hs) as Hp. unfold producer_ok in Hp.
  destruct (producer s) as [| |e w|] eqn:Epc; [done..| |done]. destruct Hp as [-> Hroom].
  case_match; [done|]. rewrite (slot_of_counter cap _ (inv_capacity _ _ Hs)). unfold vec_set.
  rewrite bool_decide_true by apply inv_index. intros [= <-].
  assert (publishing s = 0%nat) as Hp0 by by unfold publishing; rewrite Epc.
  pose proof (inv_views _ _ Hs). pose proof inv_cap_pos.
  split; try apply Hs; simpl.
  - rewrite length_insert. apply Hs.
  - done.
  - change (consumed (MkConc _ _ _ _ _ _ _ _ _ _ _)) with (consumed s).
    intros i x Hi Hx. rewrite list_lookup_insert_ne; [by apply Hs|]. intros Heq.
    pose proof (inv_index i). pose proof (inv_index (length (pushed s))).
    pose proof (lookup_lt_Some _ _ _ Hx). apply Z2Nat.inj in Heq; [symmetry in Heq|lia..].
    apply (mod_window_inj cap) in Heq; lia.
  - intros e' w' [= <- <-]. apply list_lookup_insert_eq. pose proof (inv_index (length (pushed s))). lia.
  - rewrite (inv_write _ _ Hs), counter_history_length, Nat.add_1_r. apply stamped_snoc.
    rewrite <-(Nat.add_0_r (length (pushed s))), <-Hp0. apply Hs.
Qed.

Lemma inv_push_release s' : step cap PushRelease s = Some (Ret s') → inv cap s'.
Proof using Hs.
  simpl. pose proof (inv_producer _ _ Hs) as Hp. unfold producer_ok in Hp.
  destruct (producer s) as [| | |e w] eqn:Epc; [done..|]. destruct Hp as [-> Hroom].
  intros [= <-]. pose proof (inv_views _ _ Hs).
  assert (publishing s = 1%nat) as Hp1 by by unfold publishing; rewrite Epc.
  split; simpl; try apply Hs; rewrite ?length_app; simpl; rewrite ?Nat.add_1_r.
  - by rewrite (inv_write _ _ Hs), counter_history_snoc.
  - change (consumed (MkConc _ _ _ _ _ _ _ _ _ _ _)) with (consumed s). lia.
  - lia.
  - done.
  - change (consumed (MkConc _ _ _ _ _ _ _ _ _ _ _)) with (consumed s). intros i x Hi Hx.
    destruct (decide (i = length (pushed s))) as [->|Hne].
    + rewrite list_lookup_middle in Hx by done. injection Hx as <-. by eapply (inv_written _ _ Hs).
    + apply (inv_slots _ _ Hs); [done|]. rewrite lookup_app_l in Hx; [done|].
      apply lookup_lt_Some in Hx. rewrite length_app in Hx. simpl in Hx. lia.
  - done.
  - etrans; [apply Hs|]. by apply prefix_app_r.
  - unfold publishing. simpl. rewrite Nat.add_0_r, <-Nat.add_1_r, <-Hp1. apply Hs.
Qed.

Lemma inv_pop_call s' : step cap PopCall s = Some (Ret s') → inv cap s'.
Proof using Hs.
  simpl. destruct (consumer s) eqn:Hc; [|done..]. intros [= <-]. pose proof (inv_views _ _ Hs).
  assert (taking s = 0%nat) as Ht by by unfold taking; rewrite Hc.
  apply inv_set_consumer; [done|done|lia|].
  unfold consumer_ok. simpl. rewrite (inv_read _ _ Hs), counter_history_last.
  unfold consumed. by rewrite Ht.
Qed.

Lemma inv_pop_acquire i s' : step cap (PopAcquire i) s = Some (Ret s') → inv cap s'.
Proof using Hs.
  simpl. pose proof (inv_consumer _ _ Hs) as Hc. unfold consumer_ok in Hc.
  destruct (consumer s) as [|r| |] eqn:Ecc; [done| |done..].
  destruct (acquire _ _ _) as [w|] eqn:Ha; [|done]. intros [= <-].
  rewrite (inv_write _ _ Hs) in Ha. apply acquire_counter in Ha as [-> Hi]. subst r.
  pose proof (inv_room _ _ Hs). pose proof (inv_views _ _ Hs).
  pose proof (counter_equal i (consumed s) cap (inv_capacity _ _ Hs) ltac:(lia) ltac:(lia)) as Heq.
  assert (taking s = 0%nat) as Ht by by unfold taking; rewrite Ecc.
  destruct (Z.eqb_spec (wrap64 (Z.of_nat i)) (wrap64 (Z.of_nat (consumed s)))) as [E|E];
    (apply inv_set_consumer; [done|done|done|]); [done|].
  unfold consumer_ok. simpl. unfold consumed, taking in *. simpl. rewrite Ht in *.
  split; [done|]. destruct (decide (i = length (popped s) - 0)%nat) as [->|]; [tauto|lia].
Qed.

Lemma inv_pop_slot s' : step cap PopSlot s = Some (Ret s') → inv cap s'.
Proof using Hs.
  simpl. pose proof (inv_consumer _ _ Hs) as Hc. unfold consumer_ok in Hc.
  destruct (consumer s) as [| |r|] eqn:Ecc; [done..| |done]. destruct Hc as [-> Hlt].
  case_match; [done|]. rewrite (slot_of_counter cap _ (inv_capacity _ _ Hs)).
  pose proof (inv_views _ _ Hs).
  assert (taking s = 0%nat) as Ht by by unfold taking; rewrite Ecc.
  assert (consumed s = length (popped s)) as Hcons by (unfold consumed; rewrite Ht; lia).
  destruct (lookup_lt_is_Some_2 (pushed s) (consumed s)) as [e He]; [lia|].
  rewrite (vec_at_lookup _ _ e); [|apply inv_index|by apply Hs]. simpl. intros [= <-].
  assert (consumed (MkConc (buffer s) (write_history s) (read_history s) (producer s) (producer_view s)
    (CPublish (wrap64 (Z.of_nat (consumed s)))) (consumer_view s) (slot_writes s)
    (slot_reads s ++ [(Z.of_nat (consumed s) mod cap, length (read_history s))])
    (pushed s) (popped s ++ [e])) = consumed s) as Heq
    by (unfold consumed at 1, taking; simpl; rewrite length_app; simpl; lia).
  split; rewrite ?Heq; simpl; try apply Hs; try done.
  - unfold taking. simpl. rewrite length_app. simpl. lia.
  - unfold consumer_ok. rewrite Heq. done.
  - rewrite Hcons in He. destruct (inv_popped _ _ Hs) as [l Hl]. rewrite Hl in He |- *.
    rewrite lookup_app_r, Nat.sub_diag in He by lia. destruct l as [|e' l]; [done|].
    injection He as ->. exists l. by rewrite <-app_assoc.
  - rewrite (inv_read _ _ Hs), counter_history_length, Hcons, length_app. simpl.
    rewrite Nat.add_1_r. apply stamped_snoc, Hs.
Qed.

Lemma inv_pop_release s' : step cap PopRelease s = Some (Ret s') → inv cap s'.
Proof using Hs.
  simpl. pose proof (inv_consumer _ _ Hs) as Hc. unfold consumer_ok in Hc.
  destruct (consumer s) as [| | |r] eqn:Ecc; [done..|]. destruct Hc as [-> Hlt].
  intros [= <-]. pose proof (inv_views _ _ Hs). pose proof (inv_taking _ _ Hs) as Ht.
  assert (taking s = 1%nat) as Ht1 by by unfold taking; rewrite Ecc.
  set (s' := MkConc _ _ _ _ _ _ _ _ _ _ _).
  assert (consumed s' = S (consumed s)) as Heq
    by (unfold consumed, taking in *; simpl; rewrite Ht1; lia).
  split; rewrite ?Heq; simpl; try apply Hs; try done.
  - change (taking s') with 0%nat. lia.
  - rewrite (inv_read _ _ Hs). apply counter_history_snoc.
  - lia.
  - intros i x Hi. apply (inv_slots _ _ Hs). lia.
Qed.

Lemma inv_step a s' : step cap a s = Some (Ret s') → inv cap s'.
Proof using Hs.
  destruct a; [apply inv_push_call|apply inv_push_acquire|apply inv_push_slot|apply inv_push_release
              |apply inv_pop_call|apply inv_pop_acquire|apply inv_pop_slot|apply inv_pop_release].
Qed.

(** No enabled instruction is a data race or leaves the buffer. *)
Lemma step_defined a : step cap a s ≠ Some UB.
Proof using Hs.
  pose proof (inv_views _ _ Hs) as Hv. pose proof (inv_room _ _ Hs) as Hr. pose proof inv_cap_pos as Hpos.
  destruct a; simpl; try (repeat case_match; done).
  - pose proof (inv_producer _ _ Hs) as Hp. unfold producer_ok in Hp.
    destruct (producer s) as [| |e w|] eqn:Epc; [done..| |done]. destruct Hp as [-> Hroom].
    rewrite (slot_of_counter cap _ (inv_capacity _ _ Hs)).
    rewrite (races_stamped_lap cap _ (length (popped s))); [|done|apply Hs| |done].
    + unfold vec_set. by rewrite bool_decide_true by apply inv_index.
    + apply prefix_length, Hs.
  - pose proof (inv_consumer _ _ Hs) as Hc. unfold consumer_ok in Hc.
    destruct (consumer s) as [| |r|] eqn:Ecc; [done..| |done]. destruct Hc as [-> Hlt].
    rewrite (slot_of_counter cap _ (inv_capacity _ _ Hs)).
    rewrite (races_stamped cap _ (length (pushed s) + publishing s)); [|done|apply Hs| |done].
    + destruct (lookup_lt_is_Some_2 (pushed s) (consumed s)) as [e He]; [lia|].
      by rewrite (vec_at_lookup _ _ e); [|apply inv_index|apply Hs].
    + pose proof (inv_producer _ _ Hs) as Hp. unfold producer_ok, publishing in *.
      destruct (producer s); lia.
Qed.
End invariant.

Lemma initial_inv cap : ring_capacity cap → inv cap (initial cap).
Proof.
  intros Hc. pose proof (ring_capacity_bounds _ Hc).
  split; simpl; try done; try lia. by rewrite length_replicate; lia.
Qed.

Lemma reachable_inv cap s : ring_capacity cap → reachable cap s → inv cap s.
Proof. intros Hc. induction 1; [by apply initial_inv|by eapply inv_step]. Qed.

Lemma run_reachable cap actions s s' :
  reachable cap s → run cap actions s = Some (Ret s') → reachable cap s'.
Proof.
  revert s. induction actions as [|a actions IH]; simpl; intros s Hs; [by intros [= <-]|].
  destruct (step cap a s) as [[s1|]|] eqn:E; [|done..]. apply IH. by eapply reachable_step.
Qed.
