(* ===== verification/SpscProperties.v ===== *)
(** * Properties of the ring buffer

    Run by one thread, it is a bounded FIFO; run by its producer and its
    consumer, it has no data race, loses, duplicates and reorders nothing, and
    neither side ever waits for the other. *)
From S2P Require Import Prelude CoreTypes SpscRingBuffer SpscConcurrent.
#[local] Open Scope Z_scope.

(** The constructor throws unless the capacity is one of the 64 powers of
    two of a [std::size_t]. *)
Theorem make_ring_power_of_two cap :
  is_u64 cap → is_Some (SpscRingBuffer.make_ring cap) ↔ ∃ k, 0 ≤ k < 64 ∧ cap = 2 ^ k.
Proof.
  intros Hc. unfold SpscRingBuffer.make_ring. destruct (Z.eqb_spec cap 0) as [->|Hne]; simpl.
  { split; [by intros [? ?]|]. intros (k & Hk & Hp). pose proof (Z.pow_pos_nonneg 2 k). lia. }
  pose proof (is_power_of_two_spec cap Hc Hne) as Hp. unfold ring_capacity in Hp. rewrite <-Hp.
  destruct (SpscRingBuffer.is_power_of_two cap); simpl; [split; eauto|]. split; [by intros [? ?]|done].
Qed.

Lemma make_ring_power_of_two_witness :
  is_Some (SpscRingBuffer.make_ring 64) ↔ ∃ k, 0 ≤ k < 64 ∧ 64 = 2 ^ k.
Proof. apply (make_ring_power_of_two 64). by split. Defined.

(** C16: any sequence of pushes and pops on a new ring, however long (the
    sequence counters may wrap around any number of times), returns what a
    FIFO list bounded by the capacity returns; no access leaves the buffer, and
    [approximate_size], [empty] and [full] are exact. *)
Theorem ring_is_bounded_fifo cap q ops :
  is_u64 cap → SpscRingBuffer.make_ring cap = Some q →
  let l := (fifo_run cap ops []).2 in
  ∃ q', ring_run ops q = Ret ((fifo_run cap ops []).1, q') ∧
    SpscRingBuffer.approximate_size q' = Z.of_nat (length l) ∧
    SpscRingBuffer.empty q' = bool_decide (l = []) ∧
    SpscRingBuffer.full q' = bool_decide (Z.of_nat (length l) = cap).
Proof.
  intros Hc Hm. destruct (make_ring_holds _ _ Hc Hm) as [Hq Hcap].
  destruct (ring_run_refines ops q [] Hq) as (q' & Hr & Hq' & Hcap'). rewrite Hcap in *. exists q'.
  pose proof (ring_size q' _ Hq') as Hs. pose proof (holds_length _ _ Hq') as Hl.
  unfold SpscRingBuffer.empty, SpscRingBuffer.full. rewrite Hs, Hcap' in *. split_and!; [done..| |].
  - apply eq_bool_prop_intro. rewrite bool_decide_spec, Is_true_true, Z.eqb_eq.
    destruct (fifo_run cap ops []).2; simpl; split; (done || lia).
  - apply eq_bool_prop_intro. rewrite bool_decide_spec, Is_true_true, Z.leb_le. lia.
Qed.

(** A message of the tests, [make_event(id)]. *)
Definition make_event (order_id : Z) : MarketEvent :=
  MkEvent Add (MkTimestamp order_id) (MkOrderId order_id) Buy (MkPrice (10000 + order_id mod 32))
    (MkQuantity 100).

Definition ring_of_two : SpscRingBuffer.SpscRingBuffer :=
  SpscRingBuffer.MkRing 2 1 [default_event; default_event] 0 0.

Lemma ring_is_bounded_fifo_witness :
  ∃ q', ring_run [Push (make_event 1); Push (make_event 2); Push (make_event 3); Pop; Pop; Pop] ring_of_two
        = Ret ([Pushed true; Pushed true; Pushed false; Popped (Some (make_event 1));
                Popped (Some (make_event 2)); Popped None], q') ∧
        SpscRingBuffer.approximate_size q' = 0.
Proof.
  destruct (ring_is_bounded_fifo 2 ring_of_two
    [Push (make_event 1); Push (make_event 2); Push (make_event 3); Pop; Pop; Pop]
    ltac:(by split) eq_refl) as (q' & Hr & Hs & _).
  exists q'. split; [exact Hr|exact Hs].
Defined.

(** ** Two threads *)

(** C4: no interleaving of the producer's and the consumer's instructions,
    with any stale value an acquire load may return, reaches a data race on a
    slot or an access outside the buffer. *)
Theorem spsc_race_free cap s a :
  ring_capacity cap → SpscConcurrent.reachable cap s → SpscConcurrent.step cap a s ≠ Some UB.
Proof. intros Hc Hr. apply step_defined. by apply reachable_inv. Qed.

(** An interleaving of two pushes and a pop through a ring of one slot. *)
Definition sample_actions : list SpscConcurrent.Action :=
  [SpscConcurrent.PushCall (make_event 1); SpscConcurrent.PopCall;
   SpscConcurrent.PushAcquire 0; SpscConcurrent.PushSlot;
   SpscConcurrent.PopAcquire 0; SpscConcurrent.PushRelease; SpscConcurrent.PopCall;
   SpscConcurrent.PopAcquire 1; SpscConcurrent.PushCall (make_event 2);
   SpscConcurrent.PopSlot; SpscConcurrent.PopRelease; SpscConcurrent.PushAcquire 1;
   SpscConcurrent.PushSlot; SpscConcurrent.PushRelease].

Definition conc_after (cap : Z) (actions : list SpscConcurrent.Action) : SpscConcurrent.Conc :=
  match SpscConcurrent.run cap actions (SpscConcurrent.initial cap) with
  | Some (Ret s) => s
  | _ => SpscConcurrent.initial cap
  end.

Lemma conc_after_reachable cap actions s :
  SpscConcurrent.run cap actions (SpscConcurrent.initial cap) = Some (Ret s) →
  SpscConcurrent.reachable cap (conc_after cap actions).
Proof.
  intros Hr. unfold conc_after. rewrite Hr.
  by eapply run_reachable; [apply SpscConcurrent.reachable_initial|].
Qed.

Lemma ring_capacity_one : ring_capacity 1.
Proof. by exists 0. Qed.

Lemma spsc_race_free_witness :
  SpscConcurrent.step 1 SpscConcurrent.PushSlot (conc_after 1 (take 12 sample_actions)) ≠ Some UB.
Proof.
  apply (spsc_race_free 1); [exact ring_capacity_one|].
  eapply conc_after_reachable. vm_compute. reflexivity.
Defined.

(** C5: what the consumer has popped is, in order and without loss,
    duplication or invention, the beginning of what the producer has pushed,
    and never more than the capacity is in flight. *)
Theorem spsc_fifo cap s :
  ring_capacity cap → SpscConcurrent.reachable cap s →
  SpscConcurrent.popped s `prefix_of` SpscConcurrent.pushed s ∧
  Z.of_nat (length (SpscConcurrent.pushed s)) - Z.of_nat (length (SpscConcurrent.popped s)) ≤ cap.
Proof.
  intros Hc Hr. pose proof (reachable_inv _ _ Hc Hr) as Hi. split; [apply Hi|].
  pose proof (inv_views _ _ Hi). pose proof (inv_room _ _ Hi). unfold consumed in *. lia.
Qed.

Lemma spsc_fifo_witness :
  SpscConcurrent.popped (conc_after 1 sample_actions) = [make_event 1] ∧
  SpscConcurrent.popped (conc_after 1 sample_actions)
    `prefix_of` SpscConcurrent.pushed (conc_after 1 sample_actions).
Proof.
  split; [vm_compute; reflexivity|].
  apply (spsc_fifo 1); [exact ring_capacity_one|]. eapply conc_after_reachable. vm_compute. reflexivity.
Defined.

(** ** Wait-freedom *)

(** The instructions a call in progress has left at most. *)
Definition producer_left (s : SpscConcurrent.Conc) : nat :=
  match SpscConcurrent.producer s with
  | SpscConcurrent.PIdle => 0
  | SpscConcurrent.PLoad _ _ => 3
  | SpscConcurrent.PSlot _ _ => 2
  | SpscConcurrent.PPublish _ _ => 1
  end.

Definition consumer_left (s : SpscConcurrent.Conc) : nat :=
  match SpscConcurrent.consumer s with
  | SpscConcurrent.CIdle => 0
  | SpscConcurrent.CLoad _ => 3
  | SpscConcurrent.CSlot _ => 2
  | SpscConcurrent.CPublish _ => 1
  end.

Definition by_producer (a : SpscConcurrent.Action) : bool :=
  match a with
  | SpscConcurrent.PushCall _ | SpscConcurrent.PushAcquire _
  | SpscConcurrent.PushSlot | SpscConcurrent.PushRelease => true
  | _ => false
  end.

Definition is_call (a : SpscConcurrent.Action) : bool :=
  match a with SpscConcurrent.PushCall _ | SpscConcurrent.PopCall => true | _ => false end.

Lemma latest_acquire n view :
  (view ≤ n)%nat → SpscConcurrent.acquire view n (counter_history n) = Some (wrap64 (Z.of_nat n)).
Proof. intros Hv. apply acquire_counter. split; [done|lia]. Qed.

Lemma producer_can_step cap s :
  inv cap s → producer_left s ≠ 0%nat →
  ∃ a s', by_producer a = true ∧ is_call a = false ∧ SpscConcurrent.step cap a s = Some (Ret s').
Proof.
  intros Hi Hl. pose proof (inv_views _ _ Hi) as [[Hv _] _]. unfold producer_left in Hl.
  destruct (SpscConcurrent.producer s) as [|e w|e w|e w] eqn:Hp; [done|..].
  - exists (SpscConcurrent.PushAcquire (consumed s)). simpl.
    rewrite Hp, (inv_read _ _ Hi), latest_acquire by lia. eauto.
  - exists SpscConcurrent.PushSlot. pose proof (step_defined cap s Hi SpscConcurrent.PushSlot) as Hd.
    destruct (SpscConcurrent.step cap SpscConcurrent.PushSlot s) as [[s'|]|] eqn:E; [by exists s'|done|].
    simpl in E. by rewrite Hp in E.
  - exists SpscConcurrent.PushRelease. simpl. rewrite Hp. eauto.
Qed.

Lemma consumer_can_step cap s :
  inv cap s → consumer_left s ≠ 0%nat →
  ∃ a s', by_producer a = false ∧ is_call a = false ∧ SpscConcurrent.step cap a s = Some (Ret s').
Proof.
  intros Hi Hl. pose proof (inv_views _ _ Hi) as [_ Hv]. unfold consumer_left in Hl.
  destruct (SpscConcurrent.consumer s) as [|r|r|r] eqn:Hp; [done|..].
  - exists (SpscConcurrent.PopAcquire (length (SpscConcurrent.pushed s))). simpl.
    rewrite Hp, (inv_write _ _ Hi), latest_acquire by lia. eauto.
  - exists SpscConcurrent.PopSlot. pose proof (step_defined cap s Hi SpscConcurrent.PopSlot) as Hd.
    destruct (SpscConcurrent.step cap SpscConcurrent.PopSlot s) as [[s'|]|] eqn:E; [by exists s'|done|].
    simpl in E. by rewrite Hp in E.
  - exists SpscConcurrent.PopRelease. simpl. rewrite Hp. eauto.
Qed.

Lemma step_left cap a s s' :
  SpscConcurrent.step cap a s = Some (Ret s') → is_call a = false →
  if by_producer a then (producer_left s' < producer_left s)%nat ∧ consumer_left s' = consumer_left s
  else (consumer_left s' < consumer_left s)%nat ∧ producer_left s' = producer_left s.
Proof.
  unfold producer_left, consumer_left.
  destruct a; simpl; intros Hst Hcall; try done; unfold mbind, Exec_bind in Hst;
    repeat case_match; simplify_eq; simpl in *; simplify_eq; split; (lia || done || congruence).
Qed.

(** C17: both operations are wait-free.  In every reachable state a thread
    inside [try_push] or [try_pop] can take its next instruction, each of its
    instructions brings it closer to returning (three at most after the call),
    and no instruction of the other thread takes it further away. *)
Theorem spsc_wait_free cap s :
  ring_capacity cap → SpscConcurrent.reachable cap s →
  (producer_left s ≠ 0%nat →
     ∃ a s', by_producer a = true ∧ is_call a = false ∧ SpscConcurrent.step cap a s = Some (Ret s')) ∧
  (consumer_left s ≠ 0%nat →
     ∃ a s', by_producer a = false ∧ is_call a = false ∧ SpscConcurrent.step cap a s = Some (Ret s')) ∧
  (∀ a s', SpscConcurrent.step cap a s = Some (Ret s') → is_call a = false →
     if by_producer a then (producer_left s' < producer_left s)%nat ∧ consumer_left s' = consumer_left s
     else (consumer_left s' < consumer_left s)%nat ∧ producer_left s' = producer_left s).
Proof.
  intros Hc Hr. pose proof (reachable_inv _ _ Hc Hr) as Hi. split_and!.
  - by apply producer_can_step.
  - by apply consumer_can_step.
  - intros a s'. apply step_left.
Qed.

Lemma spsc_wait_free_witness :
  producer_left (conc_after 1 (take 3 sample_actions)) = 2%nat ∧
  ∃ a s', by_producer a = true ∧ is_call a = false ∧
    SpscConcurrent.step 1 a (conc_after 1 (take 3 sample_actions)) = Some (Ret s').
Proof.
  split; [vm_compute; reflexivity|].
  apply (spsc_wait_free 1); [exact ring_capacity_one| |vm_compute; done].
  eapply conc_after_reachable. vm_compute. reflexivity.
Defined.

(** ** The two models agree *)










(** ** [approximate_size] *)

(** For the two threads of the contract [approximate_size] never exceeds
    the capacity: the producer reads its own sequence exactly and any read
    sequence it may still see, the consumer the other way round. *)
Theorem owner_size_bounded cap s i :
  ring_capacity cap → SpscConcurrent.reachable cap s →
  (∀ n, (SpscConcurrent.producer_view s ≤ i)%nat →
     SpscConcurrent.observed_size s (pred (length (SpscConcurrent.write_history s))) i = Some n →
     0 ≤ n ≤ cap) ∧
  (∀ n, (SpscConcurrent.consumer_view s ≤ i)%nat →
     SpscConcurrent.observed_size s i (pred (length (SpscConcurrent.read_history s))) = Some n →
     0 ≤ n ≤ cap).
Proof.
  intros Hc Hr. pose proof (reachable_inv _ _ Hc Hr) as Hi.
  pose proof (inv_views _ _ Hi) as Hv. pose proof (inv_room _ _ Hi) as Hroom.
  unfold SpscConcurrent.observed_size. rewrite (inv_write _ _ Hi), (inv_read _ _ Hi), !counter_history_length.
  split; intros n Hle (w & [-> Hw]%counter_history_lookup & (r & [-> Hrd]%counter_history_lookup & [= <-])%bind_Some)%bind_Some;
    simpl pred in *; rewrite (counter_distance _ _ cap) by (done || lia); lia.
Qed.

Lemma owner_size_bounded_witness :
  SpscConcurrent.observed_size (conc_after 1 sample_actions) 2 1 = Some 1 ∧ 0 ≤ 1 ≤ 1.
Proof.
  split; [vm_compute; reflexivity|].
  apply (proj1 (owner_size_bounded 1 (conc_after 1 sample_actions) 1 ring_capacity_one
    ltac:(eapply conc_after_reachable; vm_compute; reflexivity)) 1); vm_compute; [lia|reflexivity].
Defined.

(** A run in which a third thread's two loads, the write sequence before it
    and the read sequence after it, are a push and a pop apart. *)
Definition third_party_before : SpscConcurrent.Conc := SpscConcurrent.initial 1.
Definition third_party_after : SpscConcurrent.Conc := conc_after 1 (take 11 sample_actions).

(** A third thread has no such bound.  It may load the write sequence,
    then, after a push and a pop, the read sequence: [approximate_size] then
    returns 2^64 - 1 on a ring of capacity one, and [full] says true on what
    is an empty ring. *)
Theorem third_party_size_wraps :
  SpscConcurrent.reachable 1 third_party_before ∧
  SpscConcurrent.run 1 (take 11 sample_actions) third_party_before = Some (Ret third_party_after) ∧
  SpscConcurrent.pushed third_party_after = SpscConcurrent.popped third_party_after ∧
  sub64 (SpscConcurrent.relaxed_own (SpscConcurrent.write_history third_party_before))
        (SpscConcurrent.relaxed_own (SpscConcurrent.read_history third_party_after)) = two64 - 1.
Proof.
  split; [apply SpscConcurrent.reachable_initial|]. split_and!; vm_compute; reflexivity.
Qed.

(** C39: [approximate_size].  For the two threads of the contract it never
    exceeds the capacity, whatever stale value their acquire load returns; a
    third thread has no such bound: with a push and a pop between its two loads
    it reads 2^64 - 1 on a ring of capacity one that is empty. *)
Theorem size_bounds :
  (∀ cap s i, ring_capacity cap → SpscConcurrent.reachable cap s →
     (∀ n, (SpscConcurrent.producer_view s ≤ i)%nat →
        SpscConcurrent.observed_size s (pred (length (SpscConcurrent.write_history s))) i = Some n →
        0 ≤ n ≤ cap) ∧
     (∀ n, (SpscConcurrent.consumer_view s ≤ i)%nat →
        SpscConcurrent.observed_size s i (pred (length (SpscConcurrent.read_history s))) = Some n →
        0 ≤ n ≤ cap)) ∧
  (∃ before after actions, SpscConcurrent.reachable 1 before ∧ SpscConcurrent.run 1 actions before = Some (Ret after) ∧
     SpscConcurrent.pushed after = SpscConcurrent.popped after ∧
     sub64 (SpscConcurrent.relaxed_own (SpscConcurrent.write_history before))
       (SpscConcurrent.relaxed_own (SpscConcurrent.read_history after)) = two64 - 1).
Proof.
  split; [intros cap s i; apply owner_size_bounded|].
  exists third_party_before, third_party_after, (take 11 sample_actions). apply third_party_size_wraps.
Qed.

Lemma size_bounds_witness :
  SpscConcurrent.observed_size (conc_after 1 sample_actions) 2 1 = Some 1 ∧ 0 ≤ 1 ≤ 1.
Proof.
  split; [vm_compute; reflexivity|].
  apply (proj1 (proj1 size_bounds 1 (conc_after 1 sample_actions) 1%nat ring_capacity_one
    ltac:(eapply conc_after_reachable; vm_compute; reflexivity)) 1); vm_compute; [lia|reflexivity].
Defined.
