(* ===== verification/CsvParser.v ===== *)
(** * The CSV event feed

    [feed/csv_parser.cpp]: trimming, column splitting, integer and keyword
    parsing, [parse_row] with its checks in the source's order, and the parser
    object whose [next] reads one line at a time.  The file system is a
    function from paths to file contents; [None] is a file that does not
    open. *)
From S2P Require Import Prelude CoreTypes Text.
From Stdlib Require Import Ascii.
#[local] Open Scope Z_scope.

Module CsvParser.

Definition kExpectedHeader : text := txt "timestamp_ns,event_type,order_id,side,price,quantity".

Definition is_blank (c : ascii) : bool :=
  (c =? " ")%char || (c =? tab)%char || (c =? carriage_return)%char.

Fixpoint remove_blank_prefix (value : text) : text :=
  match value with
  | c :: value' => if is_blank c then remove_blank_prefix value' else value
  | [] => []
  end.

Definition trim (value : text) : text :=
  let value := remove_blank_prefix value in
  reverse (remove_blank_prefix (reverse value)).

(** [row.find(',', start)]. *)
Definition find_char (c : ascii) (row : text) (start : nat) : option nat :=
  (λ r, (start + r.1)%nat) <$> list_find (λ x, x = c) (drop start row).

Definition substr (row : text) (start count : nat) : text := take count (drop start row).

(** The [while (start <= row.size())] loop. *)
Fixpoint split_loop (fuel : nat) (row : text) (start : nat) (columns : list text) : list text :=
  match fuel with
  | O => columns
  | S fuel =>
      if decide (start ≤ length row)%nat then
        match find_char "," row start with
        | None => columns ++ [trim (drop start row)]
        | Some comma =>
            split_loop fuel row (S comma) (columns ++ [trim (substr row start (comma - start))])
        end
      else columns
  end.

Definition split_csv_columns (row : text) : list text := split_loop (S (length row)) row 0 [].

(** [None] is the failing return. *)
Definition parse_integral (ty : IntegerType) (t : text) : option Z :=
  match t with
  | [] => None
  | _ => match from_chars ty t with
         | Parsed value [] => Some value
         | _ => None
         end
  end.

Definition parse_event_type (value : text) : option EventType :=
  if decide (value = txt "ADD") then Some Add
  else if decide (value = txt "CANCEL") then Some Cancel
  else if decide (value = txt "MODIFY") then Some Modify
  else if decide (value = txt "EXECUTE") then Some Execute
  else None.

Definition parse_side (value : text) : option Side :=
  if decide (value = txt "B") then Some Buy
  else if decide (value = txt "S") then Some Sell
  else None.

Fixpoint all_empty (values : list text) : bool :=
  match values with
  | [] => true
  | value :: values' => if decide (value = []) then all_empty values' else false
  end.

Inductive CsvParseStatus : Type := Event | MalformedRow | EndOfFile.

Record CsvParseResult : Type := MkResult {
  status : CsvParseStatus;
  event : option MarketEvent;
  line_number : Z;
  message : text;
  raw_row : text
}.

Definition end_of_file : CsvParseResult := MkResult EndOfFile None 0 [] [].

Definition malformed (line_number : Z) (message : text) (raw_row : text) : CsvParseResult :=
  MkResult MalformedRow None line_number message raw_row.

(** The body of [parse_row]: the event, or the message of the first check
    that fails. *)
Definition parse_add (side price quantity : text) : text + (Side * Z * Z) :=
  match parse_side side with
  | None => inl (txt "ADD requires side B or S")
  | Some parsed_side =>
      match parse_integral int64 price with
      | None => inl (txt "ADD requires numeric price")
      | Some p =>
          match parse_integral uint64 quantity with
          | None => inl (txt "ADD requires numeric quantity")
          | Some q => inr (parsed_side, p, q)
          end
      end
  end.

Definition parse_cancel (side price quantity : text) : text + (Side * Z * Z) :=
  if all_empty [side; price; quantity] then inr (Buy, 0, 0)
  else inl (txt "CANCEL requires empty side, price, and quantity").

Definition parse_modify (side price quantity : text) : text + (Side * Z * Z) :=
  if negb (all_empty [side]) then inl (txt "MODIFY requires empty side")
  else match parse_integral int64 price with
       | None => inl (txt "MODIFY requires numeric price")
       | Some p =>
           match parse_integral uint64 quantity with
           | None => inl (txt "MODIFY requires numeric quantity")
           | Some q => inr (Buy, p, q)
           end
       end.

Definition parse_execute (side price quantity : text) : text + (Side * Z * Z) :=
  if negb (all_empty [side]) then inl (txt "EXECUTE requires empty side")
  else match parse_integral int64 price with
       | None => inl (txt "EXECUTE requires numeric price")
       | Some p =>
           match parse_integral uint64 quantity with
           | None => inl (txt "EXECUTE requires numeric quantity")
           | Some q => inr (Buy, p, q)
           end
       end.

Definition parse_operands (type : EventType) (side price quantity : text)
    : text + (Side * Z * Z) :=
  match type with
  | Add => parse_add side price quantity
  | Cancel => parse_cancel side price quantity
  | Modify => parse_modify side price quantity
  | Execute => parse_execute side price quantity
  end.

Definition parse_columns (columns : list text) : text + MarketEvent :=
  match columns with
  | [timestamp; type; id; side; price; quantity] =>
      match parse_integral int64 timestamp with
      | None => inl (txt "invalid timestamp_ns")
      | Some ts =>
          match parse_event_type type with
          | None => inl (txt "unknown event_type")
          | Some ty =>
              match parse_integral uint64 id with
              | None => inl (txt "invalid order_id")
              | Some oid =>
                  match parse_operands ty side price quantity with
                  | inl m => inl m
                  | inr (sd, p, q) =>
                      inr (MkEvent ty (MkTimestamp ts) (MkOrderId oid) sd (MkPrice p) (MkQuantity q))
                  end
              end
          end
      end
  | _ => inl (txt "expected 6 columns")
  end.

Definition parse_row (line : Z) (row : text) : CsvParseResult :=
  match parse_columns (split_csv_columns row) with
  | inl m => malformed line m row
  | inr e => MkResult Event (Some e) line [] row
  end.

(** ** The parser object *)

(** [input_] is what is left to read of the open file. *)
Record CsvParser : Type := MkParser {
  input_path_ : text;
  input_ : option text;
  line_number_ : Z;
  header_checked_ : bool;
  header_valid_ : bool
}.

(** [std::getline]: [None] when no character is left. *)
Fixpoint read_line (input : text) : text * text :=
  match input with
  | [] => ([], [])
  | c :: input' =>
      if (c =? newline)%char then ([], input')
      else let r := read_line input' in (c :: r.1, r.2)
  end.

Definition getline (input : text) : option (text * text) :=
  match input with [] => None | _ => Some (read_line input) end.

Section parser.
Context (files : text → option text).

Definition open (path : text) : CsvParser := MkParser path (files path) 0 false false.

Definition input_path (p : CsvParser) : text := input_path_ p.
Definition is_open (p : CsvParser) : bool := bool_decide (is_Some (input_ p)).

Definition next_row (p : CsvParser) : CsvParseResult * CsvParser :=
  match input_ p ≫= getline with
  | None => (end_of_file, p)
  | Some (row, rest) =>
      let line := add64 (line_number_ p) 1 in
      (parse_row line row, MkParser (input_path_ p) (Some rest) line (header_checked_ p) (header_valid_ p))
  end.

Definition next (p : CsvParser) : CsvParseResult * CsvParser :=
  match input_ p with
  | None => (malformed 0 (txt "input file is not open") [], p)
  | Some input =>
      if header_checked_ p then
        if header_valid_ p then next_row p else (end_of_file, p)
      else
        match getline input with
        | None => (end_of_file, MkParser (input_path_ p) (Some input) (line_number_ p) true (header_valid_ p))
        | Some (header, rest) =>
            let line := add64 (line_number_ p) 1 in
            if decide (trim header = kExpectedHeader) then
              next_row (MkParser (input_path_ p) (Some rest) line true true)
            else (malformed line (txt "invalid CSV header") header,
                  MkParser (input_path_ p) (Some rest) line true false)
        end
  end.

Definition reset (p : CsvParser) : CsvParser :=
  MkParser (input_path_ p) (files (input_path_ p)) 0 false false.

End parser.
End CsvParser.
