(* ===== verification/CsvLaws.v ===== *)
(** * What the CSV feed accepts

    The splitting loop is the textbook split; [parse_integral] accepts exactly
    the decimal numerals of the type; [parse_row] accepts exactly the rows of
    the schema; formatted events parse back; and the loop that calls [next]
    until the end of the file reads each line once, in order. *)
From S2P Require Import Prelude CoreTypes Text CsvParser.
From Stdlib Require Import Ascii.
Import CsvParser.
#[local] Open Scope Z_scope.

(** ** Columns *)

(** Splitting a text at a separator, without indices. *)
Fixpoint split_on (sep : ascii) (t : text) : list text :=
  match t with
  | [] => [[]]
  | c :: t' =>
      if decide (c = sep) then [] :: split_on sep t'
      else match split_on sep t' with
           | w :: ws => (c :: w) :: ws
           | [] => [[c]]
           end
  end.

Lemma split_on_cons sep w t :
  sep ∉ w → split_on sep (w ++ sep :: t) = w :: split_on sep t.
Proof.
  induction w as [|c w IH]; simpl; intros Hw; [by rewrite decide_True|].
  apply not_elem_of_cons in Hw as [Hc Hw]. rewrite decide_False by congruence. by rewrite IH.
Qed.

Lemma split_on_none sep w : sep ∉ w → split_on sep w = [w].
Proof.
  induction w as [|c w IH]; simpl; intros Hw; [done|].
  apply not_elem_of_cons in Hw as [Hc Hw]. rewrite decide_False by congruence. by rewrite IH.
Qed.

Lemma find_char_Some c row start comma :
  find_char c row start = Some comma →
  (start ≤ comma < length row)%nat ∧ (c ∉ substr row start (comma - start)) ∧
  drop start row = substr row start (comma - start) ++ (c :: drop (S comma) row).
Proof.
  unfold find_char, substr. rewrite fmap_Some. intros ([i x] & (Hi & -> & Hbefore)%list_find_Some & ->).
  simpl. rewrite lookup_drop in Hi. pose proof (lookup_lt_Some _ _ _ Hi).
  replace (start + i - start)%nat with i by lia. split_and!; [lia|lia| |].
  - intros (j & Hj)%list_elem_of_lookup. apply lookup_take_Some in Hj as [Hj Hlt].
    by apply (Hbefore j c).
  - rewrite <-(take_drop i (drop start row)) at 1. f_equal. rewrite drop_drop.
    by apply drop_S.
Qed.

Lemma find_char_None c row start : find_char c row start = None → c ∉ drop start row.
Proof.
  unfold find_char. rewrite fmap_None, list_find_None, Forall_forall. intros H Hin. by apply (H c).
Qed.

Lemma split_loop_spec fuel row start columns :
  (start ≤ length row)%nat → (length row - start < fuel)%nat →
  split_loop fuel row start columns = columns ++ (trim <$> split_on "," (drop start row)).
Proof.
  revert start columns. induction fuel as [|fuel IH]; intros start columns Hs Hf; [lia|].
  simpl. rewrite decide_True by done.
  destruct (find_char "," row start) as [comma|] eqn:E.
  - apply find_char_Some in E as (Hc & Hn & Hd). rewrite IH by lia.
    rewrite Hd, split_on_cons by done. simpl. by rewrite <-app_assoc.
  - apply find_char_None in E. by rewrite split_on_none.
Qed.

Lemma split_csv_columns_spec row : split_csv_columns row = trim <$> split_on "," row.
Proof. unfold split_csv_columns. rewrite split_loop_spec; simpl; [done|lia|lia]. Qed.

(** ** Numerals *)

Definition digits_text (ds : list Z) : text := digit_char <$> ds.

(** The texts [std::from_chars] reads completely, with their value. *)
Definition numeral (ty : IntegerType) (t : text) (z : Z) : Prop :=
  in_type ty z ∧
  ∃ ds, ds ≠ [] ∧ Forall (λ d, 0 ≤ d < 10) ds ∧
    ((t = digits_text ds ∧ z = digits_value 10 ds) ∨
     (int_min ty < 0 ∧ t = "-"%char :: digits_text ds ∧ z = - digits_value 10 ds)).

Lemma digit_char_of c d : digit_of c = Some d → c = digit_char d.
Proof.
  intros H. pose proof (digit_of_Some _ _ H) as Hd. unfold digit_of in H.
  case_match eqn:E; [|done]. injection H as <-.
  rewrite <-(ascii_nat_embedding c) at 1. unfold digit_char.
  rewrite (proj2 (Z.ltb_lt _ _)) by lia. f_equal. lia.
Qed.

Lemma take_digits_spec t ds rest :
  take_digits t = (ds, rest) → t = digits_text ds ++ rest ∧ Forall (λ d, 0 ≤ d < 10) ds.
Proof.
  revert ds rest. induction t as [|c t IH]; intros ds rest; cbn [take_digits]; [by intros [= <- <-]|].
  destruct (digit_of c) as [d|] eqn:E; [|by intros [= <- <-]].
  destruct (take_digits t) as [ds' rest'] eqn:Et. intros [= <- <-]; cbn [fst snd].
  destruct (IH _ _ eq_refl) as [-> Hds]. split; [|constructor; [by eapply digit_of_Some|done]].
  unfold digits_text. rewrite fmap_cons. cbn [app]. f_equal. by apply digit_char_of.
Qed.

Lemma take_digits_text ds :
  Forall (λ d, 0 ≤ d < 10) ds → take_digits (digits_text ds) = (ds, []).
Proof. intros Hds. rewrite <-(app_nil_r (digits_text ds)). by apply take_digits_app. Qed.

Lemma digit_char_minus d : 0 ≤ d < 10 → (digit_char d =? "-")%char = false.
Proof.
  intros Hd. apply Ascii.eqb_neq. intros Heq. apply (f_equal digit_of) in Heq.
  by rewrite digit_of_char in Heq.
Qed.

Lemma parse_integral_numeral ty t z : parse_integral ty t = Some z ↔ numeral ty t z.
Proof.
  unfold parse_integral, numeral. split.
  - destruct t as [|c t]; [done|]. unfold from_chars.
    destruct ((c =? "-")%char && (int_min ty <? 0)) eqn:Em.
    + apply andb_true_iff in Em as [->%Ascii.eqb_eq Hmin%Z.ltb_lt].
      destruct (take_digits t) as [ds rest] eqn:Et. destruct ds as [|d ds]; [done|].
      case_decide as Ht; [|done]. destruct rest; [|done]. intros [= <-].
      apply take_digits_spec in Et as [-> Hds]. rewrite app_nil_r. split; [done|].
      exists (d :: ds). split_and!; [done|done|]. by right.
    + destruct (take_digits (c :: t)) as [ds rest] eqn:Et. destruct ds as [|d ds]; [done|].
      case_decide as Ht; [|done]. destruct rest; [|done]. intros [= <-].
      apply take_digits_spec in Et as [-> Hds]. rewrite app_nil_r. split; [done|].
      exists (d :: ds). split_and!; [done|done|]. by left.
  - intros [Hty ([|d ds] & Hne & Hds & Hcase)]; [done|]. destruct Hcase as [[-> ->]|(Hmin & -> & ->)].
    + pose proof (Forall_inv Hds) as Hd. assert (digits_text (d :: ds) = digit_char d :: digits_text ds) as Hc by done.
      rewrite Hc. unfold from_chars. rewrite digit_char_minus by done. cbn [andb]. rewrite <-Hc.
      rewrite take_digits_text by done. by rewrite decide_True.
    + unfold from_chars. rewrite Ascii.eqb_refl, (proj2 (Z.ltb_lt _ _)) by done. cbn [andb].
      rewrite take_digits_text by done. by rewrite decide_True.
Qed.

Lemma parse_integral_range ty t z : parse_integral ty t = Some z → in_type ty z.
Proof. by intros [? _]%parse_integral_numeral. Qed.

Lemma parse_integral_print ty z :
  in_type ty z → int_min ty ≤ 0 → parse_integral ty (print_decimal z) = Some z.
Proof.
  intros Hz Hm. pose proof (from_chars_print ty z Hz Hm) as Hp. unfold parse_integral.
  destruct (print_decimal z); [done|]. by rewrite Hp.
Qed.

(** ** The schema *)

Definition event_type_name (type : EventType) : text :=
  match type with
  | Add => txt "ADD" | Cancel => txt "CANCEL" | Modify => txt "MODIFY" | Execute => txt "EXECUTE"
  end.

Definition side_name (side : Side) : text :=
  match side with Buy => txt "B" | Sell => txt "S" end.

Lemma parse_event_type_iff t type : parse_event_type t = Some type ↔ t = event_type_name type.
Proof.
  unfold parse_event_type. split.
  - repeat case_decide; by intros [= <-].
  - intros ->. by destruct type.
Qed.

Lemma parse_side_iff t side : parse_side t = Some side ↔ t = side_name side.
Proof.
  unfold parse_side. split.
  - repeat case_decide; by intros [= <-].
  - intros ->. by destruct side.
Qed.

(** The last three columns a row of each type carries. *)
Inductive row_operands : EventType → text → text → text → Side → Z → Z → Prop :=
| add_operands side price quantity p q :
    numeral int64 price p → numeral uint64 quantity q →
    row_operands Add (side_name side) price quantity side p q
| cancel_operands : row_operands Cancel [] [] [] Buy 0 0
| modify_operands price quantity p q :
    numeral int64 price p → numeral uint64 quantity q →
    row_operands Modify [] price quantity Buy p q
| execute_operands price quantity p q :
    numeral int64 price p → numeral uint64 quantity q →
    row_operands Execute [] price quantity Buy p q.

(** The rows of the schema and the events they denote. *)
Inductive row_event : list text → MarketEvent → Prop :=
| row_event_intro ts type id side price quantity t i sd p q :
    numeral int64 ts t → numeral uint64 id i →
    row_operands type side price quantity sd p q →
    row_event [ts; event_type_name type; id; side; price; quantity]
      (MkEvent type (MkTimestamp t) (MkOrderId i) sd (MkPrice p) (MkQuantity q)).

Lemma parse_operands_iff type side price quantity sd p q :
  parse_operands type side price quantity = inr (sd, p, q) ↔
  row_operands type side price quantity sd p q.
Proof.
  split.
  - destruct type; simpl; unfold parse_add, parse_cancel, parse_modify, parse_execute;
      simpl; repeat case_match; try done; intros [= <- <- <-]; subst;
      repeat match goal with
      | H : parse_side _ = Some _ |- _ => apply parse_side_iff in H; subst
      | H : parse_integral _ _ = Some _ |- _ => apply parse_integral_numeral in H
      end; by constructor.
  - destruct 1; simpl; unfold parse_add, parse_modify, parse_execute;
      rewrite ?(proj2 (parse_side_iff _ _) eq_refl);
      repeat match goal with
      | H : numeral _ _ _ |- _ => apply parse_integral_numeral in H; rewrite H
      end; done.
Qed.

Lemma parse_columns_iff columns e : parse_columns columns = inr e ↔ row_event columns e.
Proof.
  split.
  - unfold parse_columns. do 7 (destruct columns as [|? columns]; try done).
    destruct (parse_integral int64 _) eqn:Et; [|done]. destruct (parse_event_type _) eqn:Ety; [|done].
    destruct (parse_integral uint64 _) eqn:Ei; [|done].
    destruct (parse_operands _ _ _ _) as [|[[sd p] q]] eqn:Eo; [done|]. intros [= <-].
    apply parse_integral_numeral in Et, Ei. apply parse_event_type_iff in Ety as ->.
    apply parse_operands_iff in Eo. by constructor.
  - intros [ts type id side price quantity t i sd p q Ht Hi Ho]. simpl.
    apply parse_integral_numeral in Ht, Hi. apply parse_operands_iff in Ho.
    rewrite Ht, Hi, (proj2 (parse_event_type_iff _ _) eq_refl), Ho. done.
Qed.

(** Every failure has a message. *)
Lemma parse_columns_message columns m : parse_columns columns = inl m → m ≠ [].
Proof.
  unfold parse_columns, parse_operands, parse_add, parse_cancel, parse_modify, parse_execute.
  intros Hm. repeat case_match; simplify_eq; done.
Qed.

Lemma parse_row_event line row e :
  (status (parse_row line row) = Event ∧ event (parse_row line row) = Some e) ↔
  row_event (trim <$> split_on "," row) e.
Proof.
  unfold parse_row. rewrite split_csv_columns_spec, <-parse_columns_iff.
  destruct (parse_columns _) as [m|e']; simpl; [naive_solver|].
  split; [by intros [_ [= ->]]|by intros [= ->]].
Qed.

(** A parsed event fits its machine types. *)
Lemma row_event_wf columns e : row_event columns e → event_wf e.
Proof.
  intros [ts type id side price quantity t i sd p q [Ht _] [Hi _] Ho].
  assert (in_type int64 p ∧ in_type uint64 q) as [Hp Hq].
  { destruct Ho as [? ? ? ? ? [] []| |? ? ? ? [] []|? ? ? ? [] []]; done. }
  unfold in_type, int64, uint64 in *; simpl in *.
  split; simpl; unfold is_i64, is_u64, quantity_wf, is_u64; simpl; lia.
Qed.

(** ** Formatting events *)

Definition format_operands (e : MarketEvent) : list text :=
  match ev_type e with
  | Add => [side_name (ev_side e); print_decimal (ticks (ev_price e)); print_decimal (units (ev_quantity e))]
  | Cancel => [[]; []; []]
  | Modify | Execute => [[]; print_decimal (ticks (ev_price e)); print_decimal (units (ev_quantity e))]
  end.

Definition format_columns (e : MarketEvent) : list text :=
  print_decimal (nanoseconds (ev_timestamp e)) :: event_type_name (ev_type e)
  :: print_decimal (value (ev_order_id e)) :: format_operands e.

Fixpoint join_columns (columns : list text) : text :=
  match columns with
  | [] => []
  | [c] => c
  | c :: columns' => c ++ ","%char :: join_columns columns'
  end.

Definition format_row (e : MarketEvent) : text := join_columns (format_columns e).

(** An event as its row carries it: the fields a row leaves out have their
    defaults. *)
Definition canonical (e : MarketEvent) : MarketEvent :=
  match ev_type e with
  | Add => e
  | Cancel => MkEvent Cancel (ev_timestamp e) (ev_order_id e) Buy (MkPrice 0) (MkQuantity 0)
  | ty => MkEvent ty (ev_timestamp e) (ev_order_id e) Buy (ev_price e) (ev_quantity e)
  end.

(** Characters a column may hold for the row to read back. *)
Definition plain (c : ascii) : bool :=
  negb (is_blank c) && negb (c =? ",")%char && negb (c =? newline)%char.

Lemma plain_digit d : 0 ≤ d < 10 → plain (digit_char d) = true.
Proof.
  intros Hd.
  assert (d = 0 ∨ d = 1 ∨ d = 2 ∨ d = 3 ∨ d = 4 ∨ d = 5 ∨ d = 6 ∨ d = 7 ∨ d = 8 ∨ d = 9) as Hc by lia.
  by repeat destruct Hc as [->|Hc]; [..|subst].
Qed.

Lemma plain_decimal z : Forall plain (print_decimal z).
Proof.
  assert (∀ n, 0 ≤ n → Forall plain (print_digits 10 n)) as Hd.
  { intros n Hn. rewrite print_digits_values. apply Forall_fmap.
    eapply Forall_impl; [by apply (digit_values_range _ 10)|].
    intros d Hr. simpl. by rewrite plain_digit. }
  unfold print_decimal. destruct (Z.ltb_spec z 0); [constructor; [done|]|]; apply Hd; lia.
Qed.

Lemma plain_event_type type : Forall plain (event_type_name type).
Proof. destruct type; vm_compute; repeat constructor. Qed.

Lemma plain_side side : Forall plain (side_name side).
Proof. destruct side; vm_compute; repeat constructor. Qed.

Lemma plain_columns e : Forall (Forall plain) (format_columns e).
Proof.
  unfold format_columns, format_operands.
  destruct (ev_type e);
    repeat first [apply plain_decimal|apply plain_event_type|apply plain_side|constructor].
Qed.

Lemma plain_not_elem c t : plain c = false → Forall plain t → c ∉ t.
Proof. rewrite Forall_forall. intros Hc Ht Hin. apply Ht in Hin. by rewrite Hc in Hin. Qed.

Lemma remove_blank_prefix_plain t : Forall plain t → remove_blank_prefix t = t.
Proof.
  destruct 1 as [|c t Hc _]; [done|]. simpl. unfold plain in Hc.
  destruct (is_blank c); [done|]. done.
Qed.

Lemma trim_plain t : Forall plain t → trim t = t.
Proof.
  intros Ht. unfold trim. rewrite (remove_blank_prefix_plain t) by done.
  rewrite remove_blank_prefix_plain; [apply reverse_involutive|]. by rewrite Forall_reverse.
Qed.

Lemma split_join columns :
  columns ≠ [] → Forall (Forall plain) columns → split_on "," (join_columns columns) = columns.
Proof.
  intros Hne Hp. induction Hp as [|c columns Hc Hp IH]; [done|].
  assert (","%char ∉ c) as Hn by by apply plain_not_elem.
  destruct columns as [|c' columns]; [by apply split_on_none|].
  change (join_columns (c :: c' :: columns)) with (c ++ ","%char :: join_columns (c' :: columns)).
  by rewrite split_on_cons, IH.
Qed.

Lemma trim_columns columns : Forall (Forall plain) columns → trim <$> columns = columns.
Proof.
  induction 1 as [|c columns Hc _ IH]; [done|]. rewrite fmap_cons, IH. by rewrite trim_plain.
Qed.

Lemma parse_format_columns e :
  event_wf e → parse_columns (split_csv_columns (format_row e)) = inr (canonical e).
Proof.
  intros [Ht Hi Hp Hq]. pose proof (plain_columns e) as Hpl. unfold format_row.
  rewrite split_csv_columns_spec, split_join, trim_columns by done.
  unfold is_i64, is_u64, quantity_wf, is_u64 in *.
  assert (∀ z, - two63 ≤ z < two63 → parse_integral int64 (print_decimal z) = Some z) as H64
    by (intros z Hz; apply parse_integral_print; unfold in_type; simpl; lia).
  assert (∀ z, 0 ≤ z < two64 → parse_integral uint64 (print_decimal z) = Some z) as HU64
    by (intros z Hz; apply parse_integral_print; unfold in_type; simpl; lia).
  destruct e as [ty [t] [i] sd [p] [q]]; simpl in *. unfold format_columns, format_operands. simpl.
  rewrite H64, HU64, (proj2 (parse_event_type_iff _ _) eq_refl) by done.
  destruct ty; simpl; unfold parse_add, parse_modify, parse_execute; simpl;
    rewrite ?(proj2 (parse_side_iff _ _) eq_refl), ?H64, ?HU64 by done; done.
Qed.

Lemma format_row_plain e : newline ∉ format_row e.
Proof.
  unfold format_row. pose proof (plain_columns e) as Hp.
  assert (∀ columns, Forall (Forall plain) columns → newline ∉ join_columns columns) as Hj; [|by apply Hj].
  induction 1 as [|c columns Hc Hcs IH]; [apply not_elem_of_nil|].
  assert (newline ∉ c) as Hn by by apply plain_not_elem.
  destruct columns as [|c' columns]; [done|].
  change (join_columns (c :: c' :: columns)) with (c ++ ","%char :: join_columns (c' :: columns)).
  rewrite not_elem_of_app, not_elem_of_cons. by split_and!.
Qed.

(** ** Reading a file *)

(** The lines of a file; a last line without newline counts. *)
Fixpoint text_lines (t : text) : list text :=
  match t with
  | [] => []
  | c :: t' =>
      if (c =? newline)%char then [] :: text_lines t'
      else match text_lines t' with
           | [] => [[c]]
           | l :: ls => (c :: l) :: ls
           end
  end.

Lemma getline_lines t :
  match getline t with
  | None => text_lines t = []
  | Some (row, rest) => text_lines t = row :: text_lines rest
  end.
Proof.
  destruct t as [|c t]; [done|]. cbn [getline].
  assert (∀ c t, text_lines (c :: t) = (read_line (c :: t)).1 :: text_lines (read_line (c :: t)).2) as Hl.
  { clear. intros c t. revert c. induction t as [|c' t IH]; intros c.
    - simpl. by destruct (c =? newline)%char.
    - simpl. simpl in IH. destruct (c =? newline)%char; [done|].
      rewrite (IH c'). by destruct (c' =? newline)%char. }
  rewrite (Hl c t). by destruct (read_line (c :: t)).
Qed.

Lemma text_lines_length t : (length (text_lines t) ≤ length t)%nat.
Proof.
  induction t as [|c t IH]; simpl; [lia|]. destruct (c =? newline)%char; simpl; [lia|].
  destruct (text_lines t); simpl in *; lia.
Qed.

Lemma text_lines_row w t :
  newline ∉ w → text_lines (w ++ newline :: t) = w :: text_lines t.
Proof.
  induction w as [|c w IH]; intros Hw; [done|].
  apply not_elem_of_cons in Hw as [Hc Hw]. simpl.
  rewrite (proj2 (Ascii.eqb_neq _ _)) by congruence. by rewrite IH.
Qed.

(** What the successive calls of [next] return, from the lines of the file. *)
Definition feed_rows (line : Z) (rows : list text) : list CsvParseResult :=
  imap (λ i row, parse_row (wrap64 (line + 1 + Z.of_nat i)) row) rows.

Definition feed (content : text) : list CsvParseResult :=
  match text_lines content with
  | [] => []
  | header :: rows =>
      if decide (trim header = kExpectedHeader) then feed_rows 1 rows
      else [malformed 1 (txt "invalid CSV header") header]
  end.

(** [reads p rs]: the calls of [next] on [p] return [rs], then the end. *)
Inductive reads : CsvParser → list CsvParseResult → Prop :=
| reads_end p p' : next p = (end_of_file, p') → reads p []
| reads_more p r p' rs :
    next p = (r, p') → status r ≠ EndOfFile → reads p' rs → reads p (r :: rs).

(** The loop that calls [next] until the end of the file. *)
Fixpoint drain (fuel : nat) (p : CsvParser) : option (list CsvParseResult) :=
  match fuel with
  | O => None
  | S fuel =>
      let '(r, p') := next p in
      match status r with
      | EndOfFile => Some []
      | _ => cons r <$> drain fuel p'
      end
  end.

Lemma drain_reads p rs fuel : reads p rs → (length rs < fuel)%nat → drain fuel p = Some rs.
Proof.
  intros Hr. revert fuel. induction Hr as [p p' Hn|p r p' rs Hn Hs _ IH]; intros fuel Hf;
    (destruct fuel as [|fuel]; simpl in *; [lia|]); rewrite Hn; [done|].
  rewrite IH by lia. by destruct (status r).
Qed.

Lemma drain_more fuel p rs fuel' :
  drain fuel p = Some rs → (fuel ≤ fuel')%nat → drain fuel' p = Some rs.
Proof.
  revert p rs fuel'. induction fuel as [|fuel IH]; intros p rs fuel' Hd Hle; [done|].
  destruct fuel' as [|fuel']; [lia|]. simpl in *. destruct (next p) as [r p'].
  destruct (status r); [| |done]; apply fmap_Some in Hd as (rs' & Hd & ->);
    by rewrite (IH _ _ fuel' Hd) by lia.
Qed.

Lemma next_path p : input_path_ (next p).2 = input_path_ p.
Proof. unfold next, next_row. repeat case_match; done. Qed.

Lemma parse_row_status line row : status (parse_row line row) ≠ EndOfFile.
Proof. unfold parse_row. by destruct (parse_columns _). Qed.

Lemma reads_rows path rest line :
  reads (MkParser path (Some rest) line true true) (feed_rows line (text_lines rest)).
Proof.
  remember (text_lines rest) as rows eqn:Hrows. revert rest line Hrows.
  induction rows as [|row rows IH]; intros rest line Hrows; pose proof (getline_lines rest) as Hg;
    destruct (getline rest) as [[row' rest']|] eqn:Eg; try congruence.
  - eapply reads_end. unfold next, next_row. simpl. by rewrite Eg.
  - rewrite Hg in Hrows. injection Hrows as <- Hrows. unfold feed_rows. simpl. rewrite Z.add_0_r.
    eapply reads_more; [unfold next, next_row; simpl; by rewrite Eg|apply parse_row_status|].
    specialize (IH rest' (add64 line 1) Hrows). unfold feed_rows in IH.
    erewrite imap_ext; [exact IH|]. intros i x _. simpl. f_equal. unfold add64.
    rewrite <-!(Z.add_assoc _ 1), wrap64_add_l. f_equal. lia.
Qed.

Lemma reads_first p p' rs : next p = next p' → reads p' rs → reads p rs.
Proof.
  intros Hn Hr. destruct Hr as [p' q Hq|p' r q rs Hq Hs Hr].
  - eapply reads_end. by rewrite Hn.
  - eapply reads_more; [by rewrite Hn|done|done].
Qed.

Lemma open_reads files path content :
  files path = Some content → reads (open files path) (feed content).
Proof.
  intros Hf. unfold open. rewrite Hf. unfold feed. pose proof (getline_lines content) as Hg.
  destruct (getline content) as [[header rest]|] eqn:Eg; rewrite Hg.
  - case_decide as Hh.
    + eapply reads_first; [|apply (reads_rows path)].
      unfold next. simpl. by rewrite Eg, decide_True.
    + eapply reads_more; [unfold next; simpl; by rewrite Eg, decide_False|done|].
      by eapply reads_end.
  - eapply reads_end. unfold next. simpl. by rewrite Eg.
Qed.

Lemma feed_length content : (length (feed content) ≤ length content)%nat.
Proof.
  pose proof (text_lines_length content). unfold feed. destruct (text_lines content) as [|h rows]; simpl in *; [lia|].
  case_decide; [|simpl; lia]. unfold feed_rows. rewrite length_imap. lia.
Qed.

(** Every event the feed delivers fits its machine types. *)
Lemma feed_event_wf content r e : r ∈ feed content → event r = Some e → event_wf e.
Proof.
  assert (∀ line row, event (parse_row line row) = Some e → event_wf e) as Hrow.
  { intros line row He. unfold parse_row in He. destruct (parse_columns _) eqn:Ep; [done|].
    injection He as ->. apply parse_columns_iff in Ep. by eapply row_event_wf. }
  unfold feed. destruct (text_lines content) as [|h rows]; [by intros ?%elem_of_nil|].
  case_decide.
  - unfold feed_rows. intros (i & row & -> & _)%elem_of_lookup_imap_1 He. by eapply Hrow.
  - by intros ->%list_elem_of_singleton.
Qed.

(** The file whose rows are the given events. *)
Definition format_file (events : list MarketEvent) : text :=
  kExpectedHeader ++ newline :: mjoin ((λ e, format_row e ++ [newline]) <$> events).

Lemma feed_format_file events :
  Forall event_wf events →
  feed (format_file events)
  = imap (λ i e, MkResult Event (Some (canonical e)) (wrap64 (2 + Z.of_nat i)) [] (format_row e)) events.
Proof.
  intros Hwf. unfold feed, format_file.
  assert (newline ∉ kExpectedHeader) as Hnl
    by (apply (bool_decide_eq_true_1 (newline ∉ kExpectedHeader)); vm_compute; reflexivity).
  assert (trim kExpectedHeader = kExpectedHeader) as Htrim by (vm_compute; reflexivity).
  rewrite text_lines_row, decide_True by done.
  assert (∀ es, text_lines (mjoin ((λ e, format_row e ++ [newline]) <$> es)) = format_row <$> es) as Hl.
  { induction es as [|e es IH]; [done|]. rewrite !fmap_cons. simpl mjoin. rewrite <-app_assoc. simpl.
    rewrite text_lines_row by apply format_row_plain. by f_equal. }
  rewrite Hl. unfold feed_rows. rewrite imap_fmap. apply imap_ext. intros i e He. simpl.
  rewrite Forall_forall in Hwf. apply list_elem_of_lookup_2, Hwf in He.
  unfold parse_row. by rewrite parse_format_columns.
Qed.
