(* ===== verification/CsvProperties.v ===== *)
(** * Properties of the CSV feed

    Which rows are events, what is reported for the others, and what the loop
    that reads a whole file delivers. *)
From S2P Require Import Prelude CoreTypes Text CsvParser CsvLaws.
From Stdlib Require Import Ascii.
Import CsvParser.
#[local] Open Scope Z_scope.

(** C14: [parse_row] accepts exactly the rows of the schema.  A row whose
    trimmed columns denote an event is returned as that event; any other row
    is reported as malformed, with a message, its line number and the row
    itself. *)
Theorem parse_row_exact line row :
  (∃ e, row_event (trim <$> split_on "," row) e ∧
        parse_row line row = MkResult Event (Some e) line [] row) ∨
  (¬ (∃ e, row_event (trim <$> split_on "," row) e) ∧
   ∃ m, m ≠ [] ∧ parse_row line row = malformed line m row).
Proof.
  unfold parse_row. rewrite split_csv_columns_spec.
  destruct (parse_columns _) as [m|e] eqn:Ep.
  - right. split.
    + intros [e He%parse_columns_iff]. congruence.
    + exists m. split; [by eapply parse_columns_message|done].
  - left. exists e. split; [by apply parse_columns_iff|done].
Qed.

(** C38: the message names the first thing wrong, checked from left to right:
    the number of columns, the time stamp, the event type, the order id. *)
Theorem parse_row_first_error line row :
  let columns := trim <$> split_on "," row in
  match columns with
  | [ts; type; id; side; price; quantity] =>
      (¬ (∃ t, numeral int64 ts t) →
         parse_row line row = malformed line (txt "invalid timestamp_ns") row) ∧
      ((∃ t, numeral int64 ts t) → ¬ (∃ ty, type = event_type_name ty) →
         parse_row line row = malformed line (txt "unknown event_type") row) ∧
      ((∃ t, numeral int64 ts t) → (∃ ty, type = event_type_name ty) → ¬ (∃ i, numeral uint64 id i) →
         parse_row line row = malformed line (txt "invalid order_id") row)
  | _ => parse_row line row = malformed line (txt "expected 6 columns") row
  end.
Proof.
  intros columns. unfold parse_row. rewrite split_csv_columns_spec. fold columns.
  do 6 (destruct columns as [|? columns]; [done|]). destruct columns; [|done]. simpl.
  setoid_rewrite <-parse_integral_numeral. setoid_rewrite <-parse_event_type_iff.
  split_and!.
  - intros Hn. destruct (parse_integral int64 _); [naive_solver|done].
  - intros [t ->] Hn. destruct (parse_event_type _); [naive_solver|done].
  - intros [t ->] [ty ->] Hn. destruct (parse_integral uint64 _); [naive_solver|done].
Qed.

(** C15: reading a file always comes to its end.  After at most one call of
    [next] per character of the file, and one more, the loop ends; every line
    after the header is parsed once, in order, with its number; a bad header
    is reported as line 1 and nothing after it is read. *)
Theorem drain_feed files path content fuel :
  files path = Some content → (length content < fuel)%nat →
  drain fuel (open files path) = Some (feed content).
Proof.
  intros Hf Hl. apply drain_reads; [by apply open_reads|].
  pose proof (feed_length content). lia.
Qed.

Definition sample_file : text :=
  kExpectedHeader ++ newline :: txt "7,ADD,1,B,100,10" ++ newline :: txt " 8 ,CANCEL,1,,," ++ newline ::
  newline :: txt "9,ADD,18446744073709551616,B,1,1".

Lemma drain_feed_witness :
  drain 200 (open (λ _, Some sample_file) (txt "events.csv"))
  = Some [MkResult Event (Some (MkEvent Add (MkTimestamp 7) (MkOrderId 1) Buy (MkPrice 100) (MkQuantity 10)))
            2 [] (txt "7,ADD,1,B,100,10");
          MkResult Event (Some (MkEvent Cancel (MkTimestamp 8) (MkOrderId 1) Buy (MkPrice 0) (MkQuantity 0)))
            3 [] (txt " 8 ,CANCEL,1,,,");
          malformed 4 (txt "expected 6 columns") [];
          malformed 5 (txt "invalid order_id") (txt "9,ADD,18446744073709551616,B,1,1")].
Proof.
  rewrite (drain_feed (λ _, Some sample_file) (txt "events.csv") sample_file 200 eq_refl).
  - vm_compute. reflexivity.
  - apply (bool_decide_eq_true_1 (length sample_file < 200)%nat). vm_compute. reflexivity.
Defined.

(** C8: formatting then parsing is the identity.  A file with one row per
    event, fields printed in decimal, reads back as those events, in order
    and without error (fields a row of that type leaves out read as their
    defaults). *)
Theorem format_parse_roundtrip files path events fuel :
  Forall event_wf events → files path = Some (format_file events) →
  (length (format_file events) < fuel)%nat →
  drain fuel (open files path)
  = Some (imap (λ i e, MkResult Event (Some (canonical e)) (wrap64 (2 + Z.of_nat i)) [] (format_row e)) events).
Proof.
  intros Hwf Hf Hl. rewrite <-(feed_format_file events Hwf).
  apply drain_reads; [by apply open_reads|]. pose proof (feed_length (format_file events)). lia.
Qed.

Definition roundtrip_events : list MarketEvent :=
  [MkEvent Add (MkTimestamp (-5)) (MkOrderId 18446744073709551615) Sell (MkPrice (-9223372036854775808))
     (MkQuantity 1);
   MkEvent Execute (MkTimestamp 9) (MkOrderId 2) Buy (MkPrice 0) (MkQuantity 30)].

Lemma format_parse_roundtrip_witness :
  option_map (fmap event) (drain 200 (open (λ _, Some (format_file roundtrip_events)) (txt "x")))
  = Some (Some <$> roundtrip_events).
Proof.
  rewrite (format_parse_roundtrip (λ _, Some (format_file roundtrip_events)) (txt "x") roundtrip_events 200).
  - reflexivity.
  - unfold roundtrip_events. repeat constructor; simpl; try (by split); unfold two63, two64; lia.
  - reflexivity.
  - apply (bool_decide_eq_true_1 (length (format_file roundtrip_events) < 200)%nat). vm_compute. reflexivity.
Defined.

(** The end of a file is final, but a file that did not open has none:
    [next] reports it as a malformed row for ever, so a caller must ask
    [is_open] first, as the replay engine does. *)
Theorem feed_ends files p :
  (∀ p', next p = (end_of_file, p') → next p' = (end_of_file, p')) ∧
  (∀ path fuel, files path = None →
     is_open (open files path) = false ∧ drain fuel (open files path) = None).
Proof.
  split.
  - intros p' Hn. unfold next in *. destruct (input_ p) as [input|] eqn:Hin; [|done].
    destruct (header_checked_ p) eqn:Hc.
    + assert (p' = p) as ->; [|by rewrite Hin, Hc].
      destruct (header_valid_ p); [|by injection Hn]. unfold next_row in Hn.
      destruct (input_ p ≫= getline) as [[row rest]|]; [|by injection Hn].
      injection Hn as Hn _. pose proof (parse_row_status (add64 (line_number_ p) 1) row) as Hs. by rewrite Hn in Hs.
    + destruct (getline input) as [[header rest]|] eqn:Eg.
      * case_decide; [|done]. unfold next_row in Hn. simpl in Hn.
        destruct (getline rest) as [[row rest']|] eqn:Eg'.
        { injection Hn as Hn _. match type of Hn with parse_row ?l ?r = _ =>
            pose proof (parse_row_status l r) as Hs; by rewrite Hn in Hs end. }
        injection Hn as <-. simpl. unfold next_row. simpl. by rewrite Eg'.
      * injection Hn as <-. simpl. destruct (header_valid_ p); [|done].
        unfold next_row. simpl. by rewrite Eg.
  - intros path fuel Hf. unfold open. rewrite Hf. split; [done|].
    induction fuel as [|fuel IH]; [done|]. simpl. by rewrite IH.
Qed.

Lemma feed_ends_witness :
  drain 1000 (open (λ _, None) (txt "missing.csv")) = None.
Proof. exact (proj2 (proj2 (feed_ends (λ _, None) (open (λ _, None) (txt "x"))) (txt "missing.csv") 1000%nat eq_refl)). Defined.

(** The parsers some calls of [next] lead to. *)
Inductive advanced : CsvParser → CsvParser → Prop :=
| advanced_refl p : advanced p p
| advanced_next p p' : advanced p p' → advanced p (next p').2.

(** [reset] starts over: after any number of calls the same file is read
    again from its header, with the same results and line numbers. *)
Theorem reset_starts_over files path p :
  advanced (open files path) p → reset files p = open files path.
Proof.
  intros Ha. unfold reset. enough (input_path_ p = path) as -> by done.
  remember (open files path) as p0 eqn:Hp0. induction Ha as [|p p' _ IH]; [by subst|].
  rewrite <-IH by done. apply next_path.
Qed.

Lemma reset_starts_over_witness :
  let p := (next (next (open (λ _, Some sample_file) (txt "a"))).2).2 in
  p ≠ open (λ _, Some sample_file) (txt "a") ∧
  reset (λ _, Some sample_file) p = open (λ _, Some sample_file) (txt "a").
Proof.
  intros p. split; [vm_compute; done|].
  apply (reset_starts_over (λ _, Some sample_file)). do 2 apply advanced_next. apply advanced_refl.
Defined.
