(* ===== verification/Double.v ===== *)
(** * IEEE 754 binary64

    The [double] arithmetic the anomaly detector uses, as the executable
    specification of the Standard Library at precision 53 and exponent bound
    1024: every operation is rounded to nearest even by itself (no fused or
    extended-precision evaluation), which is what the sources mean on a
    64-bit target. *)
From S2P Require Import Prelude.
From Stdlib Require Import SpecFloat.
#[local] Open Scope Z_scope.

Abbreviation double := spec_float.

(** [static_cast<double>] of an integer. *)
Definition of_int (z : Z) : double := binary_normalize 53 1024 z 0 false.

Definition dzero : double := S754_zero false.
Definition dadd (a b : double) : double := SFadd 53 1024 a b.
Definition dsub (a b : double) : double := SFsub 53 1024 a b.
Definition dmul (a b : double) : double := SFmul 53 1024 a b.
Definition ddiv (a b : double) : double := SFdiv 53 1024 a b.
Definition dsqrt (a : double) : double := SFsqrt 53 1024 a.
Definition dabs (a : double) : double := SFabs a.
Definition dopp (a : double) : double := SFopp a.

(** The comparisons; all false on a NaN. *)
Definition dlt (a b : double) : bool := SFltb a b.
Definition dle (a b : double) : bool := SFleb a b.

(** [std::max]: the first argument unless it is less than the second. *)
Definition dmax (a b : double) : double := if dlt a b then b else a.

Definition finite (a : double) : bool :=
  match a with S754_zero _ | S754_finite _ _ _ => true | _ => false end.

#[export] Instance double_eq_dec : EqDecision double.
Proof. solve_decision. Defined.

(** ** Exact cases *)

Lemma dsub_self a : finite a = true → dsub a a = dzero.
Proof.
  destruct a as [[]| | |s m e]; try done. intros _. unfold dsub, SFsub.
  rewrite Z.sub_diag. done.
Qed.

Lemma dadd_zero_r a : finite a = true → a ≠ S754_zero true → dadd a dzero = a.
Proof. by destruct a as [[]| | |]. Qed.

Lemma dadd_zero_l a : finite a = true → a ≠ S754_zero true → dadd dzero a = a.
Proof. by destruct a as [[]| | |]. Qed.

(** Anything finite times zero is a zero. *)
Lemma dmul_zero_r a s : finite a = true → ∃ s', dmul a (S754_zero s) = S754_zero s'.
Proof. destruct a; [eauto|done|done|]. simpl. eauto. Qed.

