(* ===== verification/AnomalyDetector.v ===== *)
(** * The anomaly monitor

    [anomaly/anomaly_detector.cpp]: the rolling windows and features of
    [FeatureExtractor], the online mean and variance of [EwmaZScoreDetector],
    and [AnomalyMonitor], which scores the features of each applied event.
    The book is any implementation of the order-book interface.  Subtracting
    time stamps is signed 64-bit arithmetic: out of range it is [UB]. *)
From S2P Require Import Prelude CoreTypes OrderedMap BookTypes BookSpec Double.
From Stdlib Require Import SpecFloat.
#[local] Open Scope Z_scope.

Record AnomalyConfig : Type := MkConfig {
  top_n_levels : Z;
  message_window_ns : Z;
  cancel_ratio_window_ns : Z;
  volatility_window_ns : Z;
  ewma_alpha : double;
  z_score_threshold : double;
  min_samples : Z
}.

(** [0.05] is the double nearest to one twentieth. *)
Definition default_config : AnomalyConfig :=
  MkConfig 5 1000000000 1000000000 100000000 (ddiv (of_int 1) (of_int 20)) (of_int 4) 20.

Record MicrostructureFeatures : Type := MkFeatures {
  f_timestamp : Timestamp;
  has_two_sided_book : bool;
  bid_ask_spread : option double;
  mid_price : option double;
  top_n_bid_depth : Z;
  top_n_ask_depth : Z;
  order_book_imbalance : option double;
  message_rate_ : double;
  cancel_add_ratio_ : double;
  mid_price_volatility : option double
}.

Record AnomalyEvent : Type := MkAnomaly {
  a_timestamp : Timestamp;
  a_order_id : OrderId;
  feature : string;
  reason : string;
  a_value : double;
  z_score : double
}.

(** [1e-9], the correctly rounded quotient of one by a billion. *)
Definition kVarianceFloor : double := ddiv (of_int 1) (of_int 1000000000).

Definition sum_depth (levels : list PriceLevelView) : Z :=
  foldl (λ total level, add64 total (units (plv_quantity level))) 0 levels.

Definition is_cancel (type : EventType) : bool := bool_decide (type = Cancel).
Definition is_add (type : EventType) : bool := bool_decide (type = Add).

(** ** Features *)
Module FeatureExtractor.

Record EventWindowEntry : Type := MkEntry { e_timestamp : Timestamp; e_type : EventType }.
Record MidPriceEntry : Type := MkMid { m_timestamp : Timestamp; m_mid_price : double }.

Record FeatureExtractor : Type := MkExtractor {
  config_ : AnomalyConfig;
  message_window_ : list EventWindowEntry;
  cancel_ratio_window_ : list EventWindowEntry;
  mid_price_window_ : list MidPriceEntry
}.

Definition make (config : AnomalyConfig) : FeatureExtractor := MkExtractor config [] [] [].

(** The [while] loops that drop the front of a window. *)
Fixpoint expire {A} (timestamp_of : A → Timestamp) (now : Timestamp) (window_ns : Z)
    (window : list A) : Exec (list A) :=
  match window with
  | [] => Ret []
  | front :: window' =>
      age ← sub_i64 (nanoseconds now) (nanoseconds (timestamp_of front));
      if window_ns <? age then expire timestamp_of now window_ns window' else Ret window
  end.

Definition window_seconds (window_ns : Z) : double := ddiv (of_int window_ns) (of_int 1000000000).

Definition expire_event_windows (timestamp : Timestamp) (x : FeatureExtractor)
    : Exec FeatureExtractor :=
  messages ← expire e_timestamp timestamp (message_window_ns (config_ x)) (message_window_ x);
  ratios ← expire e_timestamp timestamp (cancel_ratio_window_ns (config_ x)) (cancel_ratio_window_ x);
  Ret (MkExtractor (config_ x) messages ratios (mid_price_window_ x)).

Definition expire_mid_window (timestamp : Timestamp) (x : FeatureExtractor) : Exec FeatureExtractor :=
  mids ← expire m_timestamp timestamp (volatility_window_ns (config_ x)) (mid_price_window_ x);
  Ret (MkExtractor (config_ x) (message_window_ x) (cancel_ratio_window_ x) mids).

Definition message_rate (x : FeatureExtractor) : double :=
  let seconds := window_seconds (message_window_ns (config_ x)) in
  if dlt dzero seconds
  then ddiv (of_int (Z.of_nat (length (message_window_ x)))) seconds else dzero.

(** The counting loop: cancels and adds. *)
Definition count_entry (counts : Z * Z) (entry : EventWindowEntry) : Z * Z :=
  if is_cancel (e_type entry) then (add64 counts.1 1, counts.2)
  else if is_add (e_type entry) then (counts.1, add64 counts.2 1)
  else counts.

Definition cancel_add_ratio (x : FeatureExtractor) : double :=
  let counts := foldl count_entry (0, 0) (cancel_ratio_window_ x) in
  ddiv (of_int counts.1) (of_int (Z.max 1 counts.2)).

Definition mid_volatility (x : FeatureExtractor) : option double :=
  let window := mid_price_window_ x in
  if decide (length window < 2)%nat then None
  else
    let n := of_int (Z.of_nat (length window)) in
    let sum := foldl (λ sum entry, dadd sum (m_mid_price entry)) dzero window in
    let mean := ddiv sum n in
    let variance :=
      foldl (λ variance entry,
               let delta := dsub (m_mid_price entry) mean in
               dadd variance (dmul delta delta)) dzero window in
    Some (dsqrt (ddiv variance n)).

Definition extract `{OrderBook B} (event : MarketEvent) (book : B) (x : FeatureExtractor)
    : Exec (MicrostructureFeatures * FeatureExtractor) :=
  x ← expire_event_windows (ev_timestamp event) x;
  x ← expire_mid_window (ev_timestamp event) x;
  let entry := MkEntry (ev_timestamp event) (ev_type event) in
  let x := MkExtractor (config_ x) (message_window_ x ++ [entry])
             (cancel_ratio_window_ x ++ [entry]) (mid_price_window_ x) in
  let depth := ob_depth (top_n_levels (config_ x)) book in
  let bid_depth := sum_depth (depth_bids depth) in
  let ask_depth := sum_depth (depth_asks depth) in
  let top := ob_top_of_book book in
  match tob_bid top, tob_ask top with
  | Some best_bid, Some best_ask =>
      let bid := of_int (ticks (plv_price best_bid)) in
      let ask := of_int (ticks (plv_price best_ask)) in
      let mid := ddiv (dadd bid ask) (of_int 2) in
      let total_depth := add64 bid_depth ask_depth in
      let imbalance :=
        if 0 <? total_depth
        then Some (ddiv (dsub (of_int bid_depth) (of_int ask_depth)) (of_int total_depth))
        else None in
      let x := MkExtractor (config_ x) (message_window_ x) (cancel_ratio_window_ x)
                 (mid_price_window_ x ++ [MkMid (ev_timestamp event) mid]) in
      Ret (MkFeatures (ev_timestamp event) true (Some (dsub ask bid)) (Some mid)
             bid_depth ask_depth imbalance (message_rate x) (cancel_add_ratio x) (mid_volatility x), x)
  | _, _ =>
      Ret (MkFeatures (ev_timestamp event) false None None bid_depth ask_depth None
             (message_rate x) (cancel_add_ratio x) None, x)
  end.

Definition reset (x : FeatureExtractor) : FeatureExtractor := MkExtractor (config_ x) [] [] [].

End FeatureExtractor.

(** ** Scores *)
Module EwmaZScoreDetector.

Record State : Type := MkState { mean : double; variance : double; samples : Z }.

Definition new_state : State := MkState dzero dzero 0.

Record EwmaZScoreDetector : Type := MkDetector {
  config_ : AnomalyConfig;
  states_ : gmap string State
}.

Definition make (config : AnomalyConfig) : EwmaZScoreDetector := MkDetector config ∅.

Definition score (feature : string) (value : double) (d : EwmaZScoreDetector)
    : option double * EwmaZScoreDetector :=
  let state := default new_state (states_ d !! feature) in
  let z_score :=
    if min_samples (config_ d) <=? samples state
    then Some (ddiv (dsub value (mean state)) (dsqrt (dmax (variance state) kVarianceFloor)))
    else None in
  let state :=
    if samples state =? 0 then MkState value dzero 1
    else
      let alpha := ewma_alpha (config_ d) in
      let delta := dsub value (mean state) in
      MkState (dadd (mean state) (dmul alpha delta))
        (dmul (dsub (of_int 1) alpha)
           (dadd (variance state) (dmul (dmul alpha delta) delta)))
        (add64 (samples state) 1) in
  (z_score, MkDetector (config_ d) (<[feature := state]> (states_ d))).

Definition reset (d : EwmaZScoreDetector) : EwmaZScoreDetector := MkDetector (config_ d) ∅.

End EwmaZScoreDetector.

(** ** The monitor *)
Module AnomalyMonitor.

Inductive ScoreDirection : Type := Positive | Negative | Absolute.

Record AnomalyMonitor : Type := MkMonitor {
  config_ : AnomalyConfig;
  extractor_ : FeatureExtractor.FeatureExtractor;
  detector_ : EwmaZScoreDetector.EwmaZScoreDetector
}.

Definition make (config : AnomalyConfig) : AnomalyMonitor :=
  MkMonitor config (FeatureExtractor.make config) (EwmaZScoreDetector.make config).

Definition passes (direction : ScoreDirection) (z threshold : double) : bool :=
  match direction with
  | Positive => dle threshold z
  | Negative => dle z (dopp threshold)
  | Absolute => dle threshold (dabs z)
  end.

(** The anomalies found so far and the detector, both updated in place. *)
Definition maybe_emit (config : AnomalyConfig) (event : MarketEvent) (feature reason : string)
    (value : double) (direction : ScoreDirection)
    (s : list AnomalyEvent * EwmaZScoreDetector.EwmaZScoreDetector)
    : list AnomalyEvent * EwmaZScoreDetector.EwmaZScoreDetector :=
  let '(z, detector) := EwmaZScoreDetector.score feature value s.2 in
  match z with
  | None => (s.1, detector)
  | Some z =>
      if passes direction z (z_score_threshold config)
      then (s.1 ++ [MkAnomaly (ev_timestamp event) (ev_order_id event) feature reason value z], detector)
      else (s.1, detector)
  end.

(** [if (value.has_value()) maybe_emit(..., *value, ...)]. *)
Definition emit_option (config : AnomalyConfig) (event : MarketEvent) (feature reason : string)
    (value : option double) (direction : ScoreDirection)
    (s : list AnomalyEvent * EwmaZScoreDetector.EwmaZScoreDetector)
    : list AnomalyEvent * EwmaZScoreDetector.EwmaZScoreDetector :=
  match value with
  | Some value => maybe_emit config event feature reason value direction s
  | None => s
  end.

Definition observe `{OrderBook B} (event : MarketEvent) (book : B) (m : AnomalyMonitor)
    : Exec (list AnomalyEvent * AnomalyMonitor) :=
  '(features, extractor) ← FeatureExtractor.extract event book (extractor_ m);
  let emit := maybe_emit (config_ m) event in
  let emit_option := emit_option (config_ m) event in
  let s := ([], detector_ m) in
  let s := emit_option "bid_ask_spread" "spread_widening" (bid_ask_spread features) Positive s in
  let s :=
    if has_two_sided_book features then
      let s := emit "top_n_bid_depth" "bid_depth_collapse" (of_int (top_n_bid_depth features)) Negative s in
      emit "top_n_ask_depth" "ask_depth_collapse" (of_int (top_n_ask_depth features)) Negative s
    else s in
  let s := emit_option "order_book_imbalance" "imbalance_spike"
             (dabs <$> order_book_imbalance features) Positive s in
  let s := emit "message_rate" "message_rate_burst" (message_rate_ features) Positive s in
  let s := emit "cancel_add_ratio" "cancel_add_ratio_spike" (cancel_add_ratio_ features) Positive s in
  let s := emit_option "mid_price_volatility" "mid_volatility_spike"
             (mid_price_volatility features) Positive s in
  Ret (s.1, MkMonitor (config_ m) extractor s.2).

Definition reset (m : AnomalyMonitor) : AnomalyMonitor :=
  MkMonitor (config_ m) (FeatureExtractor.reset (extractor_ m)) (EwmaZScoreDetector.reset (detector_ m)).

End AnomalyMonitor.

(** ** Summaries *)

(** [std::less<std::string>]. *)
Definition string_less : string → string → bool := String.ltb.

(** [++counts[key]]. *)
Definition count_key (counts : list (string * Z)) (key : string) : list (string * Z) :=
  insert_or_assign string_less key (add64 (subscript string_less 0 key counts) 1) counts.

Definition summarize_anomaly_reasons (anomalies : list AnomalyEvent) : list (string * Z) :=
  foldl (λ counts anomaly, count_key counts (reason anomaly)) [] anomalies.

#[export] Instance string_less_comparator : Comparator string_less.
Proof.
  assert (∀ a b, string_less a b = negb (String.leb b a)) as Hl.
  { intros a b. unfold string_less, String.ltb, String.leb. rewrite (String.compare_antisym a b).
    by destruct (String.compare b a). }
  pose proof String.le_po as [[Hrefl Htrans] Hanti]. pose proof String.le_total as Htot.
  unfold Reflexive, Transitive, AntiSymm, Total, String.le in *.
  assert (∀ a b, String.leb a b = true ↔ Is_true (String.leb a b)) as Ht
    by (intros a b; by rewrite Is_true_true).
  split; intros *; rewrite !Hl.
  - specialize (Hrefl k). apply Ht in Hrefl. by rewrite Hrefl.
  - intros H1%negb_true_iff H2%negb_true_iff. apply negb_true_iff, not_true_iff_false.
    intros E%Ht. destruct (Htot k1 k2) as [H|H]; [|apply Ht in H; congruence].
    pose proof (Htrans _ _ _ E H) as H'. apply Ht in H'. congruence.
  - intros H1%negb_false_iff%Ht H2%negb_false_iff%Ht. by apply Hanti.
Qed.
