(* ===== verification/AnomalyLaws.v ===== *)
(** * Windows, scores and emissions

    The rolling windows hold exactly the recent events, the detector counts
    its samples, a constant feature scores zero, and [observe] hands its
    features to the detector one by one. *)
From S2P Require Import Prelude CoreTypes OrderedMap BookTypes BookSpec Double AnomalyDetector.
From Stdlib Require Import SpecFloat.
#[local] Open Scope Z_scope.

(** ** Windows *)
Section windows.
Context {A : Type} (timestamp_of : A → Timestamp).
Implicit Types (window : list A) (now : Timestamp).

Definition age now (x : A) : Z := nanoseconds now - nanoseconds (timestamp_of x).

(** No entry is so old, or so far in the future, that its age overflows. *)
Definition ages_ok now window : Prop := Forall (λ x, - two63 ≤ age now x < two63) window.

(** Oldest first. *)
Definition in_order window : Prop :=
  StronglySorted (λ x y, nanoseconds (timestamp_of x) ≤ nanoseconds (timestamp_of y)) window.

Lemma expire_suffix now w window :
  ages_ok now window →
  ∃ dropped kept, FeatureExtractor.expire timestamp_of now w window = Ret kept ∧
    window = dropped ++ kept ∧ Forall (λ x, w < age now x) dropped ∧
    match kept with [] => True | x :: _ => age now x ≤ w end.
Proof.
  intros Hok. induction Hok as [|x window Hx Hok IH]; [by exists [], []|].
  cbn [FeatureExtractor.expire]. unfold sub_i64. rewrite bool_decide_true by exact Hx.
  cbn [mbind Exec_bind]. destruct (Z.ltb_spec w (nanoseconds now - nanoseconds (timestamp_of x))).
  - destruct IH as (dropped & kept & -> & -> & Hd & Hk). exists (x :: dropped), kept.
    split_and!; [done|done|by constructor|done].
  - exists [], (x :: window). split_and!; [done|done|constructor|]. unfold age. lia.
Qed.

(** In order of time, dropping from the front is filtering by age. *)
Lemma expire_filter now w window :
  in_order window → ages_ok now window →
  FeatureExtractor.expire timestamp_of now w window = Ret (filter (λ x, age now x ≤ w) window).
Proof.
  intros Hs Hok. destruct (expire_suffix now w window Hok) as (dropped & kept & -> & -> & Hd & Hk).
  f_equal. rewrite filter_app.
  assert (filter (λ x, age now x ≤ w) dropped = []) as ->.
  { apply filter_none. eapply Forall_impl; [exact Hd|]. intros x Hx. simpl in Hx. lia. }
  rewrite filter_all; [done|].
  apply StronglySorted_app in Hs as (_ & _ & Hs). destruct kept as [|x kept]; [done|].
  apply StronglySorted_inv in Hs as [_ Hf]. constructor; [done|].
  eapply Forall_impl; [exact Hf|]. intros y Hy. unfold age in *. simpl in *. lia.
Qed.

End windows.

(** ** The detector *)

(** How many samples of a feature the detector has seen. *)
Definition samples_of (f : string) (d : EwmaZScoreDetector.EwmaZScoreDetector) : Z :=
  EwmaZScoreDetector.samples
    (default EwmaZScoreDetector.new_state (EwmaZScoreDetector.states_ d !! f)).

Lemma samples_score f g v d :
  is_u64 (samples_of f d) →
  samples_of g (EwmaZScoreDetector.score f v d).2
  = if decide (g = f) then wrap64 (samples_of f d + 1) else samples_of g d.
Proof.
  intros Hs. unfold samples_of, EwmaZScoreDetector.score in *. simpl. case_decide as Hg.
  - subst g. rewrite lookup_insert_eq. simpl.
    destruct (Z.eqb_spec (EwmaZScoreDetector.samples
      (default EwmaZScoreDetector.new_state (EwmaZScoreDetector.states_ d !! f))) 0) as [->|]; done.
  - by rewrite lookup_insert_ne.
Qed.

Lemma score_config f v d :
  EwmaZScoreDetector.config_ (EwmaZScoreDetector.score f v d).2 = EwmaZScoreDetector.config_ d.
Proof. done. Qed.

(** No score before [min_samples] samples. *)
Lemma score_warmup f v d :
  samples_of f d < min_samples (EwmaZScoreDetector.config_ d) →
  (EwmaZScoreDetector.score f v d).1 = None.
Proof.
  intros Hs. unfold EwmaZScoreDetector.score, samples_of in *. simpl.
  destruct (Z.leb_spec (min_samples (EwmaZScoreDetector.config_ d))
    (EwmaZScoreDetector.samples (default EwmaZScoreDetector.new_state
      (EwmaZScoreDetector.states_ d !! f)))); [lia|done].
Qed.

(** Every feature has at most [n] samples, those in [done] one more. *)
Definition sampled (n : Z) (done : list string) (d : EwmaZScoreDetector.EwmaZScoreDetector) : Prop :=
  ∀ f, 0 ≤ samples_of f d ≤ n + if decide (f ∈ done) then 1 else 0.

Lemma sampled_score n done f v d :
  0 ≤ n < two64 - 1 → f ∉ done → sampled n done d →
  sampled n (f :: done) (EwmaZScoreDetector.score f v d).2.
Proof.
  intros Hn Hf Hs g. pose proof (Hs f) as Hsf. rewrite decide_False in Hsf by done.
  rewrite samples_score by (unfold is_u64; lia).
  destruct (decide (g = f)) as [->|Hg].
  - rewrite wrap64_small by (unfold is_u64; lia). rewrite decide_True by left. lia.
  - specialize (Hs g). rewrite (decide_ext (g ∈ f :: done) (g ∈ done)); [done|].
    rewrite elem_of_cons. tauto.
Qed.

Lemma sampled_next n l d : sampled n l d → sampled (n + 1) [] d.
Proof.
  intros Hs f. specialize (Hs f). rewrite (decide_False (P:=f ∈ [])) by apply not_elem_of_nil.
  case_decide; lia.
Qed.

(** ** Emissions *)

(** A feature handed to [maybe_emit]. *)
Record Scored : Type := MkScored {
  s_feature : string;
  s_reason : string;
  s_value : double;
  s_direction : AnomalyMonitor.ScoreDirection
}.

Definition scored_option (feature reason : string) (value : option double) : list Scored :=
  match value with
  | Some v => [MkScored feature reason v AnomalyMonitor.Positive]
  | None => []
  end.

(** The features of an event in the order [observe] scores them. *)
Definition scored_features (f : MicrostructureFeatures) : list Scored :=
  scored_option "bid_ask_spread" "spread_widening" (bid_ask_spread f) ++
  (if has_two_sided_book f then
     [MkScored "top_n_bid_depth" "bid_depth_collapse" (of_int (top_n_bid_depth f)) AnomalyMonitor.Negative;
      MkScored "top_n_ask_depth" "ask_depth_collapse" (of_int (top_n_ask_depth f)) AnomalyMonitor.Negative]
   else []) ++
  scored_option "order_book_imbalance" "imbalance_spike" (dabs <$> order_book_imbalance f) ++
  [MkScored "message_rate" "message_rate_burst" (message_rate_ f) AnomalyMonitor.Positive;
   MkScored "cancel_add_ratio" "cancel_add_ratio_spike" (cancel_add_ratio_ f) AnomalyMonitor.Positive] ++
  scored_option "mid_price_volatility" "mid_volatility_spike" (mid_price_volatility f).

Abbreviation emission := (list AnomalyEvent * EwmaZScoreDetector.EwmaZScoreDetector)%type.

Definition emit_all (config : AnomalyConfig) (e : MarketEvent) (xs : list Scored) (s : emission) : emission :=
  foldl (λ s x, AnomalyMonitor.maybe_emit config e (s_feature x) (s_reason x) (s_value x) (s_direction x) s) s xs.

Lemma emit_all_app config e xs ys s :
  emit_all config e (xs ++ ys) s = emit_all config e ys (emit_all config e xs s).
Proof. apply foldl_app. Qed.

Lemma emit_option_all config e f r v s :
  AnomalyMonitor.emit_option config e f r v AnomalyMonitor.Positive s
  = emit_all config e (scored_option f r v) s.
Proof. by destruct v. Qed.

Lemma observe_emit_all `{OrderBook B} e (book : B) m :
  AnomalyMonitor.observe e book m
  = '(features, extractor) ← FeatureExtractor.extract e book (AnomalyMonitor.extractor_ m);
    let s := emit_all (AnomalyMonitor.config_ m) e (scored_features features)
               ([], AnomalyMonitor.detector_ m) in
    Ret (s.1, AnomalyMonitor.MkMonitor (AnomalyMonitor.config_ m) extractor s.2).
Proof.
  unfold AnomalyMonitor.observe. destruct (FeatureExtractor.extract e book _) as [[f x]|]; [|done].
  cbn [mbind Exec_bind]. unfold scored_features. rewrite !emit_all_app, !emit_option_all.
  destruct (has_two_sided_book f); cbn zeta;
    cbn [emit_all foldl s_feature s_reason s_value s_direction fst snd]; reflexivity.
Qed.

Lemma maybe_emit_cases config e f r v dir s :
  let z := (EwmaZScoreDetector.score f v s.2).1 in
  AnomalyMonitor.maybe_emit config e f r v dir s
  = (s.1 ++ match z with
            | Some z => if AnomalyMonitor.passes dir z (z_score_threshold config)
                        then [MkAnomaly (ev_timestamp e) (ev_order_id e) f r v z] else []
            | None => []
            end, (EwmaZScoreDetector.score f v s.2).2).
Proof.
  unfold AnomalyMonitor.maybe_emit. destruct (EwmaZScoreDetector.score f v s.2) as [[z|] d]; simpl.
  - destruct (AnomalyMonitor.passes _ _ _); [done|by rewrite app_nil_r].
  - by rewrite app_nil_r.
Qed.

Lemma emit_all_config config e xs s :
  EwmaZScoreDetector.config_ (emit_all config e xs s).2 = EwmaZScoreDetector.config_ s.2.
Proof.
  revert s. induction xs as [|x xs IH]; intros s; [done|]. cbn [emit_all foldl].
  unfold emit_all in IH. by rewrite IH, maybe_emit_cases.
Qed.

(** During warm-up nothing is emitted, and every feature gains one sample. *)
Lemma emit_all_warmup config e xs s n done :
  0 ≤ n < two64 - 1 → n < min_samples (EwmaZScoreDetector.config_ s.2) →
  NoDup (s_feature <$> xs) → (∀ x, x ∈ xs → s_feature x ∉ done) → sampled n done s.2 →
  (emit_all config e xs s).1 = s.1 ∧
  sampled n (reverse (s_feature <$> xs) ++ done) (emit_all config e xs s).2.
Proof.
  intros Hn Hmin. revert s done Hmin. induction xs as [|x xs IH]; intros s dn Hmin Hnd Hdis Hs; [done|].
  rewrite fmap_cons, NoDup_cons in Hnd. destruct Hnd as [Hx Hnd].
  pose proof (Hdis x (list_elem_of_here _ _)) as Hxd. pose proof (Hs (s_feature x)) as Hsx.
  rewrite decide_False in Hsx by done.
  cbn [emit_all foldl]. rewrite maybe_emit_cases, score_warmup by lia. rewrite app_nil_r.
  destruct (IH (s.1, (EwmaZScoreDetector.score (s_feature x) (s_value x) s.2).2) (s_feature x :: dn)) as [H1 H2].
  - done.
  - done.
  - intros y Hy. rewrite not_elem_of_cons. split; [|apply Hdis; by right].
    intros Heq. apply Hx. rewrite <-Heq. by apply list_elem_of_fmap_2.
  - by apply sampled_score.
  - split; [exact H1|]. rewrite fmap_cons, reverse_cons, <-app_assoc. exact H2.
Qed.

Lemma scored_features_NoDup f : NoDup (s_feature <$> scored_features f).
Proof.
  unfold scored_features.
  destruct (bid_ask_spread f), (has_two_sided_book f), (order_book_imbalance f), (mid_price_volatility f);
    apply (bool_decide_eq_true_1 (NoDup _)); vm_compute; reflexivity.
Qed.

(** ** A constant feature *)

(** The state [s] of a feature all whose samples were [v]: the mean is [v] and
    the variance a zero. *)
Definition steady_state (v : double) (s : EwmaZScoreDetector.State) : Prop :=
  EwmaZScoreDetector.mean s = v ∧ ∃ sign, EwmaZScoreDetector.variance s = S754_zero sign.

Definition steady (f : string) (v : double) (d : EwmaZScoreDetector.EwmaZScoreDetector) : Prop :=
  let s := default EwmaZScoreDetector.new_state (EwmaZScoreDetector.states_ d !! f) in
  EwmaZScoreDetector.samples s ≠ 0 → steady_state v s.

(** The scores of a sequence of samples of one feature. *)
Fixpoint score_all (f : string) (vs : list double) (d : EwmaZScoreDetector.EwmaZScoreDetector)
    : list (option double) * EwmaZScoreDetector.EwmaZScoreDetector :=
  match vs with
  | [] => ([], d)
  | v :: vs' =>
      let r := EwmaZScoreDetector.score f v d in
      let rs := score_all f vs' r.2 in
      (r.1 :: rs.1, rs.2)
  end.

Lemma dadd_zero a s : finite a = true → a ≠ S754_zero true → dadd a (S754_zero s) = a.
Proof. by destruct a as [[]| | |], s. Qed.

Lemma steady_step f v d :
  finite v = true → v ≠ S754_zero true →
  finite (ewma_alpha (EwmaZScoreDetector.config_ d)) = true →
  finite (dsub (of_int 1) (ewma_alpha (EwmaZScoreDetector.config_ d))) = true →
  1 ≤ min_samples (EwmaZScoreDetector.config_ d) → steady f v d →
  ((EwmaZScoreDetector.score f v d).1 = None ∨ (EwmaZScoreDetector.score f v d).1 = Some dzero) ∧
  ∃ s, EwmaZScoreDetector.states_ (EwmaZScoreDetector.score f v d).2 !! f = Some s ∧ steady_state v s.
Proof.
  intros Hv Hv0 Ha Ha1 Hmin Hs. unfold steady, EwmaZScoreDetector.score in *. cbn [fst snd EwmaZScoreDetector.states_].
  rewrite lookup_insert_eq.
  set (s := default EwmaZScoreDetector.new_state (EwmaZScoreDetector.states_ d !! f)) in *.
  destruct (Z.eqb_spec (EwmaZScoreDetector.samples s) 0) as [H0|H0].
  - rewrite H0, (proj2 (Z.leb_gt _ _)) by lia. split; [by left|]. eexists. split; [done|]. split; [done|]. by exists false.
  - destruct (Hs H0) as [Hm [sg Hvar]]. rewrite Hm, Hvar, (dsub_self v Hv). split.
    + destruct (min_samples _ <=? _); [right|by left]. reflexivity.
    + eexists. split; [done|]. unfold steady_state. cbn [EwmaZScoreDetector.mean EwmaZScoreDetector.variance].
      destruct (dmul_zero_r _ false Ha) as [s1 Hs1]. change (S754_zero false) with dzero in Hs1.
      rewrite Hs1. split; [by apply dadd_zero|].
      assert (∃ s2, dadd (S754_zero sg) (dmul (S754_zero s1) dzero) = S754_zero s2) as [s2 ->]
        by (destruct sg, s1; simpl; eauto).
      apply dmul_zero_r, Ha1.
Qed.

Lemma steady_scores f v d n :
  finite v = true → v ≠ S754_zero true →
  finite (ewma_alpha (EwmaZScoreDetector.config_ d)) = true →
  finite (dsub (of_int 1) (ewma_alpha (EwmaZScoreDetector.config_ d))) = true →
  1 ≤ min_samples (EwmaZScoreDetector.config_ d) → steady f v d →
  let scored := score_all f (replicate (S n) v) d in
  Forall (λ z, z = None ∨ z = Some dzero) scored.1 ∧
  ∃ s sign, EwmaZScoreDetector.states_ scored.2 !! f = Some s ∧
    EwmaZScoreDetector.mean s = v ∧ EwmaZScoreDetector.variance s = S754_zero sign.
Proof.
  intros Hv Hv0. revert d. induction n as [|n IH]; intros d Ha Ha1 Hmin Hs;
    destruct (steady_step f v d Hv Hv0 Ha Ha1 Hmin Hs) as [Hz (s & Hst & Hss)].
  - split; [constructor; [done|apply Forall_nil_2]|]. destruct Hss as [Hm [sign Hvar]]. by exists s, sign.
  - destruct (IH (EwmaZScoreDetector.score f v d).2) as [Hzs Hend]; [done..| |].
    { unfold steady. by rewrite Hst. }
    split; [by constructor|exact Hend].
Qed.

Lemma zero_never_passes dir threshold :
  dlt dzero threshold = true → AnomalyMonitor.passes dir dzero threshold = false.
Proof. by destruct dir, threshold as [[]|[]| |[] m e]. Qed.

(** ** Extraction *)

Definition entry_of (e : MarketEvent) : FeatureExtractor.EventWindowEntry :=
  FeatureExtractor.MkEntry (ev_timestamp e) (ev_type e).

Lemma extract_returns `{OrderBook B} e (book : B) x mw cw vw :
  let now := ev_timestamp e in
  let cfg := FeatureExtractor.config_ x in
  FeatureExtractor.expire FeatureExtractor.e_timestamp now (message_window_ns cfg)
    (FeatureExtractor.message_window_ x) = Ret mw →
  FeatureExtractor.expire FeatureExtractor.e_timestamp now (cancel_ratio_window_ns cfg)
    (FeatureExtractor.cancel_ratio_window_ x) = Ret cw →
  FeatureExtractor.expire FeatureExtractor.m_timestamp now (volatility_window_ns cfg)
    (FeatureExtractor.mid_price_window_ x) = Ret vw →
  ∃ f mids,
    let x' := FeatureExtractor.MkExtractor cfg (mw ++ [entry_of e]) (cw ++ [entry_of e]) (vw ++ mids) in
    FeatureExtractor.extract e book x = Ret (f, x') ∧
    Forall (λ y, FeatureExtractor.m_timestamp y = now) mids ∧
    message_rate_ f = FeatureExtractor.message_rate x' ∧
    cancel_add_ratio_ f = FeatureExtractor.cancel_add_ratio x'.
Proof.
  intros now cfg Hm Hc Hv. unfold FeatureExtractor.extract, FeatureExtractor.expire_event_windows.
  fold now. fold cfg. rewrite Hm. cbn [mbind Exec_bind]. rewrite Hc. cbn [mbind Exec_bind].
  unfold FeatureExtractor.expire_mid_window.
  cbn [FeatureExtractor.config_ FeatureExtractor.mid_price_window_ FeatureExtractor.message_window_
       FeatureExtractor.cancel_ratio_window_]. fold cfg. rewrite Hv. cbn [mbind Exec_bind].
  destruct (tob_bid _) as [bb|]; [destruct (tob_ask _) as [ba|]|].
  - eexists _, [_]. split_and!; [reflexivity|by constructor|reflexivity|reflexivity].
  - eexists _, []. rewrite app_nil_r. split_and!; [reflexivity|constructor|reflexivity|reflexivity].
  - eexists _, []. rewrite app_nil_r. split_and!; [reflexivity|constructor|reflexivity|reflexivity].
Qed.

(** ** Observing a stream *)
Section stream.
Context `{OrderBook B}.
Implicit Types (obs : list (MarketEvent * B)) (es : list MarketEvent).

(** Each applied event with the book as it is after it. *)
Fixpoint observe_all obs (m : AnomalyMonitor.AnomalyMonitor)
    : Exec (list (list AnomalyEvent) * AnomalyMonitor.AnomalyMonitor) :=
  match obs with
  | [] => Ret ([], m)
  | (e, book) :: obs' =>
      '(out, m) ← AnomalyMonitor.observe e book m;
      '(outs, m) ← observe_all obs' m;
      Ret (out :: outs, m)
  end.

(** Time stamps that cannot overflow when subtracted: any two less than 2^63
    nanoseconds apart. *)
Definition timestamps_close es : Prop :=
  ∀ e e', e ∈ es → e' ∈ es → nanoseconds (ev_timestamp e') - nanoseconds (ev_timestamp e) < two63.

Lemma timestamps_close_sub es es' : es ⊆ es' → timestamps_close es' → timestamps_close es.
Proof. intros Hs Hc e e' He He'. apply Hc; by apply Hs. Qed.

Lemma timestamps_close_prefix es es' : timestamps_close (es ++ es') → timestamps_close es.
Proof. apply timestamps_close_sub. intros e He. apply elem_of_app. by left. Qed.

(** In particular those that are not negative. *)
Definition timestamp_ok (e : MarketEvent) : Prop := 0 ≤ nanoseconds (ev_timestamp e) < two63.

Lemma timestamps_ok_close es : Forall timestamp_ok es → timestamps_close es.
Proof. rewrite Forall_forall. intros Hes e e' He He'. pose proof (Hes _ He). pose proof (Hes _ He'). unfold timestamp_ok in *. lia. Qed.

(** The windows hold time stamps of the events seen. *)
Definition windows_from es (x : FeatureExtractor.FeatureExtractor) : Prop :=
  Forall (λ y, FeatureExtractor.e_timestamp y ∈ ev_timestamp <$> es) (FeatureExtractor.message_window_ x) ∧
  Forall (λ y, FeatureExtractor.e_timestamp y ∈ ev_timestamp <$> es) (FeatureExtractor.cancel_ratio_window_ x) ∧
  Forall (λ y, FeatureExtractor.m_timestamp y ∈ ev_timestamp <$> es) (FeatureExtractor.mid_price_window_ x).

(** The entries not older than a window. *)
Definition recent (now : Timestamp) (window_ns : Z) es : list FeatureExtractor.EventWindowEntry :=
  filter (λ y, age FeatureExtractor.e_timestamp now y ≤ window_ns) (entry_of <$> es).

Lemma from_ages_ok {A} (ts : A → Timestamp) es e window :
  timestamps_close (es ++ [e]) → Forall (λ y, ts y ∈ ev_timestamp <$> es) window →
  ages_ok ts (ev_timestamp e) window.
Proof.
  intros Hes Hw. eapply Forall_impl; [exact Hw|]. intros y Hy. simpl in Hy.
  apply list_elem_of_fmap in Hy as (e' & Heq & He'). unfold age. rewrite Heq.
  assert (e' ∈ es ++ [e]) as H1 by (apply elem_of_app; by left).
  assert (e ∈ es ++ [e]) as H2 by (apply elem_of_app; right; by apply list_elem_of_singleton).
  pose proof (Hes _ _ H1 H2). pose proof (Hes _ _ H2 H1). lia.
Qed.

Lemma from_expired {A} (ts : A → Timestamp) now w window kept (es : list MarketEvent) e :
  ages_ok ts now window → FeatureExtractor.expire ts now w window = Ret kept →
  Forall (λ y, ts y ∈ ev_timestamp <$> es) window →
  Forall (λ y, ts y ∈ ev_timestamp <$> (es ++ [e])) kept.
Proof.
  intros Ha Hk Hw. destruct (expire_suffix ts now w window Ha) as (dr & k & Hk' & -> & _).
  rewrite Hk' in Hk. injection Hk as ->. apply Forall_app in Hw as [_ Hw].
  eapply Forall_impl; [exact Hw|]. intros y Hy. simpl in *. rewrite fmap_app. apply elem_of_app. by left.
Qed.

(** One extraction on representable time stamps returns, and keeps only
    time stamps it has seen. *)
Lemma extract_from es e (book : B) x :
  timestamps_close (es ++ [e]) → windows_from es x →
  ∃ f x', FeatureExtractor.extract e book x = Ret (f, x') ∧ windows_from (es ++ [e]) x' ∧
          FeatureExtractor.config_ x' = FeatureExtractor.config_ x.
Proof.
  intros Hts (Hm & Hc & Hv).
  destruct (expire_suffix FeatureExtractor.e_timestamp (ev_timestamp e) (message_window_ns (FeatureExtractor.config_ x))
    _ (from_ages_ok _ _ _ _ Hts Hm)) as (_ & mw & Hmw & _).
  destruct (expire_suffix FeatureExtractor.e_timestamp (ev_timestamp e) (cancel_ratio_window_ns (FeatureExtractor.config_ x))
    _ (from_ages_ok _ _ _ _ Hts Hc)) as (_ & cw & Hcw & _).
  destruct (expire_suffix FeatureExtractor.m_timestamp (ev_timestamp e) (volatility_window_ns (FeatureExtractor.config_ x))
    _ (from_ages_ok _ _ _ _ Hts Hv)) as (_ & vw & Hvw & _).
  destruct (extract_returns e book x mw cw vw Hmw Hcw Hvw) as (f & mids & Hx & Hmids & _ & _).
  eexists f, _. split; [exact Hx|]. split; [|done].
  assert (ev_timestamp e ∈ ev_timestamp <$> (es ++ [e])) as He
    by (rewrite fmap_app; apply elem_of_app; right; by apply list_elem_of_singleton).
  unfold windows_from. cbn [FeatureExtractor.message_window_ FeatureExtractor.cancel_ratio_window_
    FeatureExtractor.mid_price_window_]. rewrite !Forall_app. split_and!.
  - eapply from_expired; [|exact Hmw|exact Hm]. by eapply from_ages_ok.
  - by constructor.
  - eapply from_expired; [|exact Hcw|exact Hc]. by eapply from_ages_ok.
  - by constructor.
  - eapply from_expired; [|exact Hvw|exact Hv]. by eapply from_ages_ok.
  - eapply Forall_impl; [exact Hmids|]. intros y Hy. simpl in Hy. by rewrite Hy.
Qed.

(** The event windows after a stream in order of time. *)
Definition windows_exact es (x : FeatureExtractor.FeatureExtractor) : Prop :=
  match last es with
  | None => FeatureExtractor.message_window_ x = [] ∧ FeatureExtractor.cancel_ratio_window_ x = []
  | Some e =>
      FeatureExtractor.message_window_ x
      = recent (ev_timestamp e) (message_window_ns (FeatureExtractor.config_ x)) es ∧
      FeatureExtractor.cancel_ratio_window_ x
      = recent (ev_timestamp e) (cancel_ratio_window_ns (FeatureExtractor.config_ x)) es
  end.

Definition time_ordered es : Prop :=
  StronglySorted (λ e e', nanoseconds (ev_timestamp e) ≤ nanoseconds (ev_timestamp e')) es.

Lemma entries_in_order es : time_ordered es → in_order FeatureExtractor.e_timestamp (entry_of <$> es).
Proof.
  unfold time_ordered, in_order. induction 1 as [|e es _ IH Hf]; [constructor|].
  rewrite fmap_cons. constructor; [done|]. by apply Forall_fmap.
Qed.

Lemma expire_recent es l e w :
  0 ≤ w → time_ordered (es ++ [l; e]) → timestamps_close (es ++ [l; e]) →
  FeatureExtractor.expire FeatureExtractor.e_timestamp (ev_timestamp e) w
    (recent (ev_timestamp l) w (es ++ [l]))
  = Ret (recent (ev_timestamp e) w (es ++ [l])).
Proof.
  intros Hw Hord Hts. change [l; e] with ([l] ++ [e]) in *. rewrite app_assoc in Hord, Hts.
  apply StronglySorted_app in Hord as (Hle & Hord & _).
  assert (in_order FeatureExtractor.e_timestamp (recent (ev_timestamp l) w (es ++ [l]))) as Hin.
  { unfold recent. pose proof (entries_in_order _ Hord) as Hs. unfold in_order in *.
    induction Hs as [|y ys _ IH Hf]; [constructor|]. rewrite filter_cons. case_decide; [|done].
    constructor; [done|]. by apply Forall_filter. }
  assert (ages_ok FeatureExtractor.e_timestamp (ev_timestamp e) (recent (ev_timestamp l) w (es ++ [l]))) as Ha.
  { eapply from_ages_ok; [exact Hts|]. apply Forall_filter, Forall_fmap, Forall_forall. intros y Hy.
    apply list_elem_of_fmap. by exists y. }
  rewrite expire_filter by done. f_equal. unfold recent. rewrite list_filter_filter.
  apply filter_ext. intros y _. split; [tauto|]. intros Hy. split; [done|].
  assert (nanoseconds (ev_timestamp l) ≤ nanoseconds (ev_timestamp e)).
  { apply Hle; [apply elem_of_app; right|]; by apply list_elem_of_singleton. }
  unfold age in *. lia.
Qed.
Lemma recent_snoc es e w :
  0 ≤ w → recent (ev_timestamp e) w (es ++ [e]) = recent (ev_timestamp e) w es ++ [entry_of e].
Proof.
  intros Hw. unfold recent. rewrite fmap_app, filter_app. f_equal.
  apply filter_all. constructor; [|done]. unfold age. simpl. lia.
Qed.

Lemma time_ordered_prefix es es' : time_ordered (es ++ es') → time_ordered es.
Proof. by intros (_ & ? & _)%StronglySorted_app. Qed.

Lemma extract_exact es e (book : B) x f x' :
  let cfg := FeatureExtractor.config_ x in
  0 ≤ message_window_ns cfg → 0 ≤ cancel_ratio_window_ns cfg →
  timestamps_close (es ++ [e]) → time_ordered (es ++ [e]) → windows_from es x →
  windows_exact es x → FeatureExtractor.extract e book x = Ret (f, x') →
  windows_exact (es ++ [e]) x' ∧ message_rate_ f = FeatureExtractor.message_rate x' ∧
  cancel_add_ratio_ f = FeatureExtractor.cancel_add_ratio x'.
Proof.
  intros cfg Hmw Hcw Hts Hord (_ & _ & Hv) Hex Hx.
  destruct (expire_suffix FeatureExtractor.m_timestamp (ev_timestamp e) (volatility_window_ns cfg)
    _ (from_ages_ok _ _ _ _ Hts Hv)) as (_ & vw & Hvw & _).
  assert (FeatureExtractor.expire FeatureExtractor.e_timestamp (ev_timestamp e) (message_window_ns cfg)
      (FeatureExtractor.message_window_ x) = Ret (recent (ev_timestamp e) (message_window_ns cfg) es) ∧
    FeatureExtractor.expire FeatureExtractor.e_timestamp (ev_timestamp e) (cancel_ratio_window_ns cfg)
      (FeatureExtractor.cancel_ratio_window_ x) = Ret (recent (ev_timestamp e) (cancel_ratio_window_ns cfg) es))
    as [Hm Hc].
  { unfold windows_exact in Hex. destruct (destruct_snoc es) as [->|(es0 & l & ->)].
    - destruct Hex as [-> ->]. done.
    - rewrite last_snoc in Hex. destruct Hex as [-> ->]. rewrite <-app_assoc in Hts, Hord.
      split; by apply expire_recent. }
  destruct (extract_returns e book x _ _ vw Hm Hc Hvw) as (f' & mids & Hx' & _ & Hr & Hq).
  rewrite Hx' in Hx. injection Hx as <- <-. split; [|done].
  unfold windows_exact. rewrite last_snoc, !recent_snoc by done. done.
Qed.

(** Everything the rest of a stream needs to know about its beginning. *)
Definition stream_inv (cfg : AnomalyConfig) es (m : AnomalyMonitor.AnomalyMonitor) : Prop :=
  FeatureExtractor.config_ (AnomalyMonitor.extractor_ m) = cfg ∧
  windows_from es (AnomalyMonitor.extractor_ m) ∧
  (0 ≤ message_window_ns cfg → 0 ≤ cancel_ratio_window_ns cfg → time_ordered es →
   windows_exact es (AnomalyMonitor.extractor_ m)).

Lemma observe_step cfg es e (book : B) m :
  timestamps_close (es ++ [e]) → stream_inv cfg es m →
  ∃ out m', AnomalyMonitor.observe e book m = Ret (out, m') ∧ stream_inv cfg (es ++ [e]) m'.
Proof.
  intros Hts (Hcfg & Hfrom & Hex).
  destruct (extract_from es e book (AnomalyMonitor.extractor_ m) Hts Hfrom) as (f & x' & Hx & Hfrom' & Hcfg').
  rewrite observe_emit_all, Hx. cbn [mbind Exec_bind]. eexists _, _. split; [reflexivity|].
  unfold stream_inv. cbn [AnomalyMonitor.extractor_]. split_and!; [congruence|done|].
  intros Hmw Hcw Hord. rewrite <-Hcfg in Hmw, Hcw. rewrite Hcfg in Hmw at 1.
  apply (extract_exact es e book (AnomalyMonitor.extractor_ m) f x'); rewrite ?Hcfg; try done.
  - by rewrite <-Hcfg.
  - apply Hex; [done|by rewrite <-Hcfg|]. by apply time_ordered_prefix in Hord.
Qed.

Lemma observe_all_inv cfg obs es m :
  timestamps_close (es ++ obs.*1) → stream_inv cfg es m →
  ∃ outs m', observe_all obs m = Ret (outs, m') ∧ stream_inv cfg (es ++ obs.*1) m'.
Proof.
  revert es m. induction obs as [|[e book] obs IH]; intros es m Hts Hi.
  { exists [], m. by rewrite app_nil_r. }
  rewrite fmap_cons, cons_middle, app_assoc in Hts |- *. cbn [fst] in *.
  destruct (observe_step cfg es e book m) as (out & m1 & Ho & Hi1); [|done|].
  { by apply timestamps_close_prefix in Hts. }
  destruct (IH (es ++ [e]) m1 Hts Hi1) as (outs & m2 & Ho2 & Hi2).
  cbn [observe_all]. rewrite Ho. cbn [mbind Exec_bind]. rewrite Ho2. cbn [mbind Exec_bind]. eauto.
Qed.

Lemma make_inv cfg : stream_inv cfg [] (AnomalyMonitor.make cfg).
Proof. split_and!; [done|split_and!; constructor|done]. Qed.

(** Warm-up, over a stream. *)
Lemma observe_all_warmup cfg obs m outs m' n :
  AnomalyMonitor.config_ m = cfg → EwmaZScoreDetector.config_ (AnomalyMonitor.detector_ m) = cfg →
  0 ≤ n → sampled n [] (AnomalyMonitor.detector_ m) → min_samples cfg < two64 →
  observe_all obs m = Ret (outs, m') →
  ∀ i out, outs !! i = Some out → n + Z.of_nat i < min_samples cfg → out = [].
Proof.
  revert m outs m' n. induction obs as [|[e book] obs IH]; intros m outs m' n Hc Hd Hn Hs Hmin Ho i out Hi Hlt.
  { injection Ho as <- <-. by rewrite lookup_nil in Hi. }
  cbn [observe_all] in Ho. rewrite observe_emit_all in Ho.
  destruct (FeatureExtractor.extract e book _) as [[f x]|]; [|done]. cbn [mbind Exec_bind] in Ho.
  destruct (emit_all_warmup (AnomalyMonitor.config_ m) e (scored_features f) ([], AnomalyMonitor.detector_ m) n [])
    as [Hout Hs']; [lia|cbn [snd]; rewrite Hd; lia|apply scored_features_NoDup|intros; apply not_elem_of_nil|done|].
  match type of Ho with context [observe_all obs ?mm] => set (m1 := mm) in Ho end.
  destruct (observe_all obs m1) as [[outs1 m2]|] eqn:Ho1; [|done]. cbn [mbind Exec_bind] in Ho.
  injection Ho as <- <-. destruct i as [|i]; simpl in Hi.
  { injection Hi as <-. exact Hout. }
  eapply (IH m1 outs1 m2 (n + 1)); [done| |lia| |done|done|exact Hi|lia].
  - unfold m1. simpl. by rewrite emit_all_config.
  - unfold m1. simpl. rewrite app_nil_r in Hs'. by eapply sampled_next.
Qed.
End stream.

(** ** Summaries *)

Lemma count_keys_spec {A} (key : A → string) (xs : list A) :
  let counts := foldl (λ counts x, count_key counts (key x)) [] xs in
  sorted string_less counts ∧
  ∀ k, find string_less k counts
       = if decide (filter (λ x, key x = k) xs = []) then None
         else Some (wrap64 (Z.of_nat (length (filter (λ x, key x = k) xs)))).
Proof.
  simpl. induction xs as [|x xs [Hs Hf]] using rev_ind; [split; [constructor|done]|].
  rewrite foldl_snoc. unfold count_key at 1 3. split; [by apply sorted_insert|].
  intros k. rewrite find_insert, filter_app, Hf. unfold subscript. rewrite Hf.
  assert (filter (λ y, key y = k) [x] = if decide (key x = k) then [x] else []) as ->
    by (by rewrite filter_cons, filter_nil).
  destruct (decide (key x = k)) as [<-|Hk]; [|by rewrite app_nil_r].
  rewrite (decide_False (P:=filter (λ y, key y = key x) xs ++ [x] = [])) by (by destruct (filter _ xs)).
  rewrite length_app. f_equal. destruct (decide _) as [->|Hn]; [done|]. simpl. unfold add64.
  rewrite wrap64_add_l. f_equal. lia.
Qed.
