(* ===== verification/AnomalyReference.v ===== *)
(** * A reference for the anomaly reports

    What [AnomalyMonitor::observe] reports, stated from the features of all
    events so far: a table of rules, and for each rule the exponentially
    weighted mean and variance of its earlier values.  Neither the map of
    detector states nor the order in which it is updated appears here.
    [observe_all_reference] proves that the monitor reports just this. *)
From S2P Require Import Prelude CoreTypes BookTypes BookSpec Double AnomalyDetector AnomalyLaws.
#[local] Open Scope Z_scope.

(** ** The reference *)

(** Whether a score is alarming when it is high or when it is low. *)
Inductive Tail : Type := High | Low.

Record Rule : Type := MkRule {
  r_feature : string;
  r_reason : string;
  measure : MicrostructureFeatures → option double;
  tail : Tail
}.

Definition if_two_sided (depth : MicrostructureFeatures → Z) (f : MicrostructureFeatures) : option double :=
  if has_two_sided_book f then Some (of_int (depth f)) else None.

Definition rules : list Rule :=
  [MkRule "bid_ask_spread" "spread_widening" bid_ask_spread High;
   MkRule "top_n_bid_depth" "bid_depth_collapse" (if_two_sided top_n_bid_depth) Low;
   MkRule "top_n_ask_depth" "ask_depth_collapse" (if_two_sided top_n_ask_depth) Low;
   MkRule "order_book_imbalance" "imbalance_spike" (λ f, dabs <$> order_book_imbalance f) High;
   MkRule "message_rate" "message_rate_burst" (λ f, Some (message_rate_ f)) High;
   MkRule "cancel_add_ratio" "cancel_add_ratio_spike" (λ f, Some (cancel_add_ratio_ f)) High;
   MkRule "mid_price_volatility" "mid_volatility_spike" mid_price_volatility High].

(** The values of a rule over some events' features; an event without one
    leaves no trace. *)
Definition values (r : Rule) (fs : list MicrostructureFeatures) : list double := omap (measure r) fs.

(** Mean and variance after the values [v :: vs], weight [alpha] for the last. *)
Definition ewma (alpha v : double) (vs : list double) : double * double :=
  foldl (λ '(mean, variance) x,
           let delta := dsub x mean in
           (dadd mean (dmul alpha delta),
            dmul (dsub (of_int 1) alpha) (dadd variance (dmul (dmul alpha delta) delta)))) (v, dzero) vs.

Definition statistics (alpha : double) (history : list double) : double * double :=
  match history with [] => (dzero, dzero) | v :: vs => ewma alpha v vs end.

(** How many standard deviations [v] is from the mean of [history]; nothing
    while the history is shorter than [min_samples]. *)
Definition reference_z (config : AnomalyConfig) (history : list double) (v : double) : option double :=
  if decide (min_samples config ≤ Z.of_nat (length history)) then
    let '(mean, variance) := statistics (ewma_alpha config) history in
    let floor := ddiv (of_int 1) (of_int 1000000000) in
    Some (ddiv (dsub v mean) (dsqrt (dmax variance floor)))
  else None.

(** The threshold itself is alarming. *)
Definition alarming (t : Tail) (z threshold : double) : bool :=
  match t with High => dle threshold z | Low => dle z (dopp threshold) end.

(** The report of one rule for the event [e] with the features [f], after
    events with the features [past]. *)
Definition rule_report (config : AnomalyConfig) (past : list MicrostructureFeatures) (e : MarketEvent)
    (f : MicrostructureFeatures) (r : Rule) : option AnomalyEvent :=
  v ← measure r f;
  z ← reference_z config (values r past) v;
  if alarming (tail r) z (z_score_threshold config)
  then Some (MkAnomaly (ev_timestamp e) (ev_order_id e) (r_feature r) (r_reason r) v z) else None.

Definition reports config past e f : list AnomalyEvent := omap (rule_report config past e f) rules.

(** The reports of a stream of events, each with its features. *)
Fixpoint reports_all config past (efs : list (MarketEvent * MicrostructureFeatures)) : list (list AnomalyEvent) :=
  match efs with
  | [] => []
  | (e, f) :: efs => reports config past e f :: reports_all config (past ++ [f]) efs
  end.

(** The features of a stream. *)
Fixpoint extract_all `{OrderBook B} (obs : list (MarketEvent * B)) (x : FeatureExtractor.FeatureExtractor)
    : Exec (list (MarketEvent * MicrostructureFeatures)) :=
  match obs with
  | [] => Ret []
  | (e, book) :: obs =>
      '(f, x) ← FeatureExtractor.extract e book x;
      efs ← extract_all obs x;
      Ret ((e, f) :: efs)
  end.

(** ** The detector keeps the statistics of the history *)

Definition state_of (alpha : double) (history : list double) : option EwmaZScoreDetector.State :=
  match history with
  | [] => None
  | v :: vs => let '(m, s) := ewma alpha v vs in Some (EwmaZScoreDetector.MkState m s (Z.of_nat (length history)))
  end.

Lemma ewma_snoc alpha v vs x :
  ewma alpha v (vs ++ [x])
  = let '(mean, variance) := ewma alpha v vs in
    let delta := dsub x mean in
    (dadd mean (dmul alpha delta),
     dmul (dsub (of_int 1) alpha) (dadd variance (dmul (dmul alpha delta) delta))).
Proof. unfold ewma. rewrite foldl_snoc. by destruct (foldl _ _ vs). Qed.

Lemma score_reference f v d history :
  let config := EwmaZScoreDetector.config_ d in
  EwmaZScoreDetector.states_ d !! f = state_of (ewma_alpha config) history →
  Z.of_nat (length history) + 1 < two64 →
  EwmaZScoreDetector.score f v d
  = (reference_z config history v,
     EwmaZScoreDetector.MkDetector config
       (partial_alter (λ _, state_of (ewma_alpha config) (history ++ [v])) f (EwmaZScoreDetector.states_ d))).
Proof.
  intros config Hs Hlen. unfold EwmaZScoreDetector.score, reference_z, statistics. rewrite Hs. fold config.
  destruct history as [|w ws]; cbn [state_of default].
  - f_equal. unfold EwmaZScoreDetector.new_state. cbn [EwmaZScoreDetector.samples EwmaZScoreDetector.mean
      EwmaZScoreDetector.variance length app]. simpl Z.of_nat. unfold kVarianceFloor.
    destruct (Z.leb_spec (min_samples config) 0); [by rewrite decide_True|by rewrite decide_False by lia].
  - destruct (ewma (ewma_alpha config) w ws) as [m s] eqn:E.
    cbn [EwmaZScoreDetector.samples EwmaZScoreDetector.mean EwmaZScoreDetector.variance default id app].
    assert (Z.of_nat (length (w :: ws)) ≠ 0) as H0 by (simpl; lia).
    apply Z.eqb_neq in H0. rewrite H0. f_equal.
    + unfold kVarianceFloor.
      destruct (Z.leb_spec (min_samples config) (Z.of_nat (length (w :: ws))));
        [by rewrite decide_True|by rewrite decide_False by lia].
    + f_equal. unfold insert, map_insert. f_equal. cbn [state_of]. rewrite ewma_snoc, E. cbv zeta.
      assert (Z.of_nat (length (w :: ws ++ [v])) = Z.of_nat (length (w :: ws)) + 1) as ->
        by (rewrite !length_cons, length_app; simpl; lia).
      unfold add64. rewrite wrap64_small by (unfold is_u64; lia). done.
Qed.

(** ** One event *)

Definition scored_of (f : MicrostructureFeatures) (r : Rule) : option Scored :=
  v ← measure r f;
  Some (MkScored (r_feature r) (r_reason r) v
          match tail r with High => AnomalyMonitor.Positive | Low => AnomalyMonitor.Negative end).

Lemma scored_features_rules f : scored_features f = omap (scored_of f) rules.
Proof.
  unfold scored_features, rules, scored_of, if_two_sided, scored_option. simpl.
  destruct (bid_ask_spread f), (has_two_sided_book f), (order_book_imbalance f), (mid_price_volatility f); done.
Qed.

Lemma rules_NoDup : NoDup (r_feature <$> rules).
Proof. apply (bool_decide_eq_true_1 (NoDup _)). vm_compute. reflexivity. Qed.

Lemma passes_alarming t z threshold :
  AnomalyMonitor.passes match t with High => AnomalyMonitor.Positive | Low => AnomalyMonitor.Negative end z threshold
  = alarming t z threshold.
Proof. by destruct t. Qed.

Lemma values_snoc r past f : values r (past ++ [f]) = values r past ++ option_list (measure r f).
Proof. unfold values. rewrite omap_app. simpl. by destruct (measure r f). Qed.

Lemma values_length r past : (length (values r past) ≤ length past)%nat.
Proof. induction past as [|f past IH]; simpl; [done|]. destruct (measure r f); simpl; unfold values in *; lia. Qed.

(** What [observe] does for one rule. *)
Definition emit_rule (config : AnomalyConfig) (e : MarketEvent) (f : MicrostructureFeatures) (s : emission) (r : Rule)
    : emission := emit_all config e (option_list (scored_of f r)) s.

Lemma emit_rules config e f rs s :
  emit_all config e (omap (scored_of f) rs) s = foldl (emit_rule config e f) s rs.
Proof.
  revert s. induction rs as [|r rs IH]; intros s; [done|]. simpl. rewrite <-IH. unfold emit_rule.
  by destruct (scored_of f r).
Qed.

(** The detector's state of a rule is that of its history. *)
Definition tracks (past : list MicrostructureFeatures) (d : EwmaZScoreDetector.EwmaZScoreDetector) (r : Rule) : Prop :=
  EwmaZScoreDetector.states_ d !! r_feature r
  = state_of (ewma_alpha (EwmaZScoreDetector.config_ d)) (values r past).

Lemma emit_rule_reference config e f past r out d :
  EwmaZScoreDetector.config_ d = config → Z.of_nat (length past) + 1 < two64 → tracks past d r →
  let s := emit_rule config e f (out, d) r in
  s.1 = out ++ option_list (rule_report config past e f r) ∧ tracks (past ++ [f]) s.2 r ∧
  EwmaZScoreDetector.config_ s.2 = config ∧
  ∀ name, name ≠ r_feature r → EwmaZScoreDetector.states_ s.2 !! name = EwmaZScoreDetector.states_ d !! name.
Proof.
  intros Hc Hlen Ht. unfold emit_rule, scored_of, rule_report, tracks. rewrite values_snoc.
  destruct (measure r f) as [v|]; unfold emit_all; simpl option_list; cbn [mbind option_bind foldl].
  2: { rewrite !app_nil_r. by split_and!. }
  cbn [s_feature s_reason s_value s_direction]. rewrite maybe_emit_cases. cbn [fst snd].
  rewrite (score_reference _ _ _ _ Ht) by (pose proof (values_length r past); lia).
  cbn [fst snd EwmaZScoreDetector.states_ EwmaZScoreDetector.config_].
  rewrite Hc. split_and!; [|by rewrite lookup_partial_alter_eq|done|].
  - f_equal. destruct (reference_z config (values r past) v) as [z|]; [|done]. cbn [mbind option_bind].
    rewrite passes_alarming. by destruct (alarming _ _ _).
  - intros name Hn. by rewrite lookup_partial_alter_ne.
Qed.

Lemma emit_rules_reference config e f past rs out d :
  EwmaZScoreDetector.config_ d = config → NoDup (r_feature <$> rs) →
  Z.of_nat (length past) + 1 < two64 → Forall (tracks past d) rs →
  let s := foldl (emit_rule config e f) (out, d) rs in
  s.1 = out ++ omap (rule_report config past e f) rs ∧ Forall (tracks (past ++ [f]) s.2) rs ∧
  EwmaZScoreDetector.config_ s.2 = config ∧
  ∀ name, name ∉ r_feature <$> rs → EwmaZScoreDetector.states_ s.2 !! name = EwmaZScoreDetector.states_ d !! name.
Proof.
  intros Hc Hnd Hlen. revert out d Hc. induction rs as [|r rs IH]; intros out d Hc Ht.
  { simpl. rewrite app_nil_r. by split_and!. }
  rewrite fmap_cons, NoDup_cons in Hnd. destruct Hnd as [Hr Hnd]. apply Forall_cons in Ht as [Htr Ht].
  pose proof (emit_rule_reference config e f past r out d Hc Hlen Htr) as Hstep. cbn [foldl].
  destruct (emit_rule config e f (out, d) r) as [out1 d1]. cbn [fst snd] in Hstep.
  destruct Hstep as (-> & Htr1 & Hc1 & Hother).
  destruct (IH Hnd (out ++ option_list (rule_report config past e f r)) d1 Hc1) as (Hout & Hts & Hc2 & Hother2).
  { eapply Forall_impl; [apply Forall_and; split; [exact Ht|]; apply Forall_forall; intros r' Hr'; exact Hr'|].
    intros r' [Ht' Hr']. unfold tracks in *. rewrite Hother; [by rewrite Hc1, <-Hc|].
    intros Heq. apply Hr. rewrite <-Heq. by apply list_elem_of_fmap_2. }
  split_and!; [| |done|].
  - rewrite Hout, <-app_assoc. f_equal. simpl. by destruct (rule_report config past e f r).
  - constructor; [|done]. unfold tracks in *. rewrite Hother2 by done. by rewrite Hc2, <-Hc1.
  - intros name Hn. rewrite fmap_cons, not_elem_of_cons in Hn. rewrite Hother2, Hother by tauto. done.
Qed.

(** ** The stream *)

Lemma observe_all_from_reference `{OrderBook B} config past (obs : list (MarketEvent * B)) m :
  AnomalyMonitor.config_ m = config → EwmaZScoreDetector.config_ (AnomalyMonitor.detector_ m) = config →
  Z.of_nat (length past + length obs) < two64 → Forall (tracks past (AnomalyMonitor.detector_ m)) rules →
  match extract_all obs (AnomalyMonitor.extractor_ m) with
  | UB => observe_all obs m = UB
  | Ret efs => ∃ m', observe_all obs m = Ret (reports_all config past efs, m')
  end.
Proof.
  revert past m. induction obs as [|[e book] obs IH]; intros past m Hc Hd Hlen Ht; cbn [extract_all observe_all].
  { by exists m. }
  rewrite observe_emit_all, Hc. destruct (FeatureExtractor.extract e book _) as [[f x]|]; [|done].
  cbn [mbind Exec_bind]. rewrite scored_features_rules, emit_rules.
  pose proof (emit_rules_reference config e f past rules [] (AnomalyMonitor.detector_ m) Hd rules_NoDup) as Hstep.
  destruct (foldl (emit_rule config e f) ([], AnomalyMonitor.detector_ m) rules) as [out d].
  cbn [length] in Hlen. destruct Hstep as (Hout & Hts & Hd' & _); [lia|done|]. cbn [fst snd] in *.
  specialize (IH (past ++ [f]) (AnomalyMonitor.MkMonitor config x d) eq_refl Hd').
  cbn [AnomalyMonitor.extractor_ AnomalyMonitor.detector_] in IH. rewrite length_app in IH. cbn [length] in IH.
  specialize (IH ltac:(lia) Hts). destruct (extract_all obs x) as [efs|]; cbn [mbind Exec_bind].
  - destruct IH as [m' ->]. exists m'. cbn [mbind Exec_bind reports_all]. by rewrite Hout.
  - by rewrite IH.
Qed.

(** What a new monitor reports on a stream. *)
Lemma observe_all_reference `{OrderBook B} config (obs : list (MarketEvent * B)) :
  Z.of_nat (length obs) < two64 →
  match extract_all obs (FeatureExtractor.make config) with
  | UB => observe_all obs (AnomalyMonitor.make config) = UB
  | Ret efs => ∃ m, observe_all obs (AnomalyMonitor.make config) = Ret (reports_all config [] efs, m)
  end.
Proof.
  intros Hlen. apply (observe_all_from_reference config [] obs (AnomalyMonitor.make config)); [done..|].
  apply Forall_forall. intros r _. unfold tracks. simpl. by rewrite lookup_empty.
Qed.
