(* ===== verification/AnomalyProperties.v ===== *)
(** * Properties of the anomaly monitor

    What its rolling windows hold, when it is silent, what it reports, and
    where its arithmetic leaves its machine types. *)
From S2P Require Import Prelude CoreTypes OrderedMap BookTypes BookSpec Book BookValidation Double.
From S2P Require Import AnomalyDetector AnomalyLaws AnomalyReference.
From Stdlib Require Import SpecFloat.
#[local] Open Scope Z_scope.

Abbreviation Baseline := LimitOrderBook.LimitOrderBook.

(** *** A stream for the witnesses: applied events, each with the book after it *)

Definition event_at (ty : EventType) (ts id : Z) (side : Side) (price qty : Z) : MarketEvent :=
  MkEvent ty (MkTimestamp ts) (MkOrderId id) side (MkPrice price) (MkQuantity qty).

Fixpoint observations (events : list MarketEvent) (b : Baseline) : list (MarketEvent * Baseline) :=
  match events with
  | [] => []
  | e :: events' =>
      match LimitOrderBook.apply e b with
      | Ret (_, b') => (e, b') :: observations events' b'
      | UB => []
      end
  end.

Definition monitored (events : list MarketEvent) : list (MarketEvent * Baseline) :=
  observations events LimitOrderBook.empty_book.

Definition quiet_events : list MarketEvent :=
  [event_at Add 0 1 Buy 100 10; event_at Add 5 2 Sell 105 10; event_at Add 2000000000 3 Buy 99 1].

Lemma quiet_monitored : (monitored quiet_events).*1 = quiet_events.
Proof. vm_compute. reflexivity. Qed.

Lemma quiet_timestamps : Forall timestamp_ok (monitored quiet_events).*1.
Proof.
  rewrite quiet_monitored. unfold quiet_events, timestamp_ok, two63.
  repeat (apply Forall_cons; split; [simpl; lia|]). apply Forall_nil_2.
Qed.

Lemma quiet_ordered : time_ordered (monitored quiet_events).*1.
Proof.
  rewrite quiet_monitored. unfold quiet_events, time_ordered.
  repeat (constructor; [|repeat (apply Forall_cons; split; [simpl; lia|]); apply Forall_nil_2]). constructor.
Qed.

(** C21: the monitor runs without undefined behaviour on any stream of
    non-negative time stamps; when they do not go backwards, its event windows
    hold exactly the events no older than the window, the current one
    included. *)
Theorem monitor_windows_exact `{OrderBook B} config (obs : list (MarketEvent * B)) :
  Forall timestamp_ok obs.*1 →
  ∃ outs m, observe_all obs (AnomalyMonitor.make config) = Ret (outs, m) ∧
    (0 ≤ message_window_ns config → 0 ≤ cancel_ratio_window_ns config → time_ordered obs.*1 →
     windows_exact obs.*1 (AnomalyMonitor.extractor_ m)).
Proof.
  intros Hts.
  destruct (observe_all_inv config obs [] _ (timestamps_ok_close _ Hts) (make_inv config)) as (outs & m & Ho & _ & _ & Hex).
  by exists outs, m.
Qed.

Lemma quiet_config outs m :
  observe_all (monitored quiet_events) (AnomalyMonitor.make default_config) = Ret (outs, m) →
  FeatureExtractor.config_ (AnomalyMonitor.extractor_ m) = default_config.
Proof.
  intros Ho.
  destruct (observe_all_inv default_config (monitored quiet_events) [] (AnomalyMonitor.make default_config)
    (timestamps_ok_close _ quiet_timestamps) (make_inv default_config)) as (outs' & m' & Ho' & Hc & _).
  rewrite Ho in Ho'. assert (m' = m) as -> by congruence. exact Hc.
Qed.

Lemma monitor_windows_exact_witness :
  ∃ outs m, observe_all (monitored quiet_events) (AnomalyMonitor.make default_config) = Ret (outs, m) ∧
    FeatureExtractor.message_window_ (AnomalyMonitor.extractor_ m) = [entry_of (event_at Add 2000000000 3 Buy 99 1)].
Proof.
  destruct (monitor_windows_exact default_config (monitored quiet_events)) as (outs & m & Ho & Hex).
  { apply quiet_timestamps. }
  exists outs, m. split; [exact Ho|].
  pose proof (Hex ltac:(done) ltac:(done) quiet_ordered) as Hw. rewrite quiet_monitored in Hw.
  unfold windows_exact in Hw. rewrite (quiet_config outs m Ho) in Hw. destruct Hw as [Hm _].
  rewrite Hm. vm_compute. reflexivity.
Defined.

(** Time stamps of both signs can be too far apart.  Expiring a window
    subtracts them as 64-bit signed integers, and for an event at [INT64_MAX]
    after one at [-1] that is undefined behaviour. *)
Theorem timestamp_overflow :
  observe_all (monitored [event_at Add (-1) 1 Buy 100 10; event_at Add 9223372036854775807 2 Buy 100 10])
    (AnomalyMonitor.make default_config) = UB.
Proof. vm_compute. reflexivity. Qed.

(** C36: no anomaly before warm-up.  Whatever the stream, the first
    [min_samples] events report nothing. *)
Theorem silent_during_warmup `{OrderBook B} config (obs : list (MarketEvent * B)) outs m i out :
  min_samples config < two64 →
  observe_all obs (AnomalyMonitor.make config) = Ret (outs, m) →
  outs !! i = Some out → Z.of_nat i < min_samples config → out = [].
Proof.
  intros Hmin Ho Hi Hlt.
  eapply (observe_all_warmup config obs (AnomalyMonitor.make config) outs m 0); [done|done|lia| |exact Hmin|exact Ho|exact Hi|lia].
  intros f. unfold samples_of, AnomalyMonitor.make, EwmaZScoreDetector.make. simpl.
  rewrite lookup_empty. simpl. destruct (decide (f ∈ [])); lia.
Qed.

(** A configuration that scores from the second sample on. *)
Definition eager_config : AnomalyConfig :=
  MkConfig 5 1000000000 1000000000 100000000 (ddiv (of_int 1) (of_int 20)) (of_int 4) 2.

(** The third event doubles the spread. *)
Definition widening_events : list MarketEvent :=
  [event_at Add 0 1 Buy 100 10; event_at Add 5 2 Sell 105 10; event_at Add 6 3 Buy 99 1;
   event_at Cancel 7 1 Buy 0 0].

Definition outputs_of (config : AnomalyConfig) (events : list MarketEvent) : list (list AnomalyEvent) :=
  match observe_all (monitored events) (AnomalyMonitor.make config) with Ret r => r.1 | UB => [] end.

Lemma silent_during_warmup_witness :
  outputs_of eager_config widening_events !! 1%nat = Some [] ∧
  option_map (map reason) (outputs_of eager_config widening_events !! 3%nat)
  = Some ["spread_widening"; "bid_depth_collapse"; "imbalance_spike"; "message_rate_burst"; "cancel_add_ratio_spike"]%string.
Proof.
  split; [|vm_compute; reflexivity].
  assert (is_Some (outputs_of eager_config widening_events !! 1%nat)) as [out Hi] by (vm_compute; eauto).
  rewrite Hi. f_equal. unfold outputs_of in Hi.
  destruct (observe_all (monitored widening_events) (AnomalyMonitor.make eager_config)) as [[outs m]|] eqn:Ho;
    [|by rewrite lookup_nil in Hi].
  apply (silent_during_warmup eager_config (monitored widening_events) outs m 1 out); [done|exact Ho|exact Hi|done].
Defined.

(** C22: a feature that never changes never alarms.  Let its value be finite
    and not a negative zero, the smoothing factor [alpha] and [1 - alpha]
    finite, [min_samples] at least one and the threshold positive.  Then no
    score of any number of equal samples passes in any direction, and after
    each of them the feature's mean is exactly that value and its variance a
    zero: rounding adds nothing. *)
Theorem constant_feature_silent config feature v n :
  finite v = true → v ≠ S754_zero true →
  finite (ewma_alpha config) = true → finite (dsub (of_int 1) (ewma_alpha config)) = true →
  1 ≤ min_samples config → dlt dzero (z_score_threshold config) = true →
  let scored := score_all feature (replicate (S n) v) (EwmaZScoreDetector.make config) in
  Forall (λ z, match z with
               | None => True
               | Some z => ∀ direction, AnomalyMonitor.passes direction z (z_score_threshold config) = false
               end) scored.1 ∧
  ∃ state sign, EwmaZScoreDetector.states_ scored.2 !! feature = Some state ∧
    EwmaZScoreDetector.mean state = v ∧ EwmaZScoreDetector.variance state = S754_zero sign.
Proof.
  intros Hv Hv0 Ha Ha1 Hmin Ht.
  assert (steady feature v (EwmaZScoreDetector.make config)) as Hs
    by (unfold steady, EwmaZScoreDetector.make; simpl; by rewrite lookup_empty).
  destruct (steady_scores feature v (EwmaZScoreDetector.make config) n Hv Hv0 Ha Ha1 Hmin Hs) as [Hz Hend].
  split; [|exact Hend]. eapply Forall_impl; [exact Hz|].
  intros z [->| ->]; [done|]. intros dir. by apply zero_never_passes.
Qed.

Lemma constant_feature_silent_witness :
  ∃ state sign,
    EwmaZScoreDetector.states_
      (score_all "bid_ask_spread" (replicate 30 (of_int 5)) (EwmaZScoreDetector.make default_config)).2
      !! "bid_ask_spread"%string = Some state ∧
    EwmaZScoreDetector.mean state = of_int 5 ∧ EwmaZScoreDetector.variance state = S754_zero sign.
Proof.
  apply (constant_feature_silent default_config "bid_ask_spread" (of_int 5) 29);
    [vm_compute; reflexivity|done| | |done|]; vm_compute; reflexivity.
Defined.

(** C30: what the monitor reports.  On a stream of fewer than 2^64 observations
    a new monitor reports, event by event, exactly what the reference does, and
    it runs into undefined behaviour only if the extraction of the features
    does.  For each of the seven rules, in their order, whose feature the event
    has: if the rule's feature had a value at [min_samples] earlier events or
    more, the z-score of the value against the exponentially weighted mean and
    variance of all these earlier values and of no other feature is computed,
    and an anomaly with this value and score, the event's time stamp and its
    order id is reported exactly if the score reaches the threshold (for the
    two depths, its negation from above). *)
Theorem observe_exact `{OrderBook B} config (obs : list (MarketEvent * B)) :
  Z.of_nat (length obs) < two64 →
  match extract_all obs (FeatureExtractor.make config) with
  | UB => observe_all obs (AnomalyMonitor.make config) = UB
  | Ret efs => ∃ m, observe_all obs (AnomalyMonitor.make config) = Ret (reports_all config [] efs, m)
  end.
Proof. apply observe_all_reference. Qed.

Lemma observe_exact_witness :
  ∃ efs m, observe_all (monitored widening_events) (AnomalyMonitor.make eager_config)
           = Ret (reports_all eager_config [] efs, m) ∧
    map (map reason) (reports_all eager_config [] efs)
    = [[]; []; ["message_rate_burst"]; ["spread_widening"; "bid_depth_collapse"; "imbalance_spike"; "message_rate_burst";
                    "cancel_add_ratio_spike"]]%string.
Proof.
  assert (Z.of_nat (length (monitored widening_events)) < two64) as Hlen by (vm_compute; reflexivity).
  pose proof (observe_exact eager_config (monitored widening_events) Hlen) as He.
  assert (match extract_all (monitored widening_events) (FeatureExtractor.make eager_config) with
          | Ret efs => map (map reason) (reports_all eager_config [] efs)
          | UB => []
          end = [[]; []; ["message_rate_burst"]; ["spread_widening"; "bid_depth_collapse"; "imbalance_spike"; "message_rate_burst";
                    "cancel_add_ratio_spike"]]%string) as Hr by (vm_compute; reflexivity).
  destruct (extract_all _ _) as [efs|]; [|done]. destruct He as [m Hm]. exists efs, m. split; [exact Hm|exact Hr].
Defined.

(** The imbalance of a book is not always between -1 and 1.  The two
    depths are added in 64 bits: with 2^63 + 2^62 units bid and 2^62 + 1
    offered the sum wraps to one, and the feature is 2^63. *)
Theorem imbalance_wraps :
  option_map (λ r, order_book_imbalance r.1)
    match last (monitored [event_at Add 0 1 Buy 100 13835058055282163712;
                               event_at Add 1 2 Sell 105 4611686018427387905]) with
        | Some (e, book) =>
            match FeatureExtractor.extract e book (FeatureExtractor.make default_config) with
            | Ret r => Some r
            | UB => None
            end
        | None => None
        end
  = Some (Some (of_int 9223372036854775808)).
Proof. vm_compute. reflexivity. Qed.

(** [summarize_anomaly_reasons] lists every reason that occurs, in
    string order, with the number of its occurrences modulo 2^64. *)
Theorem summarize_counts anomalies :
  sorted string_less (summarize_anomaly_reasons anomalies) ∧
  ∀ r, find string_less r (summarize_anomaly_reasons anomalies)
       = if decide (filter (λ a, reason a = r) anomalies = []) then None
         else Some (wrap64 (Z.of_nat (length (filter (λ a, reason a = r) anomalies)))).
Proof. apply (count_keys_spec reason). Qed.
