(* ===== verification/ReplayEngine.v ===== *)
(** * The replay engine

    [replay/replay_engine.cpp]: the FNV-1a checksum of a snapshot, the text
    formats, and [replay_file], the loop that reads events from the CSV feed,
    applies them to the book, monitors and validates it.  The engine is
    written against the order-book interface; the program instantiates it with
    [LimitOrderBook]. *)
From S2P Require Import Prelude CoreTypes OrderedMap Text BookTypes BookSpec CsvParser Double.
From S2P Require Import AnomalyDetector.
From Stdlib Require Import Ascii.
#[local] Open Scope Z_scope.

Module ReplayEngine.

(** ** Checksums *)

Definition kFnvOffsetBasis : Z := 14695981039346656037.
Definition kFnvPrime : Z := 1099511628211.

Definition hash_byte (hash byte : Z) : Z := mul64 (Z.lxor hash byte) kFnvPrime.

(** [for (int shift = 0; shift < 64; shift += 8)]. *)
Definition hash_u64 (hash value : Z) : Z :=
  foldl (λ hash shift, hash_byte hash (Z.land (Z.shiftr value shift) 255)) hash
    [0; 8; 16; 24; 32; 40; 48; 56].

Definition hash_i64 (hash value : Z) : Z := hash_u64 hash (wrap64 value).

Definition hash_order (hash : Z) (order : OrderView) : Z :=
  let hash := hash_u64 hash (value (ov_order_id order)) in
  let hash := hash_i64 hash (nanoseconds (ov_timestamp order)) in
  hash_u64 hash (units (ov_quantity order)).

Definition hash_price_level (hash : Z) (level : PriceLevelSnapshot) : Z :=
  let hash := hash_i64 hash (ticks (pls_price level)) in
  let hash := hash_u64 hash (units (pls_quantity level)) in
  let hash := hash_u64 hash (Z.of_nat (length (pls_orders level))) in
  foldl hash_order hash (pls_orders level).

Definition char_code (c : ascii) : Z := Z.of_nat (nat_of_ascii c).

Definition checksum_snapshot (snapshot : BookSnapshot) : Z :=
  let hash := kFnvOffsetBasis in
  let hash := hash_byte hash (char_code "D") in
  let hash := hash_byte hash (char_code "G") in
  let hash := hash_u64 hash (Z.of_nat (length (snap_bids snapshot))) in
  let hash := foldl (λ hash level, hash_price_level (hash_byte hash (char_code "B")) level)
                hash (snap_bids snapshot) in
  let hash := hash_u64 hash (Z.of_nat (length (snap_asks snapshot))) in
  foldl (λ hash level, hash_price_level (hash_byte hash (char_code "A")) level)
    hash (snap_asks snapshot).

(** ** Formats *)

Definition format_checksum (checksum : Z) : text :=
  txt "0x" ++ pad_zeros 16 (print_digits 16 checksum).

Definition append_level (output : text) (level : option PriceLevelView) : text :=
  match level with
  | None => output ++ txt "none"
  | Some level =>
      output ++ print_decimal (ticks (plv_price level)) ++ txt "x" ++
      print_decimal (units (plv_quantity level))
  end.

Definition format_top_of_book (top : TopOfBook) : text :=
  let output := txt "bid=" in
  let output := append_level output (tob_bid top) in
  let output := output ++ txt " ask=" in
  append_level output (tob_ask top).

(** ** Results *)

Inductive ReplayErrorType : Type := ParseError | ApplyRejected | InvariantFailure | FileOpenFailure.

Record ReplayError : Type := MkError {
  err_type : ReplayErrorType;
  err_line_number : Z;
  err_message : text;
  err_raw_row : text
}.

Record ReplayOptions : Type := MkOptions {
  invariant_options : InvariantOptions;
  validate_after_apply : bool;
  enable_anomaly_detection : bool;
  anomaly_config : AnomalyConfig
}.

Definition default_options : ReplayOptions :=
  MkOptions default_invariant_options true false default_config.

Record ReplayResult : Type := MkReplayResult {
  events_processed : Z;
  rejected_events : Z;
  file_open_failed : bool;
  invariant_failed : bool;
  final_checksum : Z;
  final_top : TopOfBook;
  final_snapshot : BookSnapshot;
  errors : list ReplayError;
  anomalies : list AnomalyEvent;
  anomaly_reason_counts : list (string * Z)
}.

(** [ReplayResult{}]. *)
Definition empty_result : ReplayResult :=
  MkReplayResult 0 0 false false 0 (MkTopOfBook None None) (MkBookSnapshot [] []) [] [] [].

Definition push_error (error : ReplayError) (r : ReplayResult) : ReplayResult :=
  MkReplayResult (events_processed r) (rejected_events r) (file_open_failed r) (invariant_failed r)
    (final_checksum r) (final_top r) (final_snapshot r) (errors r ++ [error]) (anomalies r)
    (anomaly_reason_counts r).

(** [++result.rejected_events] and the error that goes with it. *)
Definition reject (error : ReplayError) (r : ReplayResult) : ReplayResult :=
  push_error error
    (MkReplayResult (events_processed r) (add64 (rejected_events r) 1) (file_open_failed r)
       (invariant_failed r) (final_checksum r) (final_top r) (final_snapshot r) (errors r)
       (anomalies r) (anomaly_reason_counts r)).

Definition count_processed (r : ReplayResult) : ReplayResult :=
  MkReplayResult (add64 (events_processed r) 1) (rejected_events r) (file_open_failed r)
    (invariant_failed r) (final_checksum r) (final_top r) (final_snapshot r) (errors r)
    (anomalies r) (anomaly_reason_counts r).

Definition record_anomaly (r : ReplayResult) (anomaly : AnomalyEvent) : ReplayResult :=
  MkReplayResult (events_processed r) (rejected_events r) (file_open_failed r) (invariant_failed r)
    (final_checksum r) (final_top r) (final_snapshot r) (errors r) (anomalies r ++ [anomaly])
    (count_key (anomaly_reason_counts r) (reason anomaly)).

Definition fail_invariant (error : ReplayError) (r : ReplayResult) : ReplayResult :=
  push_error error
    (MkReplayResult (events_processed r) (rejected_events r) (file_open_failed r) true
       (final_checksum r) (final_top r) (final_snapshot r) (errors r) (anomalies r)
       (anomaly_reason_counts r)).

Definition fail_open (error : ReplayError) (r : ReplayResult) : ReplayResult :=
  push_error error
    (MkReplayResult (events_processed r) (rejected_events r) true (invariant_failed r)
       (final_checksum r) (final_top r) (final_snapshot r) (errors r) (anomalies r)
       (anomaly_reason_counts r)).

(** ** Replay *)

Section engine.
Context `{OrderBook B}.

Definition checksum_book (book : B) : Exec Z :=
  snapshot ← ob_snapshot book; Ret (checksum_snapshot snapshot).

(** The three assignments at the end of [replay_file]. *)
Definition finish (book : B) (r : ReplayResult) : Exec ReplayResult :=
  snapshot ← ob_snapshot book;
  Ret (MkReplayResult (events_processed r) (rejected_events r) (file_open_failed r)
         (invariant_failed r) (checksum_snapshot snapshot) (ob_top_of_book book) snapshot
         (errors r) (anomalies r) (anomaly_reason_counts r)).

(** How the loop body goes on: [continue], or [break] with the final book. *)
Inductive Control : Type :=
| Continue (book : B) (monitor : AnomalyMonitor.AnomalyMonitor) (r : ReplayResult)
| Break (book : B) (r : ReplayResult).

Definition monitor_event (options : ReplayOptions) (event : MarketEvent) (book : B)
    (monitor : AnomalyMonitor.AnomalyMonitor) (r : ReplayResult)
    : Exec (AnomalyMonitor.AnomalyMonitor * ReplayResult) :=
  if enable_anomaly_detection options then
    '(found, monitor) ← AnomalyMonitor.observe event book monitor;
    Ret (monitor, foldl record_anomaly r found)
  else Ret (monitor, r).

(** The body of the loop, for a parsed row that is not the end of the file. *)
Definition replay_row (options : ReplayOptions) (parsed : CsvParser.CsvParseResult) (book : B)
    (monitor : AnomalyMonitor.AnomalyMonitor) (r : ReplayResult) : Exec Control :=
  match CsvParser.status parsed with
  | CsvParser.EndOfFile => Ret (Break book r)
  | CsvParser.MalformedRow =>
      Ret (Continue book monitor
             (reject (MkError ParseError (CsvParser.line_number parsed) (CsvParser.message parsed)
                        (CsvParser.raw_row parsed)) r))
  | CsvParser.Event =>
      event ← deref (CsvParser.event parsed);
      '(apply_result, book) ← ob_apply event book;
      if decide (apply_result ≠ Applied) then
        Ret (Continue book monitor
               (reject (MkError ApplyRejected (CsvParser.line_number parsed)
                          (txt "book rejected event: " ++ txt (book_result_to_string apply_result))
                          (CsvParser.raw_row parsed)) r))
      else
        let r := count_processed r in
        '(monitor, r) ← monitor_event options event book monitor r;
        valid ← (if validate_after_apply options
                 then ob_validate_invariants (invariant_options options) book else Ret true);
        if valid : bool then Ret (Continue book monitor r)
        else Ret (Break book
                    (fail_invariant (MkError InvariantFailure (CsvParser.line_number parsed)
                       (txt "book invariant validation failed") (CsvParser.raw_row parsed)) r))
  end.

(** [for (;;)]; [None] is a loop that has not ended within its fuel. *)
Fixpoint replay_loop (fuel : nat) (options : ReplayOptions) (parser : CsvParser.CsvParser) (book : B)
    (monitor : AnomalyMonitor.AnomalyMonitor) (r : ReplayResult) : option (Exec (B * ReplayResult)) :=
  match fuel with
  | O => None
  | S fuel =>
      let '(parsed, parser) := CsvParser.next parser in
      match replay_row options parsed book monitor r with
      | UB => Some UB
      | Ret (Break book r) => Some (Ret (book, r))
      | Ret (Continue book monitor r) => replay_loop fuel options parser book monitor r
      end
  end.

(** One call of [next] per character of the file, and one more, is enough. *)
Definition replay_fuel (parser : CsvParser.CsvParser) : nat :=
  S (length (default [] (CsvParser.input_ parser))).

(** [replay_file] on an engine whose book is [book]: the book afterwards and
    the result. *)
Definition replay_file (files : text → option text) (input_path : text) (options : ReplayOptions)
    (book : B) : option (Exec (B * ReplayResult)) :=
  let book := ob_clear book in
  let parser := CsvParser.open files input_path in
  if negb (CsvParser.is_open parser) then
    let r := fail_open (MkError FileOpenFailure 0 (txt "failed to open input file") input_path) empty_result in
    Some (r ← finish book r; Ret (book, r))
  else
    outcome ← replay_loop (replay_fuel parser) options parser book
                (AnomalyMonitor.make (anomaly_config options)) empty_result;
    Some ('(book, r) ← outcome; r ← finish book r; Ret (book, r)).

End engine.
End ReplayEngine.
