(* ===== verification/ReplayLaws.v ===== *)
(** * Lemmas on the replay engine

    The engine on the specification book: the loop of [replay_file] over any
    lawful implementation does what the same loop body does on the rows of the
    file and the abstract book, and what that leaves in the result. *)
From S2P Require Import Prelude CoreTypes OrderedMap Text BookTypes BookSpec CsvParser CsvLaws.
From S2P Require Import Double AnomalyDetector AnomalyLaws ReplayEngine.
From Stdlib Require Import Ascii.
Import ReplayEngine.
#[local] Open Scope Z_scope.

(** The specification book, as an order book: the observers are total. *)
Definition spec_ops (capacity : option nat) : OrderBook SpecBook := {|
  ob_apply e s := Ret (spec_apply capacity e s);
  ob_clear _ := spec_empty;
  ob_top_of_book := spec_top;
  ob_depth := spec_depth;
  ob_snapshot s := Ret (spec_snapshot s);
  ob_order_ids_at_price side price s := Ret (spec_order_ids side price s);
  ob_validate_invariants opts s := Ret (bool_decide (allow_crossed_book opts = true ∨ ¬ crossed s));
  ob_events_applied := sb_events;
  ob_live_order_count s := Z.of_nat (length (sb_orders s))
|}.

(** The events of the rows that parsed. *)
Definition row_events (rows : list CsvParser.CsvParseResult) : list MarketEvent :=
  omap CsvParser.event rows.

(** A row as the feed delivers it. *)
Definition row_ok (row : CsvParser.CsvParseResult) : Prop :=
  match CsvParser.status row, CsvParser.event row with
  | CsvParser.Event, Some e => event_wf e
  | CsvParser.MalformedRow, None => True
  | _, _ => False
  end.

Lemma parse_row_ok line row : row_ok (CsvParser.parse_row line row).
Proof.
  unfold CsvParser.parse_row. destruct (CsvParser.parse_columns _) as [m|e] eqn:Ep; [done|].
  apply parse_columns_iff in Ep. by eapply row_event_wf.
Qed.

Lemma feed_rows_ok content : Forall row_ok (feed content).
Proof.
  apply Forall_forall. intros r. unfold feed. destruct (text_lines content) as [|h rows]; [by intros ?%elem_of_nil|].
  case_decide; [|by intros ->%list_elem_of_singleton].
  intros (i & row & -> & _)%elem_of_lookup_imap_1. apply parse_row_ok.
Qed.

(** ** From an implementation to the specification *)

(** The monitor sees a book only through [depth] and [top_of_book]. *)
Lemma observe_same_view {B B'} {H : OrderBook B} {H' : OrderBook B'} e (b : B) (b' : B') m :
  (∀ n, ob_depth n b = ob_depth n b') → ob_top_of_book b = ob_top_of_book b' →
  AnomalyMonitor.observe e b m = AnomalyMonitor.observe e b' m.
Proof.
  intros Hd Ht. unfold AnomalyMonitor.observe, FeatureExtractor.extract.
  destruct (FeatureExtractor.expire_event_windows _ _) as [x|]; [|done]. cbn [mbind Exec_bind].
  destruct (FeatureExtractor.expire_mid_window _ _) as [x'|]; [|done]. cbn [mbind Exec_bind].
  by rewrite Hd, Ht.
Qed.

Section refinement.
Context `{HL : OrderBookLaws B capacity rep}.
Implicit Types (b : B) (s : SpecBook) (m : AnomalyMonitor.AnomalyMonitor) (r : ReplayResult).

Definition same_control (c : Exec (Control (B:=B))) (c' : Exec (Control (B:=SpecBook))) : Prop :=
  match c, c' with
  | Ret (Continue b m r), Ret (Continue s m' r') => rep b s ∧ m = m' ∧ r = r'
  | Ret (Break b r), Ret (Break s r') => rep b s ∧ r = r'
  | UB, UB => True
  | _, _ => False
  end.

Lemma replay_row_refines options row b s m r :
  row_ok row → rep b s →
  same_control (replay_row options row b m r) (replay_row (H:=spec_ops capacity) options row s m r).
Proof.
  intros Hok Hb. unfold replay_row, row_ok in *.
  destruct (CsvParser.status row), (CsvParser.event row) as [e|]; try done.
  cbn [deref mbind Exec_bind]. destruct (law_apply e b s (event_wf_quantity e Hok) Hb) as (b' & Ha & Hb').
  rewrite Ha. cbn [mbind Exec_bind ob_apply spec_ops].
  destruct (spec_apply capacity e s) as [res s']. cbn [fst snd] in *.
  destruct (decide (res ≠ Applied)); [done|].
  unfold monitor_event.
  pose proof (observe_same_view (H':=spec_ops capacity) e b' s' m
    (λ n, law_depth n b' s' Hb') (law_top_of_book b' s' Hb')) as Hobs.
  assert (∀ m r, same_control
    (valid ← (if validate_after_apply options
              then ob_validate_invariants (invariant_options options) b' else Ret true);
     if valid : bool then Ret (Continue b' m r)
     else Ret (Break b' (fail_invariant (MkError InvariantFailure (CsvParser.line_number row)
            (txt "book invariant validation failed") (CsvParser.raw_row row)) r)))
    (valid ← (if validate_after_apply options
              then ob_validate_invariants (OrderBook:=spec_ops capacity) (invariant_options options) s' else Ret true);
     if valid : bool then Ret (Continue s' m r)
     else Ret (Break s' (fail_invariant (MkError InvariantFailure (CsvParser.line_number row)
            (txt "book invariant validation failed") (CsvParser.raw_row row)) r)))) as Hv.
  { intros m' r'. destruct (validate_after_apply options); [|done].
    rewrite (law_validate _ b' s') by done. cbn [mbind Exec_bind ob_validate_invariants spec_ops].
    by destruct (bool_decide _). }
  destruct (enable_anomaly_detection options); [|apply Hv].
  rewrite Hobs. destruct (AnomalyMonitor.observe (H:=spec_ops capacity) e s' m) as [[found m']|]; [|done].
  cbn [mbind Exec_bind]. apply Hv.
Qed.

(** The loop body, over the rows of the file. *)
Fixpoint replay_rows options (rows : list CsvParser.CsvParseResult) s m r : Exec (SpecBook * ReplayResult) :=
  match rows with
  | [] => Ret (s, r)
  | row :: rows' =>
      c ← replay_row (H:=spec_ops capacity) options row s m r;
      match c with
      | Continue s m r => replay_rows options rows' s m r
      | Break s r => Ret (s, r)
      end
  end.

(** What an outcome over the implementation has to do with one over the
    specification: undefined behaviour is kept, a book represents the other,
    and the results are equal. *)
Definition same_outcome (o : option (Exec (B * ReplayResult))) (o' : Exec (SpecBook * ReplayResult)) : Prop :=
  match o, o' with
  | Some (Ret (b, r)), Ret (s, r') => rep b s ∧ r = r'
  | Some UB, UB => True
  | _, _ => False
  end.

Lemma replay_loop_rows options p rows fuel b s m r :
  reads p rows → (length rows < fuel)%nat → Forall row_ok rows → rep b s →
  same_outcome (replay_loop fuel options p b m r) (replay_rows options rows s m r).
Proof.
  intros Hr. revert fuel b s m r.
  induction Hr as [p p' Hn|p row p' rows Hn Hs _ IH]; intros fuel b s m r Hf Hok Hb;
    (destruct fuel as [|fuel]; simpl in *; [lia|]); rewrite Hn; [by split|].
  apply Forall_cons in Hok as [Hrow Hok].
  pose proof (replay_row_refines options row b s m r Hrow Hb) as Hc.
  destruct (replay_row options row b m r) as [[b1 m1 r1|b1 r1]|],
    (replay_row (H:=spec_ops capacity) options row s m r) as [[s1 m1' r1'|s1 r1']|]; try done.
  destruct Hc as (Hb1 & <- & <-). apply IH; [lia|done|done].
Qed.

Definition finish_spec (o : Exec (SpecBook * ReplayResult)) : Exec (SpecBook * ReplayResult) :=
  '(s, r) ← o; r ← finish (H:=spec_ops capacity) s r; Ret (s, r).

Lemma finish_refines b s r : rep b s → finish b r = finish (H:=spec_ops capacity) s r.
Proof. intros Hb. unfold finish. by rewrite (law_snapshot b s), (law_top_of_book b s) by done. Qed.

Lemma finish_outcome o o' :
  same_outcome (Some o) o' →
  same_outcome (Some ('(b, r) ← o; r ← finish b r; Ret (b, r))) (finish_spec o').
Proof.
  unfold finish_spec. destruct o as [[b r]|], o' as [[s r']|]; try done.
  intros [Hb <-]. cbn [mbind Exec_bind]. by rewrite (finish_refines b s).
Qed.

(** The whole of [replay_file] on a file that opens. *)
Lemma replay_file_rows files path content options b s :
  files path = Some content → rep b s →
  same_outcome (replay_file files path options b)
    (finish_spec (replay_rows options (feed content) spec_empty
                    (AnomalyMonitor.make (anomaly_config options)) empty_result)).
Proof.
  intros Hf Hb. unfold replay_file. unfold CsvParser.is_open.
  rewrite bool_decide_true by (simpl; rewrite Hf; eauto). cbn [negb].
  pose proof (replay_loop_rows options (CsvParser.open files path) (feed content)
    (replay_fuel (CsvParser.open files path)) (ob_clear b) spec_empty
    (AnomalyMonitor.make (anomaly_config options)) empty_result (open_reads files path content Hf)) as Hl.
  ospecialize* Hl; [|apply feed_rows_ok|by eapply law_clear|].
  { pose proof (feed_length content). unfold replay_fuel. simpl. rewrite Hf. simpl. lia. }
  destruct (replay_loop _ _ _ _ _ _) as [o|]; [|done]. cbn [mbind option_bind]. by apply finish_outcome.
Qed.

End refinement.

(** ** What a replay leaves in its result *)

(** The invariant check that fails on a reachable book: it is asked for,
    crossed books are not allowed, and the book is crossed. *)
Definition violates (options : ReplayOptions) (s : SpecBook) : Prop :=
  validate_after_apply options = true ∧ allow_crossed_book (invariant_options options) = false ∧ crossed s.
#[export] Instance violates_dec options s : Decision (violates options s).
Proof. unfold violates. apply _. Defined.

(** The three errors a row can give rise to. *)
Definition parse_error (row : CsvParser.CsvParseResult) : ReplayError :=
  MkError ParseError (CsvParser.line_number row) (CsvParser.message row) (CsvParser.raw_row row).

Definition apply_error (row : CsvParser.CsvParseResult) (res : BookResult) : ReplayError :=
  MkError ApplyRejected (CsvParser.line_number row)
    (txt "book rejected event: " ++ txt (book_result_to_string res)) (CsvParser.raw_row row).

Definition invariant_error (row : CsvParser.CsvParseResult) : ReplayError :=
  MkError InvariantFailure (CsvParser.line_number row) (txt "book invariant validation failed")
    (CsvParser.raw_row row).

(** No difference of time stamps the monitor may compute can overflow: it is
    off, or all are less than 2^63 nanoseconds apart. *)
Definition timestamps_ok (options : ReplayOptions) (events : list MarketEvent) : Prop :=
  enable_anomaly_detection options = true → timestamps_close events.

Definition monitor_ok (options : ReplayOptions) (es : list MarketEvent) (m : AnomalyMonitor.AnomalyMonitor) : Prop :=
  enable_anomaly_detection options = true → stream_inv (anomaly_config options) es m.

Definition counts_ok (r : ReplayResult) : Prop :=
  anomaly_reason_counts r = summarize_anomaly_reasons (anomalies r).

Lemma record_anomalies found r :
  foldl record_anomaly r found
  = MkReplayResult (events_processed r) (rejected_events r) (file_open_failed r) (invariant_failed r)
      (final_checksum r) (final_top r) (final_snapshot r) (errors r) (anomalies r ++ found)
      (foldl (λ counts a, count_key counts (reason a)) (anomaly_reason_counts r) found).
Proof.
  revert r. induction found as [|a found IH]; intros r; simpl; [rewrite app_nil_r; by destruct r|].
  rewrite IH. simpl. by rewrite <-app_assoc.
Qed.

Section accounting.
Context (capacity : option nat) (options : ReplayOptions).
Implicit Types (rows : list CsvParser.CsvParseResult) (s : SpecBook) (r : ReplayResult).

(** The book after the events of some rows. *)
Definition book_after_rows rows s : SpecBook := (spec_apply_all capacity (row_events rows) s).2.

Definition applied_count rows s : Z :=
  Z.of_nat (length (filter (λ res, res = Applied) (spec_apply_all capacity (row_events rows) s).1)).

(** The error log of some rows, in their order. *)
Fixpoint replay_errors rows s : list ReplayError :=
  match rows with
  | [] => []
  | row :: rows' =>
      match CsvParser.event row with
      | None => parse_error row :: replay_errors rows' s
      | Some e =>
          let x := spec_apply capacity e s in
          (if decide (x.1 = Applied) then [] else [apply_error row x.1]) ++ replay_errors rows' x.2
      end
  end.

(** The event of row [k] is applied and leaves a book the check refuses. *)
Definition violated_at rows s (k : nat) : Prop :=
  ∃ row e, rows !! k = Some row ∧ CsvParser.event row = Some e ∧
    let x := spec_apply capacity e (book_after_rows (take k rows) s) in
    x.1 = Applied ∧ violates options x.2.

(** Where the loop stops: at the end of the file, or after the first row that
    violates the invariants. *)
Inductive stops rows s : nat → option CsvParser.CsvParseResult → Prop :=
| stops_at_end : (∀ k, ¬ violated_at rows s k) → stops rows s (length rows) None
| stops_at_violation k row :
    rows !! k = Some row → violated_at rows s k → (∀ j, (j < k)%nat → ¬ violated_at rows s j) →
    stops rows s (S k) (Some row).

Record accounted rows s r (n : nat) (stop : option CsvParser.CsvParseResult) (r' : ReplayResult) : Prop := {
  acc_processed : events_processed r' = wrap64 (events_processed r + applied_count (take n rows) s);
  acc_rejected :
    rejected_events r' = wrap64 (rejected_events r + Z.of_nat n - applied_count (take n rows) s);
  acc_errors : errors r' = errors r ++ replay_errors (take n rows) s ++ (invariant_error <$> option_list stop);
  acc_failed : invariant_failed r' = bool_decide (is_Some stop);
  acc_open : file_open_failed r' = file_open_failed r;
  acc_counts : counts_ok r → counts_ok r'
}.

Lemma row_event_step row rows s :
  (spec_apply_all capacity (row_events (row :: rows)) s)
  = match CsvParser.event row with
    | None => spec_apply_all capacity (row_events rows) s
    | Some e => let x := spec_apply capacity e s in
                let y := spec_apply_all capacity (row_events rows) x.2 in (x.1 :: y.1, y.2)
    end.
Proof. unfold row_events. simpl. by destruct (CsvParser.event row). Qed.

(** The book after one row. *)
Definition row_step row s : SpecBook :=
  match CsvParser.event row with None => s | Some e => (spec_apply capacity e s).2 end.

Lemma book_after_cons row rows s : book_after_rows (row :: rows) s = book_after_rows rows (row_step row s).
Proof. unfold book_after_rows, row_step. rewrite row_event_step. by destruct (CsvParser.event row). Qed.

Lemma violated_later row rows s k :
  violated_at (row :: rows) s (S k) ↔ violated_at rows (row_step row s) k.
Proof. unfold violated_at. simpl. by setoid_rewrite book_after_cons. Qed.

Lemma violated_here row rows s :
  violated_at (row :: rows) s 0 ↔
  ∃ e, CsvParser.event row = Some e ∧ (spec_apply capacity e s).1 = Applied ∧
       violates options (spec_apply capacity e s).2.
Proof.
  unfold violated_at. simpl. split.
  - intros (? & e & [= <-] & He & Hv). by exists e.
  - intros (e & He & Hv). by exists row, e.
Qed.

Lemma stops_later row rows s n stop :
  ¬ violated_at (row :: rows) s 0 → stops rows (row_step row s) n stop → stops (row :: rows) s (S n) stop.
Proof.
  intros H0 [Hn|k r Hk Hv Hj].
  - apply (stops_at_end (row :: rows)). intros [|k]; [done|]. by rewrite violated_later.
  - apply stops_at_violation; [done|by apply violated_later|].
    intros [|j] Hlt; [done|]. rewrite violated_later. apply Hj. lia.
Qed.

(** A row whose event is not applied: one more rejection, one more error. *)
Lemma accounted_rejected row rows s r n stop r' error :
  (∀ rows, replay_errors (row :: rows) s = error :: replay_errors rows (row_step row s)) →
  (∀ rows, applied_count (row :: rows) s = applied_count rows (row_step row s)) →
  accounted rows (row_step row s) (reject error r) n stop r' →
  accounted (row :: rows) s r (S n) stop r'.
Proof.
  intros He Hc [Hp Hr Herr Hf Ho Hcs]. split; rewrite ?firstn_cons, ?He, ?Hc; [done| | |done|done|exact Hcs].
  - rewrite Hr. unfold reject, add64. simpl. unfold wrap64 at 2. unfold wrap64.
    rewrite <-Z.add_sub_assoc, Zplus_mod_idemp_l. f_equal. lia.
  - rewrite Herr. simpl. by rewrite <-app_assoc.
Qed.

(** A row whose event is applied, and monitored. *)
Lemma accounted_applied row rows s r n stop r' found :
  (∀ rows, replay_errors (row :: rows) s = replay_errors rows (row_step row s)) →
  (∀ rows, applied_count (row :: rows) s = 1 + applied_count rows (row_step row s)) →
  accounted rows (row_step row s) (foldl record_anomaly (count_processed r) found) n stop r' →
  accounted (row :: rows) s r (S n) stop r'.
Proof.
  intros He Hc. rewrite record_anomalies. intros [Hp Hr Herr Hf Ho Hcs].
  split; rewrite ?firstn_cons, ?He, ?Hc; simpl in *; [| |done|done|done|].
  - rewrite Hp. unfold add64. rewrite wrap64_add_l. f_equal. lia.
  - rewrite Hr. f_equal. lia.
  - intros Hco. apply Hcs. unfold counts_ok, summarize_anomaly_reasons in *. simpl. by rewrite foldl_app, <-Hco.
Qed.

(** Monitoring an applied event returns, and only logs anomalies. *)
Lemma monitor_event_returns es e s m r :
  timestamps_ok options (es ++ [e]) → monitor_ok options es m →
  ∃ m' found, monitor_event (H:=spec_ops capacity) options e s m r = Ret (m', foldl record_anomaly r found) ∧
              monitor_ok options (es ++ [e]) m'.
Proof.
  intros Hts Hm. unfold monitor_event, timestamps_ok, monitor_ok in *.
  destruct (enable_anomaly_detection options); [|by exists m, []].
  destruct (observe_step (H:=spec_ops capacity) (anomaly_config options) es e s m (Hts eq_refl) (Hm eq_refl))
    as (found & m' & Ho & Hi).
  exists m', found. by rewrite Ho.
Qed.

(** The loop body on a row whose event is not applied. *)
Lemma replay_row_rejected row s m r :
  row_ok row → match CsvParser.event row with
               | None => True
               | Some e => (spec_apply capacity e s).1 ≠ Applied
               end →
  ∃ error, replay_row (H:=spec_ops capacity) options row s m r
           = Ret (Continue (row_step row s) m (reject error r)) ∧
    (∀ rows, replay_errors (row :: rows) s = error :: replay_errors rows (row_step row s)) ∧
    (∀ rows, applied_count (row :: rows) s = applied_count rows (row_step row s)) ∧
    (∀ rows, ¬ violated_at (row :: rows) s 0).
Proof.
  unfold row_ok, replay_row. setoid_rewrite violated_here. unfold row_step, applied_count.
  setoid_rewrite row_event_step.
  intros Hok Hno. cbn [replay_errors].
  destruct (CsvParser.status row), (CsvParser.event row) as [e|]; try done.
  - cbn [deref mbind Exec_bind ob_apply spec_ops].
    pose proof (spec_apply_rejected capacity e s Hno) as Hs. destruct (spec_apply capacity e s) as [res s'] eqn:Ea.
    cbn [fst snd] in *. subst s'. rewrite decide_True by done. eexists. split_and!.
    + reflexivity.
    + intros rows. by rewrite decide_False.
    + intros rows. by rewrite filter_cons, decide_False.
    + intros _ (e' & [= <-] & Ha & _). by rewrite Ea in Ha.
  - eexists. split_and!; [reflexivity|done|done|]. by intros _ (? & ? & _).
Qed.

(** The loop body on a row whose event is applied. *)
Lemma replay_row_applied row e es s m r :
  row_ok row → CsvParser.event row = Some e → (spec_apply capacity e s).1 = Applied →
  timestamps_ok options (es ++ [e]) → monitor_ok options es m →
  ∃ m' found, let r' := foldl record_anomaly (count_processed r) found in
    monitor_ok options (es ++ [e]) m' ∧
    replay_row (H:=spec_ops capacity) options row s m r
    = Ret (if decide (violates options (row_step row s))
           then Break (row_step row s) (fail_invariant (invariant_error row) r')
           else Continue (row_step row s) m' r').
Proof.
  unfold row_ok, replay_row, row_step. intros Hok He Happ Hts Hm. rewrite He in *.
  destruct (CsvParser.status row); [|done|done]. cbn [deref mbind Exec_bind ob_apply spec_ops].
  destruct (spec_apply capacity e s) as [res s']. cbn [fst snd] in *. subst res.
  rewrite decide_False by (intros Hn; by apply Hn).
  destruct (monitor_event_returns es e s' m (count_processed r) Hts Hm) as (m' & found & Ho & Hm').
  exists m', found. split; [done|]. rewrite Ho. cbn [mbind Exec_bind].
  destruct (decide (violates options s')) as [(-> & Ha & Hc)|Hn]; cbn [mbind Exec_bind ob_validate_invariants spec_ops].
  - rewrite bool_decide_false by (rewrite Ha; intros [|]; done). done.
  - unfold violates in Hn. destruct (validate_after_apply options); [|done]. cbn [mbind Exec_bind].
    rewrite bool_decide_true; [done|]. destruct (allow_crossed_book _); [by left|right]. tauto.
Qed.

Lemma applied_rows row e s :
  CsvParser.event row = Some e → (spec_apply capacity e s).1 = Applied →
  (∀ rows, replay_errors (row :: rows) s = replay_errors rows (row_step row s)) ∧
  (∀ rows, applied_count (row :: rows) s = 1 + applied_count rows (row_step row s)).
Proof.
  intros He Ha. cbn [replay_errors]. unfold applied_count, row_step. setoid_rewrite row_event_step. rewrite He.
  rewrite decide_True by done. split; [done|]. intros rows. cbn [fst].
  rewrite filter_cons, decide_True by done. simpl. lia.
Qed.

Lemma accounted_none rows s r n stop r' :
  is_u64 (events_processed r) → is_u64 (rejected_events r) → n = 0%nat →
  invariant_failed r' = bool_decide (is_Some stop) →
  events_processed r' = events_processed r → rejected_events r' = rejected_events r →
  errors r' = errors r ++ (invariant_error <$> option_list stop) →
  file_open_failed r' = file_open_failed r → (counts_ok r → counts_ok r') →
  accounted rows s r n stop r'.
Proof.
  intros Hp Hr -> Hf Hp' Hr' He Ho Hc. split; rewrite ?take_0; try done; unfold applied_count; simpl.
  - by rewrite Z.add_0_r, wrap64_small.
  - by rewrite Z.add_0_r, Z.sub_0_r, wrap64_small.
Qed.

Lemma row_events_cons row rows : row_events (row :: rows) = option_list (CsvParser.event row) ++ row_events rows.
Proof. unfold row_events. simpl. by destruct (CsvParser.event row). Qed.

Lemma applied_or_not row s :
  (∃ e, CsvParser.event row = Some e ∧ (spec_apply capacity e s).1 = Applied) ∨
  match CsvParser.event row with
  | None => True
  | Some e => (spec_apply capacity e s).1 ≠ Applied
  end.
Proof.
  destruct (CsvParser.event row) as [e|]; [|by right].
  destruct (decide ((spec_apply capacity e s).1 = Applied)); [left; by exists e|by right].
Qed.

(** The rows of a file, from any state of the loop. *)
Lemma replay_rows_account rows es s m r :
  Forall row_ok rows → timestamps_ok options (es ++ row_events rows) → monitor_ok options es m →
  is_u64 (events_processed r) → is_u64 (rejected_events r) → invariant_failed r = false →
  ∃ n stop r',
    replay_rows (capacity:=capacity) options rows s m r = Ret (book_after_rows (take n rows) s, r') ∧
    stops rows s n stop ∧ accounted rows s r n stop r'.
Proof.
  intros Hok. revert es s m r. induction Hok as [|row rows Hrow Hok IH]; intros es s m r Hts Hm Hp Hr Hf.
  { exists 0%nat, None, r. split_and!; [done| |].
    - apply (stops_at_end []). intros k (? & ? & Hk & _). by rewrite lookup_nil in Hk.
    - apply accounted_none; try done. by rewrite app_nil_r. }
  cbn [replay_rows]. rewrite row_events_cons in Hts.
  destruct (applied_or_not row s) as [(e & He & Ha)|Hn].
  - rewrite He in Hts. simpl option_list in Hts. rewrite app_assoc in Hts.
    destruct (replay_row_applied row e es s m r Hrow He Ha) as (m' & found & Hm' & ->).
    { intros Hen. specialize (Hts Hen). by apply timestamps_close_prefix in Hts. }
    { done. }
    destruct (applied_rows row e s He Ha) as [Herr Hcnt].
    cbn [mbind Exec_bind]. destruct (decide (violates options (row_step row s))) as [Hv|Hv].
    + eexists 1%nat, (Some row), _. split_and!.
      * rewrite firstn_cons, take_0, book_after_cons. reflexivity.
      * apply (stops_at_violation (row :: rows) s 0 row); [done| |lia].
        apply violated_here. exists e. unfold row_step in Hv. rewrite He in Hv. done.
      * eapply (accounted_applied row rows s r 0 _ _ found Herr Hcnt).
        rewrite record_anomalies. apply accounted_none; simpl; try done. apply wrap64_range.
    + assert (∀ rows, ¬ violated_at (row :: rows) s 0) as H0.
      { intros rows' (e' & He' & _ & Hv')%violated_here. unfold row_step in Hv. by rewrite He' in Hv. }
      destruct (IH (es ++ [e]) (row_step row s) m' (foldl record_anomaly (count_processed r) found))
        as (n & stop & r' & Hr' & Hst & Hacc);
        [done|done|rewrite record_anomalies; apply wrap64_range|by rewrite record_anomalies..|].
      exists (S n), stop, r'. rewrite Hr', firstn_cons, book_after_cons. split_and!; [done|by apply stops_later|].
      by eapply accounted_applied.
  - destruct (replay_row_rejected row s m r Hrow Hn) as (error & -> & Herr & Hcnt & H0).
    cbn [mbind Exec_bind].
    destruct (IH es (row_step row s) m (reject error r)) as (n & stop & r' & Hr' & Hst & Hacc);
      [|done|done|apply wrap64_range|done|].
    { intros Hen. eapply timestamps_close_sub; [|exact (Hts Hen)]. set_solver. }
    exists (S n), stop, r'. rewrite Hr', firstn_cons, book_after_cons. split_and!; [done|by apply stops_later|].
    by eapply accounted_rejected.
Qed.

End accounting.

(** The final assignments change neither the counts nor the logs. *)
Lemma finish_accounted capacity rows s0 r0 n stop s r :
  accounted capacity rows s0 r0 n stop r →
  ∃ r', finish (H:=spec_ops capacity) s r = Ret r' ∧ accounted capacity rows s0 r0 n stop r' ∧
    final_snapshot r' = spec_snapshot s ∧ final_top r' = spec_top s ∧
    final_checksum r' = checksum_snapshot (spec_snapshot s).
Proof. intros []. eexists. split; [reflexivity|]. by split_and!. Qed.

Section whole.
Context `{HL : OrderBookLaws B capacity rep}.

Lemma replay_file_account files path content options (b : B) s :
  files path = Some content → rep b s → timestamps_ok options (row_events (feed content)) →
  ∃ b' r n stop, let s' := book_after_rows capacity (take n (feed content)) spec_empty in
    replay_file files path options b = Some (Ret (b', r)) ∧ rep b' s' ∧
    stops capacity options (feed content) spec_empty n stop ∧
    accounted capacity (feed content) spec_empty empty_result n stop r ∧
    final_snapshot r = spec_snapshot s' ∧ final_top r = spec_top s' ∧
    final_checksum r = checksum_snapshot (spec_snapshot s').
Proof.
  intros Hf Hb Hts. pose proof (replay_file_rows files path content options b s Hf Hb) as Ho.
  destruct (replay_rows_account capacity options (feed content) [] spec_empty
    (AnomalyMonitor.make (anomaly_config options)) empty_result) as (n & stop & r & Hr & Hst & Hacc);
    [apply feed_rows_ok|done|intros _; apply make_inv|done|done|done|].
  rewrite Hr in Ho. unfold finish_spec in Ho. cbn [mbind Exec_bind] in Ho.
  destruct (finish_accounted capacity _ _ _ _ _
    (book_after_rows capacity (take n (feed content)) spec_empty) r Hacc) as (r' & Hfin & Hacc' & Hfinal).
  rewrite Hfin in Ho. cbn [mbind Exec_bind] in Ho. unfold same_outcome in Ho.
  destruct (replay_file files path options b) as [[[b' r'']|]|]; [|done|done]. destruct Ho as [Hb' ->].
  by exists b', r', n, stop.
Qed.

(** A file that does not open: the cleared book and one error. *)
Lemma replay_file_missing files path options (b : B) s :
  files path = None → rep b s →
  replay_file files path options b
  = Some (Ret (ob_clear b,
      MkReplayResult 0 0 true false (checksum_snapshot (spec_snapshot spec_empty)) (spec_top spec_empty)
        (spec_snapshot spec_empty) [MkError FileOpenFailure 0 (txt "failed to open input file") path] [] [])).
Proof.
  intros Hf Hb. unfold replay_file, CsvParser.is_open. simpl. rewrite Hf, bool_decide_false by by intros [].
  cbn [negb]. unfold finish. pose proof (law_clear b s Hb) as Hc.
  by rewrite (law_snapshot _ spec_empty), (law_top_of_book _ spec_empty) by done.
Qed.

End whole.
