(* ===== verification/Checksum.v ===== *)
(** * The checksum of a snapshot

    [checksum_snapshot] feeds a snapshot to FNV-1a field by field.  Here the
    bytes it hashes are written down as an encoding: the checksum is the hash
    of the encoding, no two snapshots have the same encoding, and each step of
    the hash is a bijection, so changing one byte changes the checksum. *)
From S2P Require Import Prelude CoreTypes Text BookTypes ReplayEngine.
From Stdlib Require Import Ascii.
Import ReplayEngine.
#[local] Open Scope Z_scope.

(** ** Encodings *)

Definition encode_u64 (v : Z) : list Z :=
  (λ shift, Z.land (Z.shiftr v shift) 255) <$> [0; 8; 16; 24; 32; 40; 48; 56].

Definition encode_i64 (v : Z) : list Z := encode_u64 (wrap64 v).

Definition encode_order (o : OrderView) : list Z :=
  encode_u64 (value (ov_order_id o)) ++ encode_i64 (nanoseconds (ov_timestamp o)) ++
  encode_u64 (units (ov_quantity o)).

(** A vector: its length, then its elements. *)
Definition encode_list {A} (encode : A → list Z) (xs : list A) : list Z :=
  encode_u64 (Z.of_nat (length xs)) ++ (xs ≫= encode).

Definition encode_level (l : PriceLevelSnapshot) : list Z :=
  encode_i64 (ticks (pls_price l)) ++ encode_u64 (units (pls_quantity l)) ++
  encode_list encode_order (pls_orders l).

Definition encode_tagged (tag : ascii) (l : PriceLevelSnapshot) : list Z := char_code tag :: encode_level l.

Definition encode_snapshot (s : BookSnapshot) : list Z :=
  char_code "D" :: char_code "G" ::
  encode_list (encode_tagged "B") (snap_bids s) ++ encode_list (encode_tagged "A") (snap_asks s).

(** ** The checksum hashes the encoding *)

Lemma foldl_map {A B C} (f : A → B → A) (g : C → B) (xs : list C) a :
  foldl (λ a x, f a (g x)) a xs = foldl f a (g <$> xs).
Proof. revert a. induction xs as [|x xs IH]; intros a; [done|]. rewrite fmap_cons. cbn [foldl]. apply IH. Qed.

Lemma hash_u64_encode h v : hash_u64 h v = foldl hash_byte h (encode_u64 v).
Proof. apply foldl_map. Qed.

Lemma hash_order_encode h o : hash_order h o = foldl hash_byte h (encode_order o).
Proof. unfold hash_order, hash_i64, encode_order, encode_i64. by rewrite !foldl_app, <-!hash_u64_encode. Qed.

Lemma hash_elements {A} (hash : Z → A → Z) encode (xs : list A) h :
  (∀ h x, hash h x = foldl hash_byte h (encode x)) → foldl hash h xs = foldl hash_byte h (xs ≫= encode).
Proof.
  intros Hx. revert h. induction xs as [|x xs IH]; intros h; [done|].
  rewrite bind_cons, foldl_app. cbn [foldl]. by rewrite IH, Hx.
Qed.

Lemma hash_price_level_encode h l : hash_price_level h l = foldl hash_byte h (encode_level l).
Proof.
  unfold hash_price_level, hash_i64, encode_level, encode_i64, encode_list.
  rewrite !foldl_app, <-!hash_u64_encode. by apply hash_elements, hash_order_encode.
Qed.

Lemma checksum_encode s : checksum_snapshot s = foldl hash_byte kFnvOffsetBasis (encode_snapshot s).
Proof.
  unfold checksum_snapshot, encode_snapshot, encode_list. cbn [foldl].
  rewrite !foldl_app, <-!hash_u64_encode.
  assert (∀ tag h ls, foldl (λ h l, hash_price_level (hash_byte h (char_code tag)) l) h ls
                      = foldl hash_byte h (ls ≫= encode_tagged tag)) as Ht
    by (intros tag h ls; apply hash_elements; intros; apply hash_price_level_encode).
  by rewrite !Ht.
Qed.

(** ** Encodings are prefix codes *)

(** Over the values it is meant for, the encoding of a value can be read off
    the front of any sequence of bytes. *)
Class PrefixCode {A} (typed : A → Prop) (encode : A → list Z) : Prop :=
  prefix_code a b x y : typed a → typed b → encode a ++ x = encode b ++ y → a = b ∧ x = y.

Lemma shifted_bytes v k : 0 ≤ k → Z.land (Z.shiftr v k) 255 = v / 2 ^ k mod 256.
Proof.
  intros Hk. rewrite Z.shiftr_div_pow2 by done. change 255 with (Z.ones 8).
  by rewrite Z.land_ones by lia.
Qed.

Lemma encode_u64_bytes v : Forall (λ b, 0 ≤ b < 256) (encode_u64 v).
Proof.
  unfold encode_u64. apply Forall_fmap. repeat (apply Forall_cons; split);
    try apply Forall_nil_2; simpl; rewrite shifted_bytes by lia; by apply Z.mod_pos_bound.
Qed.

Lemma split_byte a b k :
  0 ≤ k → a / 2 ^ k mod 256 = b / 2 ^ k mod 256 → a / 2 ^ (k + 8) = b / 2 ^ (k + 8) → a / 2 ^ k = b / 2 ^ k.
Proof.
  intros Hk Hm. rewrite Z.pow_add_r, <-!Z.div_div by lia. change (2 ^ 8) with 256. intros Hd.
  rewrite (Z.div_mod (a / 2 ^ k) 256), (Z.div_mod (b / 2 ^ k) 256) by lia. by rewrite Hm, Hd.
Qed.

Lemma encode_u64_inj a b : is_u64 a → is_u64 b → encode_u64 a = encode_u64 b → a = b.
Proof.
  intros Ha Hb. unfold encode_u64. rewrite !fmap_cons. rewrite !shifted_bytes by lia.
  intros [= H0 H1 H2 H3 H4 H5 H6 H7].
  rewrite <-(Z.div_1_r a), <-(Z.div_1_r b). change 1 with (2 ^ 0).
  do 8 (apply split_byte; [lia|assumption|]; simpl Z.add).
  unfold is_u64, two64 in *. rewrite !Z.div_small; [done| |]; simpl; lia.
Qed.

#[export] Instance encode_u64_code : PrefixCode is_u64 encode_u64.
Proof. intros a b x y Ha Hb [He ->]%app_inj_1; [|done]. split; [|done]. by apply encode_u64_inj. Qed.

Lemma wrap64_i64_inj a b : is_i64 a → is_i64 b → wrap64 a = wrap64 b → a = b.
Proof.
  unfold is_i64, wrap64, two63, two64. intros Ha Hb He.
  pose proof (Z.div_mod a 18446744073709551616 ltac:(lia)). pose proof (Z.div_mod b 18446744073709551616 ltac:(lia)). nia.
Qed.

#[export] Instance encode_i64_code : PrefixCode is_i64 encode_i64.
Proof.
  intros a b x y Ha Hb He. unfold encode_i64 in He. apply prefix_code in He as [He ->]; [|apply wrap64_range..].
  split; [|done]. by apply wrap64_i64_inj.
Qed.

(** Values that fit their machine types; a vector has fewer than 2^64
    elements. *)
Definition typed_list {A} (typed : A → Prop) (xs : list A) : Prop :=
  is_u64 (Z.of_nat (length xs)) ∧ Forall typed xs.

Definition typed_order (o : OrderView) : Prop :=
  is_u64 (value (ov_order_id o)) ∧ is_i64 (nanoseconds (ov_timestamp o)) ∧ is_u64 (units (ov_quantity o)).

Definition typed_level (l : PriceLevelSnapshot) : Prop :=
  is_i64 (ticks (pls_price l)) ∧ is_u64 (units (pls_quantity l)) ∧ typed_list typed_order (pls_orders l).

Definition typed_snapshot (s : BookSnapshot) : Prop :=
  typed_list typed_level (snap_bids s) ∧ typed_list typed_level (snap_asks s).

#[export] Instance encode_order_code : PrefixCode typed_order encode_order.
Proof.
  intros [[i] [t] [q]] [[i'] [t'] [q']] x y (Hi & Ht & Hq) (Hi' & Ht' & Hq') He.
  unfold encode_order in He. cbn [ov_order_id ov_timestamp ov_quantity value nanoseconds units] in *.
  rewrite <-!app_assoc in He.
  apply prefix_code in He as [-> He]; [|done..]. apply prefix_code in He as [-> He]; [|done..].
  by apply prefix_code in He as [-> ->].
Qed.

#[export] Instance encode_list_code {A} (typed : A → Prop) encode :
  PrefixCode typed encode → PrefixCode (typed_list typed) (encode_list encode).
Proof.
  intros Hc xs ys x y [Hlx Hx] [Hly Hy] He. unfold encode_list in He. rewrite <-!app_assoc in He.
  apply prefix_code in He as [Hlen He]; [|done..]. apply Nat2Z.inj in Hlen. clear Hlx Hly.
  revert ys Hy Hlen He. induction Hx as [|a xs Ha _ IH]; intros [|b ys] Hy Hlen He; simplify_eq/=; [done|].
  apply Forall_cons in Hy as [Hb Hy]. rewrite <-!app_assoc in He.
  apply prefix_code in He as [-> He]; [|done..]. by destruct (IH ys Hy Hlen He) as [-> ->].
Qed.

#[export] Instance encode_level_code : PrefixCode typed_level encode_level.
Proof.
  intros [[p] [q] os] [[p'] [q'] os'] x y (Hp & Hq & Ho) (Hp' & Hq' & Ho') He.
  unfold encode_level in He. cbn [pls_price pls_quantity pls_orders ticks units] in *.
  rewrite <-!app_assoc in He.
  apply prefix_code in He as [-> He]; [|done..]. apply prefix_code in He as [-> He]; [|done..].
  by apply (prefix_code (encode:=encode_list encode_order)) in He as [-> ->].
Qed.

#[export] Instance encode_tagged_code tag : PrefixCode typed_level (encode_tagged tag).
Proof.
  intros a b x y Ha Hb He. apply (f_equal (@tail Z)) in He.
  exact (prefix_code (encode:=encode_level) a b x y Ha Hb He).
Qed.

#[export] Instance encode_snapshot_code : PrefixCode typed_snapshot encode_snapshot.
Proof.
  intros [bs as_] [bs' as'] x y [Hb Ha] [Hb' Ha'] He. apply (f_equal (λ l, tail (tail l))) in He.
  unfold encode_snapshot in He. cbn [snap_bids snap_asks app tail] in *. rewrite <-!app_assoc in He.
  apply (prefix_code (encode:=encode_list _)) in He as [-> He]; [|done..].
  by apply (prefix_code (encode:=encode_list _)) in He as [-> ->].
Qed.

(** No two snapshots have the same encoding. *)
Lemma encode_snapshot_inj a b :
  typed_snapshot a → typed_snapshot b → encode_snapshot a = encode_snapshot b → a = b.
Proof. intros Ha Hb He. apply (prefix_code a b [] []); [done|done|by rewrite He]. Qed.

Lemma encode_list_bytes {A} (encode : A → list Z) xs :
  (∀ x, Forall (λ b, 0 ≤ b < 256) (encode x)) → Forall (λ b, 0 ≤ b < 256) (encode_list encode xs).
Proof.
  intros Hx. apply Forall_app. split; [apply encode_u64_bytes|].
  induction xs as [|x xs IH]; [constructor|]. rewrite bind_cons. by apply Forall_app.
Qed.

Lemma encode_level_bytes l : Forall (λ b, 0 ≤ b < 256) (encode_level l).
Proof.
  unfold encode_level, encode_i64. rewrite !Forall_app. split_and!; [apply encode_u64_bytes..|].
  apply encode_list_bytes. intros o. unfold encode_order, encode_i64. rewrite !Forall_app.
  split_and!; apply encode_u64_bytes.
Qed.

Lemma encode_snapshot_bytes s : Forall (λ b, 0 ≤ b < 256) (encode_snapshot s).
Proof.
  do 2 (constructor; [done|]). apply Forall_app.
  split; apply encode_list_bytes; (intros l; constructor; [done|apply encode_level_bytes]).
Qed.

(** ** Steps of the hash *)

(** The inverse of the FNV prime modulo 2^64. *)
Definition fnv_inverse : Z := 14886173955864302971.

Lemma mul_prime_inj a b : is_u64 a → is_u64 b → mul64 a kFnvPrime = mul64 b kFnvPrime → a = b.
Proof.
  intros Ha Hb He. apply (f_equal (λ z, wrap64 (z * fnv_inverse))) in He.
  assert (∀ z, is_u64 z → wrap64 (mul64 z kFnvPrime * fnv_inverse) = z) as Hinv.
  { intros z Hz. unfold mul64, wrap64. rewrite Z.mul_mod_idemp_l, <-Z.mul_assoc, <-Z.mul_mod_idemp_r by done.
    replace (kFnvPrime * fnv_inverse mod two64) with 1 by (vm_compute; reflexivity).
    rewrite Z.mul_1_r. by apply wrap64_small. }
  by rewrite !Hinv in He.
Qed.

Lemma lxor_u64 a b : is_u64 a → 0 ≤ b < 256 → is_u64 (Z.lxor a b).
Proof.
  unfold is_u64, two64. intros Ha Hb. split; [apply Z.lxor_nonneg; lia|].
  rewrite <-(Z.mod_small a (2 ^ 64)), <-(Z.mod_small b (2 ^ 64)) by lia.
  rewrite <-!Z.land_ones by lia.
  replace (Z.lxor _ _) with (Z.land (Z.lxor a b) (Z.ones 64)).
  - rewrite Z.land_ones by lia. by apply Z.mod_pos_bound.
  - apply Z.bits_inj'. intros n Hn. rewrite !Z.lxor_spec, !Z.land_spec, Z.lxor_spec.
    by destruct (Z.testbit a n), (Z.testbit b n), (Z.testbit (Z.ones 64) n).
Qed.

Lemma lxor_cancel a b c : Z.lxor a b = Z.lxor a c → b = c.
Proof.
  intros He. apply (f_equal (Z.lxor a)) in He.
  by rewrite <-!Z.lxor_assoc, Z.lxor_nilpotent, !Z.lxor_0_l in He.
Qed.

Lemma hash_byte_u64 h b : is_u64 (hash_byte h b).
Proof. apply wrap64_range. Qed.

Lemma hash_bytes_u64 h bs : is_u64 h → is_u64 (foldl hash_byte h bs).
Proof. revert h. induction bs as [|b bs IH]; intros h Hh; [done|]. apply IH, hash_byte_u64. Qed.

(** The same bytes take different hashes to different hashes. *)
Lemma hash_bytes_inj bs h h' :
  Forall (λ b, 0 ≤ b < 256) bs → is_u64 h → is_u64 h' →
  foldl hash_byte h bs = foldl hash_byte h' bs → h = h'.
Proof.
  intros Hbs. revert h h'. induction Hbs as [|b bs Hb _ IH]; intros h h' Hh Hh' He; [done|].
  apply IH in He; [|apply hash_byte_u64..]. apply mul_prime_inj in He; [|by apply lxor_u64..].
  rewrite (Z.lxor_comm h), (Z.lxor_comm h') in He. by eapply lxor_cancel.
Qed.

(** Changing one byte changes the hash. *)
Lemma hash_one_byte pre b b' post h :
  is_u64 h → 0 ≤ b < 256 → 0 ≤ b' < 256 → b ≠ b' → Forall (λ b, 0 ≤ b < 256) post →
  foldl hash_byte h (pre ++ b :: post) ≠ foldl hash_byte h (pre ++ b' :: post).
Proof.
  intros Hh Hb Hb' Hne Hpost. rewrite !foldl_app. cbn [foldl]. pose proof (hash_bytes_u64 h pre Hh) as Hp.
  intros He%hash_bytes_inj; [|done|apply hash_byte_u64..].
  apply mul_prime_inj in He; [|by apply lxor_u64..]. by apply lxor_cancel in He.
Qed.
