(* ===== verification/ReplayProperties.v ===== *)
(** * Properties of the replay engine

    What [replay_file] returns for every file, when it stops early, that it
    depends on nothing but the file and the options, and what its checksum
    distinguishes. *)
From S2P Require Import Prelude CoreTypes OrderedMap Text BookTypes BookSpec Book BookRefinement.
From S2P Require Import BookValidation CsvParser CsvLaws Double AnomalyDetector AnomalyLaws ReplayEngine.
From S2P Require Import ReplayLaws Checksum.
From Stdlib Require Import Ascii.
Import ReplayEngine.
#[local] Open Scope Z_scope.

(** *** A file for the witnesses: a bid, a row that does not parse, a
    duplicate id, an ask that crosses the book, and a cancel *)

Definition crossing_file : text :=
  CsvParser.kExpectedHeader ++ newline :: txt "1,ADD,1,B,100,10" ++ newline :: txt "2,ADD,2,X,100,10" ++
  newline :: txt "3,ADD,1,S,105,5" ++ newline :: txt "4,ADD,3,S,99,5" ++ newline :: txt "5,CANCEL,1,,,".

Definition crossing_files (_ : text) : option text := Some crossing_file.

Definition monitoring_options : ReplayOptions :=
  MkOptions default_invariant_options true true default_config.

Lemma crossing_events :
  row_events (feed crossing_file)
  = [MkEvent Add (MkTimestamp 1) (MkOrderId 1) Buy (MkPrice 100) (MkQuantity 10);
     MkEvent Add (MkTimestamp 3) (MkOrderId 1) Sell (MkPrice 105) (MkQuantity 5);
     MkEvent Add (MkTimestamp 4) (MkOrderId 3) Sell (MkPrice 99) (MkQuantity 5);
     MkEvent Cancel (MkTimestamp 5) (MkOrderId 1) Buy (MkPrice 0) (MkQuantity 0)].
Proof. vm_compute. reflexivity. Qed.

Lemma crossing_timestamps : timestamps_ok monitoring_options (row_events (feed crossing_file)).
Proof.
  intros _. apply timestamps_ok_close. rewrite crossing_events. unfold timestamp_ok, two63.
  repeat (apply Forall_cons; split; [simpl; lia|]). apply Forall_nil_2.
Qed.

(** C7: the account of a replay.  Let anomaly detection be off, or any two time
    stamps of the file's events less than 2^63 nanoseconds apart (others can
    overflow the expiry of the monitor's windows, see [timestamp_overflow]).
    Whatever the book held before, replaying the file then returns, without
    undefined behaviour, and accounts for the rows it read (all of them, unless
    the invariants failed): the final snapshot, top
    of book and checksum are those of the specification book after their
    events in order; [events_processed] counts the applied ones,
    [rejected_events] all others; the error log holds exactly one entry per
    row that did not parse or was not applied, in order, and last the
    invariant failure if there is one; the reason counts summarise the
    anomalies. *)
Theorem replay_accounts `{HL : OrderBookLaws B capacity rep} files path content options (b : B) s :
  files path = Some content → rep b s → timestamps_ok options (row_events (feed content)) →
  ∃ b' r n,
    let rows := take n (feed content) in
    let book := book_after_rows capacity rows spec_empty in
    let applied := applied_count capacity rows spec_empty in
    replay_file files path options b = Some (Ret (b', r)) ∧
    (n ≤ length (feed content))%nat ∧ (invariant_failed r = false → n = length (feed content)) ∧
    file_open_failed r = false ∧ rep b' book ∧
    final_snapshot r = spec_snapshot book ∧ final_top r = spec_top book ∧
    final_checksum r = checksum_snapshot (spec_snapshot book) ∧
    events_processed r = wrap64 applied ∧ rejected_events r = wrap64 (Z.of_nat n - applied) ∧
    errors r = replay_errors capacity rows spec_empty ++
      (if invariant_failed r then option_list (invariant_error <$> last rows) else []) ∧
    anomaly_reason_counts r = summarize_anomaly_reasons (anomalies r).
Proof.
  intros Hf Hb Hts.
  destruct (replay_file_account files path content options b s Hf Hb Hts)
    as (b' & r & n & stop & Hr & Hb' & Hst & [Hp Hrj He Hfl Ho Hc] & Hs & Ht & Hck).
  exists b', r, n. split_and!; try done; [| | |by apply Hc].
  - destruct Hst as [|k row Hk _ _]; [done|]. apply lookup_lt_Some in Hk. lia.
  - rewrite Hfl. by destruct Hst as [|k row Hk _ _].
  - rewrite He, Hfl. simpl. f_equal. destruct Hst as [|k row Hk _ _]; [done|].
    by rewrite (take_S_r _ _ row Hk), last_snoc.
Qed.

Definition crossing_result : ReplayResult :=
  match replay_file crossing_files (txt "in.csv") monitoring_options LimitOrderBook.empty_book with
  | Some (Ret (_, r)) => r
  | _ => empty_result
  end.

Lemma replay_accounts_witness :
  ∃ n, events_processed crossing_result
       = wrap64 (applied_count None (take n (feed crossing_file)) spec_empty) ∧
    events_processed crossing_result = 2 ∧ rejected_events crossing_result = 2 ∧
    map err_type (errors crossing_result) = [ParseError; ApplyRejected; InvariantFailure].
Proof.
  destruct (replay_accounts (HL:=LimitOrderBook_laws) crossing_files (txt "in.csv") crossing_file monitoring_options
    LimitOrderBook.empty_book spec_empty eq_refl empty_book_represents crossing_timestamps)
    as (b' & r & n & Hr & _ & _ & _ & _ & _ & _ & _ & Hp & _).
  exists n. split_and!; [|vm_compute; reflexivity..].
  unfold crossing_result. by rewrite Hr.
Defined.

(** C19: a replay stops early exactly for a crossed book.  With anomaly
    detection off, or any two time stamps of the file's events less than 2^63
    nanoseconds apart, the replay of a file returns, and: if no applied event
    leaves a book the invariants refuse, the whole file is read; otherwise the
    replay stops right after the first such row, with that row as the last
    entry of the log and the book as that row left it.  It never stops early
    when validation is off or crossed books are allowed. *)
Theorem replay_stops `{HL : OrderBookLaws B capacity rep} files path content options (b : B) s :
  files path = Some content → rep b s → timestamps_ok options (row_events (feed content)) →
  ∃ b' r, replay_file files path options b = Some (Ret (b', r)) ∧
    ((invariant_failed r = false ∧ (∀ k, ¬ violated_at capacity options (feed content) spec_empty k) ∧
      final_snapshot r = spec_snapshot (book_after_rows capacity (feed content) spec_empty)) ∨
     (invariant_failed r = true ∧ validate_after_apply options = true ∧
      allow_crossed_book (invariant_options options) = false ∧
      ∃ k row, feed content !! k = Some row ∧
        violated_at capacity options (feed content) spec_empty k ∧
        (∀ j, (j < k)%nat → ¬ violated_at capacity options (feed content) spec_empty j) ∧
        last (errors r) = Some (invariant_error row) ∧
        final_snapshot r = spec_snapshot (book_after_rows capacity (take (S k) (feed content)) spec_empty))).
Proof.
  intros Hf Hb Hts.
  destruct (replay_file_account files path content options b s Hf Hb Hts)
    as (b' & r & n & stop & Hr & Hb' & Hst & [_ _ He Hfl _ _] & Hs & _).
  exists b', r. split; [done|]. destruct Hst as [Hn|k row Hk Hv Hj].
  - left. rewrite firstn_all in Hs. done.
  - right. pose proof Hv as (row' & e & _ & _ & _ & Hva & Hcr & _). split_and!; [done..|].
    exists k, row. split_and!; try done. rewrite He, app_assoc. apply last_snoc.
Qed.

Lemma replay_stops_witness :
  ∃ k row, feed crossing_file !! k = Some row ∧ last (errors crossing_result) = Some (invariant_error row) ∧
    CsvParser.raw_row row = txt "4,ADD,3,S,99,5".
Proof.
  destruct (replay_stops (HL:=LimitOrderBook_laws) crossing_files (txt "in.csv") crossing_file monitoring_options
    LimitOrderBook.empty_book spec_empty eq_refl empty_book_represents crossing_timestamps)
    as (b' & r & Hr & Hcases).
  assert (invariant_failed crossing_result = true) as Hf by (vm_compute; reflexivity).
  assert (err_raw_row <$> last (errors crossing_result) = Some (txt "4,ADD,3,S,99,5")) as Hl by (vm_compute; reflexivity).
  assert (crossing_result = r) as Heq by (unfold crossing_result; by rewrite Hr).
  rewrite Heq in Hf, Hl |- *.
  destruct Hcases as [[Hf' _]|(_ & _ & _ & k & row & Hk & _ & _ & Hlast & _)]; [congruence|].
  exists k, row. rewrite Hlast in Hl |- *. split_and!; [done|done|]. by injection Hl.
Defined.

(** C28: a replay depends on nothing but the file and the options.  On any
    two lawful books of the same capacity, whatever they hold (the engine's
    own book after earlier replays, a new one, another implementation), the
    loop ends, and both runs reach undefined behaviour or both return the same
    result and books that stand for the same specification book. *)
Theorem replay_deterministic `{HL : OrderBookLaws B capacity rep} `{HL' : !OrderBookLaws B' (H:=H') capacity rep'}
    files path options (b : B) s (b' : B') s' :
  rep b s → rep' b' s' →
  ∃ o o', replay_file files path options b = Some o ∧ replay_file files path options b' = Some o' ∧
    match o, o' with
    | Ret (b1, r), Ret (b1', r') => r = r' ∧ ∃ s1, rep b1 s1 ∧ rep' b1' s1
    | UB, UB => True
    | _, _ => False
    end.
Proof.
  intros Hb Hb'. destruct (files path) as [content|] eqn:Hf.
  - pose proof (replay_file_rows files path content options b s Hf Hb) as Ho.
    pose proof (replay_file_rows files path content options b' s' Hf Hb') as Ho'. unfold same_outcome in *.
    destruct (replay_file files path options b) as [o|]; [|done].
    destruct (replay_file files path options b') as [o'|]; [|done]. exists o, o'. split_and!; [done..|].
    destruct (finish_spec _) as [[s1 r1]|], o as [[b1 r]|], o' as [[b1' r']|]; try done.
    destruct Ho as [? ->], Ho' as [? ->]. eauto.
  - rewrite (replay_file_missing files path options b s Hf Hb),
      (replay_file_missing files path options b' s' Hf Hb').
    eexists _, _. split_and!; [reflexivity..|]. split; [done|]. exists spec_empty. split; by eapply law_clear.
Qed.

(** A book that already holds an order replays the file like a new one. *)
Lemma replay_deterministic_witness :
  ∃ b : LimitOrderBook.LimitOrderBook, ob_live_order_count b = 1 ∧
    match replay_file crossing_files (txt "in.csv") monitoring_options b with
    | Some (Ret (_, r)) => r = crossing_result
    | _ => False
    end.
Proof.
  destruct (law_apply (OrderBookLaws:=LimitOrderBook_laws)
    (MkEvent Add (MkTimestamp 1) (MkOrderId 7) Buy (MkPrice 1) (MkQuantity 1)) LimitOrderBook.empty_book spec_empty)
    as (b & _ & Hb); [by split|apply empty_book_represents|].
  exists b. split; [by rewrite (law_live_order_count (OrderBookLaws:=LimitOrderBook_laws) b _ Hb)|].
  destruct (replay_deterministic (HL:=LimitOrderBook_laws) (HL':=LimitOrderBook_laws) crossing_files (txt "in.csv")
    monitoring_options b _ LimitOrderBook.empty_book spec_empty Hb empty_book_represents) as (o & o' & Ho & Ho' & Hm).
  assert (match replay_file crossing_files (txt "in.csv") monitoring_options LimitOrderBook.empty_book with
          | Some (Ret _) => true | _ => false end = true) as Hret by (vm_compute; reflexivity).
  unfold crossing_result. rewrite Ho' in Hret. rewrite Ho, Ho'. clear Ho Ho' Hb.
  destruct o' as [[b1' r']|]; [|discriminate Hret]. destruct o as [[b1 r]|]; [exact (proj1 Hm)|exact Hm].
Defined.

(** C20: what the checksum distinguishes.  The checksum of a snapshot is the
    FNV-1a hash of its encoding (tags, sizes and 64-bit fields, least
    significant byte first); no two snapshots of machine-sized values have the
    same encoding; and two snapshots whose encodings differ in exactly one
    byte never have the same checksum. *)
Theorem checksum_distinguishes (a b : BookSnapshot) :
  checksum_snapshot a = foldl hash_byte kFnvOffsetBasis (encode_snapshot a) ∧
  (typed_snapshot a → typed_snapshot b → encode_snapshot a = encode_snapshot b → a = b) ∧
  (∀ pre x y post, encode_snapshot a = pre ++ x :: post → encode_snapshot b = pre ++ y :: post → x ≠ y →
     checksum_snapshot a ≠ checksum_snapshot b).
Proof.
  split_and!; [apply checksum_encode|apply encode_snapshot_inj|].
  intros pre x y post Ha Hb Hne. rewrite !checksum_encode, Ha, Hb.
  pose proof (encode_snapshot_bytes a) as Hba. pose proof (encode_snapshot_bytes b) as Hbb.
  rewrite Ha in Hba. rewrite Hb in Hbb.
  apply Forall_app in Hba as [_ [Hx Hpost]%Forall_cons]. apply Forall_app in Hbb as [_ [Hy _]%Forall_cons].
  assert (is_u64 kFnvOffsetBasis) as Hbasis by (unfold is_u64, kFnvOffsetBasis, two64; lia).
  exact (hash_one_byte pre x y post kFnvOffsetBasis Hbasis Hx Hy Hne Hpost).
Qed.

Definition one_bid (id quantity : Z) : BookSnapshot :=
  MkBookSnapshot
    [MkPriceLevelSnapshot (MkPrice 100) (MkQuantity 10)
       [MkOrderView (MkOrderId id) (MkTimestamp (-1)) (MkQuantity quantity)]] [].

Lemma checksum_distinguishes_witness : checksum_snapshot (one_bid 1 10) ≠ checksum_snapshot (one_bid 2 10).
Proof.
  destruct (checksum_distinguishes (one_bid 1 10) (one_bid 2 10)) as (_ & _ & Hc).
  apply (Hc (take 35 (encode_snapshot (one_bid 1 10))) 1 2 (drop 36 (encode_snapshot (one_bid 1 10))));
    [vm_compute; reflexivity|vm_compute; reflexivity|done].
Defined.
