(* ===== verification/Cli.v ===== *)
(** * The command line tool

    [tools/datagine_replay.cpp]: [main] as a function from the file system and
    the arguments to what the process writes and its exit code.  [std::sort]
    is a stable sort here; the comparator is a strict total order on the
    reasons, so every sort gives the same sequence. *)
From S2P Require Import Prelude CoreTypes OrderedMap Text BookTypes BookSpec Book BookRefinement.
From S2P Require Import BookValidation CsvParser CsvLaws Double AnomalyDetector AnomalyLaws ReplayEngine.
From S2P Require Import ReplayLaws.
From Stdlib Require Import Ascii.
#[local] Open Scope Z_scope.

Module Cli.

Record Process : Type := MkProcess { standard_output : text; standard_error : text; exit_code : Z }.

Definition usage : text :=
  txt "usage: datagine_replay path/to/events.csv [--anomaly-report]" ++ [newline].

(** The comparator handed to [std::sort]: more frequent first, then by name. *)
Definition reason_before (lhs rhs : string * Z) : bool :=
  if bool_decide (lhs.2 ≠ rhs.2) then rhs.2 <? lhs.2 else string_less lhs.1 rhs.1.

Definition not_after (lhs rhs : string * Z) : Prop := reason_before rhs lhs = false.
#[export] Instance not_after_dec lhs rhs : Decision (not_after lhs rhs).
Proof. unfold not_after. apply _. Defined.

Definition sort_reasons (reasons : list (string * Z)) : list (string * Z) := merge_sort not_after reasons.

(** The reasons the report shows: [std::min<std::size_t>(5, reasons.size())]. *)
Definition top_reasons (counts : list (string * Z)) : list (string * Z) := take 5 (sort_reasons counts).

(** The [for] loop over [reasons], from index [i] on. *)
Fixpoint print_reasons (i : nat) (reasons : list (string * Z)) : text :=
  match reasons with
  | [] => []
  | (reason, count) :: reasons' =>
      (if decide (i ≠ 0%nat) then txt ", " else []) ++ txt reason ++ txt "=" ++ print_decimal count ++
      print_reasons (S i) reasons'
  end.

Definition anomaly_report (result : ReplayEngine.ReplayResult) : text :=
  txt "anomaly_count: " ++ print_decimal (Z.of_nat (length (ReplayEngine.anomalies result))) ++ [newline] ++
  txt "top_anomaly_reasons: " ++
  (match ReplayEngine.anomaly_reason_counts result with
   | [] => txt "none"
   | counts => print_reasons 0 (top_reasons counts)
   end) ++ [newline].

Definition report (options : ReplayEngine.ReplayOptions) (result : ReplayEngine.ReplayResult) : text :=
  txt "events_processed: " ++ print_decimal (ReplayEngine.events_processed result) ++ [newline] ++
  txt "rejected_events: " ++ print_decimal (ReplayEngine.rejected_events result) ++ [newline] ++
  txt "final_top_of_book: " ++ ReplayEngine.format_top_of_book (ReplayEngine.final_top result) ++ [newline] ++
  txt "final_checksum: " ++ ReplayEngine.format_checksum (ReplayEngine.final_checksum result) ++ [newline] ++
  (if ReplayEngine.enable_anomaly_detection options then anomaly_report result else []).

Definition error_line (error : ReplayEngine.ReplayError) : text :=
  txt "line " ++ print_decimal (ReplayEngine.err_line_number error) ++ txt ": " ++
  ReplayEngine.err_message error ++ [newline].

Definition exit_status (result : ReplayEngine.ReplayResult) : Z :=
  if ReplayEngine.file_open_failed result || ReplayEngine.invariant_failed result then 1 else 0.

(** [options.enable_anomaly_detection = true]. *)
Definition with_anomalies (options : ReplayEngine.ReplayOptions) : ReplayEngine.ReplayOptions :=
  ReplayEngine.MkOptions (ReplayEngine.invariant_options options) (ReplayEngine.validate_after_apply options)
    true (ReplayEngine.anomaly_config options).

(** The replay and what is printed about it. *)
Definition run (files : text → option text) (path : text) (options : ReplayEngine.ReplayOptions)
    : option (Exec Process) :=
  outcome ← ReplayEngine.replay_file files path options LimitOrderBook.empty_book;
  Some ('(_, result) ← outcome;
        Ret (MkProcess (report options result) (mjoin (error_line <$> ReplayEngine.errors result))
               (exit_status result))).

Definition main (files : text → option text) (argv : list text) : option (Exec Process) :=
  let options := ReplayEngine.default_options in
  match argv with
  | [_; path] => run files path options
  | [_; path; flag] =>
      if decide (flag = txt "--anomaly-report") then run files path (with_anomalies options)
      else Some (Ret (MkProcess [] usage 2))
  | _ => Some (Ret (MkProcess [] usage 2))
  end.

End Cli.

(** ** The order of the reasons *)

#[export] Instance reason_before_comparator : Comparator Cli.reason_before.
Proof.
  split; unfold Cli.reason_before.
  - intros [k n]. rewrite bool_decide_false by tauto. apply before_irrefl.
  - intros [k1 n1] [k2 n2] [k3 n3]. simpl. repeat case_bool_decide; try lia; subst; try done.
    apply before_trans.
  - intros [k1 n1] [k2 n2]. simpl. repeat case_bool_decide; try lia. intros H1 H2. f_equal; [|lia].
    by apply (before_total (before:=string_less)).
Qed.

#[export] Instance not_after_total : Total Cli.not_after.
Proof.
  intros a b. unfold Cli.not_after. destruct (Cli.reason_before b a) eqn:E; [|by left].
  right. exact (before_asym Cli.reason_before b a E).
Qed.

#[export] Instance not_after_trans : Transitive Cli.not_after.
Proof.
  intros a b c. unfold Cli.not_after. intros Hab Hbc.
  destruct (Cli.reason_before c a) eqn:Hca; [|done]. exfalso.
  destruct (Cli.reason_before a b) eqn:Hab'.
  - rewrite (before_trans (before:=Cli.reason_before) c a b) in Hbc; congruence.
  - assert (a = b) as -> by by apply (before_total (before:=Cli.reason_before)). congruence.
Qed.

Lemma sort_reasons_sorted counts : StronglySorted Cli.not_after (Cli.sort_reasons counts).
Proof. apply StronglySorted_merge_sort; apply _. Qed.

Lemma sort_reasons_Permutation counts : Cli.sort_reasons counts ≡ₚ counts.
Proof. apply merge_sort_Permutation. Qed.

(** Different entries in a sequence where none comes after a later one are
    strictly ordered. *)
Lemma not_after_strict l :
  NoDup l → StronglySorted Cli.not_after l → StronglySorted (λ a b, Cli.reason_before a b = true) l.
Proof.
  intros Hnd Hs. induction Hs as [|x l _ IH Hx]; [constructor|]. apply NoDup_cons in Hnd as [Hin Hnd].
  constructor; [by apply IH|]. rewrite Forall_forall in Hx |- *. intros y Hy. specialize (Hx y Hy).
  destruct (Cli.reason_before x y) eqn:E; [done|].
  assert (x = y) as -> by by apply (before_total (before:=Cli.reason_before)). done.
Qed.
