(* ===== verification/CliProperties.v ===== *)
(** * Properties of the command line tool

    Its exit code and diagnostics for every command line and file, and which
    anomaly reasons its report shows. *)
From S2P Require Import Prelude CoreTypes OrderedMap Text BookTypes BookSpec Book BookRefinement.
From S2P Require Import BookValidation BookStreams CsvParser CsvLaws Double AnomalyDetector AnomalyLaws ReplayEngine.
From S2P Require Import ReplayLaws Cli.
From Stdlib Require Import Ascii.
Import Cli.
#[local] Open Scope Z_scope.

(** The options a command line selects, with the path; [None] is a wrong
    command line. *)
Definition selected (argv : list text) : option (text * ReplayEngine.ReplayOptions) :=
  match argv with
  | [_; path] => Some (path, ReplayEngine.default_options)
  | [_; path; flag] =>
      if decide (flag = txt "--anomaly-report")
      then Some (path, with_anomalies ReplayEngine.default_options) else None
  | _ => None
  end.

Lemma main_selected files argv :
  main files argv = match selected argv with
                    | Some (path, options) => run files path options
                    | None => Some (Ret (MkProcess [] usage 2))
                    end.
Proof.
  unfold main, selected. destruct argv as [|program [|path [|flag [|]]]]; try done.
  by destruct (decide (flag = _)).
Qed.

Lemma selected_validates argv path options :
  selected argv = Some (path, options) →
  ReplayEngine.validate_after_apply options = true ∧
  allow_crossed_book (ReplayEngine.invariant_options options) = false.
Proof.
  unfold selected. destruct argv as [|program [|p [|flag [|]]]]; try done; [by intros [= <- <-]|].
  case_decide; [by intros [= <- <-]|done].
Qed.

(** What a successful run prints first. *)
Definition summary_lines (processed rejected : Z) : text :=
  txt "events_processed: " ++ print_decimal processed ++ [newline] ++
  txt "rejected_events: " ++ print_decimal rejected ++ [newline].

(** C29: the process.  A wrong command line prints the usage and exits with 2,
    a file that does not open exits with 1 and one line of diagnostics.  Every
    other run without [--anomaly-report], or on a file with any two time stamps
    less than 2^63 nanoseconds apart (others can overflow the expiry of the
    monitor's windows, see [timestamp_overflow]), ends, with exit code 1 exactly if an applied event leaves a
    crossed book, and 0 otherwise; then it prints how many events of the whole
    file were applied and how many rows rejected, and one line of diagnostics
    per rejected row, in order. *)
Theorem cli_exit_code files argv :
  match selected argv with
  | None => main files argv = Some (Ret (MkProcess [] usage 2))
  | Some (path, options) =>
      match files path with
      | None =>
          ∃ out, main files argv
                 = Some (Ret (MkProcess out (txt "line 0: failed to open input file" ++ [newline]) 1))
      | Some content =>
          let rows := feed content in
          timestamps_ok options (row_events rows) →
          ∃ p, main files argv = Some (Ret p) ∧
            ((exit_code p = 1 ∧ ∃ k, violated_at None options rows spec_empty k) ∨
             (exit_code p = 0 ∧ (∀ k, ¬ violated_at None options rows spec_empty k) ∧
              let applied := applied_count None rows spec_empty in
              (∃ details, standard_output p
                 = summary_lines (wrap64 applied) (wrap64 (Z.of_nat (length rows) - applied)) ++ details) ∧
              standard_error p = mjoin (error_line <$> replay_errors None rows spec_empty)))
      end
  end.
Proof.
  rewrite main_selected. destruct (selected argv) as [[path options]|]; [|done]. unfold run.
  destruct (files path) as [content|] eqn:Hf.
  - intros Hts.
    destruct (replay_file_account (HL:=LimitOrderBook_laws) files path content options
      LimitOrderBook.empty_book spec_empty Hf empty_book_represents Hts)
      as (b' & r & n & stop & Hr & _ & Hst & [Hp Hrj He Hfl Ho _] & _).
    rewrite Hr. cbn [mbind option_bind Exec_bind]. eexists. split; [reflexivity|].
    unfold exit_status. cbn [exit_code standard_output standard_error].
    rewrite Hfl, Ho. destruct Hst as [Hn|k row _ Hv _]; [right|left; split; [done|by exists k]].
    rewrite firstn_all in *. split_and!; [done|done| |].
    + eexists. unfold report, summary_lines. rewrite Hp, Hrj. simpl ReplayEngine.events_processed.
      rewrite <-!app_assoc. reflexivity.
    + rewrite He. simpl. by rewrite app_nil_r.
  - rewrite (replay_file_missing (HL:=LimitOrderBook_laws) files path options _ spec_empty Hf empty_book_represents).
    eexists. reflexivity.
Qed.

Definition rejecting_file : text :=
  CsvParser.kExpectedHeader ++ newline :: txt "1,ADD,1,B,100,10" ++ newline :: txt "2,CANCEL,2,,,".

Definition rejecting_files (_ : text) : option text := Some rejecting_file.
Definition plain_argv : list text := [txt "datagine_replay"; txt "events.csv"].

Lemma cli_exit_code_witness :
  ∃ p, main rejecting_files plain_argv = Some (Ret p) ∧ exit_code p = 0 ∧
    standard_error p = txt "line 3: book rejected event: missing order id" ++ [newline].
Proof.
  pose proof (cli_exit_code rejecting_files plain_argv) as Hc. cbn [selected plain_argv rejecting_files] in Hc.
  cbv zeta in Hc. destruct Hc as (p & Hm & Hcases); [by intros|].
  exists p. split; [exact Hm|].
  assert (mjoin (error_line <$> replay_errors None (feed rejecting_file) spec_empty)
          = txt "line 3: book rejected event: missing order id" ++ [newline]) as Herr by (vm_compute; reflexivity).
  assert (option_map (λ o, match o with Ret q => exit_code q | UB => 3 end) (main rejecting_files plain_argv)
          = Some 0) as Hz by (vm_compute; reflexivity).
  rewrite Hm in Hz. injection Hz as Hz.
  destruct Hcases as [[H1 _]|(H0 & _ & _ & Hse)]; [congruence|]. split; [exact H0|]. by rewrite Hse.
Defined.

(** The order of the report, said without the comparator of the code. *)
Definition ranks_before (x y : string * Z) : Prop := y.2 < x.2 ∨ (x.2 = y.2 ∧ String.ltb x.1 y.1 = true).

Lemma reason_before_ranks x y : reason_before x y = true → ranks_before x y.
Proof.
  unfold reason_before, ranks_before. case_bool_decide as Hne; [intros ?%Z.ltb_lt; by left|].
  intros Hs. right. split; [|exact Hs]. destruct (Z.eq_dec x.2 y.2); [done|by destruct Hne].
Qed.

(** C37: the reasons the report shows.  Of all the anomalies of a replay they
    are the five most frequent reasons (all, if there are fewer), each with its
    number of anomalies modulo 2^64.  Each one shown has a larger count than
    the next, or the same count and a name that is smaller character by
    character; every reason left out has a smaller count than each one shown,
    or the same and a larger name. *)
Theorem cli_top_reasons anomalies :
  let counts := summarize_anomaly_reasons anomalies in
  let count r := wrap64 (Z.of_nat (length (filter (λ a, reason a = r) anomalies))) in
  let top := top_reasons counts in
  length top = Nat.min 5 (length counts) ∧
  StronglySorted (λ x y, y.2 < x.2 ∨ (x.2 = y.2 ∧ String.ltb x.1 y.1 = true)) top ∧
  (∀ x, x ∈ top → x.2 = count x.1) ∧
  (∀ a, a ∈ anomalies →
     reason a ∈ top.*1 ∨
     ∀ x, x ∈ top → count (reason a) < x.2 ∨ (x.2 = count (reason a) ∧ String.ltb x.1 (reason a) = true)).
Proof.
  intros counts count top.
  destruct (count_keys_spec reason anomalies) as [Hsorted Hfind]. fold (summarize_anomaly_reasons anomalies) in Hsorted, Hfind.
  pose proof (sort_reasons_Permutation counts) as Hperm.
  assert (NoDup (sort_reasons counts)) as Hnd.
  { rewrite Hperm. apply (NoDup_fmap_1 fst). by eapply sorted_NoDup. }
  pose proof (not_after_strict _ Hnd (sort_reasons_sorted counts)) as Hs.
  rewrite <-(take_drop 5 (sort_reasons counts)) in Hs. fold (top_reasons counts) in Hs. fold top in Hs.
  apply StronglySorted_app in Hs as (Hcross & Hstop & _).
  assert (∀ x, x ∈ counts → x.2 = wrap64 (Z.of_nat (length (filter (λ a, reason a = x.1) anomalies)))) as Hcount.
  { intros [k n] Hin. apply (elem_find_Some (before:=string_less)) in Hin; [|done].
    unfold counts in Hin. rewrite Hfind in Hin. case_decide; [done|]. by injection Hin. }
  split_and!; [|eapply strongly_sorted_weaken; [|exact Hstop]; intros x y; apply reason_before_ranks| |].
  - unfold top, top_reasons. by rewrite length_take, Hperm.
  - intros x Hx. apply Hcount. rewrite <-Hperm. rewrite <-(take_drop 5 (sort_reasons counts)). apply elem_of_app. by left.
  - intros a Ha. assert ((reason a, count (reason a)) ∈ counts) as Hin.
    { apply (find_Some_elem (before:=string_less)). unfold counts. rewrite Hfind, decide_False; [done|].
      intros Hnil. apply (not_elem_of_nil a). rewrite <-Hnil. by apply list_elem_of_filter. }
    rewrite <-Hperm, <-(take_drop 5 (sort_reasons counts)), elem_of_app in Hin.
    destruct Hin as [Hin|Hin]; [left; by apply (list_elem_of_fmap_2 fst _ _ Hin)|right].
    intros x Hx. exact (reason_before_ranks _ _ (Hcross _ _ Hx Hin)).
Qed.
