(* ===== verification/QueuedReplay.v ===== *)
(** * Replay through the ring buffer

    [BM_SpscQueuedReplayInMemory] of [bench/datagine_benchmarks.cpp], the
    program that composes the ring buffer with a book: a producer thread
    pushes a list of events, a consumer thread pops them and applies them, both
    retrying when the ring is full or empty, and the main thread runs them
    again and again on the same ring.  The threads interleave at the accesses
    to the ring of [SpscConcurrent]; starting and joining them synchronises. *)
From S2P Require Import Prelude CoreTypes BookTypes BookSpec SpscRingBuffer SpscConcurrent.
#[local] Open Scope Z_scope.

Module QueuedReplay.

(** Whether the consumer is in [try_pop] or has an event to apply. *)
Inductive Phase : Type := Polling | Applying.

Record Pipeline {B : Type} : Type := MkPipeline {
  ring : SpscConcurrent.Conc;
  unsent : list MarketEvent;
  phase : Phase;
  event : MarketEvent;
  handled : nat;
  book : B;
  failed : bool
}.
Arguments Pipeline : clear implicits.

(** Whose turn it is, and the store an acquire load of that turn reads. *)
Inductive Turn : Type :=
| ProducerTurn (i : nat)
| ConsumerTurn (i : nat).

Section pipeline.
Context `{OrderBook B} (cap : Z) (events : list MarketEvent).

(** The rest of a turn after an instruction on the ring. *)
Definition on_ring (r : option (Exec SpscConcurrent.Conc)) (k : SpscConcurrent.Conc → Pipeline B)
    : option (Exec (Pipeline B)) :=
  match r with
  | Some (Ret s) => Some (Ret (k s))
  | Some UB => Some UB
  | None => None
  end.

Definition with_ring (p : Pipeline B) (s : SpscConcurrent.Conc) : Pipeline B :=
  MkPipeline B s (unsent p) (phase p) (event p) (handled p) (book p) (failed p).

(** [for (event : events) while (!queue.try_push(event)) yield();] *)
Definition producer_turn (i : nat) (p : Pipeline B) : option (Exec (Pipeline B)) :=
  match SpscConcurrent.producer (ring p) with
  | SpscConcurrent.PIdle =>
      match unsent p with
      | [] => None
      | e :: _ => on_ring (SpscConcurrent.step cap (SpscConcurrent.PushCall e) (ring p)) (with_ring p)
      end
  | SpscConcurrent.PLoad _ _ =>
      on_ring (SpscConcurrent.step cap (SpscConcurrent.PushAcquire i) (ring p)) (with_ring p)
  | SpscConcurrent.PSlot _ _ => on_ring (SpscConcurrent.step cap SpscConcurrent.PushSlot (ring p)) (with_ring p)
  | SpscConcurrent.PPublish _ _ =>
      on_ring (SpscConcurrent.step cap SpscConcurrent.PushRelease (ring p))
        (λ s, MkPipeline B s (tail (unsent p)) (phase p) (event p) (handled p) (book p) (failed p))
  end.

(** [while (consumed < events.size())]: pop into [event] and apply it. *)
Definition consumer_turn (i : nat) (p : Pipeline B) : option (Exec (Pipeline B)) :=
  match phase p with
  | Applying =>
      Some ('(result, book) ← ob_apply (event p) (book p);
            Ret (MkPipeline B (ring p) (unsent p) Polling (event p) (S (handled p)) book
                   (failed p || bool_decide (result ≠ Applied))))
  | Polling =>
      match SpscConcurrent.consumer (ring p) with
      | SpscConcurrent.CIdle =>
          if decide (handled p < length events)%nat
          then on_ring (SpscConcurrent.step cap SpscConcurrent.PopCall (ring p)) (with_ring p)
          else None
      | SpscConcurrent.CLoad _ =>
          on_ring (SpscConcurrent.step cap (SpscConcurrent.PopAcquire i) (ring p)) (with_ring p)
      | SpscConcurrent.CSlot _ =>
          on_ring (SpscConcurrent.step cap SpscConcurrent.PopSlot (ring p))
            (λ s, MkPipeline B s (unsent p) (phase p) (default default_event (last (SpscConcurrent.popped s)))
                    (handled p) (book p) (failed p))
      | SpscConcurrent.CPublish _ =>
          on_ring (SpscConcurrent.step cap SpscConcurrent.PopRelease (ring p))
            (λ s, MkPipeline B s (unsent p) Applying (event p) (handled p) (book p) (failed p))
      end
  end.

(** [None]: the thread has returned, or the load may not read that store. *)
Definition step (t : Turn) (p : Pipeline B) : option (Exec (Pipeline B)) :=
  match t with
  | ProducerTurn i => producer_turn i p
  | ConsumerTurn i => consumer_turn i p
  end.

(** Both threads have returned. *)
Definition finished (p : Pipeline B) : Prop :=
  SpscConcurrent.producer (ring p) = SpscConcurrent.PIdle ∧ unsent p = [] ∧
  SpscConcurrent.consumer (ring p) = SpscConcurrent.CIdle ∧ phase p = Polling ∧
  handled p = length events.

(** A thread sees every store made before it was started. *)
Definition synchronise (s : SpscConcurrent.Conc) : SpscConcurrent.Conc :=
  SpscConcurrent.set_consumer SpscConcurrent.CIdle (pred (length (SpscConcurrent.write_history s)))
    (SpscConcurrent.set_producer SpscConcurrent.PIdle (pred (length (SpscConcurrent.read_history s))) s).

(** The start of an iteration: [book.clear()], [failed{false}], the threads. *)
Definition launch (s : SpscConcurrent.Conc) (b : B) : Pipeline B :=
  MkPipeline B (synchronise s) events Polling default_event 0 (ob_clear b) false.

(** The states of all iterations, from a new ring and the book [b]; an
    iteration that failed is the last. *)
Inductive reachable (b : B) : Pipeline B → Prop :=
| reachable_first : reachable b (launch (SpscConcurrent.initial cap) b)
| reachable_turn t p p' : reachable b p → step t p = Some (Ret p') → reachable b p'
| reachable_again p :
    reachable b p → finished p → failed p = false → reachable b (launch (ring p) (book p)).

Fixpoint run (turns : list Turn) (p : Pipeline B) : option (Exec (Pipeline B)) :=
  match turns with
  | [] => Some (Ret p)
  | t :: turns' =>
      match step t p with
      | Some (Ret p') => run turns' p'
      | r => r
      end
  end.

End pipeline.
End QueuedReplay.
