(* ===== verification/QueuedLaws.v ===== *)
(** * Lemmas on the queued replay

    The invariant of the composed program: what was sent, what is in flight,
    what was applied, and the book as the specification has it after the
    applied events; and that some thread can always bring the program closer
    to its end. *)
From S2P Require Import Prelude CoreTypes BookTypes BookSpec SpscRingBuffer SpscConcurrent QueuedReplay.
Import SpscConcurrent QueuedReplay.
#[local] Open Scope Z_scope.

(** ** One instruction on the ring, from either side *)

Lemma producer_instruction cap a s s' :
  SpscConcurrent.step cap a s = Some (Ret s') →
  match a with
  | PushCall e =>
      consumer s' = consumer s ∧ popped s' = popped s ∧ pushed s' = pushed s ∧ ∃ w, producer s' = PLoad e w
  | PushAcquire _ =>
      consumer s' = consumer s ∧ popped s' = popped s ∧ pushed s' = pushed s ∧
      ∃ e w, producer s = PLoad e w ∧ (producer s' = PIdle ∨ producer s' = PSlot e w)
  | PushSlot =>
      consumer s' = consumer s ∧ popped s' = popped s ∧ pushed s' = pushed s ∧
      ∃ e w, producer s = PSlot e w ∧ producer s' = PPublish e w
  | PushRelease =>
      consumer s' = consumer s ∧ popped s' = popped s ∧
      ∃ e w, producer s = PPublish e w ∧ producer s' = PIdle ∧ pushed s' = pushed s ++ [e]
  | _ => True
  end.
Proof.
  intros Hst. destruct a; [..|done|done|done|done]; simpl in Hst; unfold mbind, Exec_bind in Hst;
    repeat case_match; simplify_eq; simpl; split_and!; eauto 10.
Qed.

Lemma consumer_instruction cap a s s' :
  SpscConcurrent.step cap a s = Some (Ret s') →
  match a with
  | PopCall =>
      producer s' = producer s ∧ pushed s' = pushed s ∧ popped s' = popped s ∧ ∃ r, consumer s' = CLoad r
  | PopAcquire _ =>
      producer s' = producer s ∧ pushed s' = pushed s ∧ popped s' = popped s ∧
      ∃ r, consumer s = CLoad r ∧ (consumer s' = CIdle ∨ consumer s' = CSlot r)
  | PopSlot =>
      producer s' = producer s ∧ pushed s' = pushed s ∧
      ∃ r out, consumer s = CSlot r ∧ consumer s' = CPublish r ∧ popped s' = popped s ++ [out]
  | PopRelease =>
      producer s' = producer s ∧ pushed s' = pushed s ∧ popped s' = popped s ∧
      ∃ r, consumer s = CPublish r ∧ consumer s' = CIdle
  | _ => True
  end.
Proof.
  intros Hst. destruct a; [done|done|done|done|..]; simpl in Hst; unfold mbind, Exec_bind in Hst;
    repeat case_match; simplify_eq; simpl; split_and!; eauto 10.
Qed.

(** Starting the threads again keeps the ring as it is. *)
Lemma synchronise_inv cap s :
  inv cap s → producer s = PIdle → consumer s = CIdle → inv cap (synchronise s).
Proof.
  intros Hs Hp Hc. pose proof (inv_views _ _ Hs) as Hv. unfold synchronise.
  assert (inv cap (set_producer PIdle (pred (length (read_history s))) s)) as Hs1.
  { rewrite (inv_read _ _ Hs), counter_history_length. simpl pred.
    apply inv_set_producer; [done|by unfold publishing; rewrite Hp|done|lia|done]. }
  apply inv_set_consumer; [exact Hs1|by unfold taking; simpl; rewrite Hc|done| |done].
  simpl. rewrite (inv_write _ _ Hs), counter_history_length. simpl pred. lia.
Qed.

Lemma spec_apply_all_snoc capacity es e s :
  spec_apply_all capacity (es ++ [e]) s
  = let x := spec_apply_all capacity es s in
    let y := spec_apply capacity e x.2 in (x.1 ++ [y.1], y.2).
Proof.
  revert s. induction es as [|e' es IH]; intros s; [done|]. simpl. by rewrite IH.
Qed.

Section queued.
Context `{HL : OrderBookLaws B capacity rep} (cap : Z) (events : list MarketEvent).
Hypothesis (Hcap : ring_capacity cap).
Hypothesis (Hwf : Forall (λ e, quantity_wf (ev_quantity e)) events).
Implicit Types (p : Pipeline B) (b : B).

(** The event the consumer has taken out and not yet applied. *)
Definition held p : list MarketEvent :=
  match phase p, consumer (ring p) with
  | Applying, _ | Polling, CPublish _ => [event p]
  | _, _ => []
  end.

(** Some result is not [Applied]. *)
Definition some_rejected (rs : list BookResult) : bool := bool_decide (Exists (λ r, r ≠ Applied) rs).

(** What was sent and applied, [before] the ring carried in earlier
    iterations. *)
Record accounts p (before sent applied : list MarketEvent) : Prop := {
  acc_events : events = sent ++ unsent p;
  acc_pushed : pushed (ring p) = before ++ sent;
  acc_popped : popped (ring p) = before ++ applied ++ held p;
  acc_handled : handled p = length applied;
  acc_book : rep (book p) (spec_apply_all capacity applied spec_empty).2;
  acc_failed : failed p = some_rejected (spec_apply_all capacity applied spec_empty).1
}.

Record pipeline_ok p : Prop := {
  ok_ring : inv cap (ring p);
  ok_accounts : ∃ before sent applied, accounts p before sent applied;
  ok_producer : match producer (ring p) with
                | PIdle => True
                | PLoad e _ | PSlot e _ | PPublish e _ => head (unsent p) = Some e
                end;
  ok_consumer : match consumer (ring p) with
                | CIdle => True
                | _ => phase p = Polling ∧ (handled p < length events)%nat
                end
}.

Lemma on_ring_Ret r k p' : on_ring (B:=B) r k = Some (Ret p') → ∃ s', r = Some (Ret s') ∧ p' = k s'.
Proof. unfold on_ring. repeat case_match; try done. intros [= <-]. eauto. Qed.

Lemma launch_ok s b sb :
  inv cap s → producer s = PIdle → consumer s = CIdle → popped s = pushed s → rep b sb →
  pipeline_ok (launch events s b).
Proof.
  intros Hs Hp Hc Hpp Hb. split; [by apply synchronise_inv| |done|done].
  exists (pushed s), [], []. split; try done; simpl; [by rewrite app_nil_r|by rewrite Hpp, app_nil_r|].
  by eapply law_clear.
Qed.

Lemma producer_turn_ok i p p' :
  pipeline_ok p → producer_turn cap i p = Some (Ret p') → pipeline_ok p'.
Proof.
  intros [Hs (before & sent & applied & [He Hpu Hpo Hh Hb Hf]) Hp Hc] Hst. unfold producer_turn in Hst.
  destruct (producer (ring p)) as [|e w|e w|e w] eqn:Hpr; [destruct (unsent p) as [|e us] eqn:Hu; [done|]|..];
    apply on_ring_Ret in Hst as (s' & Hst & ->);
    pose proof (inv_step cap _ Hs _ _ Hst) as Hs'; pose proof (producer_instruction _ _ _ _ Hst) as Hi;
    simpl in Hi; destruct Hi as (Hcs & Hpo' & Hi); split; simpl; rewrite ?Hcs; try done.
  - exists before, sent, applied. destruct Hi as [Hpu' _].
    split; simpl; unfold held; simpl; rewrite ?Hpu', ?Hpo', ?Hcs, ?Hu; done.
  - destruct Hi as (_ & w & ->). by rewrite Hu.
  - exists before, sent, applied. destruct Hi as [Hpu' _].
    split; simpl; unfold held; simpl; rewrite ?Hpu', ?Hpo', ?Hcs; done.
  - destruct Hi as (_ & e' & w' & Heq & [->| ->]); [done|]. rewrite Hpr in Heq. by simplify_eq.
  - exists before, sent, applied. destruct Hi as [Hpu' _].
    split; simpl; unfold held; simpl; rewrite ?Hpu', ?Hpo', ?Hcs; done.
  - destruct Hi as (_ & e' & w' & Heq & ->). rewrite Hpr in Heq. by simplify_eq.
  - destruct Hi as (e' & w' & Heq & _ & Hpu'). rewrite Hpr in Heq. simplify_eq.
    destruct (unsent p) as [|e us] eqn:Hu; [done|]. injection Hp as ->.
    exists before, (sent ++ [e']), applied.
    split; simpl; unfold held; simpl; rewrite ?Hpu', ?Hpo', ?Hcs; try done.
    + by rewrite <-app_assoc.
    + by rewrite Hpu, <-app_assoc.
  - destruct Hi as (e' & w' & _ & -> & _). done.
Qed.

(** What was taken out is the beginning of what was sent. *)
Lemma accounts_prefix p before sent applied :
  inv cap (ring p) → accounts p before sent applied → applied ++ held p `prefix_of` sent.
Proof using Type.
  intros Hs [_ Hpu Hpo _ _ _]. pose proof (inv_popped _ _ Hs) as Hpre. rewrite Hpu, Hpo in Hpre.
  by apply prefix_app_inv in Hpre.
Qed.

Lemma held_quantity p before sent applied e :
  inv cap (ring p) → accounts p before sent applied → e ∈ held p → quantity_wf (ev_quantity e).
Proof using Hwf.
  intros Hs Ha He. destruct (accounts_prefix _ _ _ _ Hs Ha) as [l Hl]. rewrite Forall_forall in Hwf.
  apply Hwf. rewrite (acc_events _ _ _ _ Ha), Hl, !elem_of_app. auto.
Qed.

(** Applying the event in hand. *)
Lemma apply_turn p :
  pipeline_ok p → phase p = Applying →
  ∃ p', (∀ i, consumer_turn cap events i p = Some (Ret p')) ∧ pipeline_ok p' ∧
        ring p' = ring p ∧ unsent p' = unsent p ∧ phase p' = Polling ∧ handled p' = S (handled p).
Proof using HL Hwf.
  intros [Hs (before & sent & applied & Ha) Hp Hc] Hph.
  assert (consumer (ring p) = CIdle) as Hci.
  { destruct (consumer (ring p)); [done|by destruct Hc as [Hc _]; rewrite Hph in Hc..]. }
  assert (held p = [event p]) as Hh by (unfold held; by rewrite Hph).
  assert (quantity_wf (ev_quantity (event p))) as Hq.
  { eapply held_quantity; [exact Hs|exact Ha|]. rewrite Hh. by apply list_elem_of_singleton. }
  destruct Ha as [He Hpu Hpo Hhd Hb Hf]. destruct (law_apply _ _ _ Hq Hb) as (b' & Hap & Hb').
  eexists. split; [intros i; unfold consumer_turn; rewrite Hph, Hap; reflexivity|].
  split; [|done]. split; simpl; [done| |done|by rewrite Hci].
  exists before, sent, (applied ++ [event p]).
  split; simpl; rewrite ?spec_apply_all_snoc; simpl; try done.
  - rewrite Hpo, Hh. unfold held. simpl. rewrite Hci. by rewrite app_nil_r.
  - rewrite length_app, Hhd. simpl. lia.
  - rewrite Hf. unfold some_rejected. apply eq_true_iff_eq.
    rewrite orb_true_iff, !bool_decide_eq_true, Exists_app, Exists_cons, Exists_nil. tauto.
Qed.

Lemma consumer_turn_ok i p p' :
  pipeline_ok p → consumer_turn cap events i p = Some (Ret p') → pipeline_ok p'.
Proof using HL Hwf.
  intros Hok Hst. destruct (phase p) eqn:Hph.
  2:{ destruct (apply_turn p Hok Hph) as (p1 & Hp1 & Hok1 & _). rewrite Hp1 in Hst. by injection Hst as <-. }
  destruct Hok as [Hs (before & sent & applied & [He Hpu Hpo Hh Hb Hf]) Hp Hc].
  unfold consumer_turn in Hst. rewrite Hph in Hst.
  destruct (consumer (ring p)) as [|r|r|r] eqn:Hcs; [destruct (decide _) as [Hlt|]; [|done]|..];
    apply on_ring_Ret in Hst as (s' & Hst & ->);
    pose proof (inv_step cap _ Hs _ _ Hst) as Hs'; pose proof (consumer_instruction _ _ _ _ Hst) as Hi;
    simpl in Hi; destruct Hi as (Hpr & Hpu' & Hi);
    unfold held in Hpo; rewrite Hph, Hcs in Hpo; split; simpl; rewrite ?Hpr, ?Hph; try done.
  - destruct Hi as (Hpo' & r & Hr). exists before, sent, applied.
    split; simpl; unfold held; simpl; rewrite ?Hpu', ?Hpo', ?Hph, ?Hr; done.
  - destruct Hi as (_ & r & ->). done.
  - destruct Hi as (Hpo' & r' & _ & Hr). exists before, sent, applied.
    split; simpl; unfold held; simpl; rewrite ?Hpu', ?Hpo', ?Hph; try done. by destruct Hr as [->| ->].
  - destruct Hi as (_ & r' & _ & [->| ->]); [done|by destruct Hc].
  - destruct Hi as (r' & out & _ & Hr & Hpo'). exists before, sent, applied.
    split; simpl; unfold held; simpl; rewrite ?Hpu', ?Hpo', ?Hph, ?Hr; try done.
    rewrite last_snoc, Hpo, app_nil_r, <-app_assoc. done.
  - destruct Hi as (r' & out & _ & -> & _). by destruct Hc.
  - destruct Hi as (Hpo' & r' & _ & Hr). exists before, sent, applied.
    split; simpl; unfold held; simpl; rewrite ?Hpu', ?Hpo'; done.
  - destruct Hi as (_ & r' & _ & ->). done.
Qed.

(** Nothing undefined, whoever's turn it is. *)
Lemma turn_defined t p : pipeline_ok p → QueuedReplay.step cap events t p ≠ Some UB.
Proof using HL Hwf.
  intros Hok Hub. pose proof (step_defined cap _ (ok_ring _ Hok)) as Hd. destruct t as [i|i]; simpl in Hub.
  - unfold producer_turn, on_ring in Hub. repeat case_match; try done; by eapply Hd.
  - destruct (phase p) eqn:Hph.
    + unfold consumer_turn, on_ring in Hub. rewrite Hph in Hub. repeat case_match; try done; by eapply Hd.
    + destruct (apply_turn p Hok Hph) as (p1 & Hp1 & _). by rewrite Hp1 in Hub.
Qed.

Lemma finished_accounts p :
  pipeline_ok p → finished events p →
  popped (ring p) = pushed (ring p) ∧ rep (book p) (spec_apply_all capacity events spec_empty).2 ∧
  failed p = some_rejected (spec_apply_all capacity events spec_empty).1.
Proof using Type.
  intros [Hs (before & sent & applied & Ha) _ _] (_ & Hu & Hc & Hph & Hhd).
  pose proof (accounts_prefix _ _ _ _ Hs Ha) as Hpre. destruct Ha as [He Hpu Hpo Hh Hb Hf].
  rewrite Hu, app_nil_r in He. subst sent. rewrite Hhd in Hh.
  assert (held p = []) as Hheld by (unfold held; by rewrite Hph, Hc). rewrite Hheld, app_nil_r in Hpre, Hpo.
  destruct Hpre as [l Hl]. assert (l = []) as ->.
  { apply length_zero_iff_nil. apply (f_equal length) in Hl. rewrite length_app in Hl. lia. }
  rewrite app_nil_r in Hl. subst applied. by rewrite Hpo, Hpu.
Qed.

Lemma reachable_ok b sb p : rep b sb → QueuedReplay.reachable cap events b p → pipeline_ok p.
Proof using HL Hcap Hwf.
  intros Hb. induction 1 as [|[i|i] p p' _ IH Hst|p _ IH Hfin Hnf].
  - eapply launch_ok; [by apply initial_inv|done..|exact Hb].
  - by eapply producer_turn_ok.
  - by eapply consumer_turn_ok.
  - destruct (finished_accounts p IH Hfin) as (Hpp & Hrep & _).
    destruct Hfin as (Hp & _ & Hc & _). eapply launch_ok; [apply IH|done|done|done|exact Hrep].
Qed.

(** ** Progress *)

(** How many turns are left if no attempt fails: four per event to push, five
    per event to pop and apply. *)
Definition producer_progress (pc : ProducerPc) : nat :=
  match pc with PIdle => 0 | PLoad _ _ => 1 | PSlot _ _ => 2 | PPublish _ _ => 3 end.
Definition consumer_progress p : nat :=
  match phase p with
  | Applying => 4
  | Polling => match consumer (ring p) with CIdle => 0 | CLoad _ => 1 | CSlot _ => 2 | CPublish _ => 3 end
  end.

Definition remaining p : nat :=
  (4 * length (unsent p) - producer_progress (producer (ring p)) +
   (5 * (length events - handled p) - consumer_progress p))%nat.

(** The turn that ends a [try_push] or [try_pop] without success. *)
Definition failed_attempt t p p' : Prop :=
  match t with
  | ProducerTurn _ => (∃ e w, producer (ring p) = PLoad e w) ∧ producer (ring p') = PIdle
  | ConsumerTurn _ => phase p = Polling ∧ (∃ r, consumer (ring p) = CLoad r) ∧ consumer (ring p') = CIdle
  end.

Lemma in_progress p :
  pipeline_ok p →
  (producer (ring p) ≠ PIdle → (0 < length (unsent p))%nat) ∧
  (consumer_progress p ≠ 0%nat → (handled p < length events)%nat).
Proof using Hwf.
  intros [Hs (before & sent & applied & Ha) Hp Hc]. split.
  - destruct (producer (ring p)); [done|..]; intros _; destruct (unsent p); (done || simpl; lia).
  - unfold consumer_progress. destruct (phase p) eqn:Hph.
    + destruct (consumer (ring p)); [done|by destruct Hc..].
    + intros _. pose proof (accounts_prefix _ _ _ _ Hs Ha) as Hpre%prefix_length.
      rewrite length_app in Hpre. unfold held in Hpre. rewrite Hph in Hpre. simpl in Hpre.
      destruct Ha as [-> _ _ -> _ _]. rewrite length_app. lia.
Qed.

(** A turn brings the end closer by one, except for a failed attempt, which
    gives back the call it started with. *)
Lemma turn_measure t p p' :
  pipeline_ok p → QueuedReplay.step cap events t p = Some (Ret p') →
  remaining p = S (remaining p') ∨ (failed_attempt t p p' ∧ remaining p' = S (remaining p)).
Proof using HL Hwf.
  intros Hok Hst. destruct (in_progress p Hok) as [Hu Hh]. destruct t as [i|i]; simpl in Hst.
  - unfold producer_turn in Hst. unfold remaining, failed_attempt.
    destruct (producer (ring p)) as [|e w|e w|e w] eqn:Hpr;
      [destruct (unsent p) as [|e us] eqn:Hus; [done|]|specialize (Hu ltac:(done))..];
      apply on_ring_Ret in Hst as (s' & Hst & ->); pose proof (producer_instruction _ _ _ _ Hst) as Hi;
      simpl in Hi; destruct Hi as (Hcs & _ & Hi); unfold consumer_progress; simpl; rewrite ?Hcs.
    + destruct Hi as (_ & w & ->). left. rewrite Hus. simpl. lia.
    + destruct Hi as (_ & e' & w' & _ & [->| ->]); simpl; [right|left; lia]. split; [|lia]. eauto.
    + destruct Hi as (_ & e' & w' & _ & ->). left. simpl. lia.
    + destruct Hi as (e' & w' & _ & -> & _). left. destruct (unsent p); simpl in *; lia.
  - destruct (phase p) eqn:Hph.
    + unfold consumer_turn in Hst. rewrite Hph in Hst. unfold remaining, failed_attempt, consumer_progress in *.
      rewrite Hph in Hh. rewrite Hph.
      destruct (consumer (ring p)) as [|r|r|r] eqn:Hcs;
        [destruct (decide _) as [Hlt|]; [|done]|specialize (Hh ltac:(done))..];
        apply on_ring_Ret in Hst as (s' & Hst & ->); pose proof (consumer_instruction _ _ _ _ Hst) as Hi;
        simpl in Hi; destruct Hi as (Hpr & _ & Hi); simpl; rewrite ?Hph, ?Hpr.
      * destruct Hi as (_ & r & ->). left. lia.
      * destruct Hi as (_ & r' & _ & [->| ->]); [right|left; lia]. split; [|lia]. eauto.
      * destruct Hi as (r' & out & _ & -> & _). left. lia.
      * left. lia.
    + destruct (apply_turn p Hok Hph) as (p1 & Hp1 & _ & Hr1 & Hu1 & Hph1 & Hh1).
      rewrite Hp1 in Hst. injection Hst as <-. left. unfold remaining, consumer_progress in *.
      rewrite Hr1, Hu1, Hph1, Hh1. rewrite Hph in Hh |- *. specialize (Hh ltac:(done)).
      pose proof (ok_consumer _ Hok) as Hc. destruct (consumer (ring p)); [lia|by destruct Hc as [Hc _]; rewrite Hph in Hc..].
Qed.

Lemma latest_store view n :
  (view ≤ n)%nat → acquire view n (counter_history n) = Some (wrap64 (Z.of_nat n)).
Proof using Type. intros Hv. apply acquire_counter. split; [done|lia]. Qed.

(** An instruction that is enabled and no failed attempt gets on. *)
Lemma on_ring_defined a p k :
  pipeline_ok p → SpscConcurrent.step cap a (ring p) ≠ None →
  ∃ s', SpscConcurrent.step cap a (ring p) = Some (Ret s') ∧
        on_ring (B:=B) (SpscConcurrent.step cap a (ring p)) k = Some (Ret (k s')).
Proof using Type.
  intros Hok Hn. pose proof (step_defined cap _ (ok_ring _ Hok) a) as Hd.
  destruct (SpscConcurrent.step cap a (ring p)) as [[s'|]|]; [|done..]. by exists s'.
Qed.

(** The consumer can get on if it holds something or the ring does. *)
Lemma consumer_advances p :
  pipeline_ok p → (handled p < length events)%nat →
  (match consumer (ring p) with CSlot _ | CPublish _ => True | _ => phase p = Applying end ∨
   (length (popped (ring p)) < length (pushed (ring p)))%nat) →
  ∃ i p', consumer_turn cap events i p = Some (Ret p') ∧ ¬ failed_attempt (ConsumerTurn i) p p'.
Proof using HL Hcap Hwf.
  intros Hok Hlt Hcan. pose proof (ok_ring _ Hok) as Hs.
  destruct (phase p) eqn:Hph.
  2:{ destruct (apply_turn p Hok Hph) as (p1 & Hp1 & _). exists 0%nat, p1. split; [done|].
      intros [Hf _]. by rewrite Hph in Hf. }
  pose proof (inv_consumer _ _ Hs) as Hco. unfold consumer_ok in Hco.
  pose proof (inv_views _ _ Hs) as Hv. pose proof (inv_room _ _ Hs).
  unfold consumer_turn. rewrite Hph.
  destruct (consumer (ring p)) as [|r|r|r] eqn:Hcs.
  - rewrite decide_True by done.
    destruct (on_ring_defined PopCall p (with_ring p) Hok) as (s' & Hst & ->); [simpl; by rewrite Hcs|].
    exists 0%nat, (with_ring p s'). split; [done|]. intros (_ & (r & Hr) & _). congruence.
  - destruct Hcan as [Hcan|Hcan]; [done|].
    set (n := length (pushed (ring p))) in *.
    assert (consumed (ring p) = length (popped (ring p))) as Hcn
      by (unfold consumed, taking; rewrite Hcs; lia).
    assert (acquire (consumer_view (ring p)) n (write_history (ring p)) = Some (wrap64 (Z.of_nat n))) as Ha
      by (rewrite (inv_write _ _ Hs); apply latest_store; lia).
    assert (SpscConcurrent.step cap (PopAcquire n) (ring p)
            = Some (Ret (set_consumer (CSlot r) n (ring p)))) as Hst.
    { simpl. rewrite Hcs, Ha. destruct (Z.eqb_spec (wrap64 (Z.of_nat n)) r) as [E|]; [|done].
      rewrite Hco in E. apply (counter_equal n _ cap) in E; [lia|done|lia|lia]. }
    exists n. eexists. rewrite Hst. split; [reflexivity|]. intros (_ & _ & Hf). done.
  - destruct (on_ring_defined PopSlot p (λ s, MkPipeline B s (unsent p) (phase p)
      (default default_event (last (popped s))) (handled p) (book p) (failed p)) Hok) as (s' & Hst & Hk); [simpl; by rewrite Hcs|].
    rewrite Hph in Hk. exists 0%nat. eexists. split; [exact Hk|]. intros (_ & (r' & Hr) & _). congruence.
  - destruct (on_ring_defined PopRelease p (λ s, MkPipeline B s (unsent p) Applying (event p)
      (handled p) (book p) (failed p)) Hok) as (s' & Hst & Hk); [simpl; by rewrite Hcs|].
    exists 0%nat. eexists. split; [exact Hk|]. intros (_ & (r' & Hr) & _). congruence.
Qed.

(** The producer can get on if the ring is empty. *)
Lemma producer_advances p :
  pipeline_ok p → unsent p ≠ [] → length (popped (ring p)) = length (pushed (ring p)) → taking (ring p) = 0%nat →
  ∃ i p', producer_turn cap i p = Some (Ret p') ∧ ¬ failed_attempt (ProducerTurn i) p p'.
Proof using Hcap.
  intros Hok Hu Hemp Ht. pose proof (ok_ring _ Hok) as Hs. pose proof (inv_views _ _ Hs) as Hv.
  pose proof (inv_producer _ _ Hs) as Hpo. unfold producer_ok in Hpo. unfold producer_turn.
  destruct (producer (ring p)) as [|e w|e w|e w] eqn:Hpr.
  - destruct (unsent p) as [|e us] eqn:Hus; [done|].
    destruct (on_ring_defined (PushCall e) p (with_ring p) Hok) as (s' & Hst & ->); [simpl; by rewrite Hpr|].
    exists 0%nat, (with_ring p s'). split; [done|]. intros [(e' & w & Hf) _]. congruence.
  - subst w. set (n := length (pushed (ring p))) in *.
    assert (consumed (ring p) = n) as Hcn by (unfold consumed; rewrite Ht; lia).
    assert (SpscConcurrent.step cap (PushAcquire n) (ring p)
            = Some (Ret (set_producer (PSlot e (wrap64 (Z.of_nat n))) n (ring p)))) as Hst.
    { simpl. rewrite Hpr, (inv_read _ _ Hs), Hcn, latest_store by lia.
      pose proof (inv_cap_pos _ _ Hs). rewrite (counter_distance _ _ cap) by (done || lia || apply Hs).
      destruct (Z.leb_spec cap (Z.of_nat n - Z.of_nat n)); [lia|done]. }
    exists n. eexists. rewrite Hst. split; [reflexivity|]. intros (_ & Hf). done.
  - destruct (on_ring_defined PushSlot p (with_ring p) Hok) as (s' & Hst & ->); [simpl; by rewrite Hpr|].
    exists 0%nat, (with_ring p s'). split; [done|]. intros [(e' & w' & Hf) _]. congruence.
  - destruct (on_ring_defined PushRelease p (λ s, MkPipeline B s (tail (unsent p)) (phase p) (event p)
      (handled p) (book p) (failed p)) Hok) as (s' & Hst & Hk); [simpl; by rewrite Hpr|].
    exists 0%nat. eexists. split; [exact Hk|]. intros [(e' & w' & Hf) _]. congruence.
Qed.
(** As long as the program has not finished, some turn gets on. *)
Lemma advances p :
  pipeline_ok p →
  finished events p ∨
  ∃ t p', QueuedReplay.step cap events t p = Some (Ret p') ∧ ¬ failed_attempt t p p'.
Proof using HL Hcap Hwf.
  intros Hok. pose proof (ok_ring _ Hok) as Hs. destruct (in_progress p Hok) as [_ Hh].
  assert (length (popped (ring p)) ≤ length (pushed (ring p)))%nat as Hle by apply prefix_length, Hs.
  destruct (decide (consumer_progress p ∈ [2%nat; 3%nat; 4%nat] ∨
                    (length (popped (ring p)) < length (pushed (ring p)) ∧ handled p < length events)%nat)) as [Hc|Hc].
  - right. destruct (consumer_advances p Hok) as (i & p' & Hst & Hf); [| |by exists (ConsumerTurn i), p'].
    + destruct Hc as [Hc|[_ Hc]]; [|done]. apply Hh. intros Hz. rewrite Hz in Hc. set_solver.
    + destruct Hc as [Hc|[Hc _]]; [left|by right]. unfold consumer_progress in Hc.
      destruct (phase p), (consumer (ring p)); done || set_solver.
  - assert (consumer_progress p = 0 ∨ consumer_progress p = 1)%nat as Hcp.
    { unfold consumer_progress in *. destruct (phase p); [|set_solver]. destruct (consumer (ring p)); set_solver. }
    assert (phase p = Polling ∧ taking (ring p) = 0%nat ∧ held p = []) as (Hph & Ht & Hheld).
    { unfold consumer_progress, taking, held in *. destruct (phase p); [|lia]. destruct (consumer (ring p)); (done || lia). }
    destruct (ok_accounts _ Hok) as (before & sent & applied & Ha).
    pose proof (accounts_prefix _ _ _ _ Hs Ha) as Hpre%prefix_length.
    destruct Ha as [He Hpu Hpo Hhd _ _]. rewrite Hheld, app_nil_r in *.
    apply (f_equal length) in He, Hpu, Hpo. rewrite length_app in He, Hpu, Hpo.
    assert (length (popped (ring p)) = length (pushed (ring p)))%nat as Hemp by lia.
    destruct (decide (unsent p = [])) as [Hu|Hu].
    + left. rewrite Hu in He. simpl in He.
      assert (consumer (ring p) = CIdle) as Hci.
      { unfold consumer_progress in Hcp. rewrite Hph in Hcp.
        pose proof (ok_consumer _ Hok) as Hoc. destruct (consumer (ring p)); [done|..]; destruct Hoc as [_ Hoc]; lia. }
      assert (producer (ring p) = PIdle) as Hpi.
      { pose proof (ok_producer _ Hok) as Hop. rewrite Hu in Hop. by destruct (producer (ring p)). }
      split_and!; (done || lia).
    + right. destruct (producer_advances p Hok Hu Hemp Ht) as (i & p' & Hst & Hf). by exists (ProducerTurn i), p'.
Qed.

(** So there is a schedule to the end, of exactly [remaining p] turns. *)
Lemma completes n p :
  pipeline_ok p → remaining p = n →
  ∃ turns p', length turns = n ∧ QueuedReplay.run cap events turns p = Some (Ret p') ∧
              finished events p' ∧ pipeline_ok p'.
Proof using HL Hcap Hwf.
  revert p. induction n as [|n IH]; intros p Hok Hn.
  - destruct (advances p Hok) as [Hfin|(t & p' & Hst & Hf)]; [by exists [], p|].
    destruct (turn_measure t p p' Hok Hst) as [Hm|[Hfa _]]; [lia|done].
  - destruct (advances p Hok) as [(Hp & Hu & Hc & Hph & Hhd)|(t & p' & Hst & Hf)].
    { unfold remaining, consumer_progress in Hn. rewrite Hp, Hu, Hc, Hph, Hhd in Hn. simpl in Hn. lia. }
    destruct (turn_measure t p p' Hok Hst) as [Hm|[Hfa _]]; [|done].
    assert (pipeline_ok p') as Hok'.
    { destruct t; [by eapply producer_turn_ok|by eapply consumer_turn_ok]. }
    destruct (IH p' Hok') as (turns & q & Hl & Hr & Hq); [lia|].
    exists (t :: turns), q. simpl. rewrite Hst, Hl. done.
Qed.

(** A run of [n] turns with [k] failed attempts is at most [remaining p + 2 k]
    turns long. *)
Fixpoint attempts_failed (turns : list Turn) p : nat :=
  match turns with
  | [] => 0
  | t :: turns' =>
      match QueuedReplay.step cap events t p with
      | Some (Ret p') =>
          (if decide (remaining p' = S (remaining p)) then 1 else 0) + attempts_failed turns' p'
      | _ => 0
      end
  end%nat.

Lemma run_bounded turns p p' :
  pipeline_ok p → QueuedReplay.run cap events turns p = Some (Ret p') →
  (length turns + remaining p' = remaining p + 2 * attempts_failed turns p)%nat.
Proof using HL Hwf.
  revert p. induction turns as [|t turns IH]; intros p Hok Hr; simpl in *; [injection Hr as ->; lia|].
  destruct (QueuedReplay.step cap events t p) as [[p1|]|] eqn:Hst; [|done..].
  assert (pipeline_ok p1) as Hok1.
  { destruct t; [by eapply producer_turn_ok|by eapply consumer_turn_ok]. }
  specialize (IH p1 Hok1 Hr). destruct (turn_measure t p p1 Hok Hst) as [Hm|[_ Hm]]; destruct (decide _); lia.
Qed.

End queued.
