(* ===== verification/QueuedProperties.v ===== *)
(** * Properties of the queued replay

    Handing the events over through the ring changes nothing but the time:
    the book is the one a direct replay leaves, nothing undefined happens on
    the way, and the two threads cannot block each other for ever. *)
From S2P Require Import Prelude CoreTypes BookTypes BookSpec Book BookRefinement BookValidation.
From S2P Require Import SpscRingBuffer SpscConcurrent QueuedReplay QueuedLaws.
#[local] Open Scope Z_scope.

Definition handed_events : list MarketEvent :=
  [MkEvent Add (MkTimestamp 1) (MkOrderId 1) Buy (MkPrice 100) (MkQuantity 10);
   MkEvent Execute (MkTimestamp 2) (MkOrderId 1) Buy (MkPrice 0) (MkQuantity 4);
   MkEvent Cancel (MkTimestamp 3) (MkOrderId 9) Buy (MkPrice 0) (MkQuantity 0)].

Lemma handed_events_wf : Forall (λ e, quantity_wf (ev_quantity e)) handed_events.
Proof. unfold handed_events. repeat (constructor; [by split|]). constructor. Qed.

Abbreviation baseline_pipeline := (QueuedReplay.Pipeline LimitOrderBook.LimitOrderBook).

Definition handed_start : baseline_pipeline :=
  QueuedReplay.launch handed_events (SpscConcurrent.initial 2) LimitOrderBook.empty_book.

(** The producer fills the ring of two, then the threads take turns. *)
Definition handed_turns : list QueuedReplay.Turn :=
  replicate 9 (QueuedReplay.ProducerTurn 0) ++ replicate 5 (QueuedReplay.ConsumerTurn 2) ++
  replicate 1 (QueuedReplay.ProducerTurn 0) ++ replicate 5 (QueuedReplay.ConsumerTurn 2) ++
  replicate 4 (QueuedReplay.ProducerTurn 2) ++ replicate 5 (QueuedReplay.ConsumerTurn 3).

Definition handed_after (n : nat) : baseline_pipeline :=
  match QueuedReplay.run 2 handed_events (take n handed_turns) handed_start with
  | Some (Ret p) => p
  | _ => handed_start
  end.

Lemma run_reachable_turns `{OrderBook B} cap events (b : B) turns p p' :
  QueuedReplay.reachable cap events b p → QueuedReplay.run cap events turns p = Some (Ret p') →
  QueuedReplay.reachable cap events b p'.
Proof.
  revert p. induction turns as [|t turns IH]; simpl; intros p Hp; [by intros [= <-]|].
  destruct (QueuedReplay.step cap events t p) as [[p1|]|] eqn:E; [|done..]. apply IH.
  by eapply QueuedReplay.reachable_turn.
Qed.

Lemma handed_reachable n :
  QueuedReplay.reachable 2 handed_events LimitOrderBook.empty_book (handed_after n).
Proof.
  unfold handed_after. destruct (QueuedReplay.run _ _ _ _) as [[p|]|] eqn:E;
    [|apply QueuedReplay.reachable_first..].
  by eapply run_reachable_turns; [apply QueuedReplay.reachable_first|].
Qed.

Lemma ring_of_two : ring_capacity 2.
Proof. by exists 1. Qed.

(** C6: replaying through the ring is replaying directly.  Whatever the two
    threads' interleaving, the stale values their acquire loads return and the
    earlier iterations on the same ring, no turn races or is otherwise
    undefined; at any time the book is the one the specification has after the
    events applied so far, a beginning of the list; and when both threads have
    returned, the book is the one applying all the events directly to a cleared
    book gives, and [failed] says whether that rejects one of them. *)
Theorem queued_replay_is_direct `{HL : OrderBookLaws B capacity rep} cap events (b : B) sb p :
  ring_capacity cap → Forall (λ e, quantity_wf (ev_quantity e)) events → rep b sb →
  QueuedReplay.reachable cap events b p →
  (∀ t, QueuedReplay.step cap events t p ≠ Some UB) ∧
  rep (QueuedReplay.book p)
    (spec_apply_all capacity (take (QueuedReplay.handled p) events) spec_empty).2 ∧
  (QueuedReplay.finished events p →
     ∃ rs b' s, apply_all events (ob_clear b) = Ret (rs, b') ∧
       rep b' s ∧ rep (QueuedReplay.book p) s ∧
       QueuedReplay.failed p = bool_decide (Exists (λ r, r ≠ Applied) rs)).
Proof.
  intros Hcap Hwf Hb Hr. pose proof (reachable_ok cap events Hcap Hwf b sb p Hb Hr) as Hok.
  split_and!.
  - intros t. by eapply turn_defined.
  - destruct (ok_accounts _ _ _ Hok) as (before & sent & applied & Ha).
    pose proof (accounts_prefix _ _ _ _ _ _ (ok_ring _ _ _ Hok) Ha) as [l Hl].
    destruct Ha as [He _ _ -> Hrep _]. by rewrite He, Hl, <-!app_assoc, take_app_length.
  - intros Hfin. destruct (finished_accounts cap events p Hok Hfin) as (_ & Hrep & Hf).
    destruct (apply_all_refines events (ob_clear b) spec_empty Hwf) as (b' & Ha & Hb'); [by eapply law_clear|].
    eexists _, b', _. split_and!; [exact Ha|exact Hb'|exact Hrep|exact Hf].
Qed.

Lemma queued_replay_is_direct_witness :
  QueuedReplay.finished handed_events (handed_after 29) ∧
  ∃ rs b' s, apply_all handed_events LimitOrderBook.empty_book = Ret (rs, b') ∧
    represents b' s ∧ represents (QueuedReplay.book (handed_after 29)) s ∧
    QueuedReplay.failed (handed_after 29) = true.
Proof.
  assert (QueuedReplay.finished handed_events (handed_after 29)) as Hfin by (vm_compute; done).
  split; [exact Hfin|].
  destruct (queued_replay_is_direct (HL:=LimitOrderBook_laws) 2 handed_events LimitOrderBook.empty_book spec_empty
    (handed_after 29) ring_of_two handed_events_wf empty_book_represents (handed_reachable 29)) as (_ & _ & Hd).
  destruct (Hd Hfin) as (rs & b' & s & Ha & Hb' & Hp & _).
  exists rs, b', s. split_and!; [exact Ha|exact Hb'|exact Hp|vm_compute; reflexivity].
Defined.

(** C18: the threads cannot block each other.  From every reachable state the
    scheduler can bring both to their end, in exactly [remaining p] turns (four
    per event still to push, five per event still to pop and apply); and
    however it schedules them, a run with [k] failed attempts to push or pop
    takes at most [remaining p + 2 k] turns, so only for ever failing attempts
    could keep the program from ending. *)
Theorem queued_replay_completes `{HL : OrderBookLaws B capacity rep} cap events (b : B) sb p :
  ring_capacity cap → Forall (λ e, quantity_wf (ev_quantity e)) events → rep b sb →
  QueuedReplay.reachable cap events b p →
  (∃ turns p', length turns = remaining events p ∧ QueuedReplay.run cap events turns p = Some (Ret p') ∧
     QueuedReplay.finished events p') ∧
  (∀ turns p', QueuedReplay.run cap events turns p = Some (Ret p') →
     (length turns ≤ remaining events p + 2 * attempts_failed cap events turns p)%nat).
Proof.
  intros Hcap Hwf Hb Hr. pose proof (reachable_ok cap events Hcap Hwf b sb p Hb Hr) as Hok. split.
  - destruct (completes cap events Hcap Hwf _ p Hok eq_refl) as (turns & p' & Hl & Hrun & Hfin & _). eauto.
  - intros turns p' Hrun. pose proof (run_bounded cap events Hwf turns p p' Hok Hrun). lia.
Qed.

Lemma queued_replay_completes_witness :
  ∃ turns p', length turns = 18%nat ∧ QueuedReplay.run 2 handed_events turns (handed_after 9) = Some (Ret p') ∧
    QueuedReplay.finished handed_events p'.
Proof.
  assert (remaining handed_events (handed_after 9) = 18%nat) as Hrem by (vm_compute; reflexivity).
  rewrite <-Hrem.
  exact (proj1 (queued_replay_completes (HL:=LimitOrderBook_laws) 2 handed_events LimitOrderBook.empty_book spec_empty
    (handed_after 9) ring_of_two handed_events_wf empty_book_represents (handed_reachable 9))).
Defined.
