(* ===== verification/Benchmarks.v ===== *)
(** * The benchmark programs

    [bench/datagine_benchmarks.cpp]: the generated event streams, the CSV
    fixture, and the body of every single-threaded benchmark, as a function of
    the objects it keeps between iterations.  [SkipWithError] adds a message;
    the range-for over [benchmark::State] runs the body a number of times the
    library chooses and stops after a message.  Timing and counters are the
    library's.  [QueuedReplay] is the benchmark with two threads. *)
From S2P Require Import Prelude CoreTypes Text BookTypes BookSpec Book PooledBook CsvParser Double.
From S2P Require Import AnomalyDetector BookValidation PooledValidation.
#[local] Open Scope Z_scope.

(** Signed addition, and the conversion of a [std::size_t] to a signed type. *)
Definition add_i64 (a b : Z) : Exec Z :=
  if bool_decide (- two63 ≤ a + b < two63) then Ret (a + b) else UB.
Definition to_i64 (z : Z) : Z := if wrap64 z <? two63 then wrap64 z else wrap64 z - two64.

Module Benchmarks.

Definition kDefaultBatchSize : Z := 4096.
Definition kLargeBatchSize : Z := 16384.

(** Every benchmark is registered with these two arguments. *)
Definition registered_arguments : list nat := Z.to_nat <$> [kDefaultBatchSize; kLargeBatchSize].

(** ** Streams *)

Definition make_event (type : EventType) (order_id : Z) (side : Side) (price quantity timestamp : Z)
    : MarketEvent :=
  MkEvent type (MkTimestamp timestamp) (MkOrderId order_id) side (MkPrice price) (MkQuantity quantity).

(** The body of the loop over [i]. *)
Definition mixed_cycle (i : Z) : Exec (list MarketEvent) :=
  let order_id := add64 i 1 in
  let timestamp := to_i64 (mul64 i 3) in
  let price := to_i64 (10000 + i mod 64) in
  executed ← add_i64 timestamp 1;
  cancelled ← add_i64 timestamp 2;
  Ret [make_event Add order_id Buy price 100 timestamp;
       make_event Execute order_id Buy price 40 executed;
       make_event Cancel order_id Buy 0 0 cancelled].

(** [cycles] iterations from [i] on. *)
Fixpoint mixed_loop (cycles : nat) (i : Z) (events : list MarketEvent) : Exec (list MarketEvent) :=
  match cycles with
  | O => Ret events
  | S cycles => cycle ← mixed_cycle i; mixed_loop cycles (add64 i 1) (events ++ cycle)
  end.

Definition make_mixed_stream (cycles : nat) : Exec (list MarketEvent) := mixed_loop cycles 0 [].

Fixpoint feature_loop (cycles : nat) (next_id timestamp : Z) (events : list MarketEvent)
    : Exec (list MarketEvent) :=
  match cycles with
  | O => Ret events
  | S cycles =>
      let temp_id := next_id in
      let next_id := add64 next_id 1 in
      t1 ← add_i64 timestamp 1;
      t2 ← add_i64 t1 1;
      t3 ← add_i64 t2 1;
      t4 ← add_i64 t3 1;
      feature_loop cycles next_id t4
        (events ++ [make_event Add temp_id Buy 9995 10 timestamp;
                    make_event Cancel temp_id Buy 0 0 t1;
                    make_event Modify 1 Buy 10000 1000 t2;
                    make_event Modify 2 Sell 10005 1000 t3])
  end.

Definition make_feature_stream (cycles : nat) : Exec (list MarketEvent) :=
  feature_loop cycles 3 2
    [make_event Add 1 Buy 10000 1000 0; make_event Add 2 Sell 10005 1000 1].

(** ** The CSV fixture *)

Definition fixture_row (i : Z) : text :=
  let order_id := add64 i 1 in
  let timestamp := to_i64 (add64 100000000 i) in
  let side := if i mod 2 =? 0 then txt "B" else txt "S" in
  let price := if i mod 2 =? 0 then to_i64 (10000 - i mod 64) else to_i64 (10025 + i mod 64) in
  print_decimal timestamp ++ txt ",ADD," ++ print_decimal order_id ++ txt "," ++ side ++ txt "," ++
  print_decimal price ++ txt ",100" ++ [newline].

Fixpoint fixture_loop (rows : nat) (i : Z) (output : text) : text :=
  match rows with
  | O => output
  | S rows => fixture_loop rows (add64 i 1) (output ++ fixture_row i)
  end.

(** The path and what is written there. *)
Definition write_csv_fixture (temp_directory_path : text) (rows : nat) : text * text :=
  (temp_directory_path ++ txt "/datagine_benchmark_fixture.csv",
   fixture_loop rows 0 (txt "timestamp_ns,event_type,order_id,side,price,quantity" ++ [newline])).

(** ** Loops *)

(** [for (auto _ : state)], [iterations] times; [None] as in the body. *)
Fixpoint run_benchmark {A : Type} (iterations : nat) (body : A → option (Exec (list text * A))) (a : A)
    : option (Exec (list text * A)) :=
  match iterations with
  | O => Some (Ret ([], a))
  | S iterations =>
      match body a with
      | Some (Ret ([], a)) => run_benchmark iterations body a
      | outcome => outcome
      end
  end.

Section loops.
Context `{OrderBook B}.

(** The loop over [i] that calls [add_order]. *)
Fixpoint add_loop (add_order : OrderId → Side → Price → Quantity → Timestamp → B → Exec (BookResult * B))
    (side : Side) (base : Z) (message : text) (n : nat) (i : Z) (book : B) : Exec (list text * B) :=
  match n with
  | O => Ret ([], book)
  | S n =>
      '(result, book) ← add_order (MkOrderId (add64 i 1)) side (MkPrice (to_i64 (base + i mod 128)))
                          (MkQuantity 100) (MkTimestamp (to_i64 i)) book;
      if decide (result ≠ Applied) then Ret ([message], book)
      else add_loop add_order side base message n (add64 i 1) book
  end.

Fixpoint cancel_loop (cancel_order : OrderId → B → Exec (BookResult * B)) (message : text) (n : nat) (i : Z)
    (book : B) : Exec (list text * B) :=
  match n with
  | O => Ret ([], book)
  | S n =>
      '(result, book) ← cancel_order (MkOrderId (add64 i 1)) book;
      if decide (result ≠ Applied) then Ret ([message], book)
      else cancel_loop cancel_order message n (add64 i 1) book
  end.

(** [for (event : events)]: apply, and stop at the first that is not. *)
Fixpoint apply_loop (message : text) (events : list MarketEvent) (book : B) : Exec (list text * B) :=
  match events with
  | [] => Ret ([], book)
  | event :: events =>
      '(result, book) ← ob_apply event book;
      if decide (result ≠ Applied) then Ret ([message], book) else apply_loop message events book
  end.

(** The loop over [parser.next()]; [None] when the fuel is used up. *)
Fixpoint parse_apply_loop (message : text) (fuel : nat) (parser : CsvParser.CsvParser) (book : B)
    : option (Exec (list text * B)) :=
  match fuel with
  | O => None
  | S fuel =>
      let '(parsed, parser) := CsvParser.next parser in
      match CsvParser.status parsed, CsvParser.event parsed with
      | CsvParser.EndOfFile, _ => Some (Ret ([], book))
      | CsvParser.Event, Some event =>
          match ob_apply event book with
          | UB => Some UB
          | Ret (result, book) =>
              if decide (result ≠ Applied) then Some (Ret ([message], book))
              else parse_apply_loop message fuel parser book
          end
      | _, _ => Some (Ret ([txt "generated CSV fixture produced malformed row"], book))
      end
  end.

Definition parse_apply (message : text) (files : text → option text) (fixture_path : text) (book : B)
    : option (Exec (list text * B)) :=
  let book := ob_clear book in
  let parser := CsvParser.open files fixture_path in
  if negb (CsvParser.is_open parser)
  then Some (Ret ([txt "failed to open generated CSV fixture"], book))
  else parse_apply_loop message (S (length (default [] (CsvParser.input_ parser)))) parser book.

(** The file system after the fixture is written. *)
Definition with_fixture (files : text → option text) (fixture : text * text) (path : text) : option text :=
  if decide (path = fixture.1) then Some fixture.2 else files path.

(** Apply and monitor; the number of anomalies is only kept from being
    optimised away. *)
Fixpoint observe_loop (message : text) (events : list MarketEvent) (book : B)
    (monitor : AnomalyMonitor.AnomalyMonitor) : Exec (list text * (B * AnomalyMonitor.AnomalyMonitor)) :=
  match events with
  | [] => Ret ([], (book, monitor))
  | event :: events =>
      '(result, book) ← ob_apply event book;
      if decide (result ≠ Applied) then Ret ([message], (book, monitor))
      else
        '(anomalies, monitor) ← AnomalyMonitor.observe event book monitor;
        observe_loop message events book monitor
  end.

(** ** The bodies, for either book *)

Definition add_iteration (add_order : OrderId → Side → Price → Quantity → Timestamp → B → Exec (BookResult * B))
    (message : text) (batch_size : nat) (book : B) : Exec (list text * B) :=
  add_loop add_order Buy 10000 message batch_size 0 (ob_clear book).

Definition cancel_iteration (add_order : OrderId → Side → Price → Quantity → Timestamp → B → Exec (BookResult * B))
    (cancel_order : OrderId → B → Exec (BookResult * B)) (setup_message message : text) (batch_size : nat)
    (book : B) : Exec (list text * B) :=
  '(setup, book) ← add_loop add_order Sell 10100 setup_message batch_size 0 (ob_clear book);
  '(messages, book) ← cancel_loop cancel_order message batch_size 0 book;
  Ret (setup ++ messages, book).

Definition stream_benchmark (message : text) (cycles iterations : nat) (book : B) : option (Exec (list text * B)) :=
  match make_mixed_stream cycles with
  | UB => Some UB
  | Ret events => run_benchmark iterations (λ book, Some (apply_loop message events (ob_clear book))) book
  end.

Definition csv_benchmark (message : text) (files : text → option text) (temp_directory_path : text)
    (rows iterations : nat) (book : B) : option (Exec (list text * B)) :=
  let fixture := write_csv_fixture temp_directory_path rows in
  run_benchmark iterations (parse_apply message (with_fixture files fixture) fixture.1) book.

End loops.

(** ** The benchmarks *)

Definition BM_BaselineAddOrderHotPath (batch_size iterations : nat) :=
  run_benchmark iterations
    (λ book, Some (add_iteration LimitOrderBook.add_order (txt "add_order returned a non-applied result")
                     batch_size book)) LimitOrderBook.empty_book.

Definition BM_PooledAddOrderHotPath (batch_size iterations : nat) :=
  run_benchmark iterations
    (λ book, Some (add_iteration PooledLimitOrderBook.add_order
                     (txt "pooled add_order returned a non-applied result") batch_size book))
    (PooledLimitOrderBook.make_book (Z.of_nat batch_size)).

Definition BM_BaselineCancelOrderHotPath (batch_size iterations : nat) :=
  run_benchmark iterations
    (λ book, Some (cancel_iteration LimitOrderBook.add_order LimitOrderBook.cancel_order
                     (txt "benchmark setup add_order failed")
                     (txt "cancel_order returned a non-applied result") batch_size book))
    LimitOrderBook.empty_book.

Definition BM_PooledCancelOrderHotPath (batch_size iterations : nat) :=
  run_benchmark iterations
    (λ book, Some (cancel_iteration PooledLimitOrderBook.add_order PooledLimitOrderBook.cancel_order
                     (txt "pooled benchmark setup add_order failed")
                     (txt "pooled cancel_order returned a non-applied result") batch_size book))
    (PooledLimitOrderBook.make_book (Z.of_nat batch_size)).

Definition BM_BaselineMixedAddCancelExecuteStream (cycles iterations : nat) :=
  stream_benchmark (txt "mixed stream apply returned a non-applied result") cycles iterations
    LimitOrderBook.empty_book.

Definition BM_PooledMixedAddCancelExecuteStream (cycles iterations : nat) :=
  stream_benchmark (txt "pooled mixed stream apply returned a non-applied result") cycles iterations
    (PooledLimitOrderBook.make_book (Z.of_nat cycles)).

Definition BM_DirectReplayInMemory (cycles iterations : nat) :=
  stream_benchmark (txt "direct replay event was rejected by the book") cycles iterations
    LimitOrderBook.empty_book.

Definition BM_BaselineCsvParseApply (files : text → option text) (temp : text) (rows iterations : nat) :=
  csv_benchmark (txt "CSV parse/apply benchmark event was rejected by the book") files temp rows iterations
    LimitOrderBook.empty_book.

Definition BM_PooledCsvParseApply (files : text → option text) (temp : text) (rows iterations : nat) :=
  csv_benchmark (txt "CSV parse/apply benchmark event was rejected by the pooled book") files temp rows
    iterations (PooledLimitOrderBook.make_book (Z.of_nat rows)).

Definition BM_FeatureExtractionAnomalyScoring (cycles iterations : nat) :=
  match make_feature_stream cycles with
  | UB => Some UB
  | Ret events =>
      run_benchmark iterations
        (λ s, Some (observe_loop (txt "feature/anomaly benchmark event was rejected by the book") events
                      (LimitOrderBook.clear s.1) (AnomalyMonitor.reset s.2)))
        (LimitOrderBook.empty_book, AnomalyMonitor.make default_config)
  end.

End Benchmarks.
