(* ===== verification/BenchmarkLaws.v ===== *)
(** * Lemmas on the benchmark programs

    What the generated streams are and do to the specification book, and how
    the benchmark loops run on any lawful book when every event is applied. *)
From S2P Require Import Prelude CoreTypes Text BookTypes BookSpec BookStreams Book PooledBook CsvParser.
From S2P Require Import CsvLaws Double AnomalyDetector AnomalyLaws Benchmarks.
From Stdlib Require Import Ascii.
Import Benchmarks.
#[local] Open Scope Z_scope.

(** ** Conversions *)

Lemma to_i64_range z : is_i64 (to_i64 z).
Proof.
  unfold to_i64, is_i64. pose proof (wrap64_range z) as Hw. unfold is_u64, two63, two64 in *.
  destruct (Z.ltb_spec (wrap64 z) 9223372036854775808); lia.
Qed.

Lemma to_i64_small z : 0 ≤ z < two63 → to_i64 z = z.
Proof.
  intros Hz. unfold to_i64. rewrite wrap64_small by (unfold is_u64, two63, two64 in *; lia).
  destruct (Z.ltb_spec z two63); lia.
Qed.

Lemma add_i64_small a b : 0 ≤ a → 0 ≤ b → a + b < two63 → add_i64 a b = Ret (a + b).
Proof. intros. unfold add_i64. rewrite bool_decide_true; [done|]. unfold two63 in *. lia. Qed.

Lemma add64_small a b : 0 ≤ a → 0 ≤ b → a + b < two64 → add64 a b = a + b.
Proof. intros. apply wrap64_small. unfold is_u64. lia. Qed.

(** The registered arguments are within the bounds of all generators. *)
Lemma registered_arguments_fit :
  Forall (λ n, 3 + 4 * Z.of_nat n < two63 ∧ Z.of_nat n < two64) registered_arguments.
Proof. unfold registered_arguments. repeat (constructor; [split; vm_compute; reflexivity|]). constructor. Qed.

(** ** Streams every event of which is applied *)

Definition all_applied (capacity : option nat) (es : list MarketEvent) (s : SpecBook) : Prop :=
  (spec_apply_all capacity es s).1 = replicate (length es) Applied.

(** The specification book after [es], all applied, [ev] events later. *)
Definition runs_to (capacity : option nat) (es : list MarketEvent) (s s' : SpecBook) : Prop :=
  spec_apply_all capacity es s = (replicate (length es) Applied, s').

Lemma runs_to_app capacity es1 es2 s s1 s2 :
  runs_to capacity es1 s s1 → runs_to capacity es2 s1 s2 → runs_to capacity (es1 ++ es2) s s2.
Proof.
  unfold runs_to. intros H1 H2. rewrite spec_apply_all_app, H1. simpl. by rewrite H2, length_app, replicate_add.
Qed.

Lemma runs_to_cons capacity e es s s1 s2 :
  spec_apply capacity e s = (Applied, s1) → runs_to capacity es s1 s2 → runs_to capacity (e :: es) s s2.
Proof. unfold runs_to. intros H1 H2. simpl. rewrite H1. simpl. by rewrite H2. Qed.

Lemma runs_to_inv capacity e es s s' :
  runs_to capacity (e :: es) s s' →
  (spec_apply capacity e s).1 = Applied ∧ runs_to capacity es (spec_apply capacity e s).2 s'.
Proof.
  unfold runs_to. cbn [spec_apply_all length replicate]. destruct (spec_apply capacity e s) as [res s1].
  simpl. destruct (spec_apply_all capacity es s1) as [rs s2]. simpl. intros [= -> -> ->]. done.
Qed.

(** There is room for [n] orders. *)
Definition room (capacity : option nat) (n : nat) : Prop :=
  match capacity with None => True | Some c => (n ≤ c)%nat end.

(** Adds of new ids, as long as there is room. *)
Lemma runs_to_adds capacity es os ev :
  Forall (λ e, ev_type e = Add ∧ units (ev_quantity e) ≠ 0) es →
  NoDup ((so_id <$> os) ++ (ev_order_id <$> es)) → room capacity (length os + length es) → is_u64 ev →
  runs_to capacity es (MkSpecBook os ev)
    (MkSpecBook (os ++ (event_order <$> es)) (wrap64 (ev + Z.of_nat (length es)))).
Proof.
  intros Hes. revert os ev. induction Hes as [|e es [Hty Hq] _ IH]; intros os ev Hnd Hroom Hev.
  { unfold runs_to. simpl. by rewrite app_nil_r, Z.add_0_r, wrap64_small. }
  eapply runs_to_cons.
  - unfold spec_apply. rewrite Hty. unfold spec_add. simpl. rewrite decide_False by done.
    assert (find_order (ev_order_id e) os = None) as ->.
    { apply find_order_None. apply NoDup_app in Hnd as (_ & Hdis & _). intros Hin. apply (Hdis _ Hin). by left. }
    rewrite decide_False; [reflexivity|]. unfold spec_full. destruct capacity; simpl in *; lia.
  - replace (os ++ (event_order <$> e :: es)) with ((os ++ [event_order e]) ++ (event_order <$> es))
      by (by rewrite <-app_assoc).
    replace (wrap64 (ev + Z.of_nat (length (e :: es)))) with (wrap64 (add64 ev 1 + Z.of_nat (length es)))
      by (unfold add64; rewrite wrap64_add_l; f_equal; simpl; lia).
    apply IH.
    + rewrite fmap_app. simpl. by rewrite <-app_assoc.
    + unfold room in *. destruct capacity; [|done]. rewrite length_app. simpl in *. lia.
    + apply wrap64_range.
Qed.

(** Cancels of all live orders, in their order. *)
Lemma runs_to_cancels capacity es os ev :
  Forall (λ e, ev_type e = Cancel) es → ev_order_id <$> es = so_id <$> os → NoDup (so_id <$> os) → is_u64 ev →
  runs_to capacity es (MkSpecBook os ev) (MkSpecBook [] (wrap64 (ev + Z.of_nat (length es)))).
Proof.
  intros Hes. revert os ev. induction Hes as [|e es Hty _ IH]; intros [|o os] ev Hids Hnd Hev; try done.
  { unfold runs_to. simpl. by rewrite Z.add_0_r, wrap64_small. }
  rewrite !fmap_cons in Hids. injection Hids as Hid Hids. rewrite fmap_cons in Hnd.
  apply NoDup_cons in Hnd as [Ho Hnd].
  eapply runs_to_cons.
  - unfold spec_apply. rewrite Hty. unfold spec_cancel, find_order. cbn [sb_orders].
    rewrite filter_cons, decide_True by by symmetry. cbn [head].
    unfold accept, remove_order. cbn [sb_orders sb_events].
    rewrite filter_cons, decide_False by (intros Hn; by apply Hn).
    rewrite filter_all; [reflexivity|]. apply Forall_forall. intros o' Ho' Hid'. apply Ho.
    rewrite <-Hid. unfold has_id in Hid'. rewrite <-Hid'. by apply list_elem_of_fmap_2.
  - replace (wrap64 (ev + Z.of_nat (length (e :: es)))) with (wrap64 (add64 ev 1 + Z.of_nat (length es)))
      by (unfold add64; rewrite wrap64_add_l; f_equal; simpl; lia).
    apply IH; [done|done|apply wrap64_range].
Qed.

(** ** Batches of numbered events *)

(** [n] events, [f i] the event of index [i], from [i] on. *)
Fixpoint numbered (f : Z → MarketEvent) (n : nat) (i : Z) : list MarketEvent :=
  match n with
  | O => []
  | S n => f i :: numbered f n (add64 i 1)
  end.

Lemma numbered_length f n i : length (numbered f n i) = n.
Proof. revert i. induction n as [|n IH]; intros i; simpl; [done|by rewrite IH]. Qed.

Lemma numbered_Forall (P : MarketEvent → Prop) f n i : (∀ i, P (f i)) → Forall P (numbered f n i).
Proof. intros Hf. revert i. induction n as [|n IH]; intros i; constructor; auto. Qed.

Lemma numbered_ids f n i :
  (∀ i, ev_order_id (f i) = MkOrderId (add64 i 1)) → 0 ≤ i → i + Z.of_nat n < two64 →
  ev_order_id <$> numbered f n i = MkOrderId <$> seqZ (i + 1) (Z.of_nat n).
Proof.
  intros Hf. revert i. induction n as [|n IH]; intros i Hi Hn; [done|]. cbn [numbered].
  rewrite fmap_cons, Hf, add64_small by lia. rewrite IH by lia.
  rewrite (seqZ_cons (i + 1)) by lia. rewrite fmap_cons. do 2 f_equal. f_equal; lia.
Qed.

(** The adds of [add_loop] and the cancels of [cancel_loop] as events. *)
Abbreviation add_events side base :=
  (numbered (λ i, make_event Add (add64 i 1) side (to_i64 (base + i mod 128)) 100 (to_i64 i))).

Abbreviation cancel_events := (numbered (λ i, make_event Cancel (add64 i 1) Buy 0 0 0)).

(** ** Loops over a lawful book *)
Section loops.
Context `{HL : OrderBookLaws B capacity rep}.

Definition quantities_wf (es : list MarketEvent) : Prop := Forall (λ e, quantity_wf (ev_quantity e)) es.

Lemma apply_loop_applied message es (b : B) s s' :
  quantities_wf es → rep b s → runs_to capacity es s s' →
  ∃ b', apply_loop message es b = Ret ([], b') ∧ rep b' s'.
Proof.
  intros Hes. revert b s. induction Hes as [|e es He _ IH]; intros b s Hb Hr.
  { unfold runs_to in Hr. injection Hr as <-. by exists b. }
  destruct (law_apply e b s He Hb) as (b1 & Ha & Hb1). apply runs_to_inv in Hr as [H1 Hr].
  simpl. rewrite Ha, H1. cbn [mbind Exec_bind]. rewrite decide_False by (intros Hn; by apply Hn).
  by apply (IH b1 _ Hb1).
Qed.

Lemma add_loop_apply add side base message n i (b : B) :
  (∀ id sd p q ts b, add id sd p q ts b = ob_apply (MkEvent Add ts id sd p q) b) →
  add_loop add side base message n i b = apply_loop message (add_events side base n i) b.
Proof.
  intros Hadd. revert i b. induction n as [|n IH]; intros i b; [done|]. cbn [add_loop numbered apply_loop].
  rewrite Hadd. unfold make_event. destruct (ob_apply _ b) as [[res b']|]; [|done]. cbn [mbind Exec_bind].
  destruct (decide (res ≠ Applied)); [done|apply IH].
Qed.

Lemma cancel_loop_apply cancel message n i (b : B) :
  (∀ id ts sd p q b, cancel id b = ob_apply (MkEvent Cancel ts id sd p q) b) →
  cancel_loop cancel message n i b = apply_loop message (cancel_events n i) b.
Proof.
  intros Hc. revert i b. induction n as [|n IH]; intros i b; [done|]. cbn [cancel_loop numbered apply_loop].
  unfold make_event. rewrite (Hc _ (MkTimestamp 0) Buy (MkPrice 0) (MkQuantity 0)).
  destruct (ob_apply _ b) as [[res b']|]; [|done]. cbn [mbind Exec_bind].
  destruct (decide (res ≠ Applied)); [done|apply IH].
Qed.

(** Reading a feed of events and applying them. *)
Lemma parse_apply_events message p rs fuel (b : B) :
  reads p rs → (length rs < fuel)%nat →
  Forall (λ r, CsvParser.status r = CsvParser.Event ∧ is_Some (CsvParser.event r)) rs →
  parse_apply_loop message fuel p b = Some (apply_loop message (omap CsvParser.event rs) b).
Proof.
  intros Hr. revert fuel b. induction Hr as [p p' Hn|p r p' rs Hn _ _ IH]; intros fuel b Hf Hev;
    (destruct fuel as [|fuel]; simpl in *; [lia|]); rewrite Hn; [done|].
  apply Forall_cons in Hev as [[Hs [e He]] Hev]. rewrite Hs, He. cbn [apply_loop].
  destruct (ob_apply e b) as [[res b']|]; [|done]. cbn [mbind Exec_bind].
  destruct (decide (res ≠ Applied)); [done|]. apply IH; [lia|done].
Qed.

End loops.

(** A body that goes through on every state its own result is one of goes
    through any number of times. *)
Lemma run_benchmark_clean {A} (P Q : A → Prop) (body : A → option (Exec (list text * A))) iterations a :
  (∀ a, P a → ∃ a', body a = Some (Ret ([], a')) ∧ Q a') → (∀ a, Q a → P a) → P a →
  ∃ a', run_benchmark iterations body a = Some (Ret ([], a')) ∧ if decide (iterations = 0%nat) then a' = a else Q a'.
Proof.
  intros Hbody HQP. revert a. induction iterations as [|n IH]; intros a Ha; cbn [run_benchmark]; [by exists a|].
  destruct (Hbody a Ha) as (a1 & -> & Hq). destruct (IH a1 (HQP a1 Hq)) as (a2 & -> & Hq2).
  exists a2. split; [done|]. rewrite decide_False by done. destruct (decide (n = 0%nat)); [by subst|done].
Qed.

(** ** The generated streams *)

Lemma add_events_adds side base n i :
  Forall (λ e, ev_type e = Add ∧ units (ev_quantity e) ≠ 0) (add_events side base n i) ∧
  quantities_wf (add_events side base n i).
Proof. by split; apply numbered_Forall. Qed.

Lemma cancel_events_cancels n i :
  Forall (λ e, ev_type e = Cancel) (cancel_events n i) ∧ quantities_wf (cancel_events n i).
Proof. by split; apply numbered_Forall. Qed.

(** One cycle of the mixed stream, in machine-sized numbers. *)
Definition mixed_events (i : Z) : list MarketEvent :=
  [make_event Add (i + 1) Buy (10000 + i mod 64) 100 (3 * i);
   make_event Execute (i + 1) Buy (10000 + i mod 64) 40 (3 * i + 1);
   make_event Cancel (i + 1) Buy 0 0 (3 * i + 2)].

Lemma mixed_cycle_events i : 0 ≤ i → 3 * i + 2 < two63 → mixed_cycle i = Ret (mixed_events i).
Proof.
  intros Hi Hb. unfold mixed_cycle, mul64.
  pose proof (Z.mod_pos_bound i 64 ltac:(lia)).
  rewrite wrap64_small by (unfold is_u64, two63, two64 in *; lia).
  rewrite !to_i64_small by (unfold two63 in *; lia).
  rewrite !add_i64_small by (unfold two63 in *; lia). cbn [mbind Exec_bind].
  rewrite add64_small by (unfold two63, two64 in *; lia). unfold mixed_events.
  replace (i * 3) with (3 * i) by lia. done.
Qed.

Lemma mixed_loop_events n i acc :
  0 ≤ i → 3 * (i + Z.of_nat n) < two63 →
  mixed_loop n i acc = Ret (acc ++ (seqZ i (Z.of_nat n) ≫= mixed_events)).
Proof.
  revert i acc. induction n as [|n IH]; intros i acc Hi Hb; cbn [mixed_loop]; [by rewrite app_nil_r|].
  rewrite mixed_cycle_events by lia. cbn [mbind Exec_bind].
  rewrite add64_small by (unfold two63, two64 in *; lia). rewrite IH by lia.
  rewrite (seqZ_cons i) by lia. rewrite bind_cons, <-app_assoc.
  change (Z.succ i) with (i + 1). by replace (Z.pred (Z.of_nat (S n))) with (Z.of_nat n) by lia.
Qed.

Lemma mixed_events_run capacity i ev :
  room capacity 1 → is_u64 ev →
  runs_to capacity (mixed_events i) (MkSpecBook [] ev) (MkSpecBook [] (wrap64 (ev + 3))).
Proof.
  intros Hroom Hev. eapply runs_to_cons; [|eapply runs_to_cons; [|eapply runs_to_cons; [|done]]].
  - unfold spec_apply, spec_add. cbn [make_event ev_type event_order so_quantity units ev_quantity sb_orders].
    rewrite decide_False by done. change (find_order _ []) with (@None SpecOrder). cbn iota.
    rewrite decide_False; [reflexivity|]. unfold spec_full. destruct capacity; simpl in *; lia.
  - unfold spec_apply, spec_execute, find_order. simpl. rewrite filter_cons, decide_True by done. simpl. reflexivity.
  - unfold spec_apply, spec_cancel, find_order. simpl. rewrite decide_True by done.
    rewrite filter_cons, decide_True by done. simpl. unfold accept, remove_order. simpl.
    rewrite filter_cons, decide_False by (intros Hn; by apply Hn). rewrite filter_nil.
    unfold add64. rewrite (wrap64_add_l (ev + 1) 1), (wrap64_add_l (ev + 1 + 1) 1). by replace (ev + 1 + 1 + 1) with (ev + 3) by lia.
Qed.

Lemma mixed_stream_run capacity n i ev :
  n = 0%nat ∨ room capacity 1 → is_u64 ev →
  runs_to capacity (seqZ i (Z.of_nat n) ≫= mixed_events) (MkSpecBook [] ev)
    (MkSpecBook [] (wrap64 (ev + 3 * Z.of_nat n))).
Proof.
  intros [->|Hroom]; [intros Hev; unfold runs_to; simpl; by rewrite Z.add_0_r, wrap64_small|].
  revert i ev. induction n as [|n IH]; intros i ev Hev.
  { unfold runs_to. simpl. by rewrite Z.add_0_r, wrap64_small. }
  rewrite (seqZ_cons i) by lia. rewrite bind_cons. eapply runs_to_app; [by apply mixed_events_run|].
  replace (Z.pred (Z.of_nat (S n))) with (Z.of_nat n) by lia.
  replace (wrap64 (ev + 3 * Z.of_nat (S n))) with (wrap64 (wrap64 (ev + 3) + 3 * Z.of_nat n))
    by (rewrite wrap64_add_l; f_equal; lia).
  apply IH, wrap64_range.
Qed.

Lemma mixed_stream_wf n i : quantities_wf (seqZ i (Z.of_nat n) ≫= mixed_events).
Proof.
  revert i. induction n as [|n IH]; intros i; [constructor|]. rewrite (seqZ_cons i) by lia. rewrite bind_cons.
  apply Forall_app. split; [repeat (constructor; [by split|]); constructor|].
  replace (Z.pred (Z.of_nat (S n))) with (Z.of_nat n) by lia. apply IH.
Qed.

Lemma mixed_stream_length n i : length (seqZ i (Z.of_nat n) ≫= mixed_events) = (3 * n)%nat.
Proof.
  revert i. induction n as [|n IH]; intros i; [done|]. rewrite (seqZ_cons i) by lia. rewrite bind_cons, length_app.
  replace (Z.pred (Z.of_nat (S n))) with (Z.of_nat n) by lia. rewrite IH. simpl. lia.
Qed.

Lemma make_mixed_stream_events cycles :
  3 * Z.of_nat cycles < two63 → make_mixed_stream cycles = Ret (seqZ 0 (Z.of_nat cycles) ≫= mixed_events).
Proof. intros Hc. unfold make_mixed_stream. by rewrite mixed_loop_events by lia. Qed.

(** *** The feature stream *)

Definition feature_cycle (id ts : Z) : list MarketEvent :=
  [make_event Add id Buy 9995 10 ts; make_event Cancel id Buy 0 0 (ts + 1);
   make_event Modify 1 Buy 10000 1000 (ts + 2); make_event Modify 2 Sell 10005 1000 (ts + 3)].

Fixpoint feature_events (cycles : nat) (id ts : Z) : list MarketEvent :=
  match cycles with
  | O => []
  | S cycles => feature_cycle id ts ++ feature_events cycles (id + 1) (ts + 4)
  end.

Lemma feature_loop_events n id ts acc :
  0 ≤ id → id + Z.of_nat n < two64 → 0 ≤ ts → ts + 4 * Z.of_nat n < two63 →
  feature_loop n id ts acc = Ret (acc ++ feature_events n id ts).
Proof.
  revert id ts acc. induction n as [|n IH]; intros id ts acc Hid Hidn Hts Htsn; cbn [feature_loop feature_events];
    [by rewrite app_nil_r|].
  rewrite (add_i64_small ts 1) by lia. cbn [mbind Exec_bind].
  rewrite (add_i64_small (ts + 1) 1) by lia. cbn [mbind Exec_bind].
  rewrite (add_i64_small (ts + 1 + 1) 1) by lia. cbn [mbind Exec_bind].
  rewrite (add_i64_small (ts + 1 + 1 + 1) 1) by lia. cbn [mbind Exec_bind].
  rewrite add64_small by lia. rewrite IH by lia. rewrite <-app_assoc.
  replace (ts + 1 + 1 + 1 + 1) with (ts + 4) by lia. replace (ts + 1 + 1 + 1) with (ts + 3) by lia.
  by replace (ts + 1 + 1) with (ts + 2) by lia.
Qed.

(** The two orders that stay. *)
Definition feature_orders : list SpecOrder :=
  [event_order (make_event Add 1 Buy 10000 1000 0); event_order (make_event Add 2 Sell 10005 1000 1)].

Lemma feature_cycle_run id ts ev :
  id ≠ 1 → id ≠ 2 → is_u64 ev →
  runs_to None (feature_cycle id ts) (MkSpecBook feature_orders ev) (MkSpecBook feature_orders (wrap64 (ev + 4))).
Proof.
  intros H1 H2 Hev.
  assert (find_order (MkOrderId id) feature_orders = None) as Hnone.
  { apply find_order_None. unfold feature_orders. simpl. rewrite !not_elem_of_cons.
    split_and!; [congruence|congruence|apply not_elem_of_nil]. }
  assert (∀ o, so_id o = MkOrderId id → find_order (MkOrderId id) (feature_orders ++ [o]) = Some o) as Hlast.
  { intros o Ho. unfold find_order in *. rewrite filter_app. rewrite head_None in Hnone. rewrite Hnone.
    by rewrite filter_cons, decide_True. }
  eapply runs_to_cons; [|eapply runs_to_cons; [|eapply runs_to_cons; [|eapply runs_to_cons; [|done]]]].
  - unfold spec_apply, spec_add. cbn [make_event ev_type event_order so_quantity units ev_quantity sb_orders so_id ev_order_id].
    rewrite decide_False by done. rewrite Hnone. rewrite decide_False by (by intros []). reflexivity.
  - unfold spec_apply, spec_cancel. cbn [make_event ev_type ev_order_id accept snd sb_orders].
    rewrite Hlast by done. unfold accept. cbn [sb_orders sb_events]. unfold remove_order. rewrite filter_app.
    rewrite filter_all.
    + rewrite filter_cons, decide_False by (intros Hn; by apply Hn). rewrite filter_nil, app_nil_r. reflexivity.
    + unfold feature_orders, has_id. rewrite !Forall_cons.
      split_and!; [intros [= ?]; congruence..|apply Forall_nil_2].
  - unfold spec_apply, spec_modify. reflexivity.
  - transitivity (Applied, MkSpecBook feature_orders (add64 (add64 (add64 (add64 ev 1) 1) 1) 1)); [reflexivity|].
    unfold add64. rewrite (wrap64_add_l (ev + 1) 1), (wrap64_add_l (ev + 1 + 1) 1), (wrap64_add_l (ev + 1 + 1 + 1) 1).
    by replace (ev + 1 + 1 + 1 + 1) with (ev + 4) by lia.
Qed.

Lemma feature_events_run n id ts ev :
  3 ≤ id → is_u64 ev →
  runs_to None (feature_events n id ts) (MkSpecBook feature_orders ev)
    (MkSpecBook feature_orders (wrap64 (ev + 4 * Z.of_nat n))).
Proof.
  revert id ts ev. induction n as [|n IH]; intros id ts ev Hid Hev; cbn [feature_events].
  { unfold runs_to. simpl. by rewrite Z.add_0_r, wrap64_small. }
  eapply runs_to_app; [apply feature_cycle_run; [lia|lia|done]|].
  replace (wrap64 (ev + 4 * Z.of_nat (S n))) with (wrap64 (wrap64 (ev + 4) + 4 * Z.of_nat n))
    by (rewrite wrap64_add_l; f_equal; lia).
  apply IH; [lia|apply wrap64_range].
Qed.

Lemma feature_events_wf n id ts :
  0 ≤ ts → ts + 4 * Z.of_nat n < two63 →
  quantities_wf (feature_events n id ts) ∧ Forall timestamp_ok (feature_events n id ts).
Proof.
  revert id ts. induction n as [|n IH]; intros id ts Hts Htsn; cbn [feature_events]; [split; constructor|].
  destruct (IH (id + 1) (ts + 4)) as [Hq Ht]; [lia|lia|]. split; apply Forall_app; split; try done.
  - repeat (constructor; [by split|]). constructor.
  - unfold feature_cycle, timestamp_ok. simpl. repeat (apply Forall_cons; split; [simpl; lia|]). apply Forall_nil_2.
Qed.

(** The stream of [make_feature_stream]. *)
Definition feature_stream (cycles : nat) : list MarketEvent :=
  [make_event Add 1 Buy 10000 1000 0; make_event Add 2 Sell 10005 1000 1] ++ feature_events cycles 3 2.

Lemma make_feature_stream_events cycles :
  3 + 4 * Z.of_nat cycles < two63 →
  make_feature_stream cycles = Ret (feature_stream cycles) ∧
  quantities_wf (feature_stream cycles) ∧ Forall timestamp_ok (feature_stream cycles) ∧
  runs_to None (feature_stream cycles) spec_empty
    (MkSpecBook feature_orders (wrap64 (2 + 4 * Z.of_nat cycles))).
Proof.
  intros Hc. destruct (feature_events_wf cycles 3 2) as [Hq Ht]; [lia|lia|]. split_and!.
  - unfold make_feature_stream. rewrite feature_loop_events; [done|lia|unfold two63, two64 in *; lia|lia|lia].
  - apply Forall_app. split; [|done]. repeat (constructor; [by split|]). constructor.
  - apply Forall_app. split; [|done]. unfold timestamp_ok, two63. simpl.
    repeat (apply Forall_cons; split; [simpl; lia|]). apply Forall_nil_2.
  - eapply runs_to_app; [|apply feature_events_run; [lia|by split]].
    unfold runs_to. vm_compute. reflexivity.
Qed.

(** Applying and monitoring a stream with representable time stamps. *)
Lemma observe_loop_applied `{HL : OrderBookLaws B capacity rep} message cfg es0 es (b : B) s s' m :
  quantities_wf es → timestamps_close (es0 ++ es) → rep b s → runs_to capacity es s s' → stream_inv cfg es0 m →
  ∃ b' m', observe_loop message es b m = Ret ([], (b', m')) ∧ rep b' s' ∧ stream_inv cfg (es0 ++ es) m'.
Proof.
  intros Hes. revert es0 b s m. induction Hes as [|e es He _ IH]; intros es0 b s m Hts Hb Hr Hm.
  { unfold runs_to in Hr. injection Hr as <-. rewrite app_nil_r. by exists b, m. }
  destruct (law_apply e b s He Hb) as (b1 & Ha & Hb1). apply runs_to_inv in Hr as [H1 Hr].
  cbn [observe_loop]. rewrite Ha, H1. cbn [mbind Exec_bind].
  rewrite decide_False by (intros Hn; by apply Hn).
  rewrite cons_middle, app_assoc in Hts |- *.
  destruct (observe_step cfg es0 e b1 m) as (out & m1 & Ho & Hm1); [by apply timestamps_close_prefix in Hts|done|].
  rewrite Ho. cbn [mbind Exec_bind].
  by apply (IH (es0 ++ [e]) b1 (spec_apply capacity e s).2 m1).
Qed.

Lemma reset_inv cfg es m : stream_inv cfg es m → stream_inv cfg [] (AnomalyMonitor.reset m).
Proof.
  intros (Hc & _ & _). split_and!; [exact Hc| |by intros _ _ _].
  unfold windows_from, AnomalyMonitor.reset, FeatureExtractor.reset. simpl. split_and!; constructor.
Qed.

(** ** The CSV fixture *)

Definition fixture_event (i : Z) : MarketEvent :=
  MkEvent Add (MkTimestamp (to_i64 (add64 100000000 i))) (MkOrderId (add64 i 1))
    (if i mod 2 =? 0 then Buy else Sell)
    (MkPrice (if i mod 2 =? 0 then to_i64 (10000 - i mod 64) else to_i64 (10025 + i mod 64))) (MkQuantity 100).

Abbreviation fixture_events := (numbered fixture_event).

Lemma fixture_row_format i : fixture_row i = format_row (fixture_event i) ++ [newline].
Proof.
  assert (print_decimal 100 = txt "100") as Hq by (vm_compute; reflexivity).
  unfold fixture_row, format_row, format_columns, format_operands, fixture_event. cbn [ev_type ev_side ev_price
    ev_quantity ev_timestamp ev_order_id nanoseconds value ticks units]. rewrite Hq.
  unfold join_columns. destruct (i mod 2 =? 0); do 4 (rewrite <-?app_assoc; simpl); done.
Qed.

Lemma fixture_loop_format rows i output :
  fixture_loop rows i output = output ++ mjoin ((λ e, format_row e ++ [newline]) <$> fixture_events rows i).
Proof.
  revert i output. induction rows as [|rows IH]; intros i output; [symmetry; apply app_nil_r|].
  cbn [fixture_loop numbered].
  rewrite IH, fixture_row_format, fmap_cons. simpl mjoin. by rewrite !app_assoc.
Qed.

Lemma write_csv_fixture_content temp rows : (write_csv_fixture temp rows).2 = format_file (fixture_events rows 0).
Proof.
  unfold write_csv_fixture, format_file. cbn [snd]. rewrite fixture_loop_format.
  change (txt "timestamp_ns,event_type,order_id,side,price,quantity") with CsvParser.kExpectedHeader.
  by rewrite <-app_assoc.
Qed.

Lemma fixture_events_wf rows i : Forall event_wf (fixture_events rows i).
Proof.
  apply numbered_Forall. clear i. intros i. unfold fixture_event.
  split; cbn [ev_timestamp ev_order_id ev_price ev_quantity nanoseconds value ticks].
  - apply to_i64_range.
  - apply wrap64_range.
  - destruct (i mod 2 =? 0); apply to_i64_range.
  - by split.
Qed.

Lemma fixture_events_adds rows i :
  Forall (λ e, ev_type e = Add ∧ units (ev_quantity e) ≠ 0) (fixture_events rows i).
Proof. by apply numbered_Forall. Qed.

(** The rows read back as the events they were written from. *)
Lemma fixture_feed rows :
  let rs := feed (format_file (fixture_events rows 0)) in
  length rs = rows ∧ omap CsvParser.event rs = fixture_events rows 0 ∧
  Forall (λ r, CsvParser.status r = CsvParser.Event ∧ is_Some (CsvParser.event r)) rs.
Proof.
  intros rs. subst rs. rewrite feed_format_file by apply fixture_events_wf. split_and!.
  - rewrite length_imap. apply numbered_length.
  - pose proof (fixture_events_adds rows 0) as Ha. revert Ha. generalize (fixture_events rows 0) as es.
    intros es Ha. generalize 2 as k. induction Ha as [|e es [He _] _ IH]; intros k; [done|].
    rewrite imap_cons. simpl. unfold canonical at 1. rewrite He. f_equal.
    rewrite <-(IH (k + 1)) at 2. f_equal. apply imap_ext. intros i x _. simpl. do 2 f_equal. lia.
  - apply Forall_forall. intros r (i & e & -> & _)%elem_of_lookup_imap_1. simpl. eauto.
Qed.

(** ** The benchmark bodies on a lawful book *)
Section bodies.
Context `{HL : OrderBookLaws B capacity rep}.

(** What [iterations] of a body that always goes through leave. *)
Lemma run_benchmark_rep (body : B → option (Exec (list text * B))) iterations b s s' :
  (∀ b s, rep b s → ∃ b', body b = Some (Ret ([], b')) ∧ rep b' s') → rep b s → iterations ≠ 0%nat →
  ∃ b', run_benchmark iterations body b = Some (Ret ([], b')) ∧ rep b' s'.
Proof using HL.
  intros Hbody Hb Hi.
  destruct (run_benchmark_clean (λ b, ∃ s, rep b s) (λ b, rep b s') body iterations b) as (b' & Hr & Hq);
    [by intros b0 [s0 ?]; apply (Hbody b0 s0)|by eauto|by eauto|]. exists b'. by rewrite decide_False in Hq.
Qed.

Lemma stream_applied message cycles b s :
  cycles = 0%nat ∨ room capacity 1 → 3 * Z.of_nat cycles < two63 → rep b s →
  ∃ b', apply_loop message (seqZ 0 (Z.of_nat cycles) ≫= mixed_events) (ob_clear b) = Ret ([], b') ∧
        rep b' (MkSpecBook [] (3 * Z.of_nat cycles)).
Proof using HL.
  intros Hroom Hc Hb. eapply apply_loop_applied; [apply mixed_stream_wf|by eapply law_clear|].
  pose proof (mixed_stream_run capacity cycles 0 0 Hroom ltac:(done)) as Hr.
  rewrite wrap64_small in Hr by (unfold is_u64, two63, two64 in *; lia). exact Hr.
Qed.

Lemma stream_benchmark_applied message cycles iterations b s :
  cycles = 0%nat ∨ room capacity 1 → 3 * Z.of_nat cycles < two63 → rep b s → iterations ≠ 0%nat →
  ∃ b', stream_benchmark message cycles iterations b = Some (Ret ([], b')) ∧
        rep b' (MkSpecBook [] (3 * Z.of_nat cycles)).
Proof using HL.
  intros Hroom Hc Hb Hi. unfold stream_benchmark. rewrite make_mixed_stream_events by done.
  eapply run_benchmark_rep; [|done|done]. intros b0 s0 Hb0.
  destruct (stream_applied message cycles b0 s0 Hroom Hc Hb0) as (b' & -> & ?). eauto.
Qed.

(** The orders of [n] adds. *)
Definition batch_orders (side : Side) (base : Z) (n : nat) : list SpecOrder :=
  event_order <$> add_events side base n 0.

Lemma batch_orders_ids side base n :
  Z.of_nat n < two64 → so_id <$> batch_orders side base n = MkOrderId <$> seqZ 1 (Z.of_nat n).
Proof.
  intros Hn. unfold batch_orders. rewrite <-list_fmap_compose.
  change (so_id ∘ event_order) with ev_order_id. by rewrite numbered_ids by (done || lia).
Qed.

Lemma order_ids_NoDup a n : NoDup (MkOrderId <$> seqZ a n).
Proof. apply NoDup_fmap_2; [by intros x y [= ?]|apply NoDup_seqZ]. Qed.

Lemma adds_applied message side base n (b : B) s add :
  (∀ id sd p q ts b, add id sd p q ts b = ob_apply (MkEvent Add ts id sd p q) b) →
  Z.of_nat n < two64 → room capacity n → rep b s →
  ∃ b', add_loop add side base message n 0 (ob_clear b) = Ret ([], b') ∧
        rep b' (MkSpecBook (batch_orders side base n) (Z.of_nat n)).
Proof using HL.
  intros Hadd Hn Hroom Hb. rewrite add_loop_apply by done.
  destruct (add_events_adds side base n 0) as [Hadds Hwf].
  eapply apply_loop_applied; [done|by eapply law_clear|].
  pose proof (runs_to_adds capacity (add_events side base n 0) [] 0 Hadds) as Hr.
  rewrite numbered_length, wrap64_small in Hr by (unfold is_u64; lia).
  apply Hr; [|done|done]. simpl. rewrite numbered_ids by (done || lia). apply order_ids_NoDup.
Qed.

Lemma cancels_applied message side base n (b : B) cancel :
  (∀ id ts sd p q b, cancel id b = ob_apply (MkEvent Cancel ts id sd p q) b) →
  Z.of_nat n < two64 → rep b (MkSpecBook (batch_orders side base n) (Z.of_nat n)) →
  ∃ b', cancel_loop cancel message n 0 b = Ret ([], b') ∧ rep b' (MkSpecBook [] (wrap64 (2 * Z.of_nat n))).
Proof using HL.
  intros Hc Hn Hb. rewrite cancel_loop_apply by done.
  destruct (cancel_events_cancels n 0) as [Hcs Hwf].
  eapply apply_loop_applied; [done|exact Hb|].
  pose proof (runs_to_cancels capacity (cancel_events n 0) (batch_orders side base n) (Z.of_nat n) Hcs) as Hr.
  rewrite numbered_length in Hr. replace (2 * Z.of_nat n) with (Z.of_nat n + Z.of_nat n) by lia.
  apply Hr; [| |unfold is_u64; lia]; rewrite batch_orders_ids by done; [|apply order_ids_NoDup].
  by rewrite numbered_ids by (done || lia).
Qed.

Lemma add_benchmark_applied message n iterations (b : B) s add :
  (∀ id sd p q ts b, add id sd p q ts b = ob_apply (MkEvent Add ts id sd p q) b) →
  Z.of_nat n < two64 → room capacity n → iterations ≠ 0%nat → rep b s →
  ∃ b', run_benchmark iterations (λ b, Some (add_iteration add message n b)) b = Some (Ret ([], b')) ∧
        rep b' (MkSpecBook (batch_orders Buy 10000 n) (Z.of_nat n)).
Proof using HL.
  intros Hadd Hn Hroom Hi Hb. eapply run_benchmark_rep; [|done|done]. intros b0 s0 Hb0. unfold add_iteration.
  destruct (adds_applied message Buy 10000 n b0 s0 add Hadd Hn Hroom Hb0) as (b' & -> & ?). eauto.
Qed.

Lemma cancel_benchmark_applied setup message n iterations (b : B) s add cancel :
  (∀ id sd p q ts b, add id sd p q ts b = ob_apply (MkEvent Add ts id sd p q) b) →
  (∀ id ts sd p q b, cancel id b = ob_apply (MkEvent Cancel ts id sd p q) b) →
  Z.of_nat n < two64 → room capacity n → iterations ≠ 0%nat → rep b s →
  ∃ b', run_benchmark iterations (λ b, Some (cancel_iteration add cancel setup message n b)) b
        = Some (Ret ([], b')) ∧ rep b' (MkSpecBook [] (wrap64 (2 * Z.of_nat n))).
Proof using HL.
  intros Hadd Hcancel Hn Hroom Hi Hb. eapply run_benchmark_rep; [|done|done]. intros b0 s0 Hb0.
  unfold cancel_iteration.
  destruct (adds_applied setup Sell 10100 n b0 s0 add Hadd Hn Hroom Hb0) as (b1 & -> & Hb1). cbn [mbind Exec_bind].
  destruct (cancels_applied message Sell 10100 n b1 cancel Hcancel Hn Hb1) as (b' & -> & ?). eauto.
Qed.

Lemma parse_apply_applied message files temp rows (b : B) s :
  Z.of_nat rows < two64 → room capacity rows → rep b s →
  let fixture := write_csv_fixture temp rows in
  ∃ b', parse_apply message (with_fixture files fixture) fixture.1 b = Some (Ret ([], b')) ∧
        rep b' (MkSpecBook (event_order <$> fixture_events rows 0) (Z.of_nat rows)).
Proof using HL.
  intros Hn Hroom Hb fixture. unfold parse_apply.
  assert (with_fixture files fixture fixture.1 = Some (format_file (fixture_events rows 0))) as Hf.
  { unfold with_fixture. rewrite decide_True by done. by rewrite <-(write_csv_fixture_content temp). }
  pose proof (open_reads _ _ _ Hf) as Hreads. destruct (fixture_feed rows) as (_ & Hevs & Hall).
  pose proof (feed_length (format_file (fixture_events rows 0))) as Hlen.
  assert (CsvParser.input_ (CsvParser.open (with_fixture files fixture) fixture.1)
          = Some (format_file (fixture_events rows 0))) as Hin by (unfold CsvParser.open; by rewrite Hf).
  unfold CsvParser.is_open. rewrite Hin. rewrite bool_decide_true by eauto. cbn [negb default].
  rewrite (parse_apply_events message _ _ _ (ob_clear b) Hreads); [|exact (le_n_S _ _ Hlen)|done].
  rewrite Hevs. destruct (apply_loop_applied message (fixture_events rows 0) (ob_clear b) spec_empty
    (MkSpecBook (event_order <$> fixture_events rows 0) (Z.of_nat rows))) as (b' & -> & ?).
  - eapply Forall_impl; [apply fixture_events_wf|]. by intros e [].
  - by eapply law_clear.
  - pose proof (runs_to_adds capacity (fixture_events rows 0) [] 0 (fixture_events_adds rows 0)) as Hr.
    rewrite numbered_length, wrap64_small in Hr by (unfold is_u64; lia).
    apply Hr; [|done|done]. simpl. rewrite numbered_ids by (done || lia). apply order_ids_NoDup.
  - eauto.
Qed.

Lemma csv_benchmark_applied message files temp rows iterations (b : B) s :
  Z.of_nat rows < two64 → room capacity rows → iterations ≠ 0%nat → rep b s →
  ∃ b', csv_benchmark message files temp rows iterations b = Some (Ret ([], b')) ∧
        rep b' (MkSpecBook (event_order <$> fixture_events rows 0) (Z.of_nat rows)).
Proof using HL.
  intros Hn Hroom Hi Hb. eapply run_benchmark_rep; [|done|done]. intros b0 s0 Hb0.
  by apply (parse_apply_applied message files temp rows b0 s0).
Qed.

End bodies.

(** The feature stream is one event per nanosecond. *)
Lemma feature_events_times n id ts :
  nanoseconds ∘ ev_timestamp <$> feature_events n id ts = seqZ ts (4 * Z.of_nat n).
Proof.
  revert id ts. induction n as [|n IH]; intros id ts; [done|]. cbn [feature_events]. rewrite fmap_app, IH.
  replace (4 * Z.of_nat (S n)) with (4 + 4 * Z.of_nat n) by lia. rewrite (seqZ_app _ 4) by lia. f_equal.
  do 4 (rewrite seqZ_cons by lia). unfold Z.succ. rewrite <-!(Z.add_assoc ts). done.
Qed.

Lemma feature_stream_ordered cycles : time_ordered (feature_stream cycles).
Proof.
  assert (nanoseconds ∘ ev_timestamp <$> feature_stream cycles = seqZ 0 (2 + 4 * Z.of_nat cycles)) as Ht.
  { unfold feature_stream. rewrite fmap_app, feature_events_times, (seqZ_app _ 2) by lia. done. }
  unfold time_ordered. revert Ht. generalize (2 + 4 * Z.of_nat cycles) as m. generalize 0 as t.
  induction (feature_stream cycles) as [|e es IH]; intros t m Ht; constructor.
  - destruct (decide (0 < m)); [|by rewrite seqZ_nil in Ht by lia]. rewrite seqZ_cons in Ht by lia.
    rewrite fmap_cons in Ht. injection Ht as _ Ht. by eapply IH.
  - destruct (decide (0 < m)); [|by rewrite seqZ_nil in Ht by lia]. rewrite seqZ_cons in Ht by lia.
    rewrite fmap_cons in Ht. injection Ht as He Ht. apply Forall_forall. intros e' He'.
    assert (nanoseconds (ev_timestamp e') ∈ seqZ (Z.succ t) (Z.pred m)) as Hin
      by (rewrite <-Ht; apply (list_elem_of_fmap_2 (nanoseconds ∘ ev_timestamp)), He').
    apply elem_of_seqZ in Hin. simpl in He. lia.
Qed.
