(* ===== verification/BenchmarkProperties.v ===== *)
(** * Properties of the benchmark programs

    What each benchmark measures is what it means to measure: no iteration is
    skipped with an error, nothing undefined happens, and the books end in the
    state the generated events lead to, for every batch size that fits the
    integer types of the generators. *)
From S2P Require Import Prelude CoreTypes Text BookTypes BookSpec Book PooledBook CsvParser CsvLaws.
From S2P Require Import BookRefinement BookValidation PooledRefinement PooledValidation.
From S2P Require Import SpscRingBuffer SpscConcurrent QueuedReplay QueuedLaws AnomalyDetector AnomalyLaws Benchmarks BenchmarkLaws.
Import Benchmarks.
#[local] Open Scope Z_scope.

Lemma pool_of_nat n :
  Z.of_nat n < two64 →
  PooledRefinement.represents n (PooledLimitOrderBook.make_book (Z.of_nat n)) spec_empty.
Proof. intros Hn. rewrite <-(Nat2Z.id n) at 1. apply make_book_represents. split; lia. Qed.

Lemma room_of_pool n : room (Some n) n.
Proof. simpl. lia. Qed.

Lemma room_of_cycles n : n = 0%nat ∨ room (Some n) 1.
Proof. simpl. lia. Qed.

(** C33: the mixed stream benchmarks.  For fewer than 2^63 / 3 cycles the
    generator stays within its signed time stamps, every one of its [3 cycles]
    events is applied in every iteration, by the baseline, by the pooled book
    with one node per cycle, in the direct replay, and in the queued one
    whatever the interleaving; the book ends empty. *)
Theorem mixed_stream_applies cycles iterations :
  3 * Z.of_nat cycles < two63 → iterations ≠ 0%nat →
  let final := MkSpecBook [] (3 * Z.of_nat cycles) in
  (∃ b, BM_BaselineMixedAddCancelExecuteStream cycles iterations = Some (Ret ([], b)) ∧
        BookRefinement.represents b final) ∧
  (∃ b, BM_PooledMixedAddCancelExecuteStream cycles iterations = Some (Ret ([], b)) ∧
        PooledRefinement.represents cycles b final) ∧
  (∃ b, BM_DirectReplayInMemory cycles iterations = Some (Ret ([], b)) ∧ BookRefinement.represents b final) ∧
  (∃ events, make_mixed_stream cycles = Ret events ∧ length events = (3 * cycles)%nat ∧
     ∀ p, QueuedReplay.reachable 1024 events LimitOrderBook.empty_book p → QueuedReplay.finished events p →
          QueuedReplay.failed p = false ∧ BookRefinement.represents (QueuedReplay.book p) final).
Proof.
  intros Hc Hi final. split_and!.
  - apply (stream_benchmark_applied (HL:=LimitOrderBook_laws) _ _ _ _ spec_empty); try done; [by right|].
    apply empty_book_represents.
  - apply (stream_benchmark_applied (HL:=PooledLimitOrderBook_laws cycles) _ _ _ _ spec_empty); try done;
      [apply room_of_cycles|]. apply pool_of_nat. unfold two63, two64 in *. lia.
  - apply (stream_benchmark_applied (HL:=LimitOrderBook_laws) _ _ _ _ spec_empty); try done; [by right|].
    apply empty_book_represents.
  - rewrite make_mixed_stream_events by done. eexists. split; [done|].
    split; [apply mixed_stream_length|]. intros p Hr Hf.
    pose proof (mixed_stream_run None cycles 0 0 (or_intror I) ltac:(done)) as Hrun. unfold runs_to in Hrun.
    assert (ring_capacity 1024) as Hcap by by exists 10.
    pose proof (reachable_ok (HL:=LimitOrderBook_laws) 1024 _ Hcap (mixed_stream_wf cycles 0)
      LimitOrderBook.empty_book spec_empty p empty_book_represents Hr) as Hok.
    destruct (finished_accounts 1024 _ p Hok Hf) as (_ & Hrep & Hfail).
    change (MkSpecBook [] 0) with spec_empty in Hrun. rewrite Hrun in Hrep, Hfail.
    rewrite wrap64_small in Hrep by (unfold is_u64, two63, two64 in *; lia). split; [|exact Hrep].
    rewrite Hfail. unfold some_rejected. apply bool_decide_eq_false. rewrite Exists_exists.
    intros (r & [-> _]%elem_of_replicate & Hn). by apply Hn.
Qed.

Lemma mixed_stream_applies_witness :
  ∃ b, BM_PooledMixedAddCancelExecuteStream 3 2 = Some (Ret ([], b)) ∧
       PooledRefinement.represents 3 b (MkSpecBook [] 9).
Proof. exact (proj1 (proj2 (mixed_stream_applies 3 2 eq_refl ltac:(done)))). Defined.

(** C34: the hot path benchmarks.  Every add of a batch is applied and rests,
    in the baseline and in a pool of exactly the batch size; every cancel of
    the batch is applied after that, in the order of the adds, and the book
    ends empty with two events per order counted. *)
Theorem hot_paths_applied batch_size iterations :
  Z.of_nat batch_size < two64 → iterations ≠ 0%nat →
  let filled := MkSpecBook (batch_orders Buy 10000 batch_size) (Z.of_nat batch_size) in
  let emptied := MkSpecBook [] (wrap64 (2 * Z.of_nat batch_size)) in
  (∃ b, BM_BaselineAddOrderHotPath batch_size iterations = Some (Ret ([], b)) ∧
        BookRefinement.represents b filled) ∧
  (∃ b, BM_PooledAddOrderHotPath batch_size iterations = Some (Ret ([], b)) ∧
        PooledRefinement.represents batch_size b filled) ∧
  (∃ b, BM_BaselineCancelOrderHotPath batch_size iterations = Some (Ret ([], b)) ∧
        BookRefinement.represents b emptied) ∧
  (∃ b, BM_PooledCancelOrderHotPath batch_size iterations = Some (Ret ([], b)) ∧
        PooledRefinement.represents batch_size b emptied).
Proof.
  intros Hn Hi filled emptied. pose proof (pool_of_nat batch_size Hn) as Hp.
  pose proof empty_book_represents as He. pose proof (room_of_pool batch_size) as Hr. split_and!.
  - by apply (add_benchmark_applied (HL:=LimitOrderBook_laws) _ _ _ _ spec_empty).
  - by apply (add_benchmark_applied (HL:=PooledLimitOrderBook_laws batch_size) _ _ _ _ spec_empty).
  - by apply (cancel_benchmark_applied (HL:=LimitOrderBook_laws) _ _ _ _ _ spec_empty).
  - by apply (cancel_benchmark_applied (HL:=PooledLimitOrderBook_laws batch_size) _ _ _ _ _ spec_empty).
Qed.

Lemma hot_paths_applied_witness :
  ∃ b, BM_PooledCancelOrderHotPath 3 2 = Some (Ret ([], b)) ∧ PooledRefinement.represents 3 b (MkSpecBook [] 6).
Proof. exact (proj2 (proj2 (proj2 (hot_paths_applied 3 2 eq_refl ltac:(done))))). Defined.

(** C32: the CSV benchmarks.  The fixture [write_csv_fixture] writes is the
    file of its rows' events, the parser reads it back as exactly those events
    with no malformed row, each is applied, and the book ends with one resting
    order per row, in the order of the rows, with distinct ids; by the baseline
    and by a pool with one node per row, whatever other files there are. *)
Theorem csv_fixture_applied files temp rows iterations :
  Z.of_nat rows < two64 → iterations ≠ 0%nat →
  let events := fixture_events rows 0 in
  let final := MkSpecBook (event_order <$> events) (Z.of_nat rows) in
  (write_csv_fixture temp rows).2 = format_file events ∧
  omap CsvParser.event (feed (write_csv_fixture temp rows).2) = events ∧
  (ev_order_id <$> events) = MkOrderId <$> seqZ 1 (Z.of_nat rows) ∧
  (∃ b, BM_BaselineCsvParseApply files temp rows iterations = Some (Ret ([], b)) ∧
        BookRefinement.represents b final) ∧
  (∃ b, BM_PooledCsvParseApply files temp rows iterations = Some (Ret ([], b)) ∧
        PooledRefinement.represents rows b final).
Proof.
  intros Hn Hi events final. pose proof (pool_of_nat rows Hn) as Hp. pose proof empty_book_represents as He.
  pose proof (room_of_pool rows) as Hr. split_and!.
  - apply write_csv_fixture_content.
  - rewrite write_csv_fixture_content. apply fixture_feed.
  - unfold events. by rewrite numbered_ids by (done || lia).
  - by apply (csv_benchmark_applied (HL:=LimitOrderBook_laws) _ _ _ _ _ _ spec_empty).
  - by apply (csv_benchmark_applied (HL:=PooledLimitOrderBook_laws rows) _ _ _ _ _ _ spec_empty).
Qed.

Lemma csv_fixture_applied_witness :
  ∃ b, BM_PooledCsvParseApply (λ _, None) (txt "/tmp") 3 2 = Some (Ret ([], b)) ∧
       PooledRefinement.represents 3 b (MkSpecBook (event_order <$> fixture_events 3 0) 3).
Proof.
  exact (proj2 (proj2 (proj2 (proj2 (csv_fixture_applied (λ _, None) (txt "/tmp") 3 2 eq_refl ltac:(done)))))).
Defined.

(** C35: the feature benchmark.  For fewer than 2^61 cycles the generator
    stays within its signed time stamps, every event is applied and every
    [observe] returns; afterwards the two anchor orders rest, unchanged by the
    modifies to their own quantity, and the monitor's windows hold exactly the
    recent events of the stream, as if it were new in each iteration. *)
Theorem feature_stream_applied cycles iterations :
  3 + 4 * Z.of_nat cycles < two63 → iterations ≠ 0%nat →
  ∃ events b m, make_feature_stream cycles = Ret events ∧ length events = (2 + 4 * cycles)%nat ∧
    BM_FeatureExtractionAnomalyScoring cycles iterations = Some (Ret ([], (b, m))) ∧
    BookRefinement.represents b
      (MkSpecBook (event_order <$> [make_event Add 1 Buy 10000 1000 0; make_event Add 2 Sell 10005 1000 1])
        (2 + 4 * Z.of_nat cycles)) ∧
    windows_exact events (AnomalyMonitor.extractor_ m).
Proof.
  intros Hc Hi. destruct (make_feature_stream_events cycles Hc) as (Hmk & Hwf & Hts & Hrun).
  rewrite wrap64_small in Hrun by (unfold is_u64, two63, two64 in *; lia).
  destruct (run_benchmark_clean
    (λ s, (∃ s0, BookRefinement.represents s.1 s0) ∧ ∃ es, stream_inv default_config es s.2)
    (λ s, BookRefinement.represents s.1 (MkSpecBook feature_orders (2 + 4 * Z.of_nat cycles)) ∧
          stream_inv default_config (feature_stream cycles) s.2)
    (λ s, Some (observe_loop (txt "feature/anomaly benchmark event was rejected by the book") (feature_stream cycles)
                  (LimitOrderBook.clear s.1) (AnomalyMonitor.reset s.2)))
    iterations (LimitOrderBook.empty_book, AnomalyMonitor.make default_config)) as ([b m] & Hr & Hq).
  - intros [b m] [[s0 Hb] [es Hm]].
    destruct (observe_loop_applied (HL:=LimitOrderBook_laws)
      (txt "feature/anomaly benchmark event was rejected by the book") default_config [] (feature_stream cycles)
      (LimitOrderBook.clear b) spec_empty
      (MkSpecBook feature_orders (2 + 4 * Z.of_nat cycles)) (AnomalyMonitor.reset m) Hwf (timestamps_ok_close _ Hts)) as (b' & m' & Ho & Hb' & Hm');
      [exact (law_clear (OrderBookLaws:=LimitOrderBook_laws) b s0 Hb)|exact Hrun|by eapply reset_inv|].
    exists (b', m'). split; [exact (f_equal Some Ho)|by split].
  - intros [b m] [Hb Hm]. eauto.
  - split; [exists spec_empty; apply empty_book_represents|]. exists []. apply make_inv.
  - rewrite decide_False in Hq by done. destruct Hq as [Hb (Hcfg & _ & Hex)].
    exists (feature_stream cycles), b, m. split_and!; [exact Hmk| | |exact Hb|].
    + rewrite <-(length_fmap (nanoseconds ∘ ev_timestamp)). unfold feature_stream.
      rewrite fmap_app, feature_events_times, length_app, length_seqZ. simpl. lia.
    + unfold BM_FeatureExtractionAnomalyScoring. rewrite Hmk. exact Hr.
    + apply Hex; [by vm_compute..|apply feature_stream_ordered].
Qed.

Lemma feature_stream_applied_witness :
  ∃ events b m, make_feature_stream 2 = Ret events ∧ length events = 10%nat ∧
    BM_FeatureExtractionAnomalyScoring 2 2 = Some (Ret ([], (b, m))) ∧
    BookRefinement.represents b
      (MkSpecBook (event_order <$> [make_event Add 1 Buy 10000 1000 0; make_event Add 2 Sell 10005 1000 1]) 10) ∧
    windows_exact events (AnomalyMonitor.extractor_ m).
Proof. exact (feature_stream_applied 2 2 eq_refl ltac:(done)). Defined.
