(* ===== verification/UnitTests.v ===== *)
(** * The unit tests on the model

    The programs of [tests/], each as the value it computes on the definitions
    of this library: [Ret true] if every [assert] holds.  The kernel evaluates
    them, so the model returns what the repository's own tests say the code
    returns, floating-point scores included.  The test with two threads is a
    theorem about every interleaving. *)
From S2P Require Import Prelude CoreTypes Text BookTypes BookSpec Book PooledBook BookValidation PooledValidation.
From S2P Require Import SpscRingBuffer SpscConcurrent CsvParser Double AnomalyDetector ReplayEngine.
#[local] Open Scope Z_scope.

Module UnitTests.

(** [assert(c)], then the rest. *)
Definition assert (c : bool) (rest : Exec bool) : Exec bool := if c then rest else Ret false.
#[local] Notation "'assert' c ; k" := (assert c k) (at level 10, c at level 100, k at level 200).

Definition passed : Exec bool := Ret true.

Definition event (type : EventType) (id : Z) (side : Side) (price quantity timestamp : Z) : MarketEvent :=
  MkEvent type (MkTimestamp timestamp) (MkOrderId id) side (MkPrice price) (MkQuantity quantity).

Definition is_level (level : option PriceLevelView) (price quantity order_count : Z) : bool :=
  bool_decide (level = Some (MkPriceLevelView (MkPrice price) (MkQuantity quantity) order_count)).

(** ** [test_core_types.cpp] *)

Definition core_types : Exec bool :=
  let e := event Add 42 Buy 10125 250 1000000 in
  assert bool_decide (ticks (ev_price e) = 10125);
  assert bool_decide (units (ev_quantity e) = 250);
  assert bool_decide (value (ev_order_id e) = 42);
  assert bool_decide (nanoseconds (ev_timestamp e) = 1000000);
  assert bool_decide (event_type_to_string (ev_type e) = "add");
  assert bool_decide (side_to_string (ev_side e) = "buy");
  let book := LimitOrderBook.empty_book in
  assert LimitOrderBook.validate_invariants default_invariant_options book;
  assert bool_decide (LimitOrderBook.events_applied book = 0);
  '(result, book) ← LimitOrderBook.apply e book;
  assert bool_decide (result = Applied);
  assert bool_decide (LimitOrderBook.events_applied book = 1);
  assert LimitOrderBook.validate_invariants default_invariant_options book;
  let book := LimitOrderBook.clear book in
  assert bool_decide (LimitOrderBook.events_applied book = 0);
  passed.

(** ** Tests of both books *)
Section books.
Context `{OrderBook B} (book : B).

(** [assert(book.apply(e) == result)] for a list of calls. *)
Fixpoint calls (cs : list (MarketEvent * BookResult)) (b : B) (k : B → Exec bool) : Exec bool :=
  match cs with
  | [] => k b
  | (e, expected) :: cs =>
      '(result, b) ← ob_apply e b;
      assert bool_decide (result = expected);
      calls cs b k
  end.

Definition add (id : Z) (side : Side) (price quantity timestamp : Z) := event Add id side price quantity timestamp.
Definition cancel (id : Z) := event Cancel id Buy 0 0 0.
Definition modify (id quantity : Z) := event Modify id Buy 0 quantity 0.
Definition execute (id quantity : Z) := event Execute id Buy 0 quantity 0.

Definition valid (b : B) : Exec bool := ob_validate_invariants default_invariant_options b.

Definition add_bid_add_ask_updates_top_and_depth : Exec bool :=
  calls [(add 1 Buy 100 10 1, Applied); (add 2 Sell 101 7 2, Applied)] book (λ b,
  let top := ob_top_of_book b in
  assert is_level (tob_bid top) 100 10 1;
  assert is_level (tob_ask top) 101 7 1;
  let depth := ob_depth 4 b in
  assert bool_decide (length (depth_bids depth) = 1%nat);
  assert bool_decide (length (depth_asks depth) = 1%nat);
  assert is_level (depth_bids depth !! 0%nat) 100 10 1;
  assert is_level (depth_asks depth !! 0%nat) 101 7 1;
  assert bool_decide (ob_live_order_count b = 2);
  valid b).

Definition cancel_existing_order_removes_depth : Exec bool :=
  calls [(add 1 Buy 100 10 1, Applied); (add 2 Buy 100 5 2, Applied); (cancel 1, Applied)] book (λ b,
  let depth := ob_depth 1 b in
  assert bool_decide (length (depth_bids depth) = 1%nat);
  assert is_level (depth_bids depth !! 0%nat) 100 5 1;
  ids ← ob_order_ids_at_price Buy (MkPrice 100) b;
  assert bool_decide (ids = [MkOrderId 2]);
  assert bool_decide (ob_live_order_count b = 1);
  valid b).

Definition cancel_missing_order_preserves_state : Exec bool :=
  calls [(add 1 Sell 101 10 1, Applied)] book (λ before,
  calls [(cancel 999, MissingOrderId)] before (λ b,
  assert bool_decide (ob_top_of_book b = ob_top_of_book before);
  assert bool_decide (ob_depth 4 b = ob_depth 4 before);
  assert bool_decide (ob_events_applied b = ob_events_applied before);
  assert bool_decide (ob_live_order_count b = 1);
  valid b)).

Definition partial_execute_reduces_quantity : Exec bool :=
  calls [(add 1 Sell 101 10 1, Applied); (execute 1 4, Applied)] book (λ b,
  assert is_level (tob_ask (ob_top_of_book b)) 101 6 1;
  assert bool_decide (ob_live_order_count b = 1);
  valid b).

Definition full_execute_removes_order_and_empty_level : Exec bool :=
  calls [(add 1 Sell 101 10 1, Applied); (execute 1 10, Applied)] book (λ b,
  assert bool_decide (ob_top_of_book b = MkTopOfBook None None);
  assert bool_decide (depth_asks (ob_depth 1 b) = []);
  assert bool_decide (ob_live_order_count b = 0);
  valid b).

Definition modify_quantity_reduction_preserves_priority : Exec bool :=
  calls [(add 1 Buy 100 10 1, Applied); (add 2 Buy 100 8 2, Applied); (modify 1 6, Applied)] book (λ b,
  let depth := ob_depth 1 b in
  assert bool_decide (length (depth_bids depth) = 1%nat);
  assert is_level (depth_bids depth !! 0%nat) 100 14 2;
  ids ← ob_order_ids_at_price Buy (MkPrice 100) b;
  assert bool_decide (ids = [MkOrderId 1; MkOrderId 2]);
  calls [(modify 1 7, UnsupportedModify)] b valid).

Definition price_time_priority_preserves_fifo_order : Exec bool :=
  calls [(add 1 Buy 100 10 30, Applied); (add 2 Buy 100 10 10, Applied); (add 3 Buy 100 10 20, Applied)] book (λ b,
  ids ← ob_order_ids_at_price Buy (MkPrice 100) b;
  assert bool_decide (ids = [MkOrderId 1; MkOrderId 2; MkOrderId 3]);
  valid b).

Definition crossed_book_invariant_is_configurable : Exec bool :=
  calls [(add 1 Sell 100 10 1, Applied); (add 2 Buy 101 10 2, Applied)] book (λ b,
  ok ← valid b;
  assert negb ok;
  ob_validate_invariants (MkInvariantOptions true) b).

End books.

(** ** [test_limit_order_book.cpp] *)

Definition replayed_events (sixth : MarketEvent) : list MarketEvent :=
  [event Add 1 Buy 100 10 1; event Add 2 Buy 99 5 2; event Add 3 Sell 101 7 3; event Modify 1 Buy 100 6 4;
   event Execute 3 Sell 101 2 5; sixth; event Add 4 Sell 102 4 7].

Definition deterministic_replay_produces_identical_final_state : Exec bool :=
  let events := (λ e, (e, Applied)) <$> replayed_events (event Cancel 2 Buy 99 0 6) in
  calls events LimitOrderBook.empty_book (λ first,
  calls events LimitOrderBook.empty_book (λ second,
  assert bool_decide (ob_top_of_book first = ob_top_of_book second);
  assert bool_decide (ob_depth 8 first = ob_depth 8 second);
  assert bool_decide (ob_events_applied first = ob_events_applied second);
  assert bool_decide (ob_live_order_count first = ob_live_order_count second);
  ids ← ob_order_ids_at_price Buy (MkPrice 100) first;
  ids' ← ob_order_ids_at_price Buy (MkPrice 100) second;
  assert bool_decide (ids = ids');
  ids ← ob_order_ids_at_price Sell (MkPrice 101) first;
  ids' ← ob_order_ids_at_price Sell (MkPrice 101) second;
  assert bool_decide (ids = ids');
  ok ← valid first;
  assert ok;
  valid second)).

Definition limit_order_book : list (Exec bool) :=
  let book := LimitOrderBook.empty_book in
  [add_bid_add_ask_updates_top_and_depth book; cancel_existing_order_removes_depth book;
   cancel_missing_order_preserves_state book; partial_execute_reduces_quantity book;
   full_execute_removes_order_and_empty_level book; modify_quantity_reduction_preserves_priority book;
   price_time_priority_preserves_fifo_order book; deterministic_replay_produces_identical_final_state;
   crossed_book_invariant_is_configurable book].

(** ** [test_pooled_limit_order_book.cpp] *)

Definition pooled_basic_operations_match_baseline : Exec bool :=
  let events := (λ e, (e, Applied)) <$>
    [event Add 1 Buy 100 10 1; event Add 2 Buy 100 8 2; event Add 3 Sell 101 7 3; event Modify 1 Buy 100 6 4;
     event Execute 3 Sell 101 2 5; event Cancel 2 Buy 0 0 6; event Add 4 Sell 102 4 7] in
  calls events LimitOrderBook.empty_book (λ baseline,
  calls events (PooledLimitOrderBook.make_book 8) (λ pooled,
  ok ← valid pooled;
  assert ok;
  assert bool_decide (ob_top_of_book baseline = ob_top_of_book pooled);
  assert bool_decide (ob_depth 8 baseline = ob_depth 8 pooled);
  snapshot ← ob_snapshot baseline;
  snapshot' ← ob_snapshot pooled;
  assert bool_decide (snapshot = snapshot');
  ids ← ob_order_ids_at_price Buy (MkPrice 100) baseline;
  ids' ← ob_order_ids_at_price Buy (MkPrice 100) pooled;
  assert bool_decide (ids = ids');
  ids ← ob_order_ids_at_price Sell (MkPrice 101) baseline;
  ids' ← ob_order_ids_at_price Sell (MkPrice 101) pooled;
  assert bool_decide (ids = ids');
  assert bool_decide (ob_live_order_count baseline = ob_live_order_count pooled);
  passed)).

Definition capacity_exceeded_does_not_mutate_state : Exec bool :=
  calls [(add 1 Buy 100 10 1, Applied)] (PooledLimitOrderBook.make_book 1) (λ before,
  calls [(add 2 Sell 101 5 2, CapacityExceeded)] before (λ b,
  assert bool_decide (ob_top_of_book b = ob_top_of_book before);
  snapshot ← ob_snapshot before;
  snapshot' ← ob_snapshot b;
  assert bool_decide (snapshot = snapshot');
  assert bool_decide (ob_events_applied b = ob_events_applied before);
  assert bool_decide (ob_live_order_count b = 1);
  valid b)).

Definition freed_nodes_are_reused_after_cancel_and_execute : Exec bool :=
  calls [(add 1 Buy 100 10 1, Applied); (cancel 1, Applied); (add 2 Sell 101 5 2, Applied)]
    (PooledLimitOrderBook.make_book 1) (λ cancel_book,
  assert bool_decide (ob_live_order_count cancel_book = 1);
  ok ← valid cancel_book;
  assert ok;
  assert is_level (tob_ask (ob_top_of_book cancel_book)) 101 5 1;
  calls [(add 1 Buy 100 10 1, Applied); (execute 1 10, Applied); (add 2 Sell 101 5 2, Applied)]
    (PooledLimitOrderBook.make_book 1) (λ execute_book,
  assert bool_decide (ob_live_order_count execute_book = 1);
  valid execute_book)).

Definition pooled_limit_order_book : list (Exec bool) :=
  [pooled_basic_operations_match_baseline; capacity_exceeded_does_not_mutate_state;
   freed_nodes_are_reused_after_cancel_and_execute;
   price_time_priority_preserves_fifo_order (PooledLimitOrderBook.make_book 4);
   crossed_book_invariant_is_configurable (PooledLimitOrderBook.make_book 2)].

(** ** [test_csv_parser.cpp] *)

(** A file of lines, each ended. *)
Definition lines (ls : list string) : text := mjoin ((λ l, txt l ++ [newline]) <$> ls).

Definition header : string := "timestamp_ns,event_type,order_id,side,price,quantity".

Definition parser_of (ls : list string) : CsvParser.CsvParser := CsvParser.open (λ _, Some (lines ls)) (txt "fixture.csv").

Definition schema_example : list string :=
  [header; "100000001,ADD,1,B,10025,200"; "100000004,ADD,2,S,10030,100"; "100000009,CANCEL,1,,,";
   "100000012,MODIFY,2,,10030,50"; "100000020,EXECUTE,2,,10030,25"].

(** The next calls of [next] return these events. *)
Fixpoint next_events (expected : list MarketEvent) (p : CsvParser.CsvParser) : Exec bool :=
  let '(result, p) := CsvParser.next p in
  match expected with
  | [] => assert match CsvParser.status result with CsvParser.EndOfFile => true | _ => false end; passed
  | e :: expected =>
      assert match CsvParser.status result with CsvParser.Event => true | _ => false end;
      assert bool_decide (CsvParser.event result = Some e);
      next_events expected p
  end.

(** The next calls of [next] return rows malformed for these reasons. *)
Fixpoint next_messages (expected : list string) (p : CsvParser.CsvParser) : Exec bool :=
  let '(result, p) := CsvParser.next p in
  match expected with
  | [] => assert match CsvParser.status result with CsvParser.EndOfFile => true | _ => false end; passed
  | message :: expected =>
      assert match CsvParser.status result with CsvParser.MalformedRow => true | _ => false end;
      assert bool_decide (CsvParser.message result = txt message);
      next_messages expected p
  end.

Definition parses_schema_example : Exec bool :=
  let parser := parser_of schema_example in
  assert CsvParser.is_open parser;
  next_events [event Add 1 Buy 10025 200 100000001; event Add 2 Sell 10030 100 100000004;
               event Cancel 1 Buy 0 0 100000009; event Modify 2 Buy 10030 50 100000012;
               event Execute 2 Buy 10030 25 100000020] parser.

Definition malformed_rows_are_reported : Exec bool :=
  let '(result, _) := CsvParser.next (parser_of ["timestamp,event_type,order_id,side,price,quantity"; "1,ADD,1,B,100,10"]) in
  assert match CsvParser.status result with CsvParser.MalformedRow => true | _ => false end;
  assert bool_decide (CsvParser.line_number result = 1);
  assert bool_decide (CsvParser.message result = txt "invalid CSV header");
  next_messages ["expected 6 columns"; "invalid timestamp_ns"; "unknown event_type"; "ADD requires side B or S";
                 "ADD requires side B or S"; "CANCEL requires empty side, price, and quantity"]
    (parser_of [header; "1,ADD,1,B,100"; "bad,ADD,1,B,100,10"; "1,UNKNOWN,1,B,100,10"; "1,ADD,1,,100,10";
                "1,ADD,1,X,100,10"; "1,CANCEL,1,,100,"]).

Definition csv_parser : list (Exec bool) := [parses_schema_example; malformed_rows_are_reported].

(** ** [test_replay_engine.cpp] *)

Definition replay (ls : list string) (options : ReplayEngine.ReplayOptions)
    (k : ReplayEngine.ReplayResult → Exec bool) : Exec bool :=
  match ReplayEngine.replay_file (λ _, Some (lines ls)) (txt "fixture.csv") options LimitOrderBook.empty_book with
  | None => Ret false
  | Some outcome => '(_, result) ← outcome; k result
  end.

Definition successful_replay_is_deterministic : Exec bool :=
  let file := schema_example ++ ["100000025,ADD,3,B,10020,10"] in
  replay file ReplayEngine.default_options (λ first,
  replay file ReplayEngine.default_options (λ second,
  assert bool_decide (ReplayEngine.events_processed first = 6);
  assert bool_decide (ReplayEngine.rejected_events first = 0);
  assert negb (ReplayEngine.file_open_failed first);
  assert negb (ReplayEngine.invariant_failed first);
  assert is_level (tob_ask (ReplayEngine.final_top first)) 10030 25 1;
  assert is_level (tob_bid (ReplayEngine.final_top first)) 10020 10 1;
  assert bool_decide (ReplayEngine.final_snapshot first = ReplayEngine.final_snapshot second);
  assert bool_decide (ReplayEngine.final_checksum first = ReplayEngine.final_checksum second);
  assert bool_decide (length (ReplayEngine.format_checksum (ReplayEngine.final_checksum first)) = 18%nat);
  assert bool_decide (ReplayEngine.format_top_of_book (ReplayEngine.final_top first)
                      = txt "bid=10020x10 ask=10030x25");
  passed)).

Definition malformed_rows_are_rejected_and_replay_continues : Exec bool :=
  replay [header; "1,ADD,1,B,100,10"; "2,ADD,2,X,101,10"; "3,ADD,3,S,102,4"] ReplayEngine.default_options (λ result,
  assert bool_decide (ReplayEngine.events_processed result = 2);
  assert bool_decide (ReplayEngine.rejected_events result = 1);
  assert match ReplayEngine.err_type <$> ReplayEngine.errors result with [ReplayEngine.ParseError] => true | _ => false end;
  assert is_level (tob_bid (ReplayEngine.final_top result)) 100 10 1;
  assert is_level (tob_ask (ReplayEngine.final_top result)) 102 4 1;
  passed).

Definition book_rejections_are_rejected_events : Exec bool :=
  replay [header; "1,ADD,1,B,100,10"; "2,CANCEL,999,,,"; "3,EXECUTE,1,,100,4"] ReplayEngine.default_options (λ result,
  assert bool_decide (ReplayEngine.events_processed result = 2);
  assert bool_decide (ReplayEngine.rejected_events result = 1);
  assert match ReplayEngine.err_type <$> ReplayEngine.errors result with [ReplayEngine.ApplyRejected] => true | _ => false end;
  assert is_level (tob_bid (ReplayEngine.final_top result)) 100 6 1;
  passed).

Definition replay_engine : list (Exec bool) :=
  [successful_replay_is_deterministic; malformed_rows_are_rejected_and_replay_continues;
   book_rejections_are_rejected_events].

(** ** [test_anomaly_detection.cpp] *)

Definition sensitive_config (z_score_threshold : Z) : AnomalyConfig :=
  MkConfig 5 10 10 200 (ddiv (of_int 1) (of_int 5)) (of_int z_score_threshold) 5.

Definition contains_reason (anomalies : list AnomalyEvent) (r : string) : bool :=
  existsb (λ anomaly, bool_decide (reason anomaly = r)) anomalies.

Fixpoint run_loop (events : list MarketEvent) (book : LimitOrderBook.LimitOrderBook)
    (monitor : AnomalyMonitor.AnomalyMonitor) (anomalies : list AnomalyEvent) (k : list AnomalyEvent → Exec bool)
    : Exec bool :=
  match events with
  | [] => k anomalies
  | item :: events =>
      '(result, book) ← LimitOrderBook.apply item book;
      assert bool_decide (result = Applied);
      '(emitted, monitor) ← AnomalyMonitor.observe item book monitor;
      run_loop events book monitor (anomalies ++ emitted) k
  end.

Definition run_events (events : list MarketEvent) (config : AnomalyConfig) (k : list AnomalyEvent → Exec bool) :=
  run_loop events LimitOrderBook.empty_book (AnomalyMonitor.make config) [] k.

(** [n] events, the time stamp of the [i]-th [base + step * i]. *)
Definition repeated (n : nat) (base step : Z) (e : Z → MarketEvent) : list MarketEvent :=
  (λ i, e (base + step * Z.of_nat i)) <$> seq 0 n.

(** The prefix leaves [next_id = 3] and [timestamp = 242]. *)
Definition stable_two_sided_prefix : list MarketEvent :=
  [event Add 1 Buy 100 100 0; event Add 2 Sell 101 100 1] ++ repeated 12 22 20 (event Modify 1 Buy 100 100).

Definition normal_market_has_no_anomalies_with_conservative_threshold : Exec bool :=
  run_events (stable_two_sided_prefix ++ repeated 20 262 20 (event Modify 2 Sell 101 100)) (sensitive_config 100)
    (λ anomalies, assert bool_decide (length anomalies = 0%nat); passed).

Definition sudden_spread_widening_is_detected : Exec bool :=
  run_events (stable_two_sided_prefix ++ [event Cancel 2 Sell 0 0 262; event Add 3 Sell 120 100 282])
    (sensitive_config 3) (λ anomalies, assert contains_reason anomalies "spread_widening"; passed).

Definition cancel_burst_is_detected : Exec bool :=
  run_events (event Add 1 Sell 101 100 0 ::
    ((λ i, event Add (2 + i) Buy 100 10 (20 + 20 * i)) <$> seqZ 0 20) ++
    ((λ i, event Cancel (2 + i) Buy 0 0 (1400 + i)) <$> seqZ 0 8))
    (sensitive_config 3) (λ anomalies, assert contains_reason anomalies "cancel_add_ratio_spike"; passed).

Definition message_rate_burst_is_detected : Exec bool :=
  run_events (stable_two_sided_prefix ++ repeated 16 1242 1 (event Modify 1 Buy 100 100))
    (sensitive_config 3) (λ anomalies, assert contains_reason anomalies "message_rate_burst"; passed).

Definition one_sided_depth_collapse_is_detected : Exec bool :=
  run_events (((λ i, event Add (1 + i) Buy 100 100 i) <$> seqZ 0 5) ++ [event Add 6 Sell 101 100 5] ++
    repeated 12 26 20 (event Modify 6 Sell 101 100) ++
    [event Cancel 1 Buy 0 0 266; event Cancel 2 Buy 0 0 267; event Cancel 3 Buy 0 0 268])
    (sensitive_config 3) (λ anomalies, assert contains_reason anomalies "bid_depth_collapse"; passed).

Definition replay_anomaly_option_controls_monitoring : Exec bool :=
  let file := [header; "0,ADD,1,B,100,100"; "1,ADD,2,S,101,100"; "20,MODIFY,1,,100,100"; "40,MODIFY,1,,100,100";
               "60,MODIFY,1,,100,100"; "80,MODIFY,1,,100,100"; "100,MODIFY,1,,100,100"; "120,MODIFY,1,,100,100";
               "140,CANCEL,2,,,"; "160,ADD,3,S,120,100"] in
  replay file ReplayEngine.default_options (λ disabled,
  assert bool_decide (length (ReplayEngine.anomalies disabled) = 0%nat);
  assert bool_decide (length (ReplayEngine.anomaly_reason_counts disabled) = 0%nat);
  replay file (ReplayEngine.MkOptions default_invariant_options true true (sensitive_config 3)) (λ enabled,
  assert bool_decide (length (ReplayEngine.anomalies enabled) ≠ 0%nat);
  assert existsb (λ c, bool_decide (c.1 = "spread_widening")) (ReplayEngine.anomaly_reason_counts enabled);
  passed)).

Definition anomaly_detection : list (Exec bool) :=
  [normal_market_has_no_anomalies_with_conservative_threshold; sudden_spread_widening_is_detected;
   cancel_burst_is_detected; message_rate_burst_is_detected; one_sided_depth_collapse_is_detected;
   replay_anomaly_option_controls_monitoring].

(** ** [test_spsc_ring_buffer.cpp] *)

Definition make_event (order_id : Z) : MarketEvent :=
  event Add order_id Buy (10000 + order_id mod 32) 100 order_id.

Definition with_ring (cap : Z) (k : SpscRingBuffer.SpscRingBuffer → Exec bool) : Exec bool :=
  match SpscRingBuffer.make_ring cap with Some queue => k queue | None => Ret false end.

(** [assert(queue.try_push(make_event(id)))] for each id. *)
Fixpoint pushes (ids : list Z) (queue : SpscRingBuffer.SpscRingBuffer)
    (k : SpscRingBuffer.SpscRingBuffer → Exec bool) : Exec bool :=
  match ids with
  | [] => k queue
  | id :: ids =>
      '(pushed, queue) ← SpscRingBuffer.try_push (make_event id) queue;
      assert pushed;
      pushes ids queue k
  end.

(** [assert(queue.try_pop(out)); assert(out.order_id == id)] for each id. *)
Fixpoint pops (ids : list Z) (queue : SpscRingBuffer.SpscRingBuffer)
    (k : SpscRingBuffer.SpscRingBuffer → Exec bool) : Exec bool :=
  match ids with
  | [] => k queue
  | id :: ids =>
      '(out, queue) ← SpscRingBuffer.try_pop queue;
      assert bool_decide (ev_order_id <$> out = Some (MkOrderId id));
      pops ids queue k
  end.

Definition pop_fails (queue : SpscRingBuffer.SpscRingBuffer) : Exec bool :=
  '(out, _) ← SpscRingBuffer.try_pop queue;
  assert bool_decide (out = None);
  passed.

Definition single_threaded_push_pop_preserves_fifo : Exec bool :=
  with_ring 4 (λ queue,
  assert SpscRingBuffer.empty queue;
  assert bool_decide (SpscRingBuffer.capacity queue = 4);
  pushes [1; 2] queue (λ queue,
  assert bool_decide (SpscRingBuffer.approximate_size queue = 2);
  pops [1; 2] queue (λ queue, assert SpscRingBuffer.empty queue; passed))).

Definition full_queue_returns_false_and_preserves_entries : Exec bool :=
  with_ring 2 (λ queue,
  pushes [1; 2] queue (λ queue,
  assert SpscRingBuffer.full queue;
  '(pushed, queue) ← SpscRingBuffer.try_push (make_event 3) queue;
  assert negb pushed;
  pops [1; 2] queue pop_fails)).

Definition empty_queue_returns_false : Exec bool :=
  with_ring 8 (λ queue, assert SpscRingBuffer.empty queue; pop_fails queue).

Definition wraparound_preserves_order : Exec bool :=
  with_ring 4 (λ queue,
  pushes [1; 2; 3; 4] queue (λ queue,
  pops [1; 2] queue (λ queue,
  pushes [5; 6] queue (λ queue,
  assert SpscRingBuffer.full queue;
  pops [3; 4; 5; 6] queue (λ queue, assert SpscRingBuffer.empty queue; passed))))).

Definition constructor_rejects_invalid_capacity : Exec bool :=
  assert match SpscRingBuffer.make_ring 0 with None => true | Some _ => false end;
  assert match SpscRingBuffer.make_ring 3 with None => true | Some _ => false end;
  passed.

Definition spsc_ring_buffer : list (Exec bool) :=
  [single_threaded_push_pop_preserves_fifo; full_queue_returns_false_and_preserves_entries;
   empty_queue_returns_false; wraparound_preserves_order; constructor_rejects_invalid_capacity].

(** *** The test with two threads *)

Definition mix (hash v : Z) : Z := mul64 (Z.lxor hash v) 1099511628211.

Definition checksum_event (e : MarketEvent) : Z :=
  let hash := mix 14695981039346656037 (wrap64 (nanoseconds (ev_timestamp e))) in
  let hash := mix hash (value (ev_order_id e)) in
  let hash := mix hash (wrap64 (ticks (ev_price e))) in
  mix hash (units (ev_quantity e)).

Definition checksum_events (events : list MarketEvent) : Z :=
  foldl (λ checksum e, Z.lxor checksum (checksum_event e)) 0 events.

Definition kEventCount : Z := 10000.

(** The events the producer pushes. *)
Definition produced : list MarketEvent := make_event <$> seqZ 1 kEventCount.

End UnitTests.

(** Every test without threads passes. *)
Fact unit_tests_pass :
  Forall (λ test, test = Ret true)
    (UnitTests.core_types :: UnitTests.limit_order_book ++ UnitTests.pooled_limit_order_book ++
     UnitTests.csv_parser ++ UnitTests.replay_engine ++ UnitTests.anomaly_detection ++ UnitTests.spsc_ring_buffer).
Proof. vm_compute. repeat constructor. Qed.

(** The smoke test with two threads, in every interleaving: while the producer
    has pushed nothing but its events in order, the k-th event the consumer
    pops has id k + 1; once it has popped as many as there are, the checksums
    agree and nothing is left. *)
Fact threaded_smoke_test_passes s l :
  SpscConcurrent.reachable 64 s → UnitTests.produced = SpscConcurrent.pushed s ++ l →
  (∀ k e, SpscConcurrent.popped s !! k = Some e → ev_order_id e = MkOrderId (Z.of_nat k + 1)) ∧
  (Z.of_nat (length (SpscConcurrent.popped s)) = UnitTests.kEventCount →
     UnitTests.checksum_events (SpscConcurrent.popped s) = UnitTests.checksum_events UnitTests.produced ∧
     SpscConcurrent.popped s = SpscConcurrent.pushed s).
Proof.
  intros Hr Hp. assert (ring_capacity 64) as Hc by by exists 6.
  destruct (inv_popped _ _ (reachable_inv _ _ Hc Hr)) as [l' Hl].
  rewrite Hl, <-app_assoc in Hp. split.
  - intros k e Hk. assert (UnitTests.produced !! k = Some e) as Hk' by (rewrite Hp; by apply lookup_app_l_Some).
    unfold UnitTests.produced in Hk'. apply list_lookup_fmap_Some in Hk' as (i & -> & [-> _]%lookup_seqZ).
    unfold UnitTests.make_event, UnitTests.event. cbn [ev_order_id]. f_equal. lia.
  - intros Hn. apply (f_equal length) in Hp as Hlen. rewrite !length_app in Hlen.
    unfold UnitTests.produced in Hlen. rewrite length_fmap, length_seqZ in Hlen.
    destruct l' as [|e' l']; [|simpl in Hlen; lia]. destruct l as [|e l]; [|simpl in Hlen; lia].
    rewrite Hl, Hp, !app_nil_r. done.
Qed.
